(** * ray-text: the FreeType / HarfBuzz / ICU text engine (RaylibSDFTextEx.cpp)

    A shallow embedding of [FTTextEngineImpl] and of the layout types of
    [text_engine.h], followed by the properties of the layout pipeline, the
    glyph cache and the font registry.

    Conventions of the embedding.
    - [float] values are exact rationals ([Q]): every comparison, constant and
      arithmetic expression is the one of the source; rounding, infinities
      and NaN are not represented.
    - [FontId], [size_t], [uint32_t], [int32_t] values are integers ([Z]);
      where the source narrows to [uint32_t] or [uint16_t] the reduction is
      written out ([u32], [u16]).
    - [std::string] is a list of bytes, [std::u16string] a list of UTF-16
      code units (both [list Z]).
    - FreeType, HarfBuzz and ICU are outside the repository.  A face is a
      record of the functions FreeType evaluates on it; ICU and HarfBuzz are
      records of functions ([ICU], [HarfBuzz]) passed to the layout.
    - The paint-only members of [CharacterStyle] (fill, basicStyle, outline,
      glow, shadow, innerEffect) are copied but never read by the layout and
      are left out, as are the draw path and the shader. *)

From Stdlib Require Import ZArith QArith Qround Lia Lqa Bool.
From stdpp Require Import base option list gmap strings.

Local Open Scope Z_scope.

(* ===================================================================== *)
(** * Part I. Definitions                                                 *)
(* ===================================================================== *)

(** ** Numbers *)

Abbreviation float := Q.

(** [a < b], [a <= b], [a > b] on floats. *)
Definition flt (a b : float) : bool :=
  match (a ?= b)%Q with Lt => true | _ => false end.
Definition fle (a b : float) : bool :=
  match (a ?= b)%Q with Gt => false | _ => true end.
Definition fgt (a b : float) : bool := flt b a.
Definition fge (a b : float) : bool := fle b a.

(** [std::max(a, b)] is [(a < b) ? b : a]. *)
Definition fmaxf (a b : float) : float := if flt a b then b else a.

(** [fabsf]. *)
Definition fabsf (a : float) : float := if flt a 0 then (- a)%Q else a.

(** [roundf]: nearest integer, halves away from zero. *)
Definition roundf (a : float) : Z :=
  if flt a 0 then - Qfloor (- a + (1 # 2))%Q else Qfloor (a + (1 # 2))%Q.

(** [(float) z] for an integer [z]. *)
Definition of_int (z : Z) : float := inject_Z z.

Definition u32 (z : Z) : Z := z mod 2 ^ 32.
Definition u16 (z : Z) : Z := z mod 2 ^ 16.

(** ** text_engine.h: configuration, enumerations, styles *)

Definition FontId := Z.
Definition INVALID_FONT_ID : FontId := -1.

Inductive TextDirection := AUTO_DETECT_FROM_TEXT | LTR | RTL.
Inductive LineBreakStrategy :=
  SIMPLE_BY_WIDTH | ICU_WORD_BOUNDARIES | ICU_CHARACTER_BOUNDARIES.
Inductive GlyphAtlasType := ALPHA_ONLY_BITMAP | SDF_BITMAP.
Inductive HorizontalAlignment := LEFT | CENTER | RIGHT | JUSTIFY.
Inductive LineHeightType :=
  | NORMAL_SCALED_FONT_METRICS
  | FACTOR_SCALED_FONT_SIZE
  | ABSOLUTE_POINTS
  | CONTENT_SCALED.
Inductive VAlign :=
  BASELINE | MIDDLE_OF_TEXT | TEXT_TOP | TEXT_BOTTOM | LINE_TOP | LINE_BOTTOM.
Inductive BiDiDirectionHint := UNSPECIFIED | HintLTR | HintRTL.

Global Instance GlyphAtlasType_eq_dec : EqDecision GlyphAtlasType.
Proof. solve_decision. Defined.
Global Instance LineHeightType_eq_dec : EqDecision LineHeightType.
Proof. solve_decision. Defined.
Global Instance VAlign_eq_dec : EqDecision VAlign.
Proof. solve_decision. Defined.
Global Instance BiDiDirectionHint_eq_dec : EqDecision BiDiDirectionHint.
Proof. solve_decision. Defined.
Global Instance HorizontalAlignment_eq_dec : EqDecision HorizontalAlignment.
Proof. solve_decision. Defined.
Global Instance TextDirection_eq_dec : EqDecision TextDirection.
Proof. solve_decision. Defined.
Global Instance LineBreakStrategy_eq_dec : EqDecision LineBreakStrategy.
Proof. solve_decision. Defined.

(** raylib value types. *)
Record Vector2 := { vx : float; vy : float }.
Record Rectangle := { rx : float; ry : float; rwidth : float; rheight : float }.
Record Texture2D := { tex_id : Z; tex_width : Z; tex_height : Z }.

Definition zeroVector2 : Vector2 := {| vx := 0; vy := 0 |}.
Definition zeroRectangle : Rectangle :=
  {| rx := 0; ry := 0; rwidth := 0; rheight := 0 |}.
Definition noTexture : Texture2D := {| tex_id := 0; tex_width := 0; tex_height := 0 |}.

Record InlineImageParams := {
  texture : Texture2D;
  displayWidth : float;
  displayHeight : float;
  vAlign : VAlign
}.

Record CharacterStyle := {
  fontId : FontId;
  fontSize : float;
  scriptTag : string;
  languageTag : string;
  isImage : bool;
  imageParams : InlineImageParams
}.

Record TextSpan := { text : list Z; style : CharacterStyle }.

Record ParagraphStyle := {
  alignment : HorizontalAlignment;
  lineHeightType : LineHeightType;
  lineHeightValue : float;
  firstLineIndent : float;
  wrapWidth : float;
  baseDirection : TextDirection;
  lineBreakStrategy : LineBreakStrategy;
  defaultCharacterStyle : CharacterStyle
}.

(** ** FreeType faces

    What FreeType computes on a face, as functions of the face: the cmap
    lookup, whether a pixel size can be selected, and the glyph slot after
    loading and rendering a glyph at a pixel size.  Metrics are 26.6 fixed
    point integers as in [FT_Glyph_Metrics].  Every load of the source is
    preceded by an [FT_Set_Pixel_Sizes] on the same face; where the source
    does not look at the result of that call (lines 929, 1154 and 1292),
    the size it requests is taken as the size in force at the load. *)

Record TT_OS2 := {
  os2_version : Z;
  sTypoAscender : Z; sTypoDescender : Z; sTypoLineGap : Z;
  yStrikeoutPosition : Z; yStrikeoutSize : Z;
  sCapHeight : Z; sxHeight : Z
}.

Record FT_GlyphSlot := {
  horiAdvance : Z; horiBearingX : Z; horiBearingY : Z;
  metrics_width : Z; metrics_height : Z;
  bitmap_buffer : bool;            (* [slot->bitmap.buffer != nullptr] *)
  bitmap_width : Z; bitmap_rows : Z;
  bitmap_left : Z; bitmap_top : Z
}.

Record FT_Face := {
  units_per_EM : Z;
  ascender : Z; descender : Z; height : Z;
  underline_position : Z; underline_thickness : Z;
  sfnt_os2 : option TT_OS2;                (* FT_Get_Sfnt_Table(face, ft_sfnt_os2) *)
  char_index : Z -> Z;                     (* FT_Get_Char_Index on this face *)
  set_pixel_sizes_error : Z -> bool;       (* FT_Set_Pixel_Sizes(face, 0, px) != 0 *)
  load_glyph_error : Z -> Z -> bool;       (* FT_Load_Glyph(face, gid) at px fails *)
  render_glyph_error : Z -> Z -> bool -> bool;
  glyph_slot : Z -> Z -> bool -> FT_GlyphSlot;  (* slot after load + render (gid, px, sdf) *)
  outline_metrics : Z -> Z -> Z * Z             (* horiBearingX, width after a load
                                                   without bitmap (gid, px) *)
}.

(** FreeType entry points accept a null face: the lookup yields glyph 0 and
    selecting a size fails. *)
Definition FT_Get_Char_Index (face : option FT_Face) (codepoint : Z) : Z :=
  match face with Some f => char_index f codepoint | None => 0 end.

Definition FT_Set_Pixel_Sizes (face : option FT_Face) (px : Z) : bool :=
  match face with Some f => set_pixel_sizes_error f px | None => true end.

(** ** Engine data (RaylibSDFTextEx.cpp, lines 86-127 and 281-300) *)

Record FontProperties := {
  unitsPerEm : Z;
  hasTypoMetrics : bool;
  typoAscender : Z; typoDescender : Z; typoLineGap : Z;
  hheaAscender : Z; hheaDescender : Z; hheaLineGap : Z
}.

Record ScaledFontMetrics := {
  scale : float;
  ascent : float;
  descent : float;
  lineGap : float;
  recommendedLineHeight : float;
  capHeight : float;
  xHeight : float;
  underlinePosition : float;
  underlineThickness : float;
  strikeoutPosition : float;
  strikeoutThickness : float
}.

(** [ScaledFontMetrics()] : scale 1, everything else 0. *)
Definition defaultScaledFontMetrics : ScaledFontMetrics :=
  {| scale := 1; ascent := 0; descent := 0; lineGap := 0;
     recommendedLineHeight := 0; capHeight := 0; xHeight := 0;
     underlinePosition := 0; underlineThickness := 0;
     strikeoutPosition := 0; strikeoutThickness := 0 |}.

Record FTFontData := {
  ftFace : option FT_Face;
  hbFont : Z;                      (* the shaper handle, a key for [hb_shape] *)
  properties : FontProperties;
  sdfPixelSizeHint : Z;
  yStrikeoutPosition_fontUnits : Z;
  yStrikeoutSize_fontUnits : Z
}.

Record FTGlyphCacheKey := {
  key_fontId : FontId;
  glyphIndex : Z;
  sdfPixelSize : Z;
  isSDF : bool
}.

Global Instance FTGlyphCacheKey_eq_dec : EqDecision FTGlyphCacheKey.
Proof. solve_decision. Defined.

Global Instance FTGlyphCacheKey_countable : Countable FTGlyphCacheKey.
Proof.
  refine (inj_countable'
            (fun k => (key_fontId k, glyphIndex k, sdfPixelSize k, isSDF k))
            (fun t => match t with
                      | (f, g, s, b) =>
                          {| key_fontId := f; glyphIndex := g;
                             sdfPixelSize := s; isSDF := b |}
                      end) _).
  intros []; reflexivity.
Defined.

Record GlyphRenderInfo := {
  atlasTexture : Texture2D;
  atlasRect : Rectangle;
  drawOffset : Vector2;
  ri_isSDF : bool
}.

Definition defaultGlyphRenderInfo : GlyphRenderInfo :=
  {| atlasTexture := noTexture; atlasRect := zeroRectangle;
     drawOffset := zeroVector2; ri_isSDF := false |}.

Record FTCachedGlyph := {
  renderInfo : GlyphRenderInfo;
  advanceX_at_cached_size : float;
  ascent_at_cached_size : float;
  descent_at_cached_size : float
}.

(** [FTCachedGlyph{}] as returned by [return {};]. *)
Definition emptyCachedGlyph : FTCachedGlyph :=
  {| renderInfo := defaultGlyphRenderInfo;
     advanceX_at_cached_size := 0;
     ascent_at_cached_size := 0;
     descent_at_cached_size := 0 |}.

(** What the GPU layer answers when a new atlas page is requested
    ([GenImageColor] then [LoadTextureFromImage], lines 409-429). *)
Inductive PageAlloc :=
  | ImageFailed                       (* [new_atlas_image.data == nullptr] *)
  | TextureFailed                     (* [new_texture.id == 0] *)
  | PageOk (t : Texture2D).

(** The engine.  [atlas_images_] is the number of CPU images (their pixels
    are not observable by the layout); [gpu_alloc] answers, for the index of
    the page to create, what the GPU layer returns. *)
Record Engine := {
  ftLibrary_ : bool;                                  (* non-null *)
  loadedFonts_ : gmap Z FTFontData;
  nextFontId_ : FontId;
  defaultFontId_ : FontId;
  fontFallbackChains_ : gmap Z (list FontId);
  lru_glyph_list_ : list FTGlyphCacheKey;
  glyph_cache_map_ : gmap FTGlyphCacheKey FTCachedGlyph;
  glyph_cache_capacity_ : Z;
  atlas_images_ : Z;
  atlas_textures_ : list Texture2D;
  current_atlas_idx_ : Z;
  current_atlas_pen_pos_ : Vector2;
  current_atlas_max_row_height_ : float;
  atlas_width_ : Z;
  atlas_height_ : Z;
  atlas_type_hint_ : GlyphAtlasType;
  gpu_alloc : Z -> PageAlloc
}.

(** The state after the constructor (lines 607-640). *)
Definition newEngine (lib_ok : bool) (gpu : Z -> PageAlloc) : Engine :=
  {| ftLibrary_ := lib_ok;
     loadedFonts_ := ∅; nextFontId_ := 1; defaultFontId_ := INVALID_FONT_ID;
     fontFallbackChains_ := ∅;
     lru_glyph_list_ := []; glyph_cache_map_ := ∅; glyph_cache_capacity_ := 512;
     atlas_images_ := 0; atlas_textures_ := [];
     current_atlas_idx_ := -1; current_atlas_pen_pos_ := zeroVector2;
     current_atlas_max_row_height_ := 0;
     atlas_width_ := 1024; atlas_height_ := 1024;
     atlas_type_hint_ := SDF_BITMAP;
     gpu_alloc := gpu |}.

(** Field updates. *)
Definition set_registry (e : Engine) (fonts : gmap Z FTFontData) (next dflt : FontId)
    (chains : gmap Z (list FontId)) : Engine :=
  {| ftLibrary_ := ftLibrary_ e;
     loadedFonts_ := fonts; nextFontId_ := next; defaultFontId_ := dflt;
     fontFallbackChains_ := chains;
     lru_glyph_list_ := lru_glyph_list_ e; glyph_cache_map_ := glyph_cache_map_ e;
     glyph_cache_capacity_ := glyph_cache_capacity_ e;
     atlas_images_ := atlas_images_ e; atlas_textures_ := atlas_textures_ e;
     current_atlas_idx_ := current_atlas_idx_ e;
     current_atlas_pen_pos_ := current_atlas_pen_pos_ e;
     current_atlas_max_row_height_ := current_atlas_max_row_height_ e;
     atlas_width_ := atlas_width_ e; atlas_height_ := atlas_height_ e;
     atlas_type_hint_ := atlas_type_hint_ e; gpu_alloc := gpu_alloc e |}.

Definition set_cache (e : Engine) (lru : list FTGlyphCacheKey)
    (m : gmap FTGlyphCacheKey FTCachedGlyph) : Engine :=
  {| ftLibrary_ := ftLibrary_ e;
     loadedFonts_ := loadedFonts_ e; nextFontId_ := nextFontId_ e;
     defaultFontId_ := defaultFontId_ e;
     fontFallbackChains_ := fontFallbackChains_ e;
     lru_glyph_list_ := lru; glyph_cache_map_ := m;
     glyph_cache_capacity_ := glyph_cache_capacity_ e;
     atlas_images_ := atlas_images_ e; atlas_textures_ := atlas_textures_ e;
     current_atlas_idx_ := current_atlas_idx_ e;
     current_atlas_pen_pos_ := current_atlas_pen_pos_ e;
     current_atlas_max_row_height_ := current_atlas_max_row_height_ e;
     atlas_width_ := atlas_width_ e; atlas_height_ := atlas_height_ e;
     atlas_type_hint_ := atlas_type_hint_ e; gpu_alloc := gpu_alloc e |}.

Definition set_atlas (e : Engine) (images : Z) (textures : list Texture2D)
    (idx : Z) (pen : Vector2) (row : float) : Engine :=
  {| ftLibrary_ := ftLibrary_ e;
     loadedFonts_ := loadedFonts_ e; nextFontId_ := nextFontId_ e;
     defaultFontId_ := defaultFontId_ e;
     fontFallbackChains_ := fontFallbackChains_ e;
     lru_glyph_list_ := lru_glyph_list_ e; glyph_cache_map_ := glyph_cache_map_ e;
     glyph_cache_capacity_ := glyph_cache_capacity_ e;
     atlas_images_ := images; atlas_textures_ := textures;
     current_atlas_idx_ := idx;
     current_atlas_pen_pos_ := pen;
     current_atlas_max_row_height_ := row;
     atlas_width_ := atlas_width_ e; atlas_height_ := atlas_height_ e;
     atlas_type_hint_ := atlas_type_hint_ e; gpu_alloc := gpu_alloc e |}.

Definition set_options (e : Engine) (capacity w h : Z) (hint : GlyphAtlasType) : Engine :=
  {| ftLibrary_ := ftLibrary_ e;
     loadedFonts_ := loadedFonts_ e; nextFontId_ := nextFontId_ e;
     defaultFontId_ := defaultFontId_ e;
     fontFallbackChains_ := fontFallbackChains_ e;
     lru_glyph_list_ := lru_glyph_list_ e; glyph_cache_map_ := glyph_cache_map_ e;
     glyph_cache_capacity_ := capacity;
     atlas_images_ := atlas_images_ e; atlas_textures_ := atlas_textures_ e;
     current_atlas_idx_ := current_atlas_idx_ e;
     current_atlas_pen_pos_ := current_atlas_pen_pos_ e;
     current_atlas_max_row_height_ := current_atlas_max_row_height_ e;
     atlas_width_ := w; atlas_height_ := h;
     atlas_type_hint_ := hint; gpu_alloc := gpu_alloc e |}.

(** ** Font registry (lines 655-896) *)

(** [IsFontValid]: [loadedFonts_.count(fontId) > 0]. *)
Definition IsFontValid (e : Engine) (fontId : FontId) : bool :=
  bool_decide (is_Some (loadedFonts_ e !! fontId)).

Definition GetDefaultFont (e : Engine) : FontId := defaultFontId_ e.

Definition SetDefaultFont (e : Engine) (fontId : FontId) : Engine :=
  if IsFontValid e fontId || bool_decide (fontId = INVALID_FONT_ID)
  then set_registry e (loadedFonts_ e) (nextFontId_ e) fontId (fontFallbackChains_ e)
  else e.

(** [SetFontFallbackChain]: invalid fallbacks are skipped; an invalid
    primary leaves the chains unchanged. *)
Definition SetFontFallbackChain (e : Engine) (primaryFont : FontId)
    (fallbackChain : list FontId) : Engine :=
  if negb (IsFontValid e primaryFont) then e
  else
    let validFallbackChain := filter (fun f => IsFontValid e f = true) fallbackChain in
    set_registry e (loadedFonts_ e) (nextFontId_ e) (defaultFontId_ e)
      (<[primaryFont := validFallbackChain]> (fontFallbackChains_ e)).

(** The test repeated three times in [IsCodepointAvailable]: the font is
    valid, its record has a face, and the face maps the codepoint to a glyph
    other than 0. *)
Definition font_has_codepoint (e : Engine) (fontId : FontId) (codepoint : Z) : bool :=
  IsFontValid e fontId &&
  match loadedFonts_ e !! fontId with
  | Some fd =>
      match ftFace fd with
      | Some _ => negb (FT_Get_Char_Index (ftFace fd) codepoint =? 0)
      | None => false
      end
  | None => false
  end.

(** The fallback chain registered for a font ([find] on the chain map). *)
Definition chain_of (e : Engine) (fontId : FontId) : list FontId :=
  default [] (fontFallbackChains_ e !! fontId).

(** [IsCodepointAvailable] (lines 817-861). *)
Definition IsCodepointAvailable (e : Engine) (fontId : FontId) (codepoint : Z)
    (checkFallback : bool) : bool :=
  if font_has_codepoint e fontId codepoint then true
  else if checkFallback &&
          existsb (fun fb => font_has_codepoint e fb codepoint) (chain_of e fontId)
  then true
  else if negb (defaultFontId_ e =? INVALID_FONT_ID) && negb (defaultFontId_ e =? fontId)
  then
    let checked_default_in_fallback :=
      checkFallback && existsb (fun fid => fid =? defaultFontId_ e) (chain_of e fontId) in
    if negb checked_default_in_fallback && IsFontValid e (defaultFontId_ e)
    then font_has_codepoint e (defaultFontId_ e) codepoint
    else false
  else false.

(** The metrics returned when the font is invalid, the size is not positive
    or the pixel size cannot be selected (lines 866 and 869). *)
Definition fallbackScaledFontMetrics (fontSize : float) : ScaledFontMetrics :=
  let s := if fgt fontSize 0 then fontSize else 16%Q in
  let a := (s * 0.75)%Q in
  let d := (s * 0.25)%Q in
  {| scale := 1; ascent := a; descent := d; lineGap := 0;
     recommendedLineHeight := (a + d)%Q; capHeight := 0; xHeight := 0;
     underlinePosition := 0; underlineThickness := 0;
     strikeoutPosition := 0; strikeoutThickness := 0 |}.

(** The sum computed on line 878, before the guard of line 879. *)
Definition lineHeightSum (ascent descent lineGap : float) : float :=
  (ascent + descent + lineGap)%Q.

(** [GetScaledFontMetrics] (lines 864-896). *)
Definition GetScaledFontMetrics (e : Engine) (fontId : FontId) (fontSize : float)
    : ScaledFontMetrics :=
  if negb (IsFontValid e fontId) || fle fontSize 0 then fallbackScaledFontMetrics fontSize
  else
    match loadedFonts_ e !! fontId with
    | None => fallbackScaledFontMetrics fontSize
    | Some fontData =>
        if FT_Set_Pixel_Sizes (ftFace fontData) (roundf fontSize)
        then fallbackScaledFontMetrics fontSize
        else
          match ftFace fontData with
          | None => fallbackScaledFontMetrics fontSize
          | Some face =>
              let props := properties fontData in
              let scale_ :=
                if 0 <? units_per_EM face
                then (fontSize / of_int (units_per_EM face))%Q else 1%Q in
              let ascent_ :=
                if hasTypoMetrics props then (of_int (typoAscender props) * scale_)%Q
                else (of_int (hheaAscender props) * scale_)%Q in
              let descent_ :=
                if hasTypoMetrics props then (- of_int (typoDescender props) * scale_)%Q
                else (- of_int (hheaDescender props) * scale_)%Q in
              let lineGap_ :=
                if hasTypoMetrics props then (of_int (typoLineGap props) * scale_)%Q
                else (of_int (hheaLineGap props) * scale_)%Q in
              let sum := lineHeightSum ascent_ descent_ lineGap_ in
              let recommended := if fle sum 0.001 then (fontSize * 1.2)%Q else sum in
              let has_os2 :=
                match sfnt_os2 face with
                | Some os2 => if os2_version os2 =? 65535 then None else Some os2
                | None => None
                end in
              let capHeight_ :=
                match has_os2 with
                | Some os2 =>
                    if sCapHeight os2 =? 0 then (ascent_ * 0.7)%Q
                    else (of_int (sCapHeight os2) * scale_)%Q
                | None => (ascent_ * 0.7)%Q
                end in
              let xHeight_ :=
                match has_os2 with
                | Some os2 =>
                    if sxHeight os2 =? 0 then (ascent_ * 0.45)%Q
                    else (of_int (sxHeight os2) * scale_)%Q
                | None => (ascent_ * 0.45)%Q
                end in
              let strikeoutPosition_ :=
                match has_os2 with
                | Some _ => (of_int (yStrikeoutPosition_fontUnits fontData) * scale_)%Q
                | None => (xHeight_ / 2)%Q
                end in
              let strikeoutThickness_ :=
                match has_os2 with
                | Some _ => (of_int (yStrikeoutSize_fontUnits fontData) * scale_)%Q
                | None => (fontSize / 20)%Q
                end in
              let underlineThickness_ := (of_int (underline_thickness face) * scale_)%Q in
              {| scale := scale_; ascent := ascent_; descent := descent_;
                 lineGap := lineGap_;
                 recommendedLineHeight := recommended;
                 capHeight := capHeight_; xHeight := xHeight_;
                 underlinePosition := (of_int (underline_position face) * scale_)%Q;
                 underlineThickness :=
                   if fgt underlineThickness_ 0 && flt underlineThickness_ 1
                   then 1%Q else underlineThickness_;
                 strikeoutPosition := strikeoutPosition_;
                 strikeoutThickness :=
                   if fgt strikeoutThickness_ 0 && flt strikeoutThickness_ 1
                   then 1%Q else strikeoutThickness_ |}
          end
    end.

(** What the file system, FreeType and HarfBuzz answer while a font file is
    loaded (lines 661-731). *)
Record FontFile := {
  file_is_open : bool;
  file_read_ok : bool;
  new_memory_face : option FT_Face;        (* FT_New_Memory_Face *)
  hb_face_ok : bool;                       (* hb_ft_face_create_referenced *)
  hb_font_handle : option Z;               (* hb_font_create *)
  hb_parent_ok : bool;                     (* hb_ft_font_create_referenced *)
  hb_funcs_ok : bool                       (* hb_font_funcs_create *)
}.

(** [LoadFont] (lines 655-762): the id returned and the new state. *)
Definition LoadFont (e : Engine) (file : FontFile) : FontId * Engine :=
  if negb (ftLibrary_ e) then (INVALID_FONT_ID, e)
  else if negb (file_is_open file) then (INVALID_FONT_ID, e)
  else if negb (file_read_ok file) then (INVALID_FONT_ID, e)
  else
    match new_memory_face file with
    | None => (INVALID_FONT_ID, e)
    | Some face =>
        if negb (hb_face_ok file) then (INVALID_FONT_ID, e)
        else
          match hb_font_handle file with
          | None => (INVALID_FONT_ID, e)
          | Some hb =>
              if negb (hb_parent_ok file) then (INVALID_FONT_ID, e)
              else if negb (hb_funcs_ok file) then (INVALID_FONT_ID, e)
              else
                let os2 :=
                  match sfnt_os2 face with
                  | Some t => if os2_version t =? 65535 then None else Some t
                  | None => None
                  end in
                let props :=
                  {| unitsPerEm :=
                       if units_per_EM face =? 0 then 1000 else units_per_EM face;
                     hasTypoMetrics := bool_decide (is_Some os2);
                     typoAscender := from_option sTypoAscender 0 os2;
                     typoDescender := from_option sTypoDescender 0 os2;
                     typoLineGap := from_option sTypoLineGap 0 os2;
                     hheaAscender := ascender face;
                     hheaDescender := descender face;
                     hheaLineGap := height face - (ascender face - descender face) |} in
                let fontData :=
                  {| ftFace := Some face; hbFont := hb; properties := props;
                     sdfPixelSizeHint := 64;
                     yStrikeoutPosition_fontUnits :=
                       match os2 with
                       | Some t => yStrikeoutPosition t
                       | None => Z.quot (ascender face * 2) 5
                       end;
                     yStrikeoutSize_fontUnits :=
                       match os2 with
                       | Some t => yStrikeoutSize t
                       | None =>
                           if 0 <? underline_thickness face then underline_thickness face
                           else Z.quot (units_per_EM face) 20
                       end |} in
                let id := nextFontId_ e in
                let e1 :=
                  set_registry e (<[id := fontData]> (loadedFonts_ e)) (id + 1)
                    (defaultFontId_ e) (fontFallbackChains_ e) in
                let e2 :=
                  if bool_decide (defaultFontId_ e1 = INVALID_FONT_ID)
                  then SetDefaultFont e1 id else e1 in
                (id, e2)
          end
    end.

(** [loadedFonts_.begin()->first]: the smallest key of the ordered map. *)
Definition first_key {A} (m : gmap Z A) : option Z :=
  foldr (fun k acc => match acc with
                      | None => Some k
                      | Some k' => Some (Z.min k k')
                      end) None (map_to_list m).*1.

(** The loop of lines 777-785 over the LRU list: every key of the font is
    erased from the map and from the list. *)
Fixpoint unload_lru (fontId : FontId) (lru : list FTGlyphCacheKey)
    (m : gmap FTGlyphCacheKey FTCachedGlyph)
    : list FTGlyphCacheKey * gmap FTGlyphCacheKey FTCachedGlyph :=
  match lru with
  | [] => ([], m)
  | k :: rest =>
      if bool_decide (key_fontId k = fontId)
      then unload_lru fontId rest (delete k m)
      else let '(l', m') := unload_lru fontId rest m in (k :: l', m')
  end.

(** [UnloadFont] (lines 765-789). *)
Definition UnloadFont (e : Engine) (fontId : FontId) : Engine :=
  match loadedFonts_ e !! fontId with
  | None => e
  | Some _ =>
      let fonts := delete fontId (loadedFonts_ e) in
      let chains :=
        (fun chain => filter (fun f => f ≠ fontId) chain)
          <$> delete fontId (fontFallbackChains_ e) in
      let '(lru, m) := unload_lru fontId (lru_glyph_list_ e) (glyph_cache_map_ e) in
      let dflt :=
        if bool_decide (defaultFontId_ e = fontId)
        then (if bool_decide (fonts = ∅) then INVALID_FONT_ID
              else default INVALID_FONT_ID (first_key fonts))
        else defaultFontId_ e in
      set_cache (set_registry e fonts (nextFontId_ e) dflt chains) lru m
  end.

(** ** Glyph cache and atlas packer (lines 384-603, 897-980, 1961-1971) *)

(** [findSpaceInAtlasAndPack] (lines 384-451) for a non-null bitmap: the
    rectangle returned ([{0,0,0,0}] when nothing was packed) and the new
    state. *)
Definition findSpaceInAtlasAndPack (e : Engine) (width height : Z)
    : Rectangle * Engine :=
  if (width <=? 0) || (height <=? 0) then (zeroRectangle, e)
  else
    let fits (pen : Vector2) :=
      fle (vy pen + of_int height)%Q (of_int (atlas_height_ e)) &&
      fle (vx pen + of_int width)%Q (of_int (atlas_width_ e)) in
    (* lines 388-400: the current row, else the next row of the current page *)
    let '(pen1, row1, packed_in_current_atlas) :=
      if negb (current_atlas_idx_ e =? -1) then
        let '(pen, row) :=
          if fle (vx (current_atlas_pen_pos_ e) + of_int width)%Q (of_int (atlas_width_ e)) &&
             fle (vy (current_atlas_pen_pos_ e) + of_int height)%Q (of_int (atlas_height_ e))
          then (current_atlas_pen_pos_ e, current_atlas_max_row_height_ e)
          else ({| vx := 0;
                   vy := (vy (current_atlas_pen_pos_ e) + current_atlas_max_row_height_ e)%Q |},
                0%Q) in
        (pen, row, fits pen)
      else (current_atlas_pen_pos_ e, current_atlas_max_row_height_ e, false) in
    (* lines 402-431: a new page *)
    let paged : option (Z * list Texture2D * Z * Vector2 * float) :=
      if packed_in_current_atlas
      then Some (atlas_images_ e, atlas_textures_ e, current_atlas_idx_ e, pen1, row1)
      else
        let idx := current_atlas_idx_ e + 1 in
        if atlas_images_ e <=? idx then
          match gpu_alloc e idx with
          | ImageFailed => None
          | TextureFailed => None
          | PageOk t =>
              Some (atlas_images_ e + 1, atlas_textures_ e ++ [t], idx, zeroVector2, 0%Q)
          end
        else Some (atlas_images_ e, atlas_textures_ e, idx, zeroVector2, 0%Q) in
    match paged with
    | None =>
        (* the index is reverted, pen and row height stay reset *)
        (zeroRectangle,
         set_atlas e (atlas_images_ e) (atlas_textures_ e) (current_atlas_idx_ e)
           zeroVector2 0%Q)
    | Some (images, textures, idx, pen, row) =>
        let e' := set_atlas e images textures idx pen row in
        if (idx <? 0) || (Z.of_nat (length textures) <=? idx) ||
           (atlas_width_ e <? width) || (atlas_height_ e <? height) ||
           fgt (vy pen + of_int height)%Q (of_int (atlas_height_ e)) ||
           fgt (vx pen + of_int width)%Q (of_int (atlas_width_ e))
        then (zeroRectangle, e')
        else
          let spot := {| rx := vx pen; ry := vy pen;
                         rwidth := of_int width; rheight := of_int height |} in
          (spot,
           set_atlas e images textures idx
             {| vx := (vx pen + of_int width)%Q; vy := vy pen |}
             (fmaxf row (of_int height)))
    end.

(** The slot read after [FT_Load_Glyph] and [FT_Render_Glyph].  A stored
    font always has a face ([LoadFont]); the source dereferences it
    unchecked. *)
Definition zeroGlyphSlot : FT_GlyphSlot :=
  {| horiAdvance := 0; horiBearingX := 0; horiBearingY := 0;
     metrics_width := 0; metrics_height := 0;
     bitmap_buffer := false; bitmap_width := 0; bitmap_rows := 0;
     bitmap_left := 0; bitmap_top := 0 |}.

Definition slot_of (face : option FT_Face) (gid px : Z) (sdf : bool) : FT_GlyphSlot :=
  match face with Some f => glyph_slot f gid px sdf | None => zeroGlyphSlot end.

(** Lines 565-583 and 943-970: metrics at the cached size, then packing of
    a non-empty bitmap. *)
Definition rasterize (e : Engine) (slot : FT_GlyphSlot) (sdf : bool)
    : FTCachedGlyph * Engine :=
  let advanceX := (of_int (horiAdvance slot) / 64)%Q in
  let ascent_ := (of_int (horiBearingY slot) / 64)%Q in
  let descent_ := (of_int (metrics_height slot - horiBearingY slot) / 64)%Q in
  if bitmap_buffer slot && (0 <? bitmap_width slot) && (0 <? bitmap_rows slot) then
    let '(pack_rect, e') := findSpaceInAtlasAndPack e (bitmap_width slot) (bitmap_rows slot) in
    let info :=
      if fgt (rwidth pack_rect) 0 then
        {| atlasTexture :=
             default noTexture (atlas_textures_ e' !! Z.to_nat (current_atlas_idx_ e'));
           atlasRect := pack_rect;
           drawOffset := {| vx := of_int (bitmap_left slot);
                            vy := (- of_int (bitmap_top slot))%Q |};
           ri_isSDF := sdf |}
      else
        {| atlasTexture := noTexture; atlasRect := zeroRectangle;
           drawOffset := zeroVector2; ri_isSDF := sdf |} in
    ({| renderInfo := info; advanceX_at_cached_size := advanceX;
        ascent_at_cached_size := ascent_; descent_at_cached_size := descent_ |}, e')
  else
    ({| renderInfo := {| atlasTexture := noTexture; atlasRect := zeroRectangle;
                         drawOffset := zeroVector2; ri_isSDF := sdf |};
        advanceX_at_cached_size := advanceX;
        ascent_at_cached_size := ascent_; descent_at_cached_size := descent_ |}, e).

(** Cache hit (lines 538-541, 920-923): the key is spliced to the front of
    the LRU list. *)
Definition lru_touch (key : FTGlyphCacheKey) (lru : list FTGlyphCacheKey)
    : list FTGlyphCacheKey :=
  key :: filter (fun k => k ≠ key) lru.

(** Cache management on a miss (lines 586-591, 973-978). *)
Definition cache_insert (e : Engine) (key : FTGlyphCacheKey) (g : FTCachedGlyph) : Engine :=
  let '(lru, m) :=
    if (glyph_cache_capacity_ e <=? Z.of_nat (size (glyph_cache_map_ e))) &&
       negb (bool_decide (lru_glyph_list_ e = []))
    then (removelast (lru_glyph_list_ e),
          match last (lru_glyph_list_ e) with
          | Some back => delete back (glyph_cache_map_ e)
          | None => glyph_cache_map_ e
          end)
    else (lru_glyph_list_ e, glyph_cache_map_ e) in
  set_cache e (key :: lru) (<[key := g]> m).

(** The key evicted by [cache_insert], if any. *)
Definition evicted_key (e : Engine) : option FTGlyphCacheKey :=
  if (glyph_cache_capacity_ e <=? Z.of_nat (size (glyph_cache_map_ e))) &&
     negb (bool_decide (lru_glyph_list_ e = []))
  then last (lru_glyph_list_ e) else None.

Definition sdfGenSize_of (fd : FTFontData) : Z :=
  if 0 <? sdfPixelSizeHint fd then sdfPixelSizeHint fd else 64.

(** [getCachedGlyphByGID] (lines 897-980): the cached glyph, the font
    actually used and the new state. *)
Definition getCachedGlyphByGID (e : Engine) (fontId : FontId) (glyphID_from_harfbuzz : Z)
    : FTCachedGlyph * FontId * Engine :=
  let resolved : option (FontId * Z) :=
    if IsFontValid e fontId then Some (fontId, glyphID_from_harfbuzz)
    else if IsFontValid e (defaultFontId_ e) then Some (defaultFontId_ e, 0)
    else None in
  match resolved with
  | None => (emptyCachedGlyph, fontId, e)
  | Some (actualFontIdUsed, gid) =>
      match loadedFonts_ e !! actualFontIdUsed with
      | None => (emptyCachedGlyph, fontId, e)
      | Some chosenFontData =>
          let sdfGenSize := sdfGenSize_of chosenFontData in
          let key := {| key_fontId := actualFontIdUsed; glyphIndex := gid;
                        sdfPixelSize := sdfGenSize;
                        isSDF := bool_decide (atlas_type_hint_ e = SDF_BITMAP) |} in
          match glyph_cache_map_ e !! key with
          | Some cached =>
              (cached, actualFontIdUsed,
               set_cache e (lru_touch key (lru_glyph_list_ e)) (glyph_cache_map_ e))
          | None =>
              let slot := slot_of (ftFace chosenFontData) gid sdfGenSize (isSDF key) in
              let '(newCachedGlyph, e') := rasterize e slot (isSDF key) in
              (newCachedGlyph, actualFontIdUsed, cache_insert e' key newCachedGlyph)
          end
      end
  end.

(** [isWhitespace] of [getOrCacheGlyph] (line 458). *)
Definition isWhitespace (codepoint : Z) : bool :=
  (codepoint =? 32) || (codepoint =? 9) || (codepoint =? 10) || (codepoint =? 12288).

(** The first font of a chain that is valid and maps the codepoint to a
    glyph other than 0 (lines 473-483), with that glyph. *)
Fixpoint first_fallback (e : Engine) (chain : list FontId) (codepoint : Z)
    : option (FontId * Z) :=
  match chain with
  | [] => None
  | fb :: rest =>
      match loadedFonts_ e !! fb with
      | Some fd =>
          let g := FT_Get_Char_Index (ftFace fd) codepoint in
          if negb (g =? 0) then Some (fb, g) else first_fallback e rest codepoint
      | None => first_fallback e rest codepoint
      end
  end.

(** Font selection of [getOrCacheGlyph] (lines 456-529): the font actually
    used and the glyph index, or nothing when no valid font is available. *)
Definition select_font_for_codepoint (e : Engine) (requestedFontId : FontId)
    (codepoint : Z) : option (FontId * Z) :=
  let ws := isWhitespace codepoint in
  (* 1. the requested font *)
  let step1 : Z * option FontId :=
    match loadedFonts_ e !! requestedFontId with
    | Some fd =>
        let g := FT_Get_Char_Index (ftFace fd) codepoint in
        (g, if negb (g =? 0) || ws then Some requestedFontId else None)
    | None => (0, None)
    end in
  (* 2. the fallback chain *)
  let step2 : Z * option FontId :=
    match step1 with
    | (g, None) =>
        if negb ws then
          match first_fallback e (chain_of e requestedFontId) codepoint with
          | Some (fb, g') => (g', Some fb)
          | None => (g, None)
          end
        else (g, None)
    | found => found
    end in
  (* 3. the default font *)
  let step3 : Z * option FontId :=
    match step2 with
    | (g, None) =>
        if negb ws && negb (defaultFontId_ e =? INVALID_FONT_ID) &&
           negb (defaultFontId_ e =? requestedFontId) then
          let defaultWasInFallback :=
            existsb (fun fid => fid =? defaultFontId_ e) (chain_of e requestedFontId) in
          if negb defaultWasInFallback then
            match loadedFonts_ e !! defaultFontId_ e with
            | Some fd =>
                let g' := FT_Get_Char_Index (ftFace fd) codepoint in
                if negb (g' =? 0) then (g', Some (defaultFontId_ e)) else (g', None)
            | None => (g, None)
            end
          else (g, None)
        else (g, None)
    | found => found
    end in
  (* 4. .notdef from a valid font *)
  match step3 with
  | (g, Some f) => Some (f, g)
  | (_, None) =>
      let fontForNotdef :=
        if IsFontValid e requestedFontId then requestedFontId
        else if IsFontValid e (defaultFontId_ e) then defaultFontId_ e
        else INVALID_FONT_ID in
      match loadedFonts_ e !! fontForNotdef with
      | Some fd => Some (fontForNotdef, FT_Get_Char_Index (ftFace fd) codepoint)
      | None => None
      end
  end.

(** [getOrCacheGlyph] (lines 455-593).  The source calls itself with
    codepoint 0 when loading a glyph other than 0 fails; [fuel] bounds that
    recursion and [None] means it was exhausted. *)
Fixpoint getOrCacheGlyph (fuel : nat) (e : Engine) (requestedFontId : FontId)
    (codepoint : Z) : option (FTCachedGlyph * FontId * Engine) :=
  match select_font_for_codepoint e requestedFontId codepoint with
  | None => Some (emptyCachedGlyph, INVALID_FONT_ID, e)
  | Some (actualFontIdUsed, gid) =>
      match loadedFonts_ e !! actualFontIdUsed with
      | None => Some (emptyCachedGlyph, actualFontIdUsed, e)
      | Some chosenFontData =>
          let sdfGenSize := sdfGenSize_of chosenFontData in
          let key := {| key_fontId := actualFontIdUsed; glyphIndex := gid;
                        sdfPixelSize := sdfGenSize;
                        isSDF := bool_decide (atlas_type_hint_ e = SDF_BITMAP) |} in
          match glyph_cache_map_ e !! key with
          | Some cached =>
              Some (cached, actualFontIdUsed,
                    set_cache e (lru_touch key (lru_glyph_list_ e)) (glyph_cache_map_ e))
          | None =>
              match ftFace chosenFontData with
              | None => Some (emptyCachedGlyph, actualFontIdUsed, e)
              | Some face =>
                  if set_pixel_sizes_error face sdfGenSize
                  then Some (emptyCachedGlyph, actualFontIdUsed, e)
                  else if load_glyph_error face gid sdfGenSize then
                    if negb (gid =? 0) then
                      match fuel with
                      | O => None
                      | S fuel' => getOrCacheGlyph fuel' e actualFontIdUsed 0
                      end
                    else Some (emptyCachedGlyph, actualFontIdUsed, e)
                  else if render_glyph_error face gid sdfGenSize (isSDF key)
                  then Some (emptyCachedGlyph, actualFontIdUsed, e)
                  else
                    let slot := glyph_slot face gid sdfGenSize (isSDF key) in
                    let '(newCachedGlyph, e') := rasterize e slot (isSDF key) in
                    Some (newCachedGlyph, actualFontIdUsed,
                          cache_insert e' key newCachedGlyph)
              end
          end
      end
  end.

(** [performCacheCleanup] (lines 596-603) and [ClearGlyphCache]. *)
Definition performCacheCleanup (e : Engine) : Engine :=
  set_cache (set_atlas e 0 [] (-1) zeroVector2 0%Q) [] ∅.

Definition ClearGlyphCache (e : Engine) : Engine := performCacheCleanup e.

(** [SetGlyphAtlasOptions] (lines 1962-1971). *)
Definition SetGlyphAtlasOptions (e : Engine) (maxGlyphsEstimate atlasWidth atlasHeight : Z)
    (typeHint : GlyphAtlasType) : Engine :=
  let optionsChanged :=
    negb (glyph_cache_capacity_ e =? maxGlyphsEstimate) ||
    negb (atlas_width_ e =? atlasWidth) || negb (atlas_height_ e =? atlasHeight) ||
    negb (bool_decide (atlas_type_hint_ e = typeHint)) in
  let e1 :=
    if optionsChanged &&
       (negb (bool_decide (atlas_textures_ e = [])) || negb (atlas_images_ e =? 0))
    then performCacheCleanup e else e in
  set_options e1
    (if 0 <? maxGlyphsEstimate then maxGlyphsEstimate else 1)
    (if 0 <? atlasWidth then atlasWidth else 256)
    (if 0 <? atlasHeight then atlasHeight else 256)
    typeHint.

(** ** text_engine.h: layout results *)

Record PositionedGlyph := {
  glyphId : Z;
  sourceFont : FontId;
  sourceSize : float;
  g_position : Vector2;
  xAdvance : float;
  yAdvance : float;
  xOffset : float;
  yOffset : float;
  g_renderInfo : GlyphRenderInfo;
  g_sourceSpanIndex : Z;
  g_sourceCharByteOffsetInSpan : Z;
  g_numSourceCharBytesInSpan : Z;
  appliedStyle : CharacterStyle;
  g_ascent : float;
  g_descent : float;
  visualLeft : float;
  visualRight : float;
  visualRunDirectionHint : BiDiDirectionHint
}.

Record PositionedImage := {
  i_position : Vector2;
  i_width : float;
  i_height : float;
  penAdvanceX : float;
  i_imageParams : InlineImageParams;
  i_sourceSpanIndex : Z;
  i_sourceCharByteOffsetInSpan : Z;
  i_numSourceCharBytesInSpan : Z;
  i_ascent : float;
  i_descent : float
}.

(** [std::variant<PositionedGlyph, PositionedImage>]. *)
Inductive PositionedElementVariant :=
  | Glyph (g : PositionedGlyph)
  | Image (i : PositionedImage).

Record VisualRun := {
  firstElementIndexInLineElements : Z;
  numElementsInRun : Z;
  direction : BiDiDirectionHint;
  scriptTagUsed : string;
  languageTagUsed : string;
  runFont : FontId;
  runFontSize : float;
  runVisualAdvanceX : float
}.

Record LineLayoutInfo := {
  firstElementIndexInBlockElements : Z;
  numElementsInLine : Z;
  lineBoxY : float;
  baselineYInBox : float;
  lineWidth : float;
  lineBoxHeight : float;
  maxContentAscent : float;
  maxContentDescent : float;
  sourceTextByteStartIndexInBlockText : Z;
  sourceTextByteEndIndexInBlockText : Z;
  visualRuns : list VisualRun;
  visualToLogicalMap : list Z;
  logicalToVisualMap : list Z
}.

Record TextBlock := {
  elements : list PositionedElementVariant;
  lines : list LineLayoutInfo;
  overallBounds : Rectangle;
  paragraphStyleUsed : ParagraphStyle;
  sourceTextConcatenated : list Z;
  sourceSpansCopied : list TextSpan
}.

Definition len_elements (tb : TextBlock) : Z := Z.of_nat (length (elements tb)).

(** [arg.position.x += dx] through [std::visit]. *)
Definition shift_x (dx : float) (el : PositionedElementVariant) : PositionedElementVariant :=
  match el with
  | Glyph g =>
      Glyph {| glyphId := glyphId g; sourceFont := sourceFont g; sourceSize := sourceSize g;
               g_position := {| vx := (vx (g_position g) + dx)%Q; vy := vy (g_position g) |};
               xAdvance := xAdvance g; yAdvance := yAdvance g;
               xOffset := xOffset g; yOffset := yOffset g;
               g_renderInfo := g_renderInfo g;
               g_sourceSpanIndex := g_sourceSpanIndex g;
               g_sourceCharByteOffsetInSpan := g_sourceCharByteOffsetInSpan g;
               g_numSourceCharBytesInSpan := g_numSourceCharBytesInSpan g;
               appliedStyle := appliedStyle g;
               g_ascent := g_ascent g; g_descent := g_descent g;
               visualLeft := visualLeft g; visualRight := visualRight g;
               visualRunDirectionHint := visualRunDirectionHint g |}
  | Image i =>
      Image {| i_position := {| vx := (vx (i_position i) + dx)%Q; vy := vy (i_position i) |};
               i_width := i_width i; i_height := i_height i;
               penAdvanceX := penAdvanceX i; i_imageParams := i_imageParams i;
               i_sourceSpanIndex := i_sourceSpanIndex i;
               i_sourceCharByteOffsetInSpan := i_sourceCharByteOffsetInSpan i;
               i_numSourceCharBytesInSpan := i_numSourceCharBytesInSpan i;
               i_ascent := i_ascent i; i_descent := i_descent i |}
  end.

Definition is_image (el : PositionedElementVariant) : bool :=
  match el with Image _ => true | Glyph _ => false end.

(** The advance summed into [runVisualAdvanceX]. *)
Definition el_advance (el : PositionedElementVariant) : float :=
  match el with Glyph g => xAdvance g | Image i => penAdvanceX i end.

(** ** ICU and HarfBuzz

    The calls the engine makes into ICU and HarfBuzz, as functions of their
    arguments.  [None] stands for a failing status code. *)

Inductive BreakKind := UBRK_CHARACTER | UBRK_WORD.

Definition UBRK_DONE : Z := -1.
Definition UBIDI_DEFAULT_LTR : Z := 254.
Definition UBIDI_DEFAULT_RTL : Z := 255.

Record ICU := {
  u_strFromUTF8 : list Z -> option (list Z);
  u_strToUTF8 : list Z -> option (list Z);
  uloc_getDefault : string;
  (* ubidi_openSized, ubidi_setPara, ubidi_getParaLevel on the paragraph *)
  ubidi_paraLevel : list Z -> Z -> option Z;
  ubrk_open : BreakKind -> string -> bool;
  ubrk_setText : BreakKind -> string -> list Z -> bool;
  ubrk_following : BreakKind -> string -> list Z -> Z -> Z;
  (* ubidi_setPara, ubidi_countRuns, ubidi_getVisualRun on a segment:
     (is LTR, logical start, length) in visual order *)
  ubidi_visualRuns : list Z -> Z -> option (list (bool * Z * Z));
  (* ubidi_openSized and ubidi_setPara on a line *)
  ubidi_line_setPara : list Z -> Z -> bool;
  ubidi_getLength : list Z -> Z -> Z;
  ubidi_getVisualMap : list Z -> Z -> option (list Z);
  ubidi_getLogicalMap : list Z -> Z -> option (list Z)
}.

Record hb_glyph := {
  cluster : Z;
  hb_codepoint : Z;
  x_advance : Z; y_advance : Z;
  x_offset : Z; y_offset : Z
}.

(** [hb_shape] on a buffer holding the run: the shaper handle, the pixel
    size selected on the face just before (line 1154), the UTF-8 run, the
    direction, the script and language tags, and whether
    [hb_buffer_guess_segment_properties] was called. *)
Record HarfBuzz := {
  hb_shape : Z -> Z -> list Z -> bool -> string -> string -> bool -> list hb_glyph
}.

(** [Utf8ToUtf16] and [Utf16ToUtf8] (lines 313-358): the empty string on an
    empty input and on failure. *)
Definition Utf8ToUtf16 (icu : ICU) (u8_str : list Z) : list Z :=
  match u8_str with
  | [] => []
  | _ => default [] (u_strFromUTF8 icu u8_str)
  end.

Definition Utf16ToUtf8 (icu : ICU) (u16_str : list Z) : list Z :=
  match u16_str with
  | [] => []
  | _ => default [] (u_strToUTF8 icu u16_str)
  end.

(** [s.substr(pos, n)] for [pos <= s.size()]; a count that is negative as a
    signed value is enormous as [size_t] and takes the rest. *)
Definition substr (s : list Z) (pos n : Z) : list Z :=
  if n <? 0 then drop (Z.to_nat pos) s
  else take (Z.to_nat n) (drop (Z.to_nat pos) s).

Definition len (s : list Z) : Z := Z.of_nat (length s).

(** [GetNextCodepointFromUTF8] (text_engine.h, lines 429-440) on the bytes
    from the cursor on: the codepoint and [*byteCount]; the cursor advances
    by [*byteCount].  Bytes past the end read as the terminating 0. *)
Definition GetNextCodepointFromUTF8 (s : list Z) : Z * Z :=
  let b (i : nat) := nth i s 0 in
  let cont (i : nat) := Z.land (b i) 192 =? 128 in
  if b 0%nat =? 0 then (0, 0)
  else
    let '(codepoint, count) :=
      if b 0%nat <? 128 then (b 0%nat, 1)
      else if Z.land (b 0%nat) 224 =? 192 then
        if cont 1%nat
        then (Z.lor (Z.shiftl (Z.land (b 0%nat) 31) 6) (Z.land (b 1%nat) 63), 2)
        else (0, 0)
      else if Z.land (b 0%nat) 240 =? 224 then
        if cont 1%nat && cont 2%nat
        then (Z.lor (Z.lor (Z.shiftl (Z.land (b 0%nat) 15) 12)
                           (Z.shiftl (Z.land (b 1%nat) 63) 6))
                    (Z.land (b 2%nat) 63), 3)
        else (0, 0)
      else if Z.land (b 0%nat) 248 =? 240 then
        if cont 1%nat && cont 2%nat && cont 3%nat
        then (Z.lor (Z.lor (Z.lor (Z.shiftl (Z.land (b 0%nat) 7) 18)
                                  (Z.shiftl (Z.land (b 1%nat) 63) 12))
                           (Z.shiftl (Z.land (b 2%nat) 63) 6))
                    (Z.land (b 3%nat) 63), 4)
        else (0, 0)
      else (0, 0) in
    let count' :=
      if (0 <? count) &&
         (((codepoint <? 128) && (1 <? count)) ||
          ((codepoint <? 2048) && (2 <? count)) ||
          ((codepoint <? 65536) && (3 <? count)) ||
          (1114111 <? codepoint) ||
          ((55296 <=? codepoint) && (codepoint <=? 57343)))
      then 0 else count in
    if count' =? 0 then (65533, 1) else (codepoint, count').

(** ** Line finalization (lines 1413-1647 and 2468-2477) *)

(** [contentActualHeight] of [calculateLineBoxHeight] (lines 2469-2470). *)
Definition contentActualHeight (defaultMetrics : ScaledFontMetrics)
    (currentMaxAscent currentMaxDescent paraPrimaryFontSizeForFactor : float) : float :=
  let c := (currentMaxAscent + currentMaxDescent)%Q in
  if flt c 0.001 then
    if fgt (ascent defaultMetrics + descent defaultMetrics)%Q 0.001
    then (ascent defaultMetrics + descent defaultMetrics)%Q
    else if fgt paraPrimaryFontSizeForFactor 0
         then (paraPrimaryFontSizeForFactor * 1.2)%Q else (16 * 1.2)%Q
  else c.

(** [calculatedHeight]: the line-height policy (lines 2471-2476). *)
Definition calculatedHeight (pStyle : ParagraphStyle) (defaultMetrics : ScaledFontMetrics)
    (currentMaxAscent currentMaxDescent paraPrimaryFontSizeForFactor : float) : float :=
  match lineHeightType pStyle with
  | NORMAL_SCALED_FONT_METRICS =>
      (recommendedLineHeight defaultMetrics * lineHeightValue pStyle)%Q
  | FACTOR_SCALED_FONT_SIZE => (paraPrimaryFontSizeForFactor * lineHeightValue pStyle)%Q
  | ABSOLUTE_POINTS => lineHeightValue pStyle
  | CONTENT_SCALED =>
      (contentActualHeight defaultMetrics currentMaxAscent currentMaxDescent
         paraPrimaryFontSizeForFactor * lineHeightValue pStyle)%Q
  end.

(** [calculateLineBoxHeight] (lines 2468-2477). *)
Definition calculateLineBoxHeight (pStyle : ParagraphStyle)
    (defaultMetrics : ScaledFontMetrics)
    (currentMaxAscent currentMaxDescent paraPrimaryFontSizeForFactor : float) : float :=
  fmaxf
    (calculatedHeight pStyle defaultMetrics currentMaxAscent currentMaxDescent
       paraPrimaryFontSizeForFactor)
    (contentActualHeight defaultMetrics currentMaxAscent currentMaxDescent
       paraPrimaryFontSizeForFactor).

(** [baselineYInBox] (lines 1481-1486, and 1015-1018 for the empty block). *)
Definition baselineInBox (pStyle : ParagraphStyle)
    (lineBoxHeight_ maxAscent maxDescent : float) : float :=
  if fgt lineBoxHeight_ ((maxAscent + maxDescent) + 0.001)%Q &&
     negb (bool_decide (lineHeightType pStyle = CONTENT_SCALED))
  then (maxAscent + (lineBoxHeight_ - (maxAscent + maxDescent)) / 2)%Q
  else maxAscent.

(** The properties a visual run is keyed on (lines 1496-1507). *)
Record RunProps := {
  rp_dir : BiDiDirectionHint;
  rp_font : FontId;
  rp_size : float;
  rp_script : string;
  rp_lang : string
}.

(** [tag.empty() ? dflt : tag]. *)
Definition tag_or (dflt tag : string) : string :=
  if bool_decide (tag = EmptyString) then dflt else tag.

(** Lines 1532-1544: the properties read from an element. *)
Definition elem_props (el : PositionedElementVariant) : RunProps :=
  match el with
  | Glyph g =>
      {| rp_dir := visualRunDirectionHint g; rp_font := sourceFont g;
         rp_size := sourceSize g;
         rp_script := tag_or "auto" (scriptTag (appliedStyle g));
         rp_lang := tag_or "und" (languageTag (appliedStyle g)) |}
  | Image _ =>
      {| rp_dir := UNSPECIFIED; rp_font := INVALID_FONT_ID; rp_size := 0;
         rp_script := EmptyString; rp_lang := EmptyString |}
  end.

(** Lines 1546-1557: does the element at [i > start] open a new run? *)
Definition splitRun (cur : RunProps) (prev el : PositionedElementVariant) : bool :=
  if negb (eqb (is_image el) (is_image prev)) then true
  else if negb (is_image el) then
    let p := elem_props el in
    negb (bool_decide (rp_dir p = rp_dir cur)) ||
    negb (rp_font p =? rp_font cur) ||
    fgt (fabsf (rp_size p - rp_size cur)%Q) 0.1 ||
    negb (bool_decide (rp_script p = rp_script cur)) ||
    negb (bool_decide (rp_lang p = rp_lang cur))
  else false.

(** Lines 1561-1576 and 1593-1608: the run over [n] elements from [start]. *)
Definition make_run (pending : list PositionedElementVariant) (start n : nat)
    (cur : RunProps) : VisualRun :=
  {| firstElementIndexInLineElements := Z.of_nat start;
     numElementsInRun := Z.of_nat n;
     direction := rp_dir cur;
     scriptTagUsed := rp_script cur; languageTagUsed := rp_lang cur;
     runFont := rp_font cur; runFontSize := rp_size cur;
     runVisualAdvanceX :=
       foldl (fun acc el => (acc + el_advance el)%Q) 0%Q (take n (drop start pending)) |}.

(** The loop of lines 1525-1609; [i] is the index of the head of [rest] and
    [prev] the element before it. *)
Fixpoint build_visual_runs (image_props : RunProps)
    (pending : list PositionedElementVariant) (i : nat)
    (prev : option PositionedElementVariant) (rest : list PositionedElementVariant)
    (start : nat) (cur : RunProps) (runs : list VisualRun) : list VisualRun :=
  match rest with
  | [] =>
      if (start <? length pending)%nat
      then runs ++ [make_run pending start (length pending - start) cur]
      else runs
  | el :: rest' =>
      let split :=
        (start <? i)%nat &&
        match prev with Some p => splitRun cur p el | None => false end in
      if split
      then build_visual_runs image_props pending (S i) (Some el) rest' i
             (if is_image el then image_props else elem_props el)
             (runs ++ [make_run pending start (i - start) cur])
      else build_visual_runs image_props pending (S i) (Some el) rest' start cur runs
  end.

(** Lines 1491-1610. *)
Definition visual_runs_of (e : Engine) (pStyle : ParagraphStyle)
    (paraDefaultFontSize : float) (pending : list PositionedElementVariant)
    : list VisualRun :=
  match pending with
  | [] => []
  | first :: _ =>
      let f0 := fontId (defaultCharacterStyle pStyle) in
      let f1 := if IsFontValid e f0 then f0 else defaultFontId_ e in
      let f2 :=
        if negb (IsFontValid e f1) && negb (bool_decide (loadedFonts_ e = ∅))
        then default INVALID_FONT_ID (first_key (loadedFonts_ e)) else f1 in
      let size0 := fontSize (defaultCharacterStyle pStyle) in
      let defaults :=
        {| rp_dir := UNSPECIFIED; rp_font := f2;
           rp_size := if fle size0 0 then paraDefaultFontSize else size0;
           rp_script := tag_or "auto" (scriptTag (defaultCharacterStyle pStyle));
           rp_lang := tag_or "und" (languageTag (defaultCharacterStyle pStyle)) |} in
      let cur0 := if is_image first then defaults else elem_props first in
      let image_props :=
        {| rp_dir := UNSPECIFIED; rp_font := f1; rp_size := paraDefaultFontSize;
           rp_script := "auto"; rp_lang := "und" |} in
      build_visual_runs image_props pending 0 None pending 0 cur0 []
  end.

(** A map vector resized to [n] zeros and then filled by ICU (lines
    1628-1634); a failing call leaves the zeros. *)
Definition fill_map (n : Z) (r : option (list Z)) : list Z :=
  match r with
  | Some m => take (Z.to_nat n) (m ++ replicate (Z.to_nat n) 0)
  | None => replicate (Z.to_nat n) 0
  end.

(** Lines 1613-1643: the two per-line bidi maps, given the maps of the
    template. *)
Definition line_bidi_maps (icu : ICU) (sourceText : list Z) (startByte endByte : Z)
    (paragraphBiDiLevelForLineMap : Z) (template_maps : list Z * list Z)
    : list Z * list Z :=
  let lineU8Len := u32 (endByte - startByte) in
  if (0 <? lineU8Len) && (endByte <=? len sourceText) then
    let lineU16_for_map := Utf8ToUtf16 icu (substr sourceText startByte lineU8Len) in
    if negb (bool_decide (lineU16_for_map = [])) then
      if ubidi_line_setPara icu lineU16_for_map paragraphBiDiLevelForLineMap then
        let n := ubidi_getLength icu lineU16_for_map paragraphBiDiLevelForLineMap in
        if 0 <? n then
          (fill_map n (ubidi_getVisualMap icu lineU16_for_map paragraphBiDiLevelForLineMap),
           fill_map n (ubidi_getLogicalMap icu lineU16_for_map paragraphBiDiLevelForLineMap))
        else ([], [])
      else template_maps
    else template_maps
  else template_maps.

(** Lines 1454-1465: the alignment shift of a line. *)
Definition lineShiftX_of (pStyle : ParagraphStyle) (isFirstLineOfPara : bool)
    (lineWidth_ : float) : float :=
  let linePhysicalStartX := if isFirstLineOfPara then firstLineIndent pStyle else 0%Q in
  let visualLineWidthWithIndentActual := (linePhysicalStartX + lineWidth_)%Q in
  let w0 := if fgt (wrapWidth pStyle) 0 then wrapWidth pStyle
            else visualLineWidthWithIndentActual in
  let effectiveWrapWidthForAlign :=
    if flt w0 0.01 && fgt visualLineWidthWithIndentActual 0.01
    then visualLineWidthWithIndentActual else w0 in
  match alignment pStyle with
  | RIGHT =>
      if flt visualLineWidthWithIndentActual effectiveWrapWidthForAlign
      then (effectiveWrapWidthForAlign - visualLineWidthWithIndentActual)%Q else 0%Q
  | CENTER =>
      if flt visualLineWidthWithIndentActual effectiveWrapWidthForAlign
      then ((effectiveWrapWidthForAlign - visualLineWidthWithIndentActual) / 2)%Q else 0%Q
  | _ => 0%Q
  end.

Definition set_elements_lines (tb : TextBlock) (els : list PositionedElementVariant)
    (lns : list LineLayoutInfo) : TextBlock :=
  {| elements := els; lines := lns; overallBounds := overallBounds tb;
     paragraphStyleUsed := paragraphStyleUsed tb;
     sourceTextConcatenated := sourceTextConcatenated tb;
     sourceSpansCopied := sourceSpansCopied tb |}.

(** The test of lines 1431-1437: the call returns without adding a line. *)
Definition finalize_skips (textBlock : TextBlock)
    (pendingElements : list PositionedElementVariant) (lineInfoTemplate : LineLayoutInfo)
    (nextLineU8StartOffsetInFull : Z) : bool :=
  bool_decide (pendingElements = []) &&
  negb (bool_decide (lines textBlock = []) &&
        bool_decide (sourceTextConcatenated textBlock = []) &&
        (sourceTextByteStartIndexInBlockText lineInfoTemplate =? 0)) &&
  (nextLineU8StartOffsetInFull <=? sourceTextByteStartIndexInBlockText lineInfoTemplate) &&
  negb (bool_decide (sourceTextConcatenated textBlock = [])) &&
  negb (sourceTextByteStartIndexInBlockText lineInfoTemplate =? 0).

(** The line record built by [finalizeCurrentLine] (lines 1439-1643). *)
Definition finalizedLine_of (icu : ICU) (e : Engine) (textBlock : TextBlock)
    (pendingElements : list PositionedElementVariant) (lineInfoTemplate : LineLayoutInfo)
    (committedLineWidthNoIndent lineMaxAscent lineMaxDescent currentLineBoxTopY : float)
    (pStyle : ParagraphStyle) (defaultPStyleMetrics : ScaledFontMetrics)
    (paraDefaultFontSize : float) (nextLineU8StartOffsetInFull : Z)
    (paragraphBiDiLevelForLineMap : Z) : LineLayoutInfo :=
  let maxAscent :=
    if fgt lineMaxAscent 0.001 || bool_decide (pendingElements = [])
    then lineMaxAscent else ascent defaultPStyleMetrics in
  let maxDescent :=
    if fgt lineMaxDescent 0.001 || bool_decide (pendingElements = [])
    then lineMaxDescent else descent defaultPStyleMetrics in
  let boxHeight :=
    calculateLineBoxHeight pStyle defaultPStyleMetrics maxAscent maxDescent
      paraDefaultFontSize in
  let maps :=
    line_bidi_maps icu (sourceTextConcatenated textBlock)
      (sourceTextByteStartIndexInBlockText lineInfoTemplate)
      nextLineU8StartOffsetInFull paragraphBiDiLevelForLineMap
      (visualToLogicalMap lineInfoTemplate, logicalToVisualMap lineInfoTemplate) in
  {| firstElementIndexInBlockElements := len_elements textBlock;
     numElementsInLine := Z.of_nat (length pendingElements);
     lineBoxY := currentLineBoxTopY;
     baselineYInBox := baselineInBox pStyle boxHeight maxAscent maxDescent;
     lineWidth := committedLineWidthNoIndent;
     lineBoxHeight := boxHeight;
     maxContentAscent := maxAscent;
     maxContentDescent := maxDescent;
     sourceTextByteStartIndexInBlockText :=
       sourceTextByteStartIndexInBlockText lineInfoTemplate;
     sourceTextByteEndIndexInBlockText := nextLineU8StartOffsetInFull;
     visualRuns := visual_runs_of e pStyle paraDefaultFontSize pendingElements;
     visualToLogicalMap := fst maps;
     logicalToVisualMap := snd maps |}.

(** [finalizeCurrentLine] (lines 1413-1647): the block, the top of the next
    line box and the running maximum of the visual line widths.  The
    parameter [paragraphFullU16Text] is not read by the source. *)
Definition finalizeCurrentLine (icu : ICU) (e : Engine) (textBlock : TextBlock)
    (pendingElements : list PositionedElementVariant) (lineInfoTemplate : LineLayoutInfo)
    (committedLineWidthNoIndent lineMaxAscent lineMaxDescent currentLineBoxTopY : float)
    (isFirstLineOfPara : bool)
    (pStyle : ParagraphStyle) (defaultPStyleMetrics : ScaledFontMetrics)
    (paraDefaultFontSize : float) (nextLineU8StartOffsetInFull : Z)
    (overallMaxVisualLineWidthInOut : float)
    (paragraphBiDiLevelForLineMap : Z) : TextBlock * float * float :=
  if finalize_skips textBlock pendingElements lineInfoTemplate nextLineU8StartOffsetInFull
  then (textBlock, currentLineBoxTopY, overallMaxVisualLineWidthInOut)
  else
    let finalizedLine :=
      finalizedLine_of icu e textBlock pendingElements lineInfoTemplate
        committedLineWidthNoIndent lineMaxAscent lineMaxDescent currentLineBoxTopY
        pStyle defaultPStyleMetrics paraDefaultFontSize nextLineU8StartOffsetInFull
        paragraphBiDiLevelForLineMap in
    let linePhysicalStartX := if isFirstLineOfPara then firstLineIndent pStyle else 0%Q in
    let visualLineWidthWithIndentActual :=
      (linePhysicalStartX + committedLineWidthNoIndent)%Q in
    let lineShiftX := lineShiftX_of pStyle isFirstLineOfPara committedLineWidthNoIndent in
    let placed :=
      if fgt (fabsf lineShiftX) 0.001
      then map (shift_x lineShiftX) pendingElements else pendingElements in
    (set_elements_lines textBlock (elements textBlock ++ placed)
       (lines textBlock ++ [finalizedLine]),
     (currentLineBoxTopY + lineBoxHeight finalizedLine)%Q,
     fmaxf overallMaxVisualLineWidthInOut
       (visualLineWidthWithIndentActual + (if fgt lineShiftX 0 then lineShiftX else 0))%Q).

(** ** Layout (lines 987-1409) *)

Record SpanMapEntry := {
  u8_start_offset_in_full : Z;
  u8_length_in_full : Z;
  u16_start_offset_in_full : Z;
  u16_length_in_full : Z;
  originalSpanIndex : Z
}.

(** The text a span contributes: U+FFFC for an image span without text
    (line 1037). *)
Definition text_to_process (span : TextSpan) : list Z :=
  if isImage (style span) && bool_decide (text span = []) then [239; 191; 188]
  else text span.

(** Lines 1034-1044: the concatenated text and the span map. *)
Fixpoint build_span_map (icu : ICU) (spans : list TextSpan) (i : Z)
    (currentU8BytePosInFull currentU16CodeUnitPosInFull : Z)
    : list Z * list SpanMapEntry :=
  match spans with
  | [] => ([], [])
  | span :: rest =>
      let t := text_to_process span in
      let u8LenOfSpanText := u32 (len t) in
      let u16LenOfSpanText := u32 (len (Utf8ToUtf16 icu t)) in
      let '(full, entries) :=
        build_span_map icu rest (i + 1)
          (u32 (currentU8BytePosInFull + u8LenOfSpanText))
          (u32 (currentU16CodeUnitPosInFull + u16LenOfSpanText)) in
      (t ++ full,
       {| u8_start_offset_in_full := currentU8BytePosInFull;
          u8_length_in_full := u8LenOfSpanText;
          u16_start_offset_in_full := currentU16CodeUnitPosInFull;
          u16_length_in_full := u16LenOfSpanText;
          originalSpanIndex := i |} :: entries)
  end.

(** What stays fixed during the segment loop. *)
Record LayoutCtx := {
  c_icu : ICU;
  c_hb : HarfBuzz;
  c_spans : list TextSpan;
  c_paragraphStyle : ParagraphStyle;
  paraDefFontId : FontId;
  paraDefFontSize : float;
  paraDefaultMetrics : ScaledFontMetrics;
  spanMap_local : list SpanMapEntry;
  fullU16Text_local : list Z;
  actualParaLevel : Z;
  breakKind : BreakKind;
  localeForBreaks : string
}.

Definition len_spans (ctx : LayoutCtx) : Z := Z.of_nat (length (c_spans ctx)).

(** The shaped elements of one segment (lines 1097-1100). *)
Record SegmentAcc := {
  elements_for_this_segment : list PositionedElementVariant;
  max_ascent_for_this_segment : float;
  max_descent_for_this_segment : float;
  seg_engine : Engine
}.

Definition nth_span (spans : list TextSpan) (i : Z) : option TextSpan :=
  if i <? 0 then None else spans !! Z.to_nat i.

(** Lines 1196-1200: the first span-map entry that contains the byte and
    belongs to an image span. *)
Fixpoint find_image_span (spans : list TextSpan) (entries : list SpanMapEntry)
    (placeholder_global_u8_start : Z) : option Z :=
  match entries with
  | [] => None
  | mapEntry :: rest =>
      if (u8_start_offset_in_full mapEntry <=? placeholder_global_u8_start) &&
         (placeholder_global_u8_start <?
            u32 (u8_start_offset_in_full mapEntry + u8_length_in_full mapEntry)) &&
         match nth_span spans (originalSpanIndex mapEntry) with
         | Some sp => isImage (style sp)
         | None => false
         end
      then Some (originalSpanIndex mapEntry)
      else find_image_span spans rest placeholder_global_u8_start
  end.

(** Lines 1202-1219: the positioned image for a U+FFFC cluster. *)
Definition make_image (imgSpanStyle : CharacterStyle) (imageOriginalSpanIdx : Z)
    (runFontSize : float) (refMetricsForImgVAlign : ScaledFontMetrics)
    (x : float) : PositionedImage :=
  let p := imageParams imgSpanStyle in
  let w := if fgt (displayWidth p) 0 then displayWidth p
           else if 0 <? tex_id (texture p) then of_int (tex_width (texture p))
                else runFontSize in
  let h := if fgt (displayHeight p) 0 then displayHeight p
           else if 0 <? tex_id (texture p) then of_int (tex_height (texture p))
                else runFontSize in
  let '(asc, desc, imgRelBaselineY) :=
    match vAlign p with
    | MIDDLE_OF_TEXT =>
        let tMidY :=
          if fgt (xHeight refMetricsForImgVAlign) 0.01
          then (xHeight refMetricsForImgVAlign / 2)%Q
          else ((ascent refMetricsForImgVAlign - descent refMetricsForImgVAlign) / 2)%Q in
        (fmaxf 0 (tMidY + h / 2)%Q, fmaxf 0 (h / 2 - tMidY)%Q, (- (tMidY + h / 2))%Q)
    | TEXT_TOP =>
        (ascent refMetricsForImgVAlign,
         fmaxf 0 (h - ascent refMetricsForImgVAlign)%Q,
         (- ascent refMetricsForImgVAlign)%Q)
    | TEXT_BOTTOM =>
        (fmaxf 0 (h - descent refMetricsForImgVAlign)%Q,
         descent refMetricsForImgVAlign,
         (descent refMetricsForImgVAlign - h)%Q)
    | _ => (h, 0%Q, (- h)%Q)
    end in
  {| i_position := {| vx := x; vy := imgRelBaselineY |};
     i_width := w; i_height := h; penAdvanceX := 0;
     i_imageParams := p;
     i_sourceSpanIndex := imageOriginalSpanIdx;
     i_sourceCharByteOffsetInSpan := 0;
     i_numSourceCharBytesInSpan := 3;
     i_ascent := fmaxf 0 asc; i_descent := fmaxf 0 desc |}.

(** What is fixed while the glyphs of one visual run are emitted. *)
Record RunCtx := {
  runU8 : list Z;
  runU8StartByteInFull : Z;
  runDominantSpanIdx : Z;
  runStyle : CharacterStyle;
  runFontId : FontId;
  run_fontSize : float;
  runFontMetrics : ScaledFontMetrics;
  run_direction : BiDiDirectionHint;
  penXWithinSegment_for_icu_runs : float
}.

(** Lines 1239-1269: span index, byte offset and byte count of a glyph. *)
Definition glyph_provenance (ctx : LayoutCtx) (rc : RunCtx)
    (cluster_u8_offset_in_runU8 num_bytes : Z) : Z * Z * Z :=
  let sourceSpanIndex := u32 (runDominantSpanIdx rc) in
  let num0 := u16 num_bytes in
  let cluster_absolute_start_in_full_u8 :=
    u32 (runU8StartByteInFull rc + cluster_u8_offset_in_runU8) in
  let originalSpan_start_in_full_u8 :=
    match spanMap_local ctx !! Z.to_nat sourceSpanIndex with
    | Some en => u8_start_offset_in_full en
    | None => 0
    end in
  let '(off1, num1) :=
    if originalSpan_start_in_full_u8 <=? cluster_absolute_start_in_full_u8
    then (u32 (cluster_absolute_start_in_full_u8 - originalSpan_start_in_full_u8), num0)
    else (0, 0) in
  match nth_span (c_spans ctx) sourceSpanIndex with
  | Some sp =>
      let effectiveOriginalSpanText := text_to_process sp in
      let n := len effectiveOriginalSpanText in
      if n <? off1 then (sourceSpanIndex, u32 n, 0)
      else if n <? u32 (off1 + num1) then (sourceSpanIndex, off1, u16 (n - off1))
      else (sourceSpanIndex, off1, num1)
  | None => (sourceSpanIndex, 0, 0)
  end.

(** Lines 1166-1178: the number of source bytes of the cluster of a
    glyph. *)
Definition cluster_num_bytes (rc : RunCtx) (hg : hb_glyph) : Z :=
  let cluster_u8_offset_in_runU8 := cluster hg in
  if cluster_u8_offset_in_runU8 <? len (runU8 rc) then
    let n := snd (GetNextCodepointFromUTF8
                    (drop (Z.to_nat cluster_u8_offset_in_runU8) (runU8 rc))) in
    if len (runU8 rc) <? u32 (cluster_u8_offset_in_runU8 + n)
    then len (runU8 rc) - cluster_u8_offset_in_runU8 else n
  else 0.

(** Lines 1175-1189: the leading codepoint of the cluster, 0 when the
    cluster has no bytes. *)
Definition original_codepoint_for_glyph (rc : RunCtx) (hg : hb_glyph) : Z :=
  let char_in_cluster_utf8_preview :=
    if (cluster hg <? len (runU8 rc)) && (0 <? cluster_num_bytes rc hg)
    then substr (runU8 rc) (cluster hg) (cluster_num_bytes rc hg) else [] in
  match char_in_cluster_utf8_preview with
  | [] => 0
  | _ => fst (GetNextCodepointFromUTF8 char_in_cluster_utf8_preview)
  end.

(** Lines 1228-1302: the positioned glyph, from the shaped glyph, the pen
    of the run, and what [getCachedGlyphByGID] returned. *)
Definition make_glyph (ctx : LayoutCtx) (rc : RunCtx) (hg : hb_glyph)
    (current_hb_run_pen_x current_hb_run_pen_y : float)
    (shapedGlyphRenderData : FTCachedGlyph) (actualFontForGIDCacheLookup : FontId)
    (fonts : gmap Z FTFontData) : PositionedGlyph :=
  let xOffset_ := (of_int (x_offset hg) / 64)%Q in
  let yOffset_ := (of_int (y_offset hg) / 64)%Q in
  let xAdvance_ := (of_int (x_advance hg) / 64)%Q in
  let yAdvance_ := (of_int (y_advance hg) / 64)%Q in
  let prov := glyph_provenance ctx rc (cluster hg) (cluster_num_bytes rc hg) in
  let actualFontDataUsed := fonts !! actualFontForGIDCacheLookup in
  let sdfSizeForActualFont :=
    match actualFontDataUsed with Some fd => sdfGenSize_of fd | None => 64 end in
  let scaleFactorForMetrics :=
    if (0 <? sdfSizeForActualFont) && fgt (run_fontSize rc) 0
    then (run_fontSize rc / of_int sdfSizeForActualFont)%Q else 1%Q in
  let visual :=
    match actualFontDataUsed with
    | Some fd =>
        match ftFace fd with
        | Some face =>
            if load_glyph_error face (hb_codepoint hg) (roundf (run_fontSize rc))
            then (0%Q, xAdvance_)
            else
              let m := outline_metrics face (hb_codepoint hg) (roundf (run_fontSize rc)) in
              ((of_int (fst m) / 64)%Q, (of_int (fst m) / 64 + of_int (snd m) / 64)%Q)
        | None => (0%Q, xAdvance_)
        end
    | None => (0%Q, xAdvance_)
    end in
  {| glyphId := hb_codepoint hg;
     sourceFont := actualFontForGIDCacheLookup;
     sourceSize := run_fontSize rc;
     g_position :=
       {| vx := (penXWithinSegment_for_icu_runs rc + (current_hb_run_pen_x + xOffset_))%Q;
          vy := (current_hb_run_pen_y - yOffset_)%Q |};
     xAdvance := xAdvance_; yAdvance := yAdvance_;
     xOffset := xOffset_; yOffset := yOffset_;
     g_renderInfo := renderInfo shapedGlyphRenderData;
     g_sourceSpanIndex := fst (fst prov);
     g_sourceCharByteOffsetInSpan := snd (fst prov);
     g_numSourceCharBytesInSpan := snd prov;
     appliedStyle := runStyle rc;
     g_ascent := (ascent_at_cached_size shapedGlyphRenderData * scaleFactorForMetrics)%Q;
     g_descent := (descent_at_cached_size shapedGlyphRenderData * scaleFactorForMetrics)%Q;
     visualLeft := fst visual; visualRight := snd visual;
     visualRunDirectionHint := run_direction rc |}.

(** [elements_for_this_segment.push_back] and the two running maxima. *)
Definition push_element (acc : SegmentAcc) (el : PositionedElementVariant)
    (asc desc : float) (e : Engine) : SegmentAcc :=
  {| elements_for_this_segment := elements_for_this_segment acc ++ [el];
     max_ascent_for_this_segment := fmaxf (max_ascent_for_this_segment acc) asc;
     max_descent_for_this_segment := fmaxf (max_descent_for_this_segment acc) desc;
     seg_engine := e |}.

(** One iteration of the glyph loop (lines 1163-1310): the accumulated
    segment and the pen of the run. *)
Definition glyph_step (ctx : LayoutCtx) (rc : RunCtx)
    (st : SegmentAcc * (float * float)) (hg : hb_glyph) : SegmentAcc * (float * float) :=
  let acc := fst st in
  let current_hb_run_pen_x := fst (snd st) in
  let current_hb_run_pen_y := snd (snd st) in
  let image_span :=
    if original_codepoint_for_glyph rc hg =? 65532
    then find_image_span (c_spans ctx) (spanMap_local ctx)
           (u32 (runU8StartByteInFull rc + cluster hg))
    else None in
  let pen' :=
    ((current_hb_run_pen_x + of_int (x_advance hg) / 64)%Q,
     (current_hb_run_pen_y + of_int (y_advance hg) / 64)%Q) in
  match image_span with
  | Some imageOriginalSpanIdx =>
      let imgSpanStyle :=
        match nth_span (c_spans ctx) imageOriginalSpanIdx with
        | Some sp => style sp
        | None => runStyle rc
        end in
      let pImg :=
        make_image imgSpanStyle imageOriginalSpanIdx (run_fontSize rc) (runFontMetrics rc)
          (penXWithinSegment_for_icu_runs rc +
             (current_hb_run_pen_x + of_int (x_offset hg) / 64))%Q in
      (push_element acc (Image pImg) (i_ascent pImg) (i_descent pImg) (seg_engine acc),
       pen')
  | None =>
      let r := getCachedGlyphByGID (seg_engine acc) (runFontId rc) (hb_codepoint hg) in
      let pGlyph :=
        make_glyph ctx rc hg current_hb_run_pen_x current_hb_run_pen_y
          (fst (fst r)) (snd (fst r)) (loadedFonts_ (snd r)) in
      (push_element acc (Glyph pGlyph)
         (g_ascent pGlyph - yOffset pGlyph)%Q (g_descent pGlyph + yOffset pGlyph)%Q
         (snd r),
       pen')
  end.

(** Lines 1126-1134: the span that contains the first byte of the run. *)
Fixpoint find_dominant_span (nspans textLen : Z) (entries : list SpanMapEntry)
    (runU8Start : Z) : Z :=
  match entries with
  | [] => 0
  | mapEntry :: rest =>
      let spanU8EndInFull :=
        u32 (u8_start_offset_in_full mapEntry + u8_length_in_full mapEntry) in
      if ((u8_start_offset_in_full mapEntry <=? runU8Start) &&
          (runU8Start <? spanU8EndInFull)) ||
         ((runU8Start =? spanU8EndInFull) && (spanU8EndInFull =? textLen) &&
          (originalSpanIndex mapEntry =? nspans - 1))
      then originalSpanIndex mapEntry
      else find_dominant_span nspans textLen rest runU8Start
  end.

(** One visual run of a segment (lines 1108-1314): the accumulated segment
    and [penXWithinSegment_for_icu_runs]. *)
Definition run_step (ctx : LayoutCtx) (textLen : Z) (segmentToShapeU16 : list Z)
    (lastU16BreakPos : Z) (st : SegmentAcc * float) (run : bool * Z * Z)
    : SegmentAcc * float :=
  let acc := fst st in
  let penX := snd st in
  let isLTR := fst (fst run) in
  let logicalStartU16InSegment := snd (fst run) in
  let runLengthU16InSegment := snd run in
  if runLengthU16InSegment =? 0 then st
  else
    let e := seg_engine acc in
    let runU16 := substr segmentToShapeU16 logicalStartU16InSegment runLengthU16InSegment in
    let runU8_ := Utf16ToUtf8 (c_icu ctx) runU16 in
    let logicalStartInOriginalSource := lastU16BreakPos + logicalStartU16InSegment in
    let runStart :=
      u32 (len (Utf16ToUtf8 (c_icu ctx)
                  (substr (fullU16Text_local ctx) 0 logicalStartInOriginalSource))) in
    let idx := find_dominant_span (len_spans ctx) textLen (spanMap_local ctx) runStart in
    let runStyle_ :=
      match nth_span (c_spans ctx) idx with
      | Some sp => style sp
      | None => defaultCharacterStyle (c_paragraphStyle ctx)
      end in
    let runFontId_ :=
      if IsFontValid e (fontId runStyle_) then fontId runStyle_ else paraDefFontId ctx in
    let runFontSize_ :=
      if fgt (fontSize runStyle_) 0 then fontSize runStyle_ else paraDefFontSize ctx in
    match loadedFonts_ e !! runFontId_ with
    | None => st
    | Some fontData =>
        let rc :=
          {| runU8 := runU8_; runU8StartByteInFull := runStart;
             runDominantSpanIdx := idx; runStyle := runStyle_;
             runFontId := runFontId_; run_fontSize := runFontSize_;
             runFontMetrics := GetScaledFontMetrics e runFontId_ runFontSize_;
             run_direction := if isLTR then HintLTR else HintRTL;
             penXWithinSegment_for_icu_runs := penX |} in
        let glyphs :=
          hb_shape (c_hb ctx) (hbFont fontData) (roundf runFontSize_) runU8_ isLTR
            (tag_or "auto" (scriptTag runStyle_)) (tag_or "und" (languageTag runStyle_))
            (bool_decide (scriptTag runStyle_ = EmptyString)) in
        let r := foldl (glyph_step ctx rc) (acc, (0%Q, 0%Q)) glyphs in
        (fst r, (penX + fst (snd r))%Q)
    end.

(** The variables of the segment loop (lines 1072-1082).  [icu_status_failed]
    is [U_FAILURE(icu_status)]: once set, the ICU calls that take the status
    return at once. *)
Record LoopState := {
  textBlock : TextBlock;
  engine : Engine;
  pendingLineElements : list PositionedElementVariant;
  currentLineCommittedWidth : float;
  currentLineMaxAscent : float;
  currentLineMaxDescent : float;
  currentLineBoxTopY : float;
  isFirstLineOfParagraph : bool;
  overallMaxVisualLineWidth : float;
  currentLineInfoTemplate : LineLayoutInfo;
  lastU16BreakPos : Z;
  icu_status_failed : bool
}.

(** [currentLineInfoTemplate] after a reset (lines 1077-1080, 1332-1335,
    1359-1362). *)
Definition newLineTemplate (ctx : LayoutCtx) (tb : TextBlock) (startByte : Z)
    : LineLayoutInfo :=
  {| firstElementIndexInBlockElements := len_elements tb;
     numElementsInLine := 0;
     lineBoxY := 0; baselineYInBox := 0; lineWidth := 0; lineBoxHeight := 0;
     maxContentAscent := ascent (paraDefaultMetrics ctx);
     maxContentDescent := descent (paraDefaultMetrics ctx);
     sourceTextByteStartIndexInBlockText := startByte;
     sourceTextByteEndIndexInBlockText := 0;
     visualRuns := []; visualToLogicalMap := []; logicalToVisualMap := [] |}.

(** Lines 1097-1317: the elements of the segment, its width and the ICU
    status. *)
Definition shape_segment (ctx : LayoutCtx) (textLen : Z) (e : Engine) (failed : bool)
    (segmentToShapeU16 : list Z) (lastU16BreakPos_ : Z) : SegmentAcc * float * bool :=
  let acc0 :=
    {| elements_for_this_segment := [];
       max_ascent_for_this_segment := 0; max_descent_for_this_segment := 0;
       seg_engine := e |} in
  match segmentToShapeU16 with
  | [] => (acc0, 0%Q, failed)
  | _ =>
      match (if failed then None
             else ubidi_visualRuns (c_icu ctx) segmentToShapeU16 (actualParaLevel ctx)) with
      | None => (acc0, 0%Q, true)
      | Some runs =>
          (foldl (run_step ctx textLen segmentToShapeU16 lastU16BreakPos_) (acc0, 0%Q) runs,
           false)
      end
  end.

(** The test of lines 1320-1323: the pending line is finalized before the
    segment is committed. *)
Definition wrap_decision (pStyle : ParagraphStyle) (isFirstLineOfParagraph_ : bool)
    (currentLineCommittedWidth_ : float)
    (pendingLineElements_ : list PositionedElementVariant)
    (width_of_this_segment : float) : bool :=
  let lineStartXWithIndent :=
    if isFirstLineOfParagraph_ then firstLineIndent pStyle else 0%Q in
  fgt (wrapWidth pStyle) 0 &&
  fgt (lineStartXWithIndent + currentLineCommittedWidth_ + width_of_this_segment)%Q
      (wrapWidth pStyle) &&
  negb (bool_decide (pendingLineElements_ = [])) &&
  fgt width_of_this_segment 0.001.

(** A call of [finalizeCurrentLine] from the loop followed by the reset of
    the pending line (lines 1324-1335 and 1351-1362). *)
Definition finalize_and_reset (ctx : LayoutCtx) (st : LoopState) (nextStart : Z)
    : LoopState :=
  let '(tb, topY, overall) :=
    finalizeCurrentLine (c_icu ctx) (engine st) (textBlock st) (pendingLineElements st)
      (currentLineInfoTemplate st) (currentLineCommittedWidth st)
      (currentLineMaxAscent st) (currentLineMaxDescent st) (currentLineBoxTopY st)
      (isFirstLineOfParagraph st) (c_paragraphStyle ctx) (paraDefaultMetrics ctx)
      (paraDefFontSize ctx) nextStart (overallMaxVisualLineWidth st)
      (actualParaLevel ctx) in
  {| textBlock := tb; engine := engine st;
     pendingLineElements := [];
     currentLineCommittedWidth := 0;
     currentLineMaxAscent := ascent (paraDefaultMetrics ctx);
     currentLineMaxDescent := descent (paraDefaultMetrics ctx);
     currentLineBoxTopY := topY;
     isFirstLineOfParagraph := false;
     overallMaxVisualLineWidth := overall;
     currentLineInfoTemplate := newLineTemplate ctx tb nextStart;
     lastU16BreakPos := lastU16BreakPos st;
     icu_status_failed := icu_status_failed st |}.

(** Lines 1319-1347: line breaking and commitment of the shaped segment. *)
Definition commit_segment (ctx : LayoutCtx) (st : LoopState)
    (segmentU8StartByteInFull : Z) (seg : SegmentAcc) (width_of_this_segment : float)
    : LoopState :=
  let st1 :=
    if wrap_decision (c_paragraphStyle ctx) (isFirstLineOfParagraph st)
         (currentLineCommittedWidth st) (pendingLineElements st) width_of_this_segment
    then finalize_and_reset ctx st segmentU8StartByteInFull
    else st in
  match elements_for_this_segment seg with
  | [] => st1
  | els =>
      {| textBlock := textBlock st1; engine := engine st1;
         pendingLineElements :=
           pendingLineElements st1 ++ map (shift_x (currentLineCommittedWidth st1)) els;
         currentLineCommittedWidth :=
           (currentLineCommittedWidth st1 + width_of_this_segment)%Q;
         currentLineMaxAscent :=
           fmaxf (currentLineMaxAscent st1) (max_ascent_for_this_segment seg);
         currentLineMaxDescent :=
           fmaxf (currentLineMaxDescent st1) (max_descent_for_this_segment seg);
         currentLineBoxTopY := currentLineBoxTopY st1;
         isFirstLineOfParagraph := isFirstLineOfParagraph st1;
         overallMaxVisualLineWidth := overallMaxVisualLineWidth st1;
         currentLineInfoTemplate := currentLineInfoTemplate st1;
         lastU16BreakPos := lastU16BreakPos st1;
         icu_status_failed := icu_status_failed st1 |}
  end.

Definition set_engine_status_pos (st : LoopState) (e : Engine) (failed : bool) (pos : Z)
    : LoopState :=
  {| textBlock := textBlock st; engine := e;
     pendingLineElements := pendingLineElements st;
     currentLineCommittedWidth := currentLineCommittedWidth st;
     currentLineMaxAscent := currentLineMaxAscent st;
     currentLineMaxDescent := currentLineMaxDescent st;
     currentLineBoxTopY := currentLineBoxTopY st;
     isFirstLineOfParagraph := isFirstLineOfParagraph st;
     overallMaxVisualLineWidth := overallMaxVisualLineWidth st;
     currentLineInfoTemplate := currentLineInfoTemplate st;
     lastU16BreakPos := pos;
     icu_status_failed := failed |}.

(** [s.find(u'\n')]: the index of the first newline, if any. *)
Fixpoint find_newline (s : list Z) (i : Z) : option Z :=
  match s with
  | [] => None
  | c :: rest => if c =? 10 then Some i else find_newline rest (i + 1)
  end.

(** The break position of one iteration (lines 1085-1089) and whether the
    iterator reported the end. *)
Definition next_break (ctx : LayoutCtx) (lastU16BreakPos_ : Z) : Z * bool :=
  let n := len (fullU16Text_local ctx) in
  let c0 :=
    ubrk_following (c_icu ctx) (breakKind ctx) (localeForBreaks ctx)
      (fullU16Text_local ctx) lastU16BreakPos_ in
  let atEndOfParagraph := c0 =? UBRK_DONE in
  let c1 := if atEndOfParagraph then n else c0 in
  let c2 :=
    if (lastU16BreakPos_ =? c1) && negb atEndOfParagraph && (c1 <? n) then c1 + 1 else c1 in
  (if n <? c2 then n else c2, atEndOfParagraph).

(** The byte offset of a UTF-16 position of the paragraph (lines 1092,
    1350). *)
Definition u8_offset_of (ctx : LayoutCtx) (u16pos : Z) : Z :=
  u32 (len (Utf16ToUtf8 (c_icu ctx) (substr (fullU16Text_local ctx) 0 u16pos))).

(** One iteration of the segment loop (lines 1085-1367): the new state and
    whether the loop is left by the [break] of line 1367. *)
Definition segment_step (ctx : LayoutCtx) (st : LoopState) : LoopState * bool :=
  let n := len (fullU16Text_local ctx) in
  let textLen := len (sourceTextConcatenated (textBlock st)) in
  let last := lastU16BreakPos st in
  let '(currentU16BreakPos, atEndOfParagraph) := next_break ctx last in
  let segmentU16 := substr (fullU16Text_local ctx) last (currentU16BreakPos - last) in
  let segmentU8StartByteInFull := u8_offset_of ctx last in
  let newlinePosInSegmentU16 := find_newline segmentU16 0 in
  let segmentToShapeU16 :=
    match newlinePosInSegmentU16 with
    | Some p => substr segmentU16 0 p
    | None => segmentU16
    end in
  let '(seg, width_of_this_segment, failed) :=
    shape_segment ctx textLen (engine st) (icu_status_failed st) segmentToShapeU16 last in
  let st1 := set_engine_status_pos st (seg_engine seg) failed last in
  let st2 := commit_segment ctx st1 segmentU8StartByteInFull seg width_of_this_segment in
  let st3 :=
    match newlinePosInSegmentU16 with
    | Some _ =>
        let after := last + len segmentToShapeU16 + 1 in
        let u8OffsetAfterNewline := u8_offset_of ctx after in
        let st' := finalize_and_reset ctx st2 u8OffsetAfterNewline in
        set_engine_status_pos st' (engine st') (icu_status_failed st') after
    | None => set_engine_status_pos st2 (engine st2) (icu_status_failed st2) currentU16BreakPos
    end in
  (st3, atEndOfParagraph && (n <=? lastU16BreakPos st3)).

(** The [while] of lines 1083-1368.  Every iteration moves
    [lastU16BreakPos] forward when the break iterator honours its contract;
    [fuel] bounds the number of iterations and [None] means it ran out. *)
Fixpoint layout_loop (fuel : nat) (ctx : LayoutCtx) (st : LoopState) : option LoopState :=
  let n := len (fullU16Text_local ctx) in
  if (lastU16BreakPos st <? n) ||
     ((lastU16BreakPos st =? 0) && bool_decide (fullU16Text_local ctx = []) &&
      bool_decide (lines (textBlock st) = []))
  then
    if (n <=? lastU16BreakPos st) && negb (bool_decide (fullU16Text_local ctx = []))
    then Some st
    else
      match fuel with
      | O => None
      | S fuel' =>
          let '(st', leave) := segment_step ctx st in
          if leave then Some st' else layout_loop fuel' ctx st'
      end
  else Some st.

(** Lines 1396-1404: an image aligned on the line box. *)
Definition align_on_line (line_info : LineLayoutInfo) (el : PositionedElementVariant)
    : PositionedElementVariant :=
  match el with
  | Glyph _ => el
  | Image pImg =>
      match vAlign (i_imageParams pImg) with
      | LINE_TOP =>
          Image {| i_position := {| vx := vx (i_position pImg);
                                    vy := (- baselineYInBox line_info)%Q |};
                   i_width := i_width pImg; i_height := i_height pImg;
                   penAdvanceX := penAdvanceX pImg; i_imageParams := i_imageParams pImg;
                   i_sourceSpanIndex := i_sourceSpanIndex pImg;
                   i_sourceCharByteOffsetInSpan := i_sourceCharByteOffsetInSpan pImg;
                   i_numSourceCharBytesInSpan := i_numSourceCharBytesInSpan pImg;
                   i_ascent := baselineYInBox line_info;
                   i_descent := fmaxf 0 (i_height pImg - baselineYInBox line_info)%Q |}
      | LINE_BOTTOM =>
          let d := (lineBoxHeight line_info - baselineYInBox line_info)%Q in
          Image {| i_position := {| vx := vx (i_position pImg);
                                    vy := (d - i_height pImg)%Q |};
                   i_width := i_width pImg; i_height := i_height pImg;
                   penAdvanceX := penAdvanceX pImg; i_imageParams := i_imageParams pImg;
                   i_sourceSpanIndex := i_sourceSpanIndex pImg;
                   i_sourceCharByteOffsetInSpan := i_sourceCharByteOffsetInSpan pImg;
                   i_numSourceCharBytesInSpan := i_numSourceCharBytesInSpan pImg;
                   i_ascent := fmaxf 0 (i_height pImg - d)%Q;
                   i_descent := d |}
      | _ => el
      end
  end.

(** Lines 1391-1407: the elements of every line are visited by index. *)
Definition postprocess_line (els : list PositionedElementVariant)
    (line_info : LineLayoutInfo) : list PositionedElementVariant :=
  foldl (fun acc i =>
           alter (align_on_line line_info)
             (Z.to_nat (firstElementIndexInBlockElements line_info) + i)%nat acc)
        els (seq 0 (Z.to_nat (numElementsInLine line_info))).

Definition emptyTextBlock (spans : list TextSpan) (paragraphStyle : ParagraphStyle)
    : TextBlock :=
  {| elements := []; lines := []; overallBounds := zeroRectangle;
     paragraphStyleUsed := paragraphStyle;
     sourceTextConcatenated := []; sourceSpansCopied := spans |}.

Definition set_sourceText (tb : TextBlock) (t : list Z) : TextBlock :=
  {| elements := elements tb; lines := lines tb; overallBounds := overallBounds tb;
     paragraphStyleUsed := paragraphStyleUsed tb;
     sourceTextConcatenated := t; sourceSpansCopied := sourceSpansCopied tb |}.

(** Lines 997-1007. *)
Definition paragraph_defaults (e : Engine) (paragraphStyle : ParagraphStyle)
    : FontId * float * ScaledFontMetrics :=
  let f0 := fontId (defaultCharacterStyle paragraphStyle) in
  let paraDefFontId_ := if IsFontValid e f0 then f0 else defaultFontId_ e in
  let paraDefFontSize_ :=
    if fgt (fontSize (defaultCharacterStyle paragraphStyle)) 0
    then fontSize (defaultCharacterStyle paragraphStyle) else 16%Q in
  let m :=
    if IsFontValid e paraDefFontId_
    then GetScaledFontMetrics e paraDefFontId_ paraDefFontSize_
    else
      {| scale := 1; ascent := (paraDefFontSize_ * 0.75)%Q;
         descent := (paraDefFontSize_ * 0.25)%Q; lineGap := 0;
         recommendedLineHeight := (paraDefFontSize_ * 0.75 + paraDefFontSize_ * 0.25)%Q;
         capHeight := 0; xHeight := (paraDefFontSize_ * 0.45)%Q;
         underlinePosition := 0; underlineThickness := 0;
         strikeoutPosition := 0; strikeoutThickness := 0 |} in
  (paraDefFontId_, paraDefFontSize_, m).

(** Lines 1009-1023: the block returned for an empty span list. *)
Definition emptySpansBlock (paragraphStyle : ParagraphStyle)
    (paraDefaultMetrics_ : ScaledFontMetrics) (paraDefFontSize_ : float) : TextBlock :=
  let h :=
    calculateLineBoxHeight paragraphStyle paraDefaultMetrics_
      (ascent paraDefaultMetrics_) (descent paraDefaultMetrics_) paraDefFontSize_ in
  let emptyLine :=
    {| firstElementIndexInBlockElements := 0; numElementsInLine := 0;
       lineBoxY := 0;
       baselineYInBox :=
         baselineInBox paragraphStyle h (ascent paraDefaultMetrics_)
           (descent paraDefaultMetrics_);
       lineWidth := 0; lineBoxHeight := h;
       maxContentAscent := ascent paraDefaultMetrics_;
       maxContentDescent := descent paraDefaultMetrics_;
       sourceTextByteStartIndexInBlockText := 0;
       sourceTextByteEndIndexInBlockText := 0;
       visualRuns := []; visualToLogicalMap := []; logicalToVisualMap := [] |} in
  {| elements := []; lines := [emptyLine];
     overallBounds := {| rx := 0; ry := 0; rwidth := firstLineIndent paragraphStyle;
                         rheight := h |};
     paragraphStyleUsed := paragraphStyle;
     sourceTextConcatenated := []; sourceSpansCopied := [] |}.

(** Lines 1380-1408: the bounds of the block and the images aligned on
    their line box, from the block, the top of the next line box and the
    largest visual line width. *)
Definition bounds_and_images (ctx : LayoutCtx) (r : TextBlock * float * float) : TextBlock :=
  let '(tb, topY, overall) := r in
  let y0 := match lines tb with [] => 0%Q | front :: _ => lineBoxY front end in
  let h0 := (topY - y0)%Q in
  let h :=
    if bool_decide (lines tb = []) && negb (bool_decide (c_spans ctx = [])) && flt h0 0.01
    then (if fgt (recommendedLineHeight (paraDefaultMetrics ctx)) 0
          then recommendedLineHeight (paraDefaultMetrics ctx)
          else (paraDefFontSize ctx * 1.2)%Q)
    else h0 in
  {| elements := foldl postprocess_line (elements tb) (lines tb);
     lines := lines tb;
     overallBounds := {| rx := 0; ry := y0; rwidth := overall; rheight := h |};
     paragraphStyleUsed := paragraphStyleUsed tb;
     sourceTextConcatenated := sourceTextConcatenated tb;
     sourceSpansCopied := sourceSpansCopied tb |}.

(** Lines 1370-1408: the last line, then the bounds and the images. *)
Definition finish_layout (ctx : LayoutCtx) (st : LoopState) : TextBlock :=
  bounds_and_images ctx
    (if negb (bool_decide (pendingLineElements st = [])) ||
        bool_decide (lines (textBlock st) = [])
     then
       finalizeCurrentLine (c_icu ctx) (engine st) (textBlock st) (pendingLineElements st)
         (currentLineInfoTemplate st) (currentLineCommittedWidth st)
         (currentLineMaxAscent st) (currentLineMaxDescent st) (currentLineBoxTopY st)
         (isFirstLineOfParagraph st) (c_paragraphStyle ctx) (paraDefaultMetrics ctx)
         (paraDefFontSize ctx) (u32 (len (sourceTextConcatenated (textBlock st))))
         (overallMaxVisualLineWidth st) (actualParaLevel ctx)
     else (textBlock st, currentLineBoxTopY st, overallMaxVisualLineWidth st)).

(** The variables of the segment loop as they are initialized (lines
    1072-1082). *)
Definition initialLoopState (ctx : LayoutCtx) (e : Engine) (tb : TextBlock) : LoopState :=
  {| textBlock := tb; engine := e;
     pendingLineElements := [];
     currentLineCommittedWidth := 0;
     currentLineMaxAscent := ascent (paraDefaultMetrics ctx);
     currentLineMaxDescent := descent (paraDefaultMetrics ctx);
     currentLineBoxTopY := 0;
     isFirstLineOfParagraph := true;
     overallMaxVisualLineWidth := 0;
     currentLineInfoTemplate := newLineTemplate ctx tb 0;
     lastU16BreakPos := 0;
     icu_status_failed := false |}.

(** Where the layout stands before the segment loop: it has returned (the
    library is missing, the span list is empty, or an ICU call failed), or
    the loop starts. *)
Inductive LayoutStart :=
  | EarlyReturn (tb : TextBlock)
  | StartLoop (ctx : LayoutCtx) (st0 : LoopState).

(** Lines 988-1082. *)
Definition layout_start (icu : ICU) (hb : HarfBuzz) (e : Engine)
    (spans : list TextSpan) (paragraphStyle : ParagraphStyle) : LayoutStart :=
  let textBlock0 := emptyTextBlock spans paragraphStyle in
  if negb (ftLibrary_ e) then EarlyReturn textBlock0
  else
    let defaults := paragraph_defaults e paragraphStyle in
    let paraDefFontId_ := fst (fst defaults) in
    let paraDefFontSize_ := snd (fst defaults) in
    let paraDefaultMetrics_ := snd defaults in
    match spans with
    | [] => EarlyReturn (emptySpansBlock paragraphStyle paraDefaultMetrics_ paraDefFontSize_)
    | _ =>
        let fullUtf8Text_local := fst (build_span_map icu spans 0 0 0) in
        let spanMap := snd (build_span_map icu spans 0 0 0) in
        let textBlock1 := set_sourceText textBlock0 fullUtf8Text_local in
        let fullU16 := Utf8ToUtf16 icu fullUtf8Text_local in
        if bool_decide (fullU16 = []) && negb (bool_decide (fullUtf8Text_local = []))
        then EarlyReturn textBlock1
        else
          let paraLvlUBIDI :=
            match baseDirection paragraphStyle with
            | RTL => UBIDI_DEFAULT_RTL
            | _ => UBIDI_DEFAULT_LTR
            end in
          match ubidi_paraLevel icu fullU16 paraLvlUBIDI with
          | None => EarlyReturn textBlock1
          | Some level =>
              let locale0 :=
                if bool_decide (languageTag (defaultCharacterStyle paragraphStyle)
                                = EmptyString)
                then uloc_getDefault icu
                else languageTag (defaultCharacterStyle paragraphStyle) in
              let kind0 :=
                match lineBreakStrategy paragraphStyle with
                | ICU_CHARACTER_BOUNDARIES => UBRK_CHARACTER
                | _ => UBRK_WORD
                end in
              let iter : option (BreakKind * string) :=
                if ubrk_open icu kind0 locale0 then Some (kind0, locale0)
                else if ubrk_open icu UBRK_WORD (uloc_getDefault icu)
                     then Some (UBRK_WORD, uloc_getDefault icu) else None in
              match iter with
              | None => EarlyReturn textBlock1
              | Some (kind, locale) =>
                  if negb (ubrk_setText icu kind locale fullU16) then EarlyReturn textBlock1
                  else
                    let ctx :=
                      {| c_icu := icu; c_hb := hb; c_spans := spans;
                         c_paragraphStyle := paragraphStyle;
                         paraDefFontId := paraDefFontId_;
                         paraDefFontSize := paraDefFontSize_;
                         paraDefaultMetrics := paraDefaultMetrics_;
                         spanMap_local := spanMap;
                         fullU16Text_local := fullU16;
                         actualParaLevel := level;
                         breakKind := kind; localeForBreaks := locale |} in
                    StartLoop ctx (initialLoopState ctx e textBlock1)
              end
          end
    end.

(** [LayoutStyledText] (lines 987-1409): the block and the engine after the
    call; [None] only when the segment loop exhausts its fuel, the length of
    the text plus one. *)
Definition LayoutStyledText (icu : ICU) (hb : HarfBuzz) (e : Engine)
    (spans : list TextSpan) (paragraphStyle : ParagraphStyle)
    : option (TextBlock * Engine) :=
  match layout_start icu hb e spans paragraphStyle with
  | EarlyReturn tb => Some (tb, e)
  | StartLoop ctx st0 =>
      match layout_loop (S (length (fullU16Text_local ctx))) ctx st0 with
      | None => None
      | Some st => Some (finish_layout ctx st, engine st)
      end
  end.

(** ** Cursor (lines 1980-2099) *)

(** The fields of [CursorLocationInfo] that locate the cursor in the text;
    the visual position and the cursor metrics are not modelled. *)
Record CursorLocationInfo := {
  byteOffset : Z;
  lineIndex : Z;
  isAtLogicalLineEnd : bool
}.

(** The test of lines 2011-2013 on line [i]. *)
Definition line_selected (tb : TextBlock) (o : Z) (i : nat) (line : LineLayoutInfo) : bool :=
  let last_index := (Z.of_nat i =? Z.of_nat (length (lines tb)) - 1) in
  ((sourceTextByteStartIndexInBlockText line <=? o) &&
   (o <? sourceTextByteEndIndexInBlockText line)) ||
  ((o =? sourceTextByteEndIndexInBlockText line) &&
   (last_index ||
    match lines tb !! S i with
    | Some next => o <? sourceTextByteStartIndexInBlockText next
    | None => false
    end)) ||
  ((o =? len (sourceTextConcatenated tb)) && last_index).

(** The loop of lines 2009-2016: the first line selected, from index [i]. *)
Fixpoint find_target_line (tb : TextBlock) (o : Z) (i : nat) (rest : list LineLayoutInfo)
    : option nat :=
  match rest with
  | [] => None
  | line :: rest' =>
      if line_selected tb o i line then Some i else find_target_line tb o (S i) rest'
  end.

(** [GetCursorInfoFromByteOffset], lines 1985-2023. *)
Definition GetCursorInfoFromByteOffset (tb : TextBlock) (byteOffsetInConcatenatedText : Z)
    : CursorLocationInfo :=
  let o := Z.min byteOffsetInConcatenatedText (u32 (len (sourceTextConcatenated tb))) in
  match lines tb with
  | [] => {| byteOffset := o; lineIndex := 0; isAtLogicalLineEnd := true |}
  | _ =>
      match find_target_line tb o 0 (lines tb) with
      | Some i =>
          {| byteOffset := o; lineIndex := Z.of_nat i;
             isAtLogicalLineEnd :=
               match lines tb !! i with
               | Some line => o =? sourceTextByteEndIndexInBlockText line
               | None => false
               end |}
      | None =>
          let endByte :=
            match last (lines tb) with
            | Some line => sourceTextByteEndIndexInBlockText line
            | None => o
            end in
          {| byteOffset := endByte; lineIndex := Z.of_nat (length (lines tb)) - 1;
             isAtLogicalLineEnd := true |}
      end
  end.

(** ** Example data

    A font covering printable ASCII, a font covering one CJK codepoint, a
    GPU layer that always delivers a page, and the engines obtained from
    the constructor by the public operations. *)

(** A glyph of the example faces: glyphs 3 (space) and 4 have an empty
    bitmap, every other glyph a 10 x 12 bitmap; the advance is half the
    pixel size. *)
Definition ex_slot (gid px : Z) (sdf : bool) : FT_GlyphSlot :=
  {| horiAdvance := px * 32; horiBearingX := 0;
     horiBearingY := if (gid =? 3) || (gid =? 4) then 0 else px * 48;
     metrics_width := px * 32;
     metrics_height := if (gid =? 3) || (gid =? 4) then 0 else px * 64;
     bitmap_buffer := negb ((gid =? 3) || (gid =? 4));
     bitmap_width := if (gid =? 3) || (gid =? 4) then 0 else 10;
     bitmap_rows := if (gid =? 3) || (gid =? 4) then 0 else 12;
     bitmap_left := 0; bitmap_top := 10 |}.

Definition ex_face (cmap : Z -> Z) : FT_Face :=
  {| units_per_EM := 1000;
     ascender := 800; descender := -200; height := 1000;
     underline_position := -100; underline_thickness := 50;
     sfnt_os2 := None;
     char_index := cmap;
     set_pixel_sizes_error := fun _ => false;
     load_glyph_error := fun _ _ => false;
     render_glyph_error := fun _ _ _ => false;
     glyph_slot := ex_slot;
     outline_metrics := fun _ px => (0, px * 32) |}.

(** Printable ASCII maps to glyph [cp - 29] (the space to glyph 3). *)
Definition ex_latin_cmap (cp : Z) : Z :=
  if (32 <=? cp) && (cp <? 127) then cp - 29 else 0.

(** U+4E2D maps to glyph 5. *)
Definition ex_cjk_cmap (cp : Z) : Z := if cp =? 20013 then 5 else 0.

Definition ex_file (cmap : Z -> Z) (handle : Z) : FontFile :=
  {| file_is_open := true; file_read_ok := true;
     new_memory_face := Some (ex_face cmap);
     hb_face_ok := true; hb_font_handle := Some handle;
     hb_parent_ok := true; hb_funcs_ok := true |}.

Definition ex_gpu (idx : Z) : PageAlloc :=
  PageOk {| tex_id := idx + 1; tex_width := 1024; tex_height := 1024 |}.

(** The engine after loading the Latin font (id 1, which becomes the
    default). *)
Definition ex_engine_latin : Engine :=
  snd (LoadFont (newEngine true ex_gpu) (ex_file ex_latin_cmap 1)).

(** Then the CJK font is loaded (id 2) and made the default. *)
Definition ex_engine_two : Engine :=
  SetDefaultFont (snd (LoadFont ex_engine_latin (ex_file ex_cjk_cmap 2))) 2.

(** An ICU that handles ASCII: the conversions are the identity, every
    text is one left-to-right run at level 0, every position is a break,
    and the bidi maps are the identity. *)
Definition ex_is_ascii (s : list Z) : bool :=
  forallb (fun b => (0 <=? b) && (b <? 128)) s.

Definition ex_identity_map (n : nat) : list Z := map Z.of_nat (seq 0 n).

Definition ex_char_following (U : list Z) (p : Z) : Z :=
  if (0 <=? p) && (p <? len U) then p + 1 else UBRK_DONE.

Definition ex_icu_with (following : BreakKind -> list Z -> Z -> Z) : ICU :=
  {| u_strFromUTF8 := fun s => if ex_is_ascii s then Some s else None;
     u_strToUTF8 := fun s => if ex_is_ascii s then Some s else None;
     uloc_getDefault := "en_US";
     ubidi_paraLevel := fun _ _ => Some 0;
     ubrk_open := fun _ _ => true;
     ubrk_setText := fun _ _ _ => true;
     ubrk_following := fun kind _ U p => following kind U p;
     ubidi_visualRuns := fun seg _ => Some [(true, 0, len seg)];
     ubidi_line_setPara := fun _ _ => true;
     ubidi_getLength := fun t _ => len t;
     ubidi_getVisualMap := fun t _ => Some (ex_identity_map (length t));
     ubidi_getLogicalMap := fun t _ => Some (ex_identity_map (length t)) |}.

Definition ex_icu : ICU := ex_icu_with (fun _ => ex_char_following).

(** Word boundaries on ASCII: a boundary lies between two code units of
    different classes (letters and digits, spaces, others) and after every
    newline. *)
Definition ex_class (c : Z) : Z :=
  if ((48 <=? c) && (c <=? 57)) || ((65 <=? c) && (c <=? 90)) || ((97 <=? c) && (c <=? 122))
  then 0 else if c =? 32 then 1 else 2.

Fixpoint ex_word_scan (fuel : nat) (U : list Z) (q : Z) : Z :=
  match fuel with
  | O => len U
  | S fuel' =>
      if len U <=? q then len U
      else
        let a := nth (Z.to_nat (q - 1)) U 0 in
        let b := nth (Z.to_nat q) U 0 in
        if (a =? 10) || negb (ex_class a =? ex_class b) then q
        else ex_word_scan fuel' U (q + 1)
  end.

Definition ex_word_following (U : list Z) (p : Z) : Z :=
  if (0 <=? p) && (p <? len U) then ex_word_scan (length U) U (p + 1) else UBRK_DONE.

Definition ex_icu_words : ICU :=
  ex_icu_with (fun kind => match kind with
                           | UBRK_WORD => ex_word_following
                           | UBRK_CHARACTER => ex_char_following
                           end).

(** A shaper that emits one glyph per byte of the run, in logical order,
    with the glyph of the Latin cmap and an advance of half the pixel
    size. *)
Definition ex_hb : HarfBuzz :=
  {| hb_shape := fun _ px run _ _ _ _ =>
       imap (fun i b => {| cluster := Z.of_nat i; hb_codepoint := ex_latin_cmap b;
                           x_advance := px * 32; y_advance := 0;
                           x_offset := 0; y_offset := 0 |}) run |}.

Definition ex_style (f : FontId) (size : Q) : CharacterStyle :=
  {| fontId := f; fontSize := size; scriptTag := EmptyString; languageTag := EmptyString;
     isImage := false;
     imageParams := {| texture := noTexture; displayWidth := 0; displayHeight := 0;
                       vAlign := BASELINE |} |}.

Definition ex_paragraph (lht : LineHeightType) (lhv wrap : Q) (strategy : LineBreakStrategy)
    : ParagraphStyle :=
  {| alignment := LEFT; lineHeightType := lht; lineHeightValue := lhv;
     firstLineIndent := 0; wrapWidth := wrap;
     baseDirection := AUTO_DETECT_FROM_TEXT; lineBreakStrategy := strategy;
     defaultCharacterStyle := ex_style 1 16 |}.


Definition ex_metrics_16 : ScaledFontMetrics :=
  GetScaledFontMetrics ex_engine_latin 1 16.


(** Scenario S2: the single span "ab\ncd" laid out without wrapping. *)
Definition ex_spans_S2 : list TextSpan :=
  [{| text := [97; 98; 10; 99; 100]; style := ex_style 1 16 |}].

Definition ex_paragraph_S2 : ParagraphStyle :=
  ex_paragraph NORMAL_SCALED_FONT_METRICS 1.2 0 ICU_WORD_BOUNDARIES.

Definition ex_layout_S2 : option (TextBlock * Engine) :=
  LayoutStyledText ex_icu_words ex_hb ex_engine_latin ex_spans_S2 ex_paragraph_S2.


Definition ex_block_S2 : TextBlock :=
  match ex_layout_S2 with
  | Some (tb, _) => tb
  | None => emptyTextBlock ex_spans_S2 ex_paragraph_S2
  end.

(** ** Statements about the cursor line *)

(** The byte range of a line contains the offset. *)
Definition contains_offset (line : LineLayoutInfo) (o : Z) : Prop :=
  sourceTextByteStartIndexInBlockText line <= o /\
  o < sourceTextByteEndIndexInBlockText line.

(** The edge rule: the offset is the end byte of line [i], and the next
    line does not exist or starts after the offset. *)
Definition at_end_not_on_next (tb : TextBlock) (i : nat) (line : LineLayoutInfo) (o : Z)
    : Prop :=
  o = sourceTextByteEndIndexInBlockText line /\
  (S i = length (lines tb) \/
   exists next, lines tb !! S i = Some next /\
                o < sourceTextByteStartIndexInBlockText next).

Definition owns_offset (tb : TextBlock) (i : nat) (line : LineLayoutInfo) (o : Z) : Prop :=
  contains_offset line o \/ at_end_not_on_next tb i line o.

(** ** Operations and reachable states *)

(** The public operations that change the engine, and the two cache
    look-ups (the layout calls [getCachedGlyphByGID] for every glyph). *)
Inductive EngineOp :=
  | OpLoadFont (file : FontFile)
  | OpUnloadFont (f : FontId)
  | OpSetDefaultFont (f : FontId)
  | OpSetFontFallbackChain (primaryFont : FontId) (fallbackChain : list FontId)
  | OpGetCachedGlyphByGID (f : FontId) (gid : Z)
  | OpGetOrCacheGlyph (fuel : nat) (f : FontId) (codepoint : Z)
  | OpClearGlyphCache
  | OpSetGlyphAtlasOptions (maxGlyphsEstimate atlasWidth atlasHeight : Z)
      (typeHint : GlyphAtlasType)
  | OpLayoutStyledText (icu : ICU) (hb : HarfBuzz) (spans : list TextSpan)
      (paragraphStyle : ParagraphStyle).

(** The state after an operation; [None] when a fuel-bounded operation does
    not return within its fuel. *)
Definition apply_op (e : Engine) (op : EngineOp) : option Engine :=
  match op with
  | OpLoadFont file => Some (snd (LoadFont e file))
  | OpUnloadFont f => Some (UnloadFont e f)
  | OpSetDefaultFont f => Some (SetDefaultFont e f)
  | OpSetFontFallbackChain p chain => Some (SetFontFallbackChain e p chain)
  | OpGetCachedGlyphByGID f gid => Some (snd (getCachedGlyphByGID e f gid))
  | OpGetOrCacheGlyph fuel f cp => snd <$> getOrCacheGlyph fuel e f cp
  | OpClearGlyphCache => Some (ClearGlyphCache e)
  | OpSetGlyphAtlasOptions n w h t => Some (SetGlyphAtlasOptions e n w h t)
  | OpLayoutStyledText icu hb spans ps => snd <$> LayoutStyledText icu hb e spans ps
  end.

Fixpoint run_ops (e : Engine) (ops : list EngineOp) : option Engine :=
  match ops with
  | [] => Some e
  | op :: rest =>
      match apply_op e op with
      | Some e' => run_ops e' rest
      | None => None
      end
  end.

(** The states an engine can be in: those obtained from the constructor by
    a sequence of operations. *)
Definition reachable (e : Engine) : Prop :=
  exists lib gpu ops, run_ops (newEngine lib gpu) ops = Some e.

(** The metrics a cached glyph must carry for its key: those of the slot of
    the key's font, glyph, pixel size and mode. *)
Definition metrics_of_slot (slot : FT_GlyphSlot) : Q * Q * Q :=
  ((of_int (horiAdvance slot) / 64)%Q,
   (of_int (horiBearingY slot) / 64)%Q,
   (of_int (metrics_height slot - horiBearingY slot) / 64)%Q).

Definition cached_metrics (g : FTCachedGlyph) : Q * Q * Q :=
  (advanceX_at_cached_size g, ascent_at_cached_size g, descent_at_cached_size g).

(** The invariant of the engine. *)
Record engine_ok (e : Engine) : Prop := {
  ok_lru_nodup : NoDup (lru_glyph_list_ e);
  ok_same_keys : forall k, k ∈ lru_glyph_list_ e <-> is_Some (glyph_cache_map_ e !! k);
  ok_default :
    defaultFontId_ e = INVALID_FONT_ID \/ is_Some (loadedFonts_ e !! defaultFontId_ e);
  ok_next : 1 <= nextFontId_ e;
  ok_font_ids : forall f, is_Some (loadedFonts_ e !! f) -> 1 <= f < nextFontId_ e;
  ok_faces : forall f fd, loadedFonts_ e !! f = Some fd -> is_Some (ftFace fd);
  ok_coherent :
    forall k g, glyph_cache_map_ e !! k = Some g ->
      exists fd, loadedFonts_ e !! key_fontId k = Some fd /\
                 cached_metrics g =
                   metrics_of_slot (slot_of (ftFace fd) (glyphIndex k) (sdfPixelSize k)
                                      (isSDF k));
  ok_capacity : 1 <= glyph_cache_capacity_ e
}.

(** After the Latin font is loaded, the glyphs 3 and 4 (both without a
    bitmap) are cached, the capacity is lowered to 1, and glyph 3 is looked
    up again. *)
Definition ex_ops_capacity : list EngineOp :=
  [OpLoadFont (ex_file ex_latin_cmap 1);
   OpGetCachedGlyphByGID 1 3;
   OpGetCachedGlyphByGID 1 4;
   OpSetGlyphAtlasOptions 1 1024 1024 SDF_BITMAP;
   OpGetCachedGlyphByGID 1 3].

(** The engine after scenario S2 was laid out. *)
Definition ex_ops_S2 : list EngineOp :=
  [OpLoadFont (ex_file ex_latin_cmap 1);
   OpLayoutStyledText ex_icu_words ex_hb ex_spans_S2 ex_paragraph_S2].

Definition ex_engine_S2 : Engine :=
  match ex_layout_S2 with
  | Some (_, e) => e
  | None => ex_engine_latin
  end.

(** What the cache look-ups leave unchanged: the registry and the options. *)
Definition same_registry (e e' : Engine) : Prop :=
  ftLibrary_ e' = ftLibrary_ e /\
  loadedFonts_ e' = loadedFonts_ e /\
  nextFontId_ e' = nextFontId_ e /\
  defaultFontId_ e' = defaultFontId_ e /\
  fontFallbackChains_ e' = fontFallbackChains_ e /\
  glyph_cache_capacity_ e' = glyph_cache_capacity_ e /\
  atlas_width_ e' = atlas_width_ e /\
  atlas_height_ e' = atlas_height_ e /\
  atlas_type_hint_ e' = atlas_type_hint_ e /\
  gpu_alloc e' = gpu_alloc e.

(** How the engine evolves during cache look-ups: registry and options are
    kept, and so is the invariant. *)
Definition cache_step (e e' : Engine) : Prop :=
  same_registry e e' /\ (engine_ok e -> engine_ok e').

(** The same, the last look-up being a miss (glyph 68 has a bitmap). *)
Definition ex_ops_capacity_miss : list EngineOp :=
  [OpLoadFont (ex_file ex_latin_cmap 1);
   OpGetCachedGlyphByGID 1 3;
   OpGetCachedGlyphByGID 1 4;
   OpSetGlyphAtlasOptions 1 1024 1024 SDF_BITMAP;
   OpGetCachedGlyphByGID 1 68].

(** The same through the layout alone: the text " !" (glyphs 3 and 4) is
    laid out, the capacity is lowered to 1, and the text is laid out
    again. *)
Definition ex_spans_blank : list TextSpan :=
  [{| text := [32; 33]; style := ex_style 1 16 |}].

Definition ex_ops_capacity_layout : list EngineOp :=
  [OpLoadFont (ex_file ex_latin_cmap 1);
   OpLayoutStyledText ex_icu_words ex_hb ex_spans_blank ex_paragraph_S2;
   OpSetGlyphAtlasOptions 1 1024 1024 SDF_BITMAP;
   OpLayoutStyledText ex_icu_words ex_hb ex_spans_blank ex_paragraph_S2].

(** Size of the cache map and capacity of an engine. *)
Definition cache_size_and_capacity (e : Engine) : Z * Z :=
  (Z.of_nat (size (glyph_cache_map_ e)), glyph_cache_capacity_ e).

(** ** Statements about the wrap rule *)



(** The span "ab\n" at 16 px in a paragraph 10 wide: the segment "ab" is 16
    wide. *)
Definition ex_spans_narrow : list TextSpan :=
  [{| text := [97; 98; 10]; style := ex_style 1 16 |}].

Definition ex_paragraph_narrow : ParagraphStyle :=
  ex_paragraph NORMAL_SCALED_FONT_METRICS 1.2 10 ICU_WORD_BOUNDARIES.

(** Context and state with which the segment loop starts on it. *)
Definition ex_ctx_narrow : LayoutCtx :=
  {| c_icu := ex_icu_words; c_hb := ex_hb; c_spans := ex_spans_narrow;
     c_paragraphStyle := ex_paragraph_narrow;
     paraDefFontId := 1; paraDefFontSize := 16;
     paraDefaultMetrics := ex_metrics_16;
     spanMap_local := snd (build_span_map ex_icu_words ex_spans_narrow 0 0 0);
     fullU16Text_local := [97; 98; 10];
     actualParaLevel := 0;
     breakKind := UBRK_WORD; localeForBreaks := "en_US" |}.

Definition ex_st0_narrow : LoopState :=
  initialLoopState ex_ctx_narrow ex_engine_latin
    (set_sourceText (emptyTextBlock ex_spans_narrow ex_paragraph_narrow) [97; 98; 10]).



(** ** Statements about the lines of a block *)

(** The ranges follow one another from [a] to [b]: the first starts at
    [a], every range ends where the next starts, and the last ends at
    [b]. *)
Fixpoint ranges_partition (rs : list (Z * Z)) (a b : Z) : Prop :=
  match rs with
  | [] => a = b
  | r :: rest => fst r = a /\ fst r <= snd r /\ ranges_partition rest (snd r) b
  end.












(** ** Statements about the bidi maps of a line *)




(** ** Statements about repeated layouts *)



(** Two engines with the same registry and options that both satisfy the
    invariant: they differ in the glyph cache and the atlas only. *)
Definition engines_agree (e e' : Engine) : Prop :=
  same_registry e e' /\ engine_ok e /\ engine_ok e'.



(** ** Statements about the engine between operations *)

(** The glyph cache holds no more entries than its capacity. *)
Definition cache_within_capacity (e : Engine) : Prop :=
  Z.of_nat (size (glyph_cache_map_ e)) <= glyph_cache_capacity_ e.

Definition is_SetGlyphAtlasOptions (op : EngineOp) : bool :=
  match op with OpSetGlyphAtlasOptions _ _ _ _ => true | _ => false end.

(** Every registered fallback chain belongs to a loaded font and lists
    loaded fonts only. *)
Definition chains_loaded (e : Engine) : Prop :=
  forall p chain, fontFallbackChains_ e !! p = Some chain ->
    IsFontValid e p = true /\ Forall (fun f => IsFontValid e f = true) chain.

(** ** Further example data *)

(** The record [LoadFont] stores for the Latin example font. *)
Definition ex_fontdata_latin : FTFontData :=
  {| ftFace := Some (ex_face ex_latin_cmap); hbFont := 1;
     properties :=
       {| unitsPerEm := 1000; hasTypoMetrics := false;
          typoAscender := 0; typoDescender := 0; typoLineGap := 0;
          hheaAscender := 800; hheaDescender := -200; hheaLineGap := 0 |};
     sdfPixelSizeHint := 64;
     yStrikeoutPosition_fontUnits := 320;
     yStrikeoutSize_fontUnits := 50 |}.

(** The Latin and the CJK font, the CJK font registered as the fallback of
    the Latin one; the id 7 in the list given is not loaded. *)
Definition ex_engine_chain : Engine := SetFontFallbackChain ex_engine_two 1 [2; 7].

(** A cache of capacity 2 that holds the glyphs 4 and 3 of the Latin font,
    glyph 3 being the least recently used. *)
Definition ex_ops_full : list EngineOp :=
  [OpLoadFont (ex_file ex_latin_cmap 1);
   OpSetGlyphAtlasOptions 2 1024 1024 SDF_BITMAP;
   OpGetCachedGlyphByGID 1 3;
   OpGetCachedGlyphByGID 1 4].

Definition ex_engine_full : Engine :=
  default (newEngine true ex_gpu) (run_ops (newEngine true ex_gpu) ex_ops_full).

(** A face that maps every codepoint, U+0000 included, to glyph 1, and on
    which loading glyph 1 fails. *)
Definition ex_face_null : FT_Face :=
  {| units_per_EM := 1000;
     ascender := 800; descender := -200; height := 1000;
     underline_position := -100; underline_thickness := 50;
     sfnt_os2 := None;
     char_index := fun _ => 1;
     set_pixel_sizes_error := fun _ => false;
     load_glyph_error := fun gid _ => gid =? 1;
     render_glyph_error := fun _ _ _ => false;
     glyph_slot := ex_slot;
     outline_metrics := fun _ px => (0, px * 32) |}.

Definition ex_fontdata_null : FTFontData :=
  {| ftFace := Some ex_face_null; hbFont := 3;
     properties :=
       {| unitsPerEm := 1000; hasTypoMetrics := false;
          typoAscender := 0; typoDescender := 0; typoLineGap := 0;
          hheaAscender := 800; hheaDescender := -200; hheaLineGap := 0 |};
     sdfPixelSizeHint := 64;
     yStrikeoutPosition_fontUnits := 320;
     yStrikeoutSize_fontUnits := 50 |}.

Definition ex_engine_null : Engine :=
  snd (LoadFont (newEngine true ex_gpu)
         {| file_is_open := true; file_read_ok := true;
            new_memory_face := Some ex_face_null;
            hb_face_ok := true; hb_font_handle := Some 3;
            hb_parent_ok := true; hb_funcs_ok := true |}).

(** ** Statements about the UTF-8 decoder *)

(** A Unicode scalar value: a code point up to U+10FFFF that is not a
    surrogate. *)
Definition is_scalar_value (cp : Z) : Prop :=
  0 <= cp <= 1114111 /\ ~ (55296 <= cp <= 57343).

(** The UTF-8 encoding of a scalar value as the Unicode standard defines it
    (RFC 3629, section 3); the engine itself has no encoder. *)
Definition utf8_encoding (cp : Z) : list Z :=
  if cp <? 128 then [cp]
  else if cp <? 2048 then [192 + cp / 64; 128 + cp mod 64]
  else if cp <? 65536 then [224 + cp / 4096; 128 + (cp / 64) mod 64; 128 + cp mod 64]
  else [240 + cp / 262144; 128 + (cp / 4096) mod 64; 128 + (cp / 64) mod 64;
        128 + cp mod 64].
(** ** Statements about the structure of a block *)

(** The slice of the elements of a line that a visual run covers. *)
Definition run_slices (runs : list VisualRun) : list (Z * Z) :=
  map (fun r => (firstElementIndexInLineElements r,
                 firstElementIndexInLineElements r + numElementsInRun r)) runs.

(** The byte offset of a span in the concatenated text as the cursor and
    the selection recompute it from the copied spans (lines 1859-1862 and
    2061-2062): the accumulator is a [uint32_t]. *)
Definition span_start_offset (sourceSpansCopied : list TextSpan) (sourceSpanIndex : Z) : Z :=
  foldl (fun acc sp =>
           u32 (acc + (if bool_decide (text sp = []) && isImage (style sp)
                       then 3 else len (text sp))))
        0 (take (Z.to_nat sourceSpanIndex) sourceSpansCopied).

(** Three spans: "ab", an image without text, and "c". *)
Definition ex_spans_image : list TextSpan :=
  [{| text := [97; 98]; style := ex_style 1 16 |};
   {| text := [];
      style := {| fontId := 1; fontSize := 16; scriptTag := EmptyString;
                  languageTag := EmptyString; isImage := true;
                  imageParams := {| texture := noTexture; displayWidth := 20;
                                    displayHeight := 10; vAlign := BASELINE |} |} |};
   {| text := [99]; style := ex_style 1 16 |}].

(** The slice of the elements of the block that a line covers. *)
Definition line_slices (tb : TextBlock) : list (Z * Z) :=
  map (fun l => (firstElementIndexInBlockElements l,
                 firstElementIndexInBlockElements l + numElementsInLine l)) (lines tb).

(** The line boxes follow one another downwards from [y] to [bottom]: the
    first box starts at [y] and every box starts where the one before
    ends. *)
Fixpoint lines_stacked (lns : list LineLayoutInfo) (y bottom : Q) : Prop :=
  match lns with
  | [] => y = bottom
  | l :: rest =>
      lineBoxY l = y /\ lines_stacked rest (lineBoxY l + lineBoxHeight l)%Q bottom
  end.

(** The visual runs of a line cut its elements into consecutive slices. *)
Definition runs_partition_line (l : LineLayoutInfo) : Prop :=
  ranges_partition (run_slices (visualRuns l)) 0 (numElementsInLine l) /\
  Forall (fun r => 0 < numElementsInRun r) (visualRuns l).

(** The structure of a block whose next line box starts at [topY]. *)
Record block_ok (tb : TextBlock) (topY : Q) : Prop := {
  bo_slices : ranges_partition (line_slices tb) 0 (len_elements tb);
  bo_stacked : lines_stacked (lines tb) 0 topY;
  bo_runs : Forall runs_partition_line (lines tb)
}.

(** The source range of a glyph lies in the text of its span: the span
    exists, and offset and byte count stay within its text (U+FFFC for an
    image without text). *)
Definition glyph_source_in_span (spans : list TextSpan) (el : PositionedElementVariant)
    : Prop :=
  match el with
  | Glyph g =>
      exists sp,
        nth_span spans (g_sourceSpanIndex g) = Some sp /\
        0 <= g_sourceCharByteOffsetInSpan g /\
        0 <= g_numSourceCharBytesInSpan g /\
        g_sourceCharByteOffsetInSpan g + g_numSourceCharBytesInSpan g
        <= len (text_to_process sp)
  | Image _ => True
  end.

(** What the segment loop maintains for a property [P] of elements. *)
Definition loop_block_ok (P : PositionedElementVariant -> Prop) (st : LoopState) : Prop :=
  block_ok (textBlock st) (currentLineBoxTopY st) /\
  Forall P (elements (textBlock st)) /\
  Forall P (pendingLineElements st).

(** ** Statements about the atlas *)

(** The rectangle lies on an atlas page of the engine's dimensions. *)
Definition rect_on_page (e : Engine) (r : Rectangle) : Prop :=
  (0 <= rx r)%Q /\ (0 <= ry r)%Q /\
  (rx r + rwidth r <= of_int (atlas_width_ e))%Q /\
  (ry r + rheight r <= of_int (atlas_height_ e))%Q.

(** Every cached glyph that has a rectangle in the atlas refers to a
    texture of the engine and lies on the page; the pen of the packer is
    never left of or above the page. *)
Record atlas_ok (e : Engine) : Prop := {
  ao_pen : (0 <= vx (current_atlas_pen_pos_ e))%Q /\ (0 <= vy (current_atlas_pen_pos_ e))%Q;
  ao_row : (0 <= current_atlas_max_row_height_ e)%Q;
  ao_glyphs :
    forall k g, glyph_cache_map_ e !! k = Some g ->
      (0 < rwidth (atlasRect (renderInfo g)))%Q ->
      atlasTexture (renderInfo g) ∈ atlas_textures_ e /\
      rect_on_page e (atlasRect (renderInfo g))
}.

(** ** Selection rectangles (lines 1829-1923) *)

(** [std::min(a, b)] is [(b < a) ? b : a]. *)
Definition fminf (a b : float) : float := if flt b a then b else a.

Definition el_sourceSpanIndex (el : PositionedElementVariant) : Z :=
  match el with Glyph g => g_sourceSpanIndex g | Image i => i_sourceSpanIndex i end.

Definition el_sourceCharByteOffsetInSpan (el : PositionedElementVariant) : Z :=
  match el with
  | Glyph g => g_sourceCharByteOffsetInSpan g
  | Image i => i_sourceCharByteOffsetInSpan i
  end.

Definition el_numSourceCharBytesInSpan (el : PositionedElementVariant) : Z :=
  match el with
  | Glyph g => g_numSourceCharBytesInSpan g
  | Image i => i_numSourceCharBytesInSpan i
  end.

(** Lines 1856-1866: [elGlobalByteStart] and [elGlobalByteEnd], in
    [uint32_t] arithmetic.  The loop reads [sourceSpansCopied[k]] for every
    [k] below the span index of the element without a check; [None] stands
    for such a read outside the vector. *)
Definition el_global_bytes (tb : TextBlock) (el : PositionedElementVariant)
    : option (Z * Z) :=
  if el_sourceSpanIndex el <=? Z.of_nat (length (sourceSpansCopied tb)) then
    let elGlobalByteStart :=
      u32 (span_start_offset (sourceSpansCopied tb) (el_sourceSpanIndex el) +
           el_sourceCharByteOffsetInSpan el) in
    Some (elGlobalByteStart, u32 (elGlobalByteStart + el_numSourceCharBytesInSpan el))
  else None.

(** Lines 1871-1897: [actualVisualStartX], [elVisualWidth], [elAscent] and
    [elDescent] of an element. *)
Definition el_visual (e : Engine) (el : PositionedElementVariant)
    : float * float * float * float :=
  match el with
  | Glyph g =>
      let elVisualX := (vx (g_position g) + xOffset g)%Q in
      let '(elVisualWidth, elDrawOffsetX) :=
        if ri_isSDF (g_renderInfo g) && IsFontValid e (sourceFont g) then
          match loadedFonts_ e !! sourceFont g with
          | Some fontData =>
              if (0 <? sdfPixelSizeHint fontData) && fgt (sourceSize g) 0 then
                let renderScale := (sourceSize g / of_int (sdfPixelSizeHint fontData))%Q in
                ((rwidth (atlasRect (g_renderInfo g)) * renderScale)%Q,
                 (vx (drawOffset (g_renderInfo g)) * renderScale)%Q)
              else (xAdvance g, 0%Q)
          | None => (xAdvance g, 0%Q)
          end
        else (xAdvance g, 0%Q) in
      ((elVisualX + elDrawOffsetX)%Q, elVisualWidth, g_ascent g, g_descent g)
  | Image i => ((vx (i_position i) + 0)%Q, i_width i, i_ascent i, i_descent i)
  end.

(** The run of selected elements being collected on a line;
    [currentRunMinX] is negative while no run is open. *)
Record SelectionRun := {
  currentRunMinX : float;
  currentRunMaxX : float;
  currentRunMaxAscent : float;
  currentRunMaxDescent : float
}.

(** Lines 1848-1851. *)
Definition noSelectionRun : SelectionRun :=
  {| currentRunMinX := (-1)%Q; currentRunMaxX := 0%Q;
     currentRunMaxAscent := 0%Q; currentRunMaxDescent := 0%Q |}.

(** The rectangle pushed at lines 1910-1911 and 1918-1919. *)
Definition run_rectangle (lineVisualBaselineY : float) (r : SelectionRun) : Rectangle :=
  {| rx := currentRunMinX r;
     ry := (lineVisualBaselineY - currentRunMaxAscent r)%Q;
     rwidth := (currentRunMaxX r - currentRunMinX r)%Q;
     rheight := (currentRunMaxAscent r + currentRunMaxDescent r)%Q |}.

(** Lines 1868-1914: one element of the line. *)
Definition range_element_step (e : Engine) (lineVisualBaselineY : float)
    (effectiveRangeStart effectiveRangeEnd : Z)
    (elGlobalByteStart elGlobalByteEnd : Z) (el : PositionedElementVariant)
    (st : SelectionRun * list Rectangle) : SelectionRun * list Rectangle :=
  let run := fst st in
  let boundsList := snd st in
  if (effectiveRangeStart <? elGlobalByteEnd) && (elGlobalByteStart <? effectiveRangeEnd)
  then
    let '(actualVisualStartX, elVisualWidth, elAscent, elDescent) := el_visual e el in
    let '(minX, maxX) :=
      if flt (currentRunMinX run) 0
      then (actualVisualStartX, (actualVisualStartX + elVisualWidth)%Q)
      else (fminf (currentRunMinX run) actualVisualStartX,
            fmaxf (currentRunMaxX run) (actualVisualStartX + elVisualWidth)%Q) in
    ({| currentRunMinX := minX; currentRunMaxX := maxX;
        currentRunMaxAscent := fmaxf (currentRunMaxAscent run) elAscent;
        currentRunMaxDescent := fmaxf (currentRunMaxDescent run) elDescent |},
     boundsList)
  else if fge (currentRunMinX run) 0 then
    ({| currentRunMinX := (-1)%Q; currentRunMaxX := currentRunMaxX run;
        currentRunMaxAscent := 0%Q; currentRunMaxDescent := 0%Q |},
     boundsList ++ [run_rectangle lineVisualBaselineY run])
  else st.

(** The element loop of lines 1853-1915, [n] elements from [index] on.
    [textBlock.elements[...]] is read without a check; [None] stands for a
    read outside the vector. *)
Fixpoint range_line_loop (e : Engine) (tb : TextBlock) (lineVisualBaselineY : float)
    (effectiveRangeStart effectiveRangeEnd : Z) (n : nat) (index : nat)
    (st : SelectionRun * list Rectangle) : option (SelectionRun * list Rectangle) :=
  match n with
  | O => Some st
  | S n' =>
      match elements tb !! index with
      | None => None
      | Some el =>
          match el_global_bytes tb el with
          | None => None
          | Some (elGlobalByteStart, elGlobalByteEnd) =>
              range_line_loop e tb lineVisualBaselineY effectiveRangeStart
                effectiveRangeEnd n' (S index)
                (range_element_step e lineVisualBaselineY effectiveRangeStart
                   effectiveRangeEnd elGlobalByteStart elGlobalByteEnd el st)
          end
      end
  end.

(** The line loop of lines 1835-1921. *)
Fixpoint range_lines (e : Engine) (tb : TextBlock) (byteOffsetStart byteOffsetEnd : Z)
    (lns : list LineLayoutInfo) (boundsList : list Rectangle) : option (list Rectangle) :=
  match lns with
  | [] => Some boundsList
  | line :: rest =>
      let effectiveRangeStart :=
        Z.max byteOffsetStart (sourceTextByteStartIndexInBlockText line) in
      let effectiveRangeEnd :=
        Z.min byteOffsetEnd (sourceTextByteEndIndexInBlockText line) in
      if effectiveRangeEnd <=? effectiveRangeStart
      then range_lines e tb byteOffsetStart byteOffsetEnd rest boundsList
      else
        let lineVisualBaselineY := (lineBoxY line + baselineYInBox line)%Q in
        match range_line_loop e tb lineVisualBaselineY effectiveRangeStart
                effectiveRangeEnd (Z.to_nat (numElementsInLine line))
                (Z.to_nat (firstElementIndexInBlockElements line))
                (noSelectionRun, boundsList) with
        | None => None
        | Some (run, boundsList') =>
            range_lines e tb byteOffsetStart byteOffsetEnd rest
              (if fge (currentRunMinX run) 0
               then boundsList' ++ [run_rectangle lineVisualBaselineY run]
               else boundsList')
        end
  end.

(** [GetTextRangeBounds], lines 1829-1923. *)
Definition GetTextRangeBounds (e : Engine) (textBlock : TextBlock)
    (byteOffsetStart byteOffsetEnd : Z) : option (list Rectangle) :=
  if (byteOffsetEnd <=? byteOffsetStart) || bool_decide (lines textBlock = [])
  then Some []
  else range_lines e textBlock byteOffsetStart byteOffsetEnd (lines textBlock) [].

(** Every line is read within the elements of the block, and every element
    names a span of the block or the position after the last. *)
Definition block_indices_ok (tb : TextBlock) : Prop :=
  Forall (fun l => 0 <= firstElementIndexInBlockElements l /\
                   0 <= numElementsInLine l /\
                   firstElementIndexInBlockElements l + numElementsInLine l
                   <= len_elements tb) (lines tb) /\
  Forall (fun el => el_sourceSpanIndex el <= Z.of_nat (length (sourceSpansCopied tb)))
         (elements tb).

(** The span index of an element is the index of a span of [spans]. *)
Definition el_span_index_ok (spans : list TextSpan) (el : PositionedElementVariant) : Prop :=
  0 <= el_sourceSpanIndex el < Z.of_nat (length spans).

(** ** The line under a position (lines 2125-2146) *)




(** ** The geometry of the cursor (lines 1988-2006 and 2024-2098) *)

(** The fields of [CursorLocationInfo] that lines 1996-2004 and 2025-2097
    set. *)
Record CursorGeometry := {
  visualPosition : Vector2;
  cursorAscent : float;
  cursorDescent : float;
  cursorHeight : float;
  isTrailingEdge : bool
}.

(** Line 2026: [isThisLineFirstInParagraph].  [std::string::operator[]]
    yields the terminating null at the length of the string; [None] stands
    for a read after it. *)
Definition cursor_line_first_in_paragraph (tb : TextBlock) (line : LineLayoutInfo)
    : option bool :=
  let start := sourceTextByteStartIndexInBlockText line in
  if start =? 0 then Some true
  else if (0 <? start) && negb (bool_decide (sourceTextConcatenated tb = [])) then
    match sourceTextConcatenated tb !! Z.to_nat (start - 1) with
    | Some c => Some (c =? 10)
    | None => if start - 1 =? len (sourceTextConcatenated tb) then Some false else None
    end
  else Some false.

(** Lines 2072-2085 on one element: [None] when the offset is not in the
    closed byte range of the element, else the x of the cursor, its ascent
    and descent, and [isTrailingEdge]. *)
Definition cursor_on_element (defaultMetrics : ScaledFontMetrics) (lineDrawStartX : float)
    (byteOffset_ : Z) (preferLeadingEdge : bool)
    (el_byte_start_in_block el_byte_end : Z) (el : PositionedElementVariant)
    : option (float * float * float * bool) :=
  let el_num_bytes := el_numSourceCharBytesInSpan el in
  let el_pos_x_in_line :=
    match el with Glyph g => vx (g_position g) | Image i => vx (i_position i) end in
  let el_ascent := match el with Glyph g => g_ascent g | Image i => i_ascent i end in
  let el_descent := match el with Glyph g => g_descent g | Image i => i_descent i end in
  if (el_byte_start_in_block <=? byteOffset_) && (byteOffset_ <=? el_byte_end) then
    let cursorAscent_ := if fgt el_ascent 0.001 then el_ascent else ascent defaultMetrics in
    let cursorDescent_ :=
      if fgt el_descent 0.001 then el_descent else descent defaultMetrics in
    let isAtElementStart := byteOffset_ =? el_byte_start_in_block in
    if (isAtElementStart && preferLeadingEdge) ||
       flt (of_int byteOffset_) (of_int el_byte_start_in_block + of_int el_num_bytes / 2)%Q
    then Some ((lineDrawStartX + el_pos_x_in_line)%Q, cursorAscent_, cursorDescent_, false)
    else Some ((lineDrawStartX + el_pos_x_in_line + el_advance el)%Q,
               cursorAscent_, cursorDescent_, true)
  else None.

(** The inner loop of lines 2051-2087 over the elements of one visual run,
    [n] elements from [i_el_in_run] on.  [None] stands for a read outside
    [elements] or [sourceSpansCopied]; [Some None] for a run without
    element at the offset. *)
Fixpoint cursor_run_loop (tb : TextBlock) (line : LineLayoutInfo)
    (defaultMetrics : ScaledFontMetrics) (lineDrawStartX : float) (byteOffset_ : Z)
    (preferLeadingEdge : bool) (visualRun : VisualRun) (n : nat) (i_el_in_run : Z)
    : option (option (float * float * float * bool)) :=
  match n with
  | O => Some None
  | S n' =>
      let elementIdxInLine := firstElementIndexInLineElements visualRun + i_el_in_run in
      let currentElementGlobalIdx :=
        firstElementIndexInBlockElements line + elementIdxInLine in
      match elements tb !! Z.to_nat currentElementGlobalIdx with
      | None => None
      | Some el =>
          match el_global_bytes tb el with
          | None => None
          | Some (el_byte_start_in_block, el_byte_end) =>
              match cursor_on_element defaultMetrics lineDrawStartX byteOffset_
                      preferLeadingEdge el_byte_start_in_block el_byte_end el with
              | Some hit => Some (Some hit)
              | None =>
                  cursor_run_loop tb line defaultMetrics lineDrawStartX byteOffset_
                    preferLeadingEdge visualRun n' (i_el_in_run + 1)
              end
          end
      end
  end.

(** The outer loop of lines 2049-2088 over the visual runs of the line. *)
Fixpoint cursor_runs_loop (tb : TextBlock) (line : LineLayoutInfo)
    (defaultMetrics : ScaledFontMetrics) (lineDrawStartX : float) (byteOffset_ : Z)
    (preferLeadingEdge : bool) (runs : list VisualRun)
    : option (option (float * float * float * bool)) :=
  match runs with
  | [] => Some None
  | visualRun :: rest =>
      match cursor_run_loop tb line defaultMetrics lineDrawStartX byteOffset_
              preferLeadingEdge visualRun (Z.to_nat (numElementsInRun visualRun)) 0 with
      | None => None
      | Some (Some hit) => Some (Some hit)
      | Some None =>
          cursor_runs_loop tb line defaultMetrics lineDrawStartX byteOffset_
            preferLeadingEdge rest
      end
  end.

(** Lines 2096-2097: the height of the cursor, and ascent and descent when
    both are next to nothing. *)
Definition cursor_height (defaultMetrics : ScaledFontMetrics) (paraFontSize : float)
    (x y cursorAscent_ cursorDescent_ : float) (isTrailingEdge_ : bool) : CursorGeometry :=
  let h0 := (cursorAscent_ + cursorDescent_)%Q in
  if flt h0 1 then
    let h := if fgt (recommendedLineHeight defaultMetrics) 0
             then recommendedLineHeight defaultMetrics else paraFontSize in
    if flt cursorAscent_ 0.01 && flt cursorDescent_ 0.01
    then {| visualPosition := {| vx := x; vy := y |};
            cursorAscent := (h * 0.75)%Q; cursorDescent := (h * 0.25)%Q;
            cursorHeight := h; isTrailingEdge := isTrailingEdge_ |}
    else {| visualPosition := {| vx := x; vy := y |};
            cursorAscent := cursorAscent_; cursorDescent := cursorDescent_;
            cursorHeight := h; isTrailingEdge := isTrailingEdge_ |}
  else {| visualPosition := {| vx := x; vy := y |};
          cursorAscent := cursorAscent_; cursorDescent := cursorDescent_;
          cursorHeight := h0; isTrailingEdge := isTrailingEdge_ |}.

(** [GetCursorInfoFromByteOffset], lines 1988-2006 and 2024-2098: the
    position and the extents of the cursor.  The offset and the line are
    those of lines 1985-2023; the alignment shift of lines 2028-2032 is the
    computation of lines 1454-1465. *)
Definition GetCursorInfoFromByteOffset_geometry (e : Engine) (textBlock : TextBlock)
    (byteOffsetInConcatenatedText : Z) (preferLeadingEdge : bool) : option CursorGeometry :=
  let cInfo := GetCursorInfoFromByteOffset textBlock byteOffsetInConcatenatedText in
  let pStyle := paragraphStyleUsed textBlock in
  let paraFontId :=
    if IsFontValid e (fontId (defaultCharacterStyle pStyle))
    then fontId (defaultCharacterStyle pStyle) else defaultFontId_ e in
  let paraFontSize :=
    if fle (fontSize (defaultCharacterStyle pStyle)) 0
    then 16%Q else fontSize (defaultCharacterStyle pStyle) in
  let defaultMetrics := GetScaledFontMetrics e paraFontId paraFontSize in
  match lines textBlock with
  | [] =>
      let h0 := (ascent defaultMetrics + descent defaultMetrics)%Q in
      Some {| visualPosition := {| vx := firstLineIndent pStyle; vy := ascent defaultMetrics |};
              cursorAscent := ascent defaultMetrics;
              cursorDescent := descent defaultMetrics;
              cursorHeight := if flt h0 1 then paraFontSize else h0;
              isTrailingEdge := true |}
  | _ =>
      match lines textBlock !! Z.to_nat (lineIndex cInfo) with
      | None => None
      | Some line =>
          match cursor_line_first_in_paragraph textBlock line with
          | None => None
          | Some isThisLineFirstInParagraph =>
              let lineDrawStartX :=
                ((if isThisLineFirstInParagraph then firstLineIndent pStyle else 0) +
                 lineShiftX_of pStyle isThisLineFirstInParagraph (lineWidth line))%Q in
              let y := (lineBoxY line + baselineYInBox line)%Q in
              let lineAscent :=
                if fgt (maxContentAscent line) 0.001 then maxContentAscent line
                else ascent defaultMetrics in
              let lineDescent :=
                if fgt (maxContentDescent line) 0.001 then maxContentDescent line
                else descent defaultMetrics in
              if numElementsInLine line =? 0 then
                Some (cursor_height defaultMetrics paraFontSize lineDrawStartX y
                        lineAscent lineDescent (if preferLeadingEdge then false else true))
              else
                match cursor_runs_loop textBlock line defaultMetrics lineDrawStartX
                        (byteOffset cInfo) preferLeadingEdge (visualRuns line) with
                | None => None
                | Some (Some (x, cursorAscent_, cursorDescent_, isTrailingEdge_)) =>
                    Some (cursor_height defaultMetrics paraFontSize x y
                            cursorAscent_ cursorDescent_ isTrailingEdge_)
                | Some None =>
                    Some (cursor_height defaultMetrics paraFontSize
                            (lineDrawStartX + lineWidth line)%Q y
                            lineAscent lineDescent true)
                end
          end
      end
  end.


(** ** Proof automation *)

(** Decides the comparisons of the UTF-8 decoder on a goal whose bytes are
    bounded by hypotheses. *)
Ltac decoder_tests :=
  cbv zeta;
  repeat match goal with
         | |- context [Z.ltb ?a ?b] => destruct (Z.ltb_spec a b); try lia
         | |- context [Z.leb ?a ?b] => destruct (Z.leb_spec a b); try lia
         end;
  cbn [andb orb];
  repeat match goal with
         | |- context [Z.eqb ?a ?b] => destruct (Z.eqb_spec a b); try lia
         end;
  try reflexivity.

(* ===================================================================== *)
(** * Part II. Properties                                                 *)
(* ===================================================================== *)

(** ** Comparisons on floats *)

Lemma flt_true (a b : Q) : flt a b = true <-> (a < b)%Q.
Proof.
  unfold flt. rewrite Qlt_alt. destruct (a ?= b)%Q; split; congruence.
Qed.

Lemma flt_false (a b : Q) : flt a b = false <-> (b <= a)%Q.
Proof.
  split.
  - intros H. apply Qnot_lt_le. intros Hlt. apply flt_true in Hlt. congruence.
  - intros H. destruct (flt a b) eqn:E; [|reflexivity].
    apply flt_true in E. exfalso. apply (Qlt_not_le _ _ E H).
Qed.

Lemma fle_true (a b : Q) : fle a b = true <-> (a <= b)%Q.
Proof.
  unfold fle. rewrite Qle_alt. destruct (a ?= b)%Q; split; congruence.
Qed.

Lemma fle_false (a b : Q) : fle a b = false <-> (b < a)%Q.
Proof.
  split.
  - intros H. apply Qnot_le_lt. intros Hle. apply fle_true in Hle. congruence.
  - intros H. destruct (fle a b) eqn:E; [|reflexivity].
    apply fle_true in E. exfalso. apply (Qlt_not_le _ _ H E).
Qed.

Lemma fgt_true (a b : Q) : fgt a b = true <-> (b < a)%Q.
Proof. apply flt_true. Qed.

Lemma fgt_false (a b : Q) : fgt a b = false <-> (a <= b)%Q.
Proof. apply flt_false. Qed.


Lemma fmaxf_ge_l (a b : Q) : (a <= fmaxf a b)%Q.
Proof.
  unfold fmaxf. destruct (flt a b) eqn:E.
  - apply flt_true in E. apply Qlt_le_weak. exact E.
  - apply Qle_refl.
Qed.

(** ** Font registry *)

Lemma IsFontValid_true (e : Engine) (f : FontId) :
  IsFontValid e f = true <-> is_Some (loadedFonts_ e !! f).
Proof. unfold IsFontValid. apply bool_decide_eq_true. Qed.

(** A font "covers" a codepoint: it is loaded, has a face, and the face maps
    the codepoint to a glyph other than 0. *)
Lemma font_has_codepoint_true (e : Engine) (f : FontId) (cp : Z) :
  font_has_codepoint e f cp = true <->
  exists fd face, loadedFonts_ e !! f = Some fd /\ ftFace fd = Some face /\
                  char_index face cp <> 0.
Proof.
  unfold font_has_codepoint, IsFontValid. split.
  - intros H. apply andb_true_iff in H as [_ H].
    destruct (loadedFonts_ e !! f) as [fd|] eqn:Hf; [|discriminate].
    destruct (ftFace fd) as [face|] eqn:Hface; [|discriminate].
    exists fd, face. split; [reflexivity|]. split; [exact Hface|].
    unfold FT_Get_Char_Index in H.
    apply negb_true_iff, Z.eqb_neq in H. exact H.
  - intros (fd & face & Hf & Hface & Hne).
    apply andb_true_iff. split.
    + apply bool_decide_eq_true. rewrite Hf. eauto.
    + rewrite Hf, Hface. unfold FT_Get_Char_Index.
      apply negb_true_iff, Z.eqb_neq. exact Hne.
Qed.

(** C10.  Even when [checkFallback] is false, [IsCodepointAvailable f cp]
    answers true whenever the default font is valid, differs from [f] and
    covers [cp]: the default font is consulted as a last resort whether or
    not fallback checking was requested. *)
Theorem IsCodepointAvailable_default_unconditional (e : Engine) (f : FontId) (cp : Z) :
  IsFontValid e (defaultFontId_ e) = true ->
  defaultFontId_ e <> INVALID_FONT_ID ->
  defaultFontId_ e <> f ->
  font_has_codepoint e (defaultFontId_ e) cp = true ->
  IsCodepointAvailable e f cp false = true.
Proof.
  intros Hvalid Hinv Hneq Hcov. unfold IsCodepointAvailable.
  destruct (font_has_codepoint e f cp); [reflexivity|].
  cbn [andb].
  apply Z.eqb_neq in Hinv. apply Z.eqb_neq in Hneq.
  rewrite Hinv, Hneq. cbn [negb andb].
  rewrite Hvalid. exact Hcov.
Qed.

(** The Latin font does not cover U+4E2D, the default (CJK) font does, and
    the query without fallback checking still answers true. *)
Lemma IsCodepointAvailable_default_unconditional_witness :
  IsFontValid ex_engine_two (defaultFontId_ ex_engine_two) = true /\
  defaultFontId_ ex_engine_two <> INVALID_FONT_ID /\
  defaultFontId_ ex_engine_two <> 1 /\
  font_has_codepoint ex_engine_two (defaultFontId_ ex_engine_two) 20013 = true /\
  IsCodepointAvailable ex_engine_two 1 20013 false = true.
Proof.
  assert (H1 : IsFontValid ex_engine_two (defaultFontId_ ex_engine_two) = true)
    by (vm_compute; reflexivity).
  assert (H2 : defaultFontId_ ex_engine_two <> INVALID_FONT_ID)
    by (vm_compute; discriminate).
  assert (H3 : defaultFontId_ ex_engine_two <> 1) by (vm_compute; discriminate).
  assert (H4 : font_has_codepoint ex_engine_two (defaultFontId_ ex_engine_two) 20013 = true)
    by (vm_compute; reflexivity).
  split; [exact H1|]. split; [exact H2|]. split; [exact H3|]. split; [exact H4|].
  exact (IsCodepointAvailable_default_unconditional ex_engine_two 1 20013 H1 H2 H3 H4).
Defined.




(** ** Line box and baseline *)


(** The other departure: a content extent below 0.001 is replaced before the
    maximum is taken.  With no metrics at all and an absolute line height of
    1 the box is 16 x 1.2, not max(1, 0). *)
Lemma lineBoxHeight_replaces_tiny_extent :
  calculateLineBoxHeight (ex_paragraph ABSOLUTE_POINTS 1 0 ICU_WORD_BOUNDARIES)
    defaultScaledFontMetrics 0 0 16 = (16 * 1.2)%Q.
Proof. reflexivity. Qed.


(** ** The line of a byte offset *)

Lemma line_selected_true (tb : TextBlock) (o : Z) (i : nat) (line : LineLayoutInfo) :
  lines tb !! i = Some line ->
  (line_selected tb o i line = true <->
   owns_offset tb i line o \/
   (o = len (sourceTextConcatenated tb) /\ S i = length (lines tb))).
Proof.
  intros Hi. unfold line_selected, owns_offset, contains_offset, at_end_not_on_next.
  assert (Hlast : (Z.of_nat i =? Z.of_nat (length (lines tb)) - 1) = true <->
                  S i = length (lines tb)) by (rewrite Z.eqb_eq; lia).
  rewrite !orb_true_iff, !andb_true_iff, !orb_true_iff, Hlast.
  rewrite Z.leb_le, Z.ltb_lt, !Z.eqb_eq.
  destruct (lines tb !! S i) as [next|] eqn:Hn.
  - rewrite Z.ltb_lt. split.
    + intros [[H|[H1 [H2|H2]]]|H]; auto.
      left. right. split; [exact H1|]. right. exists next. auto.
    + intros [[H|[H1 [H2|(nx & Hnx & H2)]]]|H]; auto.
      left. right. split; [exact H1|]. right. congruence.
  - split.
    + intros [[H|[H1 [H2|H2]]]|H]; auto. discriminate.
    + intros [[H|[H1 [H2|(nx & Hnx & H2)]]]|H]; auto. discriminate.
Qed.

Lemma find_target_line_Some (tb : TextBlock) (o : Z) (rest : list LineLayoutInfo)
    (i0 i : nat) :
  drop i0 (lines tb) = rest ->
  find_target_line tb o i0 rest = Some i ->
  (i0 <= i)%nat /\
  (exists line, lines tb !! i = Some line /\ line_selected tb o i line = true) /\
  (forall j lj, (i0 <= j < i)%nat -> lines tb !! j = Some lj ->
                line_selected tb o j lj = false).
Proof.
  revert i0. induction rest as [|line rest IH]; intros i0 Hdrop Hfind; [discriminate|].
  assert (Hi0 : lines tb !! i0 = Some line).
  { rewrite <- (Nat.add_0_r i0), <- lookup_drop, Hdrop. reflexivity. }
  simpl in Hfind. destruct (line_selected tb o i0 line) eqn:Hsel.
  - inversion Hfind; subst i. split; [lia|]. split; [eauto|]. intros; lia.
  - assert (Hdrop' : drop (S i0) (lines tb) = rest).
    { pose proof (drop_S (lines tb) line i0 Hi0) as Hd. rewrite Hdrop in Hd.
      inversion Hd. reflexivity. }
    destruct (IH (S i0) Hdrop' Hfind) as (Hle & Hex & Hbefore).
    split; [lia|]. split; [exact Hex|].
    intros j lj Hj Hlj. destruct (decide (j = i0)) as [->|Hne].
    + rewrite Hi0 in Hlj. inversion Hlj; subst lj. exact Hsel.
    + apply Hbefore; [lia|exact Hlj].
Qed.

Lemma find_target_line_None (tb : TextBlock) (o : Z) (rest : list LineLayoutInfo)
    (i0 : nat) :
  drop i0 (lines tb) = rest ->
  find_target_line tb o i0 rest = None ->
  forall j lj, (i0 <= j)%nat -> lines tb !! j = Some lj ->
               line_selected tb o j lj = false.
Proof.
  revert i0. induction rest as [|line rest IH]; intros i0 Hdrop Hfind j lj Hj Hlj.
  - assert (Hlen : (length (lines tb) <= i0)%nat).
    { apply (f_equal length) in Hdrop. rewrite length_drop in Hdrop. simpl in Hdrop. lia. }
    apply lookup_lt_Some in Hlj. lia.
  - assert (Hi0 : lines tb !! i0 = Some line).
    { rewrite <- (Nat.add_0_r i0), <- lookup_drop, Hdrop. reflexivity. }
    simpl in Hfind. destruct (line_selected tb o i0 line) eqn:Hsel; [discriminate|].
    destruct (decide (j = i0)) as [->|Hne].
    + rewrite Hi0 in Hlj. inversion Hlj; subst lj. exact Hsel.
    + assert (Hdrop' : drop (S i0) (lines tb) = rest).
      { pose proof (drop_S (lines tb) line i0 Hi0) as Hd. rewrite Hdrop in Hd.
      inversion Hd. reflexivity. }
      apply (IH (S i0) Hdrop' Hfind j lj); [lia|exact Hlj].
Qed.

(** C6.  For an offset [o] into the text and a line [i] whose byte range
    [start, end] reaches [o], no earlier line owning [o]:
    [GetCursorInfoFromByteOffset] selects line [i] exactly when [o] lies in
    [start, end), or [o] is the end byte and the next line does not exist
    or starts after [o]. *)
Theorem GetCursorInfoFromByteOffset_selects_line (tb : TextBlock) (o : Z) (i : nat)
    (line : LineLayoutInfo) :
  0 <= o <= len (sourceTextConcatenated tb) ->
  len (sourceTextConcatenated tb) < 2 ^ 32 ->
  lines tb !! i = Some line ->
  sourceTextByteStartIndexInBlockText line <= o <=
    sourceTextByteEndIndexInBlockText line ->
  (forall j lj, (j < i)%nat -> lines tb !! j = Some lj -> ~ owns_offset tb j lj o) ->
  (lineIndex (GetCursorInfoFromByteOffset tb o) = Z.of_nat i <-> owns_offset tb i line o).
Proof.
  intros Ho Hlen Hi Hrange Hearlier.
  assert (Hlt : (i < length (lines tb))%nat) by (eapply lookup_lt_Some; eauto).
  assert (Hmin : Z.min o (u32 (len (sourceTextConcatenated tb))) = o).
  { unfold u32. rewrite Z.mod_small by (unfold len in *; lia). lia. }
  assert (Hsel_i : line_selected tb o i line = true <-> owns_offset tb i line o).
  { rewrite (line_selected_true tb o i line Hi). split; [|auto].
    intros [H|[H1 H2]]; [exact H|].
    unfold owns_offset, contains_offset, at_end_not_on_next.
    destruct (Z.eq_dec o (sourceTextByteEndIndexInBlockText line)); [right|left]; lia. }
  unfold GetCursorInfoFromByteOffset. rewrite Hmin.
  destruct (lines tb) as [|l0 ls] eqn:Hlines; [simpl in Hlt; lia|].
  rewrite <- Hlines in *.
  destruct (find_target_line tb o 0 (lines tb)) as [k|] eqn:Hfind.
  - destruct (find_target_line_Some tb o (lines tb) 0 k eq_refl Hfind)
      as (_ & (lk & Hk & Hselk) & Hbefore).
    cbn [lineIndex]. split.
    + intros Heq. assert (k = i) by lia. subst k.
      rewrite Hk in Hi. inversion Hi; subst lk. apply Hsel_i. exact Hselk.
    + intros Hown. f_equal.
      destruct (lt_eq_lt_dec k i) as [[Hki|Hki]|Hki]; [|exact Hki|].
      * exfalso. apply (line_selected_true tb o k lk Hk) in Hselk.
        destruct Hselk as [H|[_ H]]; [exact (Hearlier k lk Hki Hk H)|lia].
      * exfalso. apply Hsel_i in Hown.
        rewrite (Hbefore i line) in Hown; [discriminate|lia|exact Hi].
  - pose proof (find_target_line_None tb o (lines tb) 0 eq_refl Hfind i line
                  ltac:(lia) Hi) as Hnot.
    cbn [lineIndex]. split.
    + intros Heq. exfalso.
      assert (Hown : owns_offset tb i line o).
      { unfold owns_offset, contains_offset, at_end_not_on_next.
        destruct (Z.eq_dec o (sourceTextByteEndIndexInBlockText line)); [right|left]; lia. }
      apply Hsel_i in Hown. congruence.
    + intros Hown. apply Hsel_i in Hown. congruence.
Qed.

(** Scenario S2: offset 3 of "ab\ncd" is the end byte of line 0 and the
    start byte of line 1; the cursor is on line 1. *)
Lemma GetCursorInfoFromByteOffset_selects_line_witness :
  exists line,
    0 <= 3 <= len (sourceTextConcatenated ex_block_S2) /\
    len (sourceTextConcatenated ex_block_S2) < 2 ^ 32 /\
    lines ex_block_S2 !! 1%nat = Some line /\
    (sourceTextByteStartIndexInBlockText line <= 3 <=
       sourceTextByteEndIndexInBlockText line) /\
    (forall j lj, (j < 1)%nat -> lines ex_block_S2 !! j = Some lj ->
                  ~ owns_offset ex_block_S2 j lj 3) /\
    (lineIndex (GetCursorInfoFromByteOffset ex_block_S2 3) = Z.of_nat 1 <->
     owns_offset ex_block_S2 1 line 3).
Proof.
  destruct (lines ex_block_S2 !! 1%nat) as [line|] eqn:Hl;
    [|vm_compute in Hl; discriminate Hl].
  exists line.
  assert (H1 : 0 <= 3 <= len (sourceTextConcatenated ex_block_S2))
    by (vm_compute; split; discriminate).
  assert (H2 : len (sourceTextConcatenated ex_block_S2) < 2 ^ 32)
    by (vm_compute; reflexivity).
  assert (H3 : sourceTextByteStartIndexInBlockText line <= 3 <=
               sourceTextByteEndIndexInBlockText line).
  { vm_compute in Hl. inversion Hl; subst line. vm_compute. split; discriminate. }
  assert (H4 : forall j lj, (j < 1)%nat -> lines ex_block_S2 !! j = Some lj ->
                            ~ owns_offset ex_block_S2 j lj 3).
  { intros j lj Hj Hlj. assert (j = 0%nat) by lia. subst j.
    vm_compute in Hlj. inversion Hlj; subst lj.
    intros [[_ Hc]|[_ [Hc|(next & Hn & Hc)]]].
    - vm_compute in Hc. discriminate Hc.
    - vm_compute in Hc. discriminate Hc.
    - vm_compute in Hn. inversion Hn; subst next. vm_compute in Hc. discriminate Hc. }
  split; [exact H1|]. split; [exact H2|]. split; [reflexivity|].
  split; [exact H3|]. split; [exact H4|].
  exact (GetCursorInfoFromByteOffset_selects_line ex_block_S2 3 1 line H1 H2 Hl H3 H4).
Defined.

(** ** The invariant of the engine *)

Lemma removelast_last_Some {A} (l : list A) :
  l <> [] -> exists x, last l = Some x /\ l = removelast l ++ [x].
Proof.
  induction l as [|a l IH]; [congruence|]. intros _.
  destruct l as [|b l].
  - exists a. split; reflexivity.
  - destruct IH as (x & Hx & Hl); [discriminate|].
    exists x. split; [exact Hx|].
    change (removelast (a :: b :: l)) with (a :: removelast (b :: l)).
    change ((a :: removelast (b :: l)) ++ [x]) with (a :: (removelast (b :: l) ++ [x])).
    rewrite <- Hl. reflexivity.
Qed.

Lemma engine_ok_new (lib : bool) (gpu : Z -> PageAlloc) : engine_ok (newEngine lib gpu).
Proof.
  constructor; simpl.
  - constructor.
  - intros k. rewrite lookup_empty. split.
    + intros H. inversion H.
    + intros [x Hx]. discriminate.
  - left. reflexivity.
  - lia.
  - intros f [x Hx]. rewrite lookup_empty in Hx. discriminate.
  - intros f fd Hx. rewrite lookup_empty in Hx. discriminate.
  - intros k g Hx. rewrite lookup_empty in Hx. discriminate.
  - lia.
Qed.

Lemma engine_ok_set_atlas (e : Engine) images textures idx pen row :
  engine_ok e -> engine_ok (set_atlas e images textures idx pen row).
Proof. intros []. constructor; assumption. Qed.

Lemma engine_ok_set_options (e : Engine) (c w h : Z) (t : GlyphAtlasType) :
  1 <= c -> engine_ok e -> engine_ok (set_options e c w h t).
Proof. intros Hc []. constructor; try assumption. Qed.

Lemma engine_ok_clear (e : Engine) : engine_ok e -> engine_ok (performCacheCleanup e).
Proof.
  intros []. constructor; simpl; try assumption.
  - constructor.
  - intros k. rewrite lookup_empty. split.
    + intros H. inversion H.
    + intros [x Hx]. discriminate.
  - intros k g Hx. rewrite lookup_empty in Hx. discriminate.
Qed.

Lemma SetDefaultFont_ok (e : Engine) (f : FontId) :
  engine_ok e -> engine_ok (SetDefaultFont e f).
Proof.
  intros Hok. unfold SetDefaultFont.
  destruct (IsFontValid e f || bool_decide (f = INVALID_FONT_ID)) eqn:E; [|exact Hok].
  destruct Hok. constructor; simpl; try assumption.
  apply orb_true_iff in E as [E|E].
  - right. apply IsFontValid_true. exact E.
  - left. apply bool_decide_eq_true in E. exact E.
Qed.

Lemma SetFontFallbackChain_ok (e : Engine) (p : FontId) (chain : list FontId) :
  engine_ok e -> engine_ok (SetFontFallbackChain e p chain).
Proof.
  intros Hok. unfold SetFontFallbackChain.
  destruct (negb (IsFontValid e p)); [exact Hok|].
  destruct Hok. constructor; simpl; assumption.
Qed.

Lemma LoadFont_ok (e : Engine) (file : FontFile) :
  engine_ok e -> engine_ok (snd (LoadFont e file)).
Proof.
  intros Hok. unfold LoadFont.
  destruct (negb (ftLibrary_ e)); [exact Hok|].
  destruct (negb (file_is_open file)); [exact Hok|].
  destruct (negb (file_read_ok file)); [exact Hok|].
  destruct (new_memory_face file) as [face|]; [|exact Hok].
  destruct (negb (hb_face_ok file)); [exact Hok|].
  destruct (hb_font_handle file) as [hb|]; [|exact Hok].
  destruct (negb (hb_parent_ok file)); [exact Hok|].
  destruct (negb (hb_funcs_ok file)); [exact Hok|].
  cbn [snd].
  match goal with
  | |- engine_ok (if _ then SetDefaultFont ?e1 _ else _) =>
      assert (Hok1 : engine_ok e1)
  end.
  { destruct Hok as [Hnd Hkeys Hdef Hnext Hids Hfaces Hcoh Hcap].
    assert (Hfresh : loadedFonts_ e !! nextFontId_ e = None).
    { destruct (loadedFonts_ e !! nextFontId_ e) as [x|] eqn:E; [|reflexivity].
      assert (Hs : is_Some (loadedFonts_ e !! nextFontId_ e)) by (exists x; exact E).
      specialize (Hids (nextFontId_ e) Hs). lia. }
    constructor; simpl; try assumption.
    - destruct Hdef as [Hdef|Hdef]; [left; exact Hdef|right].
      destruct Hdef as [x Hx]. exists x. rewrite lookup_insert_ne; [exact Hx|].
      intros Heq. rewrite <- Heq, Hfresh in Hx. discriminate.
    - lia.
    - intros f [x Hx]. destruct (decide (nextFontId_ e = f)) as [<-|Hne]; [lia|].
      rewrite lookup_insert_ne in Hx by exact Hne.
      specialize (Hids f ltac:(eauto)). lia.
    - intros f fd Hx. destruct (decide (nextFontId_ e = f)) as [<-|Hne].
      + rewrite lookup_insert_eq in Hx. inversion Hx; subst fd. simpl. eauto.
      + rewrite lookup_insert_ne in Hx by exact Hne. eapply Hfaces; eauto.
    - intros k g Hk. destruct (Hcoh k g Hk) as (fd & Hfd & Hm).
      exists fd. split; [|exact Hm].
      rewrite lookup_insert_ne; [exact Hfd|].
      intros Heq. rewrite <- Heq, Hfresh in Hfd. discriminate. }
  match goal with
  | |- engine_ok (if ?b then _ else _) => destruct b
  end; [apply SetDefaultFont_ok|]; exact Hok1.
Qed.

Lemma unload_lru_fst (f : FontId) (lru : list FTGlyphCacheKey)
    (m : gmap FTGlyphCacheKey FTCachedGlyph) :
  fst (unload_lru f lru m) = filter (fun k => key_fontId k <> f) lru.
Proof.
  revert m. induction lru as [|k rest IH]; intros m; [reflexivity|].
  simpl. destruct (decide (key_fontId k = f)) as [Heq|Hne].
  - rewrite bool_decide_eq_true_2 by exact Heq.
    rewrite filter_cons_False by (intros H; apply H; exact Heq). apply IH.
  - rewrite bool_decide_eq_false_2 by exact Hne.
    rewrite filter_cons_True by exact Hne.
    specialize (IH m). destruct (unload_lru f rest m). simpl in *. congruence.
Qed.

Lemma unload_lru_snd (f : FontId) (lru : list FTGlyphCacheKey)
    (m : gmap FTGlyphCacheKey FTCachedGlyph) (k : FTGlyphCacheKey) :
  snd (unload_lru f lru m) !! k =
    if bool_decide (key_fontId k = f /\ k ∈ lru) then None else m !! k.
Proof.
  revert m. induction lru as [|k0 rest IH]; intros m.
  - simpl. rewrite bool_decide_eq_false_2; [reflexivity|].
    intros [_ H]. inversion H.
  - simpl. destruct (decide (key_fontId k0 = f)) as [Heq|Hne].
    + rewrite bool_decide_eq_true_2 by exact Heq. rewrite IH.
      destruct (decide (k = k0)) as [->|Hk].
      * rewrite lookup_delete_eq.
        rewrite (bool_decide_eq_true_2 (key_fontId k0 = f /\ k0 ∈ k0 :: rest))
          by (split; [exact Heq|apply list_elem_of_here]).
        destruct (bool_decide _); reflexivity.
      * rewrite lookup_delete_ne by congruence.
        apply (f_equal (fun b : bool => if b then None else m !! k)).
        apply bool_decide_ext. rewrite elem_of_cons. intuition congruence.
    + rewrite bool_decide_eq_false_2 by exact Hne.
      specialize (IH m). destruct (unload_lru f rest m) as [l' m']. simpl in *.
      rewrite IH.
      apply (f_equal (fun b : bool => if b then None else m !! k)).
      apply bool_decide_ext. rewrite elem_of_cons.
      split; [intuition|]. intros [H1 [H2|H2]]; [congruence|auto].
Qed.

Lemma first_key_loaded {A} (m : gmap Z A) (k : Z) :
  first_key m = Some k -> is_Some (m !! k).
Proof.
  unfold first_key. intros H.
  assert (Hin : forall l : list Z,
            foldr (fun k acc => match acc with
                                | None => Some k
                                | Some k' => Some (Z.min k k')
                                end) None l = Some k -> k ∈ l).
  { clear. induction l as [|a l IH]; [discriminate|]. simpl.
    destruct (foldr _ None l) as [k'|].
    - intros H. inversion H as [Hk]. clear H.
      destruct (Z.min_spec a k') as [[_ Hm]|[_ Hm]]; rewrite Hm.
      + apply list_elem_of_here.
      + apply list_elem_of_further. rewrite Hm in Hk. subst k'.
        apply IH. reflexivity.
    - intros H. inversion H. apply list_elem_of_here. }
  apply Hin in H. apply list_elem_of_fmap in H as ([k0 x] & -> & Hx).
  apply elem_of_map_to_list in Hx. simpl. eauto.
Qed.

Lemma first_key_nonempty {A} (m : gmap Z A) : m <> ∅ -> is_Some (first_key m).
Proof.
  intros Hne. unfold first_key.
  destruct (map_to_list m) as [|[k x] l] eqn:E.
  - apply map_to_list_empty_iff in E. contradiction.
  - simpl. match goal with
    | |- is_Some (match ?t with _ => _ end) => destruct t
    end; eauto.
Qed.

Lemma UnloadFont_ok (e : Engine) (f : FontId) :
  engine_ok e -> engine_ok (UnloadFont e f).
Proof.
  intros Hok. unfold UnloadFont.
  destruct (loadedFonts_ e !! f) as [fd0|] eqn:Hf; [|exact Hok].
  pose proof (unload_lru_fst f (lru_glyph_list_ e) (glyph_cache_map_ e)) as Hfst.
  pose proof (unload_lru_snd f (lru_glyph_list_ e) (glyph_cache_map_ e)) as Hsnd.
  destruct (unload_lru f (lru_glyph_list_ e) (glyph_cache_map_ e)) as [lru m].
  simpl in Hfst, Hsnd. subst lru.
  destruct Hok as [Hnd Hkeys Hdef Hnext Hids Hfaces Hcoh Hcap].
  constructor; simpl.
  - apply NoDup_filter. exact Hnd.
  - intros k. split.
    + intros Hin. apply list_elem_of_filter in Hin as [Hne Hin].
      rewrite Hsnd, bool_decide_eq_false_2 by (intros [H _]; contradiction).
      apply Hkeys. exact Hin.
    + intros Hs. rewrite Hsnd in Hs.
      destruct (bool_decide (key_fontId k = f /\ k ∈ lru_glyph_list_ e)) eqn:E;
        [destruct Hs; discriminate|].
      apply bool_decide_eq_false in E. apply Hkeys in Hs.
      apply list_elem_of_filter. split; [|exact Hs].
      intros Heq. apply E. split; assumption.
  - destruct (decide (defaultFontId_ e = f)) as [Heq|Hne].
    + rewrite bool_decide_eq_true_2 by exact Heq.
      destruct (decide (delete f (loadedFonts_ e) = ∅)) as [He|He].
      * rewrite bool_decide_eq_true_2 by exact He. left. reflexivity.
      * rewrite bool_decide_eq_false_2 by exact He. right.
        destruct (first_key_nonempty _ He) as [k Hk]. rewrite Hk. simpl.
        apply first_key_loaded. exact Hk.
    + rewrite bool_decide_eq_false_2 by exact Hne.
      destruct Hdef as [Hdef|Hdef]; [left; exact Hdef|right].
      rewrite lookup_delete_ne by congruence. exact Hdef.
  - exact Hnext.
  - intros f' [x Hx]. apply Hids.
    destruct (decide (f = f')) as [<-|Hne].
    + rewrite lookup_delete_eq in Hx. discriminate.
    + rewrite lookup_delete_ne in Hx by exact Hne. eauto.
  - intros f' fd Hx. destruct (decide (f = f')) as [<-|Hne].
    + rewrite lookup_delete_eq in Hx. discriminate.
    + rewrite lookup_delete_ne in Hx by exact Hne. eapply Hfaces; eauto.
  - intros k g Hk. rewrite Hsnd in Hk.
    destruct (bool_decide _) eqn:E; [discriminate|].
    apply bool_decide_eq_false in E.
    destruct (Hcoh k g Hk) as (fd & Hfd & Hm). exists fd. split; [|exact Hm].
    rewrite lookup_delete_ne; [exact Hfd|].
    intros Heq. apply E. split; [congruence|]. apply Hkeys. eauto.
  - exact Hcap.
Qed.

Lemma same_registry_refl (e : Engine) : same_registry e e.
Proof. unfold same_registry. repeat split; reflexivity. Qed.

Lemma same_registry_trans (e1 e2 e3 : Engine) :
  same_registry e1 e2 -> same_registry e2 e3 -> same_registry e1 e3.
Proof.
  unfold same_registry. intros H1 H2.
  destruct H1 as (?&?&?&?&?&?&?&?&?&?), H2 as (?&?&?&?&?&?&?&?&?&?).
  repeat split; congruence.
Qed.

Lemma cache_step_refl (e : Engine) : cache_step e e.
Proof. split; [apply same_registry_refl|auto]. Qed.

Lemma cache_step_trans (e1 e2 e3 : Engine) :
  cache_step e1 e2 -> cache_step e2 e3 -> cache_step e1 e3.
Proof.
  intros [H1 K1] [H2 K2]. split; [eapply same_registry_trans; eauto|auto].
Qed.

Lemma cache_step_set_atlas (e : Engine) images textures idx pen row :
  cache_step e (set_atlas e images textures idx pen row).
Proof.
  split; [unfold same_registry; simpl; repeat split; reflexivity|].
  apply engine_ok_set_atlas.
Qed.

Lemma findSpaceInAtlasAndPack_atlas (e : Engine) (w h : Z) :
  snd (findSpaceInAtlasAndPack e w h) = e \/
  exists images textures idx pen row,
    snd (findSpaceInAtlasAndPack e w h) = set_atlas e images textures idx pen row.
Proof.
  unfold findSpaceInAtlasAndPack.
  destruct ((w <=? 0) || (h <=? 0)); [left; reflexivity|right].
  repeat match goal with
         | |- context [let '(_, _) := ?t in _] => destruct t
         | |- context [match ?t with Some _ => _ | None => _ end] => destruct t
         | |- context [match ?t with ImageFailed => _ | _ => _ end] => destruct t
         | |- context [if ?b then _ else _] => destruct b
         end; simpl; eauto 10.
Qed.

Lemma findSpaceInAtlasAndPack_step (e : Engine) (w h : Z) :
  cache_step e (snd (findSpaceInAtlasAndPack e w h)).
Proof.
  destruct (findSpaceInAtlasAndPack_atlas e w h) as [->|(i & t & idx & pen & row & ->)].
  - apply cache_step_refl.
  - apply cache_step_set_atlas.
Qed.

Lemma rasterize_spec (e : Engine) (slot : FT_GlyphSlot) (sdf : bool) :
  cached_metrics (fst (rasterize e slot sdf)) = metrics_of_slot slot /\
  (snd (rasterize e slot sdf) = e \/
   exists images textures idx pen row,
     snd (rasterize e slot sdf) = set_atlas e images textures idx pen row).
Proof.
  unfold rasterize.
  destruct (bitmap_buffer slot && (0 <? bitmap_width slot) && (0 <? bitmap_rows slot)).
  - pose proof (findSpaceInAtlasAndPack_atlas e (bitmap_width slot) (bitmap_rows slot)) as H.
    destruct (findSpaceInAtlasAndPack e (bitmap_width slot) (bitmap_rows slot))
      as [pack_rect e'].
    simpl in *. split; [reflexivity|exact H].
  - simpl. split; [reflexivity|left; reflexivity].
Qed.

Lemma lru_touch_ok (e : Engine) (key : FTGlyphCacheKey) :
  is_Some (glyph_cache_map_ e !! key) ->
  cache_step e (set_cache e (lru_touch key (lru_glyph_list_ e)) (glyph_cache_map_ e)).
Proof.
  intros Hkey. split; [unfold same_registry; simpl; repeat split; reflexivity|].
  intros [Hnd Hkeys Hdef Hnext Hids Hfaces Hcoh Hcap].
  constructor; simpl; try assumption.
  - unfold lru_touch. apply NoDup_cons. split.
    + intros Hin. apply list_elem_of_filter in Hin as [Hne _]. congruence.
    + apply NoDup_filter. exact Hnd.
  - intros k. unfold lru_touch. rewrite elem_of_cons, list_elem_of_filter. split.
    + intros [->|[_ Hin]]; [exact Hkey|apply Hkeys; exact Hin].
    + intros Hs. destruct (decide (k = key)) as [->|Hne]; [left; reflexivity|right].
      split; [exact Hne|apply Hkeys; exact Hs].
Qed.

Lemma cache_insert_ok (e : Engine) (key : FTGlyphCacheKey) (g : FTCachedGlyph) :
  glyph_cache_map_ e !! key = None ->
  (forall fd, loadedFonts_ e !! key_fontId key = Some fd ->
     cached_metrics g =
       metrics_of_slot (slot_of (ftFace fd) (glyphIndex key) (sdfPixelSize key)
                          (isSDF key))) ->
  is_Some (loadedFonts_ e !! key_fontId key) ->
  cache_step e (cache_insert e key g).
Proof.
  intros Hmiss Hmetrics Hfont. unfold cache_insert.
  split.
  { destruct (_ && _); unfold same_registry; simpl; repeat split; reflexivity. }
  intros [Hnd Hkeys Hdef Hnext Hids Hfaces Hcoh Hcap].
  assert (Hnotin : key ∉ lru_glyph_list_ e).
  { intros Hin. apply Hkeys in Hin. rewrite Hmiss in Hin. destruct Hin; discriminate. }
  destruct ((glyph_cache_capacity_ e <=? Z.of_nat (size (glyph_cache_map_ e))) &&
            negb (bool_decide (lru_glyph_list_ e = []))) eqn:E.
  - apply andb_true_iff in E as [_ E]. apply negb_true_iff, bool_decide_eq_false in E.
    destruct (removelast_last_Some _ E) as (x & Hlast & Hsplit).
    rewrite Hlast.
    set (l0 := removelast (lru_glyph_list_ e)) in *.
    assert (Hnd0 : NoDup (l0 ++ [x])) by (rewrite <- Hsplit; exact Hnd).
    apply NoDup_app in Hnd0 as (Hnd0 & Hx & _).
    assert (Hin0 : forall k, k ∈ lru_glyph_list_ e <-> k ∈ l0 \/ k = x).
    { intros k. rewrite Hsplit, elem_of_app, list_elem_of_singleton. tauto. }
    constructor; simpl; try assumption.
    + apply NoDup_cons. split; [|exact Hnd0].
      intros Hin. apply Hnotin, Hin0. left. exact Hin.
    + intros k. rewrite elem_of_cons.
      destruct (decide (key = k)) as [<-|Hne].
      * rewrite lookup_insert_eq. split; eauto.
      * rewrite lookup_insert_ne by exact Hne.
        destruct (decide (x = k)) as [<-|Hxk].
        -- rewrite lookup_delete_eq. split.
           ++ intros [H|H]; [congruence|]. exfalso. apply (Hx x H).
              apply list_elem_of_singleton. reflexivity.
           ++ intros [y Hy]. discriminate.
        -- rewrite lookup_delete_ne by exact Hxk. rewrite <- Hkeys, Hin0. split.
           ++ intros [H|H]; [congruence|left; exact H].
           ++ intros [H|H]; [right; exact H|congruence].
    + intros k g0 Hk. destruct (decide (key = k)) as [<-|Hne].
      * rewrite lookup_insert_eq in Hk. inversion Hk; subst g0.
        destruct Hfont as [fd Hfd]. exists fd. split; [exact Hfd|auto].
      * rewrite lookup_insert_ne in Hk by exact Hne.
        destruct (decide (x = k)) as [<-|Hxk].
        -- rewrite lookup_delete_eq in Hk. discriminate.
        -- rewrite lookup_delete_ne in Hk by exact Hxk. apply Hcoh. exact Hk.
  - constructor; simpl; try assumption.
    + apply NoDup_cons. split; assumption.
    + intros k. rewrite elem_of_cons.
      destruct (decide (key = k)) as [<-|Hne].
      * rewrite lookup_insert_eq. split; eauto.
      * rewrite lookup_insert_ne by exact Hne. rewrite <- Hkeys. split.
        -- intros [H|H]; [congruence|exact H].
        -- intros H. right. exact H.
    + intros k g0 Hk. destruct (decide (key = k)) as [<-|Hne].
      * rewrite lookup_insert_eq in Hk. inversion Hk; subst g0.
        destruct Hfont as [fd Hfd]. exists fd. split; [exact Hfd|auto].
      * rewrite lookup_insert_ne in Hk by exact Hne. apply Hcoh. exact Hk.
Qed.


(** A miss: the glyph is rasterized and inserted. *)
Lemma rasterize_insert_step (e : Engine) (key : FTGlyphCacheKey) (fd : FTFontData) :
  loadedFonts_ e !! key_fontId key = Some fd ->
  glyph_cache_map_ e !! key = None ->
  let slot := slot_of (ftFace fd) (glyphIndex key) (sdfPixelSize key) (isSDF key) in
  cache_step e
    (cache_insert (snd (rasterize e slot (isSDF key))) key
       (fst (rasterize e slot (isSDF key)))).
Proof.
  intros Hfd Hkey slot.
  destruct (rasterize_spec e slot (isSDF key)) as [Hm Hatlas].
  assert (Hins : forall e', (e' = e \/
                   exists images textures idx pen row,
                     e' = set_atlas e images textures idx pen row) ->
                 cache_step e (cache_insert e' key (fst (rasterize e slot (isSDF key))))).
  { intros e' [->|(i & t & idx & pen & row & ->)].
    - apply cache_insert_ok; [exact Hkey| |rewrite Hfd; eauto].
      intros fd' Hfd'. rewrite Hfd in Hfd'. inversion Hfd'; subst fd'. exact Hm.
    - eapply cache_step_trans; [apply (cache_step_set_atlas e i t idx pen row)|].
      apply cache_insert_ok; simpl; [exact Hkey| |rewrite Hfd; eauto].
      intros fd' Hfd'. rewrite Hfd in Hfd'. inversion Hfd'; subst fd'. exact Hm. }
  apply Hins. exact Hatlas.
Qed.

Lemma getCachedGlyphByGID_step (e : Engine) (f : FontId) (gid : Z) :
  cache_step e (snd (getCachedGlyphByGID e f gid)).
Proof.
  unfold getCachedGlyphByGID.
  set (resolved := if IsFontValid e f then Some (f, gid)
                   else if IsFontValid e (defaultFontId_ e)
                        then Some (defaultFontId_ e, 0) else None).
  destruct resolved as [[actual g0]|]; [|apply cache_step_refl].
  destruct (loadedFonts_ e !! actual) as [fd|] eqn:Hfd; [|apply cache_step_refl].
  set (key := {| key_fontId := actual; glyphIndex := g0;
                 sdfPixelSize := sdfGenSize_of fd;
                 isSDF := bool_decide (atlas_type_hint_ e = SDF_BITMAP) |}).
  destruct (glyph_cache_map_ e !! key) as [cached|] eqn:Hkey.
  - simpl. apply lru_touch_ok. rewrite Hkey. eauto.
  - pose proof (rasterize_insert_step e key fd Hfd Hkey) as H. simpl in H.
    destruct (rasterize e _ _) as [newCachedGlyph e']. simpl in *. exact H.
Qed.

Lemma getOrCacheGlyph_step (fuel : nat) :
  forall e f cp r, getOrCacheGlyph fuel e f cp = Some r -> cache_step e (snd r).
Proof.
  induction fuel as [|fuel IH]; intros e f cp r H.
  - cbn [getOrCacheGlyph] in H.
    destruct (select_font_for_codepoint e f cp) as [[actual gid]|];
      [|inversion H; apply cache_step_refl].
    destruct (loadedFonts_ e !! actual) as [fd|] eqn:Hfd;
      [|inversion H; apply cache_step_refl].
    set (key := {| key_fontId := actual; glyphIndex := gid;
                   sdfPixelSize := sdfGenSize_of fd;
                   isSDF := bool_decide (atlas_type_hint_ e = SDF_BITMAP) |}) in *.
    destruct (glyph_cache_map_ e !! key) as [cached|] eqn:Hkey.
    { inversion H. simpl. apply lru_touch_ok. rewrite Hkey. eauto. }
    destruct (ftFace fd) as [face|] eqn:Hface; [|inversion H; apply cache_step_refl].
    destruct (set_pixel_sizes_error face (sdfGenSize_of fd));
      [inversion H; apply cache_step_refl|].
    destruct (load_glyph_error face gid (sdfGenSize_of fd)).
    { destruct (negb (gid =? 0)); [discriminate|inversion H; apply cache_step_refl]. }
    destruct (render_glyph_error face gid (sdfGenSize_of fd) (isSDF key));
      [inversion H; apply cache_step_refl|].
    pose proof (rasterize_insert_step e key fd Hfd Hkey) as Hstep. simpl in Hstep.
    rewrite Hface in Hstep. simpl in Hstep.
    destruct (rasterize e _ _) as [newCachedGlyph e']. inversion H. simpl in *. exact Hstep.
  - cbn [getOrCacheGlyph] in H.
    destruct (select_font_for_codepoint e f cp) as [[actual gid]|];
      [|inversion H; apply cache_step_refl].
    destruct (loadedFonts_ e !! actual) as [fd|] eqn:Hfd;
      [|inversion H; apply cache_step_refl].
    set (key := {| key_fontId := actual; glyphIndex := gid;
                   sdfPixelSize := sdfGenSize_of fd;
                   isSDF := bool_decide (atlas_type_hint_ e = SDF_BITMAP) |}) in *.
    destruct (glyph_cache_map_ e !! key) as [cached|] eqn:Hkey.
    { inversion H. simpl. apply lru_touch_ok. rewrite Hkey. eauto. }
    destruct (ftFace fd) as [face|] eqn:Hface; [|inversion H; apply cache_step_refl].
    destruct (set_pixel_sizes_error face (sdfGenSize_of fd));
      [inversion H; apply cache_step_refl|].
    destruct (load_glyph_error face gid (sdfGenSize_of fd)).
    { destruct (negb (gid =? 0)); [|inversion H; apply cache_step_refl].
      apply IH in H. exact H. }
    destruct (render_glyph_error face gid (sdfGenSize_of fd) (isSDF key));
      [inversion H; apply cache_step_refl|].
    pose proof (rasterize_insert_step e key fd Hfd Hkey) as Hstep. simpl in Hstep.
    rewrite Hface in Hstep. simpl in Hstep.
    destruct (rasterize e _ _) as [newCachedGlyph e']. inversion H. simpl in *. exact Hstep.
Qed.

Lemma SetGlyphAtlasOptions_ok (e : Engine) (n w h : Z) (t : GlyphAtlasType) :
  engine_ok e -> engine_ok (SetGlyphAtlasOptions e n w h t).
Proof.
  intros Hok. unfold SetGlyphAtlasOptions.
  apply engine_ok_set_options.
  - destruct (0 <? n) eqn:E; [apply Z.ltb_lt in E|]; lia.
  - destruct (_ && _); [apply engine_ok_clear|]; exact Hok.
Qed.

(** The engine during a layout: only cache look-ups change it. *)
Lemma glyph_step_engine (ctx : LayoutCtx) (rc : RunCtx)
    (st : SegmentAcc * (Q * Q)) (hg : hb_glyph) :
  cache_step (seg_engine (fst st)) (seg_engine (fst (glyph_step ctx rc st hg))).
Proof.
  unfold glyph_step. cbv zeta.
  destruct (if original_codepoint_for_glyph rc hg =? 65532 then _ else None).
  - simpl. apply cache_step_refl.
  - simpl. apply getCachedGlyphByGID_step.
Qed.

Lemma foldl_cache_step {A B} (f : A -> B -> A) (proj : A -> Engine) (l : list B) :
  (forall a b, cache_step (proj a) (proj (f a b))) ->
  forall a, cache_step (proj a) (proj (foldl f a l)).
Proof.
  intros Hf. induction l as [|b l IH]; intros a; simpl.
  - apply cache_step_refl.
  - eapply cache_step_trans; [apply Hf|apply IH].
Qed.

Lemma run_step_engine (ctx : LayoutCtx) (textLen : Z) (seg : list Z) (last : Z)
    (st : SegmentAcc * Q) (run : bool * Z * Z) :
  cache_step (seg_engine (fst st)) (seg_engine (fst (run_step ctx textLen seg last st run))).
Proof.
  unfold run_step. cbv zeta.
  destruct (snd run =? 0); [apply cache_step_refl|].
  destruct (loadedFonts_ (seg_engine (fst st)) !! _); [|apply cache_step_refl].
  simpl.
  apply (foldl_cache_step (glyph_step ctx _) (fun a => seg_engine (fst a))).
  intros a b. apply glyph_step_engine.
Qed.

Lemma shape_segment_engine (ctx : LayoutCtx) (textLen : Z) (e : Engine) (failed : bool)
    (seg : list Z) (last : Z) :
  cache_step e (seg_engine (fst (fst (shape_segment ctx textLen e failed seg last)))).
Proof.
  unfold shape_segment. destruct seg as [|c seg]; [apply cache_step_refl|].
  destruct (if failed then None else _); [|apply cache_step_refl].
  simpl.
  apply (foldl_cache_step (run_step ctx textLen (c :: seg) last)
           (fun a => seg_engine (fst a)) l
           (fun a b => run_step_engine ctx textLen (c :: seg) last a b)
           ({| elements_for_this_segment := []; max_ascent_for_this_segment := 0;
               max_descent_for_this_segment := 0; seg_engine := e |}, 0%Q)).
Qed.

Lemma finalize_and_reset_engine (ctx : LayoutCtx) (st : LoopState) (next : Z) :
  engine (finalize_and_reset ctx st next) = engine st.
Proof.
  unfold finalize_and_reset. destruct (finalizeCurrentLine _ _ _ _ _ _ _ _ _ _ _ _ _ _ _ _) as [[? ?] ?].
  reflexivity.
Qed.

Lemma commit_segment_engine (ctx : LayoutCtx) (st : LoopState) (start : Z)
    (seg : SegmentAcc) (w : Q) :
  engine (commit_segment ctx st start seg w) = engine st.
Proof.
  unfold commit_segment.
  destruct (wrap_decision _ _ _ _ _); destruct (elements_for_this_segment seg);
    simpl; try rewrite finalize_and_reset_engine; reflexivity.
Qed.

Lemma segment_step_engine (ctx : LayoutCtx) (st : LoopState) :
  cache_step (engine st) (engine (fst (segment_step ctx st))).
Proof.
  unfold segment_step.
  destruct (next_break ctx (lastU16BreakPos st)) as [cur atEnd].
  cbv zeta.
  match goal with
  | |- context [shape_segment ?a ?b ?c ?d ?e ?f] =>
      pose proof (shape_segment_engine a b c d e f) as H;
      destruct (shape_segment a b c d e f) as [[seg w] failed]
  end.
  simpl in H.
  destruct (find_newline _ 0); simpl;
    try rewrite finalize_and_reset_engine; rewrite commit_segment_engine; simpl; exact H.
Qed.

Lemma layout_loop_engine (fuel : nat) (ctx : LayoutCtx) :
  forall st st', layout_loop fuel ctx st = Some st' ->
                 cache_step (engine st) (engine st').
Proof.
  induction fuel as [|fuel IH]; intros st st' H; simpl in H.
  - destruct (_ || _); [|inversion H; apply cache_step_refl].
    destruct (_ && _); [inversion H; apply cache_step_refl|discriminate].
  - destruct (_ || _); [|inversion H; apply cache_step_refl].
    destruct (_ && _); [inversion H; apply cache_step_refl|].
    pose proof (segment_step_engine ctx st) as Hs.
    destruct (segment_step ctx st) as [st1 leave]. simpl in Hs.
    destruct leave.
    + inversion H; subst. exact Hs.
    + eapply cache_step_trans; [exact Hs|apply IH; exact H].
Qed.

Lemma layout_start_engine (icu : ICU) (hb : HarfBuzz) (e : Engine)
    (spans : list TextSpan) (ps : ParagraphStyle) (ctx : LayoutCtx) (st0 : LoopState) :
  layout_start icu hb e spans ps = StartLoop ctx st0 -> engine st0 = e.
Proof.
  unfold layout_start. intros H.
  destruct (negb (ftLibrary_ e)); [discriminate|].
  destruct spans as [|sp spans]; [discriminate|].
  destruct (_ && _); [discriminate|].
  destruct (ubidi_paraLevel icu _ _) as [level|]; [|discriminate].
  match type of H with
  | match ?it with Some _ => _ | None => _ end = _ => destruct it as [[kind locale]|]
  end; [|discriminate].
  destruct (negb (ubrk_setText icu kind locale _)); [discriminate|].
  inversion H. reflexivity.
Qed.

Lemma LayoutStyledText_engine (icu : ICU) (hb : HarfBuzz) (e : Engine)
    (spans : list TextSpan) (ps : ParagraphStyle) (tb : TextBlock) (e' : Engine) :
  LayoutStyledText icu hb e spans ps = Some (tb, e') -> cache_step e e'.
Proof.
  unfold LayoutStyledText. intros H.
  destruct (layout_start icu hb e spans ps) as [tb0|ctx st0] eqn:Hstart.
  - inversion H; subst. apply cache_step_refl.
  - destruct (layout_loop _ _ _) as [st|] eqn:Hloop; [|discriminate].
    inversion H; subst. apply layout_loop_engine in Hloop.
    rewrite (layout_start_engine _ _ _ _ _ _ _ Hstart) in Hloop. exact Hloop.
Qed.

Lemma apply_op_step (e e' : Engine) (op : EngineOp) :
  engine_ok e -> apply_op e op = Some e' -> engine_ok e'.
Proof.
  intros Hok H. destruct op; simpl in H.
  - inversion H. apply LoadFont_ok. exact Hok.
  - inversion H. apply UnloadFont_ok. exact Hok.
  - inversion H. apply SetDefaultFont_ok. exact Hok.
  - inversion H. apply SetFontFallbackChain_ok. exact Hok.
  - inversion H. apply getCachedGlyphByGID_step. exact Hok.
  - destruct (getOrCacheGlyph fuel e f codepoint) as [r|] eqn:E; [|discriminate].
    inversion H. apply (getOrCacheGlyph_step fuel e f codepoint r E). exact Hok.
  - inversion H. apply engine_ok_clear. exact Hok.
  - inversion H. apply SetGlyphAtlasOptions_ok. exact Hok.
  - destruct (LayoutStyledText icu hb e spans paragraphStyle) as [[tb e1]|] eqn:E;
      [|discriminate].
    inversion H; subst. apply (LayoutStyledText_engine _ _ _ _ _ _ _ E). exact Hok.
Qed.

Lemma run_ops_ok (ops : list EngineOp) :
  forall e e', engine_ok e -> run_ops e ops = Some e' -> engine_ok e'.
Proof.
  induction ops as [|op ops IH]; intros e e' Hok H; simpl in H.
  - inversion H; subst. exact Hok.
  - destruct (apply_op e op) as [e1|] eqn:E; [|discriminate].
    apply (IH e1 e'); [eapply apply_op_step; eauto|exact H].
Qed.

(** Every reachable engine satisfies the invariant. *)
Lemma reachable_ok (e : Engine) : reachable e -> engine_ok e.
Proof.
  intros (lib & gpu & ops & H). eapply run_ops_ok; [apply engine_ok_new|exact H].
Qed.

(** ** Unloading a font *)

(** C8.  After [UnloadFont f] on a reachable engine in which [f] is loaded:
    no key of the glyph cache (map or LRU list) references [f], no fallback
    chain contains [f] and [f] has no chain of its own, and the default font
    id is [INVALID_FONT_ID] or the id of a font still in the registry. *)
Theorem UnloadFont_leaves_no_reference (e : Engine) (f : FontId) :
  reachable e ->
  is_Some (loadedFonts_ e !! f) ->
  (forall k, is_Some (glyph_cache_map_ (UnloadFont e f) !! k) -> key_fontId k <> f) /\
  (forall k, k ∈ lru_glyph_list_ (UnloadFont e f) -> key_fontId k <> f) /\
  (forall p chain, fontFallbackChains_ (UnloadFont e f) !! p = Some chain -> f ∉ chain) /\
  fontFallbackChains_ (UnloadFont e f) !! f = None /\
  loadedFonts_ (UnloadFont e f) !! f = None /\
  (defaultFontId_ (UnloadFont e f) = INVALID_FONT_ID \/
   is_Some (loadedFonts_ (UnloadFont e f) !! defaultFontId_ (UnloadFont e f))).
Proof.
  intros Hreach [fd Hf].
  pose proof (reachable_ok e Hreach) as Hok.
  pose proof (UnloadFont_ok e f Hok) as Hok'.
  assert (Hlru : forall k, k ∈ lru_glyph_list_ (UnloadFont e f) -> key_fontId k <> f).
  { intros k. unfold UnloadFont. rewrite Hf.
    pose proof (unload_lru_fst f (lru_glyph_list_ e) (glyph_cache_map_ e)) as Hfst.
    destruct (unload_lru f (lru_glyph_list_ e) (glyph_cache_map_ e)) as [lru m].
    simpl in *. subst lru. intros Hin. apply list_elem_of_filter in Hin as [Hne _].
    exact Hne. }
  split.
  { intros k Hk. apply Hlru. apply (ok_same_keys _ Hok'). exact Hk. }
  split; [exact Hlru|].
  split.
  { intros p chain. unfold UnloadFont. rewrite Hf.
    destruct (unload_lru f (lru_glyph_list_ e) (glyph_cache_map_ e)) as [lru m].
    simpl. rewrite lookup_fmap. intros Hc.
    destruct (delete f (fontFallbackChains_ e) !! p) as [c0|]; [|discriminate].
    simpl in Hc. inversion Hc. intros Hin.
    apply list_elem_of_filter in Hin as [Hne _]. apply Hne. reflexivity. }
  split.
  { unfold UnloadFont. rewrite Hf.
    destruct (unload_lru f (lru_glyph_list_ e) (glyph_cache_map_ e)) as [lru m].
    simpl. rewrite lookup_fmap, lookup_delete_eq. reflexivity. }
  split.
  { unfold UnloadFont. rewrite Hf.
    destruct (unload_lru f (lru_glyph_list_ e) (glyph_cache_map_ e)) as [lru m].
    simpl. apply lookup_delete_eq. }
  exact (ok_default _ Hok').
Qed.

(** The engine that laid out scenario S2 holds four cached glyphs of font 1,
    which is also the default; the font is then unloaded. *)
Lemma UnloadFont_leaves_no_reference_witness :
  reachable ex_engine_S2 /\
  is_Some (loadedFonts_ ex_engine_S2 !! 1) /\
  (forall k, is_Some (glyph_cache_map_ (UnloadFont ex_engine_S2 1) !! k) ->
             key_fontId k <> 1) /\
  (forall k, k ∈ lru_glyph_list_ (UnloadFont ex_engine_S2 1) -> key_fontId k <> 1) /\
  (forall p chain, fontFallbackChains_ (UnloadFont ex_engine_S2 1) !! p = Some chain ->
                   1 ∉ chain) /\
  fontFallbackChains_ (UnloadFont ex_engine_S2 1) !! 1 = None /\
  loadedFonts_ (UnloadFont ex_engine_S2 1) !! 1 = None /\
  (defaultFontId_ (UnloadFont ex_engine_S2 1) = INVALID_FONT_ID \/
   is_Some (loadedFonts_ (UnloadFont ex_engine_S2 1)
              !! defaultFontId_ (UnloadFont ex_engine_S2 1))).
Proof.
  assert (H1 : reachable ex_engine_S2).
  { exists true, ex_gpu, ex_ops_S2. vm_compute. reflexivity. }
  assert (H2 : is_Some (loadedFonts_ ex_engine_S2 !! 1)).
  { destruct (loadedFonts_ ex_engine_S2 !! 1) as [fd|] eqn:E; [eauto|].
    vm_compute in E. discriminate E. }
  split; [exact H1|]. split; [exact H2|].
  exact (UnloadFont_leaves_no_reference ex_engine_S2 1 H1 H2).
Defined.

(** ** The glyph cache *)

(** Map and LRU list hold the same keys, each once, in every reachable
    state; in particular they have the same size. *)
Lemma cache_same_size (e : Engine) :
  engine_ok e -> length (lru_glyph_list_ e) = size (glyph_cache_map_ e).
Proof.
  intros Hok. rewrite <- size_dom. unfold size at 1, set_size. simpl.
  apply Permutation_length. apply NoDup_Permutation.
  - exact (ok_lru_nodup _ Hok).
  - apply NoDup_elements.
  - intros k. rewrite elem_of_elements, elem_of_dom. apply (ok_same_keys _ Hok).
Qed.

(** A look-up keeps the size within the capacity when it was within it
    before: a hit leaves the map alone, a miss on a full cache evicts one
    entry before it inserts one. *)
Lemma getCachedGlyphByGID_size_bound (e : Engine) (f : FontId) (gid : Z) :
  engine_ok e ->
  Z.of_nat (size (glyph_cache_map_ e)) <= glyph_cache_capacity_ e ->
  Z.of_nat (size (glyph_cache_map_ (snd (getCachedGlyphByGID e f gid))))
    <= glyph_cache_capacity_ (snd (getCachedGlyphByGID e f gid)).
Proof.
  intros Hok Hsize. unfold getCachedGlyphByGID.
  set (resolved := if IsFontValid e f then Some (f, gid)
                   else if IsFontValid e (defaultFontId_ e)
                        then Some (defaultFontId_ e, 0) else None).
  destruct resolved as [[actual g0]|]; [|exact Hsize].
  destruct (loadedFonts_ e !! actual) as [fd|] eqn:Hfd; [|exact Hsize].
  set (key := {| key_fontId := actual; glyphIndex := g0;
                 sdfPixelSize := sdfGenSize_of fd;
                 isSDF := bool_decide (atlas_type_hint_ e = SDF_BITMAP) |}).
  destruct (glyph_cache_map_ e !! key) as [cached|] eqn:Hkey; [exact Hsize|].
  destruct (rasterize_spec e (slot_of (ftFace fd) g0 (sdfGenSize_of fd) (isSDF key))
              (isSDF key)) as [_ Hatlas].
  destruct (rasterize e _ _) as [g e']. simpl in Hatlas. cbn [snd].
  assert (Hsame : lru_glyph_list_ e' = lru_glyph_list_ e /\
                  glyph_cache_map_ e' = glyph_cache_map_ e /\
                  glyph_cache_capacity_ e' = glyph_cache_capacity_ e).
  { destruct Hatlas as [->|(i & t & idx & pen & row & ->)]; simpl; auto. }
  destruct Hsame as (Hl & Hm & Hc).
  unfold cache_insert. rewrite Hl, Hm, Hc.
  destruct ((glyph_cache_capacity_ e <=? Z.of_nat (size (glyph_cache_map_ e))) &&
            negb (bool_decide (lru_glyph_list_ e = []))) eqn:E; simpl; rewrite Hc.
  - apply andb_true_iff in E as [_ E]. apply negb_true_iff, bool_decide_eq_false in E.
    destruct (removelast_last_Some _ E) as (x & Hlast & Hsplit). rewrite Hlast.
    assert (Hx : is_Some (glyph_cache_map_ e !! x)).
    { apply (ok_same_keys _ Hok). rewrite Hsplit, elem_of_app, list_elem_of_singleton.
      right. reflexivity. }
    pose proof (map_size_delete_Some x (glyph_cache_map_ e) Hx) as Hdel.
    assert (Hpos : (0 < size (glyph_cache_map_ e))%nat).
    { destruct Hx as [gx Hgx].
      destruct (size (glyph_cache_map_ e)) eqn:Hz; [|lia].
      apply map_size_empty_iff in Hz. rewrite Hz, lookup_empty in Hgx. discriminate. }
    rewrite map_size_insert_None.
    + rewrite Hdel. lia.
    + destruct (decide (x = key)) as [->|Hne];
        [apply lookup_delete_eq|rewrite lookup_delete_ne by exact Hne; exact Hkey].
  - rewrite map_size_insert_None by exact Hkey.
    apply andb_false_iff in E as [E|E].
    + apply Z.leb_gt in E. lia.
    + apply negb_false_iff, bool_decide_eq_true in E.
      pose proof (cache_same_size e Hok) as Hlen. rewrite E in Hlen. simpl in Hlen.
      pose proof (ok_capacity _ Hok). lia.
Qed.

(** On a miss in a full cache the key removed is the back of the LRU list,
    and every look-up that finds or inserts a key puts it at the front: the
    list is ordered from most to least recently used. *)
Lemma cache_insert_evicts_back (e : Engine) (key : FTGlyphCacheKey) (g : FTCachedGlyph)
    (back : FTGlyphCacheKey) :
  glyph_cache_capacity_ e <= Z.of_nat (size (glyph_cache_map_ e)) ->
  last (lru_glyph_list_ e) = Some back ->
  evicted_key e = Some back /\
  lru_glyph_list_ (cache_insert e key g) = key :: removelast (lru_glyph_list_ e) /\
  glyph_cache_map_ (cache_insert e key g) = <[key := g]> (delete back (glyph_cache_map_ e)).
Proof.
  intros Hfull Hlast. unfold evicted_key, cache_insert.
  assert (Hne : lru_glyph_list_ e <> []).
  { intros H. rewrite H in Hlast. discriminate. }
  apply Z.leb_le in Hfull. rewrite Hfull, bool_decide_eq_false_2 by exact Hne.
  simpl. rewrite Hlast. auto.
Qed.

(** C4, at its failing input.  Glyphs 3 and 4 of the Latin font have no
    bitmap, so caching them creates no atlas page; [SetGlyphAtlasOptions]
    then lowers the capacity to 1 without clearing the cache (it clears
    only when an atlas page exists), and after the next get-or-create, hit
    or miss, the cache holds 2 entries for a capacity of 1.  The same
    happens when the look-ups are those of two layouts of the text " !". *)
Theorem cache_exceeds_capacity_after_lookup :
  cache_size_and_capacity <$> run_ops (newEngine true ex_gpu) ex_ops_capacity
    = Some (2, 1) /\
  cache_size_and_capacity <$> run_ops (newEngine true ex_gpu) ex_ops_capacity_miss
    = Some (2, 1) /\
  cache_size_and_capacity <$> run_ops (newEngine true ex_gpu) ex_ops_capacity_layout
    = Some (2, 1).
Proof. repeat split; vm_compute; reflexivity. Qed.

(** ** The wrap rule (lines 1319-1347) *)

Lemma ex_narrow_start :
  layout_start ex_icu_words ex_hb ex_engine_latin ex_spans_narrow ex_paragraph_narrow
  = StartLoop ex_ctx_narrow ex_st0_narrow.
Proof. vm_compute. reflexivity. Qed.






(** ** Strings *)

Lemma len_nonneg (s : list Z) : 0 <= len s.
Proof. unfold len. lia. Qed.






(** ** Lines and their byte ranges *)


Lemma ranges_partition_le (rs : list (Z * Z)) (a b : Z) :
  ranges_partition rs a b -> a <= b.
Proof.
  revert a. induction rs as [|r rs IH]; cbn; intros a H; [lia|].
  destruct H as (H1 & H2 & H3). apply IH in H3. lia.
Qed.

Lemma ranges_partition_snoc (rs : list (Z * Z)) (a b c : Z) :
  ranges_partition rs a b -> b <= c -> ranges_partition (rs ++ [(b, c)]) a c.
Proof.
  revert a. induction rs as [|r rs IH]; cbn; intros a H Hbc.
  - subst. repeat split; lia.
  - destruct H as (H1 & H2 & H3). repeat split; try assumption. apply IH; assumption.
Qed.

Lemma ranges_partition_bounds (rs : list (Z * Z)) (a b : Z) :
  ranges_partition rs a b -> Forall (fun r => a <= fst r /\ fst r <= snd r /\ snd r <= b) rs.
Proof.
  revert a. induction rs as [|r rs IH]; cbn; intros a H; [constructor|].
  destruct H as (H1 & H2 & H3). constructor.
  - apply ranges_partition_le in H3. lia.
  - apply IH in H3. eapply Forall_impl; [exact H3|]. cbn. intros x Hx. lia.
Qed.








(** [segment_step] with the pairs taken apart. *)
Lemma segment_step_eq (ctx : LayoutCtx) (st : LoopState) :
  let n := len (fullU16Text_local ctx) in
  let last := lastU16BreakPos st in
  let nb := next_break ctx last in
  let segmentU16 := substr (fullU16Text_local ctx) last (fst nb - last) in
  let nl := find_newline segmentU16 0 in
  let toShape := match nl with Some p => substr segmentU16 0 p | None => segmentU16 end in
  let r := shape_segment ctx (len (sourceTextConcatenated (textBlock st))) (engine st)
             (icu_status_failed st) toShape last in
  let st2 :=
    commit_segment ctx (set_engine_status_pos st (seg_engine (fst (fst r))) (snd r) last)
      (u8_offset_of ctx last) (fst (fst r)) (snd (fst r)) in
  let st3 :=
    match nl with
    | Some _ =>
        let st' := finalize_and_reset ctx st2 (u8_offset_of ctx (last + len toShape + 1)) in
        set_engine_status_pos st' (engine st') (icu_status_failed st')
          (last + len toShape + 1)
    | None => set_engine_status_pos st2 (engine st2) (icu_status_failed st2) (fst nb)
    end in
  segment_step ctx st = (st3, snd nb && (n <=? lastU16BreakPos st3)).
Proof.
  cbv zeta. unfold segment_step.
  destruct (next_break ctx (lastU16BreakPos st)) as [cur atEnd]. cbn [fst snd].
  destruct (shape_segment _ _ _ _ _ _) as [[seg w] failed]. cbn [fst snd].
  reflexivity.
Qed.


Section SegmentLoop.

Variable ctx : LayoutCtx.
Variable T : list Z.

Let n := len (fullU16Text_local ctx).

Hypothesis following_contract :
  forall p, 0 <= p ->
    ubrk_following (c_icu ctx) (breakKind ctx) (localeForBreaks ctx)
      (fullU16Text_local ctx) p = UBRK_DONE \/
    p < ubrk_following (c_icu ctx) (breakKind ctx) (localeForBreaks ctx)
          (fullU16Text_local ctx) p <= n.

Hypothesis offsets_monotone :
  forall p q, 0 <= p <= q -> q <= n -> u8_offset_of ctx p <= u8_offset_of ctx q.




End SegmentLoop.

(** ** The end of the layout *)

Lemma postprocess_line_length (els : list PositionedElementVariant) (l : LineLayoutInfo) :
  length (postprocess_line els l) = length els.
Proof.
  unfold postprocess_line.
  generalize (seq 0 (Z.to_nat (numElementsInLine l))). intros idx.
  revert els. induction idx as [|i idx IH]; intros els; cbn; [reflexivity|].
  rewrite IH. apply length_alter.
Qed.

Lemma postprocess_lines_length (lns : list LineLayoutInfo)
    (els : list PositionedElementVariant) :
  length (foldl postprocess_line els lns) = length els.
Proof.
  revert els. induction lns as [|l lns IH]; intros els; cbn; [reflexivity|].
  rewrite IH. apply postprocess_line_length.
Qed.


(** ** Every piece of text yields an element *)





Section Shaping.

Variable ctx : LayoutCtx.
Variable e0 : Engine.

Hypothesis font_loaded : is_Some (loadedFonts_ e0 !! paraDefFontId ctx).

Hypothesis glyphs_contract :
  forall font px run dir script lang guess,
    run <> [] -> hb_shape (c_hb ctx) font px run dir script lang guess <> [].





End Shaping.



Section ShapedLoop.

Variable ctx : LayoutCtx.
Variable e0 : Engine.

Let n := len (fullU16Text_local ctx).

Hypothesis following_contract :
  forall p, 0 <= p ->
    ubrk_following (c_icu ctx) (breakKind ctx) (localeForBreaks ctx)
      (fullU16Text_local ctx) p = UBRK_DONE \/
    p < ubrk_following (c_icu ctx) (breakKind ctx) (localeForBreaks ctx)
          (fullU16Text_local ctx) p <= n.

Hypothesis font_loaded : is_Some (loadedFonts_ e0 !! paraDefFontId ctx).

Hypothesis glyphs_contract :
  forall font px run dir script lang guess,
    run <> [] -> hb_shape (c_hb ctx) font px run dir script lang guess <> [].

Hypothesis runs_contract :
  forall p k, 0 <= p -> 0 < k -> p + k <= n ->
    exists runs,
      ubidi_visualRuns (c_icu ctx) (substr (fullU16Text_local ctx) p k) (actualParaLevel ctx)
      = Some runs /\
      Exists (fun run =>
                snd run <> 0 /\
                Utf16ToUtf8 (c_icu ctx)
                  (substr (substr (fullU16Text_local ctx) p k) (snd (fst run)) (snd run))
                <> []) runs.


End ShapedLoop.

(** ** From the call to the loop and back *)

(** When the loop starts, its context holds the inputs of the call and the
    state is the initial one. *)
Lemma layout_start_StartLoop (icu : ICU) (hb : HarfBuzz) (e : Engine)
    (spans : list TextSpan) (ps : ParagraphStyle) (ctx : LayoutCtx) (st0 : LoopState) :
  layout_start icu hb e spans ps = StartLoop ctx st0 ->
  let T := fst (build_span_map icu spans 0 0 0) in
  c_icu ctx = icu /\ c_hb ctx = hb /\ c_spans ctx = spans /\ c_paragraphStyle ctx = ps /\
  paraDefFontId ctx = fst (fst (paragraph_defaults e ps)) /\
  paraDefFontSize ctx = snd (fst (paragraph_defaults e ps)) /\
  paraDefaultMetrics ctx = snd (paragraph_defaults e ps) /\
  spanMap_local ctx = snd (build_span_map icu spans 0 0 0) /\
  fullU16Text_local ctx = Utf8ToUtf16 icu T /\
  (exists hint, ubidi_paraLevel icu (Utf8ToUtf16 icu T) hint = Some (actualParaLevel ctx)) /\
  spans <> [] /\
  st0 = initialLoopState ctx e (set_sourceText (emptyTextBlock spans ps) T).
Proof.
  unfold layout_start. intros H.
  destruct (negb (ftLibrary_ e)); [discriminate|].
  destruct spans as [|sp spans]; [discriminate|].
  destruct (_ && _); [discriminate|].
  destruct (ubidi_paraLevel icu _ _) as [level|] eqn:Hlevel; [|discriminate].
  match type of H with
  | match ?it with Some _ => _ | None => _ end = _ => destruct it as [[kind locale]|]
  end; [|discriminate].
  destruct (negb (ubrk_setText icu kind locale _)); [discriminate|].
  inversion H; subst. cbn [c_icu c_hb c_spans c_paragraphStyle paraDefFontId paraDefFontSize
                             paraDefaultMetrics spanMap_local fullU16Text_local
                             actualParaLevel].
  repeat split; try reflexivity.
  - eexists. exact Hlevel.
  - discriminate.
Qed.








(** ** The example ICU and shaper honour the contracts *)











(** ** Lines of a block (claim C2) *)




(** ** The bidi maps of a line (claim C5) *)







(** ** Repeated layouts (claim C9) *)

(** *** What depends on the registry only *)







(** *** Erasing the render information commutes with the layout *)













(** *** The glyph cache *)


Lemma engines_agree_refl (e : Engine) : engine_ok e -> engines_agree e e.
Proof. intros H. split; [apply same_registry_refl|split; exact H]. Qed.





(** *** Shaping a segment *)








(** *** Finalizing lines *)










(** *** The loop and the call *)











(** ** The engine between operations *)

(** X1.  In every state the engine can reach, the LRU list and the cache
    map hold the same keys, the list holds each key once (so both have the
    same size), and every cached key belongs to a font that is loaded. *)
Theorem reachable_cache_consistent (e : Engine) :
  reachable e ->
  NoDup (lru_glyph_list_ e) /\
  (forall k, k ∈ lru_glyph_list_ e <-> is_Some (glyph_cache_map_ e !! k)) /\
  length (lru_glyph_list_ e) = size (glyph_cache_map_ e) /\
  (forall k, k ∈ lru_glyph_list_ e -> IsFontValid e (key_fontId k) = true).
Proof.
  intros Hreach. pose proof (reachable_ok e Hreach) as Hok.
  split; [exact (ok_lru_nodup _ Hok)|].
  split; [exact (ok_same_keys _ Hok)|].
  split; [exact (cache_same_size e Hok)|].
  intros k Hin. apply (ok_same_keys _ Hok) in Hin as [g Hg].
  destruct (ok_coherent _ Hok k g Hg) as (fd & Hfd & _).
  apply IsFontValid_true. rewrite Hfd. eauto.
Qed.

Lemma reachable_cache_consistent_witness :
  reachable ex_engine_S2 /\
  NoDup (lru_glyph_list_ ex_engine_S2) /\
  (forall k, k ∈ lru_glyph_list_ ex_engine_S2
             <-> is_Some (glyph_cache_map_ ex_engine_S2 !! k)) /\
  length (lru_glyph_list_ ex_engine_S2) = size (glyph_cache_map_ ex_engine_S2) /\
  (forall k, k ∈ lru_glyph_list_ ex_engine_S2 ->
             IsFontValid ex_engine_S2 (key_fontId k) = true).
Proof.
  assert (H : reachable ex_engine_S2).
  { exists true, ex_gpu, ex_ops_S2. vm_compute. reflexivity. }
  split; [exact H|]. exact (reachable_cache_consistent ex_engine_S2 H).
Defined.

(** X2.  In every state the engine can reach, the default font is
    [INVALID_FONT_ID] or a loaded font, every loaded font has an id from 1
    up to the last id handed out and a FreeType face, [INVALID_FONT_ID] is
    never a valid font, and the cache capacity is at least 1. *)
Theorem reachable_registry_consistent (e : Engine) :
  reachable e ->
  (GetDefaultFont e = INVALID_FONT_ID \/ IsFontValid e (GetDefaultFont e) = true) /\
  (forall f, IsFontValid e f = true -> 1 <= f < nextFontId_ e) /\
  (forall f fd, loadedFonts_ e !! f = Some fd -> is_Some (ftFace fd)) /\
  IsFontValid e INVALID_FONT_ID = false /\
  1 <= glyph_cache_capacity_ e.
Proof.
  intros Hreach. pose proof (reachable_ok e Hreach) as Hok.
  split.
  { destruct (ok_default _ Hok) as [H|H]; [left; exact H|right].
    apply IsFontValid_true. exact H. }
  split.
  { intros f Hf. apply (ok_font_ids _ Hok). apply IsFontValid_true. exact Hf. }
  split; [exact (ok_faces _ Hok)|].
  split; [|exact (ok_capacity _ Hok)].
  destruct (IsFontValid e INVALID_FONT_ID) eqn:E; [|reflexivity].
  apply IsFontValid_true in E. apply (ok_font_ids _ Hok) in E.
  unfold INVALID_FONT_ID in E. lia.
Qed.

Lemma reachable_registry_consistent_witness :
  reachable ex_engine_two /\
  (GetDefaultFont ex_engine_two = INVALID_FONT_ID \/
   IsFontValid ex_engine_two (GetDefaultFont ex_engine_two) = true) /\
  (forall f, IsFontValid ex_engine_two f = true -> 1 <= f < nextFontId_ ex_engine_two) /\
  (forall f fd, loadedFonts_ ex_engine_two !! f = Some fd -> is_Some (ftFace fd)) /\
  IsFontValid ex_engine_two INVALID_FONT_ID = false /\
  1 <= glyph_cache_capacity_ ex_engine_two.
Proof.
  assert (H : reachable ex_engine_two).
  { exists true, ex_gpu,
      [OpLoadFont (ex_file ex_latin_cmap 1); OpLoadFont (ex_file ex_cjk_cmap 2);
       OpSetDefaultFont 2].
    vm_compute. reflexivity. }
  split; [exact H|]. exact (reachable_registry_consistent ex_engine_two H).
Defined.
(** ** Fallback chains *)

Lemma chains_loaded_same (e e' : Engine) :
  loadedFonts_ e' = loadedFonts_ e ->
  fontFallbackChains_ e' = fontFallbackChains_ e ->
  chains_loaded e -> chains_loaded e'.
Proof.
  intros Hf Hc H p chain Hp. unfold IsFontValid. rewrite Hf.
  rewrite Hc in Hp. exact (H p chain Hp).
Qed.

Lemma chains_loaded_cache_step (e e' : Engine) :
  cache_step e e' -> chains_loaded e -> chains_loaded e'.
Proof.
  intros [(_ & Hf & _ & _ & Hc & _) _]. apply chains_loaded_same; assumption.
Qed.

Lemma SetDefaultFont_registry (e : Engine) (f : FontId) :
  loadedFonts_ (SetDefaultFont e f) = loadedFonts_ e /\
  fontFallbackChains_ (SetDefaultFont e f) = fontFallbackChains_ e /\
  nextFontId_ (SetDefaultFont e f) = nextFontId_ e /\
  lru_glyph_list_ (SetDefaultFont e f) = lru_glyph_list_ e /\
  glyph_cache_map_ (SetDefaultFont e f) = glyph_cache_map_ e /\
  glyph_cache_capacity_ (SetDefaultFont e f) = glyph_cache_capacity_ e.
Proof. unfold SetDefaultFont. destruct (_ || _); simpl; auto 10. Qed.

(** What [LoadFont] does to the registry: nothing when it fails, and on
    success the font is stored under [nextFontId_], which is returned. *)
Lemma LoadFont_registry (e : Engine) (file : FontFile) :
  (fst (LoadFont e file) = INVALID_FONT_ID /\ snd (LoadFont e file) = e) \/
  (fst (LoadFont e file) = nextFontId_ e /\
   (exists fd, loadedFonts_ (snd (LoadFont e file)) = <[nextFontId_ e := fd]> (loadedFonts_ e)) /\
   fontFallbackChains_ (snd (LoadFont e file)) = fontFallbackChains_ e /\
   nextFontId_ (snd (LoadFont e file)) = nextFontId_ e + 1 /\
   defaultFontId_ (snd (LoadFont e file)) =
     (if bool_decide (defaultFontId_ e = INVALID_FONT_ID) then nextFontId_ e
      else defaultFontId_ e) /\
   lru_glyph_list_ (snd (LoadFont e file)) = lru_glyph_list_ e /\
   glyph_cache_map_ (snd (LoadFont e file)) = glyph_cache_map_ e /\
   glyph_cache_capacity_ (snd (LoadFont e file)) = glyph_cache_capacity_ e).
Proof.
  unfold LoadFont.
  destruct (negb (ftLibrary_ e)); [left; auto|].
  destruct (negb (file_is_open file)); [left; auto|].
  destruct (negb (file_read_ok file)); [left; auto|].
  destruct (new_memory_face file) as [face|]; [|left; auto].
  destruct (negb (hb_face_ok file)); [left; auto|].
  destruct (hb_font_handle file) as [hb|]; [|left; auto].
  destruct (negb (hb_parent_ok file)); [left; auto|].
  destruct (negb (hb_funcs_ok file)); [left; auto|].
  right. cbv zeta. cbn [fst snd].
  match goal with
  | |- context [SetDefaultFont ?e1 ?id] =>
      pose proof (SetDefaultFont_registry e1 id) as (H1 & H2 & H3 & H4 & H5 & H6);
      assert (Hd : defaultFontId_ (SetDefaultFont e1 id) = id)
  end.
  { unfold SetDefaultFont, IsFontValid. cbn [loadedFonts_ set_registry].
    rewrite lookup_insert_eq.
    rewrite (bool_decide_eq_true_2 (is_Some (Some _))) by eauto. reflexivity. }
  cbn [defaultFontId_ set_registry] in *.
  destruct (bool_decide (defaultFontId_ e = INVALID_FONT_ID)).
  - rewrite H1, H2, H3, H4, H5, H6, Hd. cbn. split; [reflexivity|].
    split; [eexists; reflexivity|]. auto 10.
  - cbn. split; [reflexivity|]. split; [eexists; reflexivity|]. auto 10.
Qed.

Lemma LoadFont_chains (e : Engine) (file : FontFile) :
  chains_loaded e -> chains_loaded (snd (LoadFont e file)).
Proof.
  intros H. destruct (LoadFont_registry e file) as [[_ ->]|(_ & [fd Hf] & Hc & _)];
    [exact H|].
  intros p chain Hp. rewrite Hc in Hp. destruct (H p chain Hp) as [Hv Hall].
  assert (Hmono : forall f, IsFontValid e f = true ->
                            IsFontValid (snd (LoadFont e file)) f = true).
  { intros f Hfv. apply IsFontValid_true. apply IsFontValid_true in Hfv.
    rewrite Hf. destruct (decide (nextFontId_ e = f)) as [->|Hne].
    - rewrite lookup_insert_eq. eauto.
    - rewrite lookup_insert_ne by exact Hne. exact Hfv. }
  split; [apply Hmono; exact Hv|].
  eapply Forall_impl; [exact Hall|]. exact Hmono.
Qed.

Lemma UnloadFont_registry (e : Engine) (f : FontId) (fd : FTFontData) :
  loadedFonts_ e !! f = Some fd ->
  loadedFonts_ (UnloadFont e f) = delete f (loadedFonts_ e) /\
  fontFallbackChains_ (UnloadFont e f) =
    (fun chain => filter (fun x => x <> f) chain) <$> delete f (fontFallbackChains_ e) /\
  nextFontId_ (UnloadFont e f) = nextFontId_ e /\
  lru_glyph_list_ (UnloadFont e f) = filter (fun k => key_fontId k <> f) (lru_glyph_list_ e) /\
  (forall k, glyph_cache_map_ (UnloadFont e f) !! k =
             if bool_decide (key_fontId k = f /\ k ∈ lru_glyph_list_ e) then None
             else glyph_cache_map_ e !! k) /\
  glyph_cache_capacity_ (UnloadFont e f) = glyph_cache_capacity_ e.
Proof.
  intros Hf. unfold UnloadFont. rewrite Hf.
  pose proof (unload_lru_fst f (lru_glyph_list_ e) (glyph_cache_map_ e)) as Hfst.
  pose proof (unload_lru_snd f (lru_glyph_list_ e) (glyph_cache_map_ e)) as Hsnd.
  destruct (unload_lru f (lru_glyph_list_ e) (glyph_cache_map_ e)) as [lru m].
  simpl in *. auto 10.
Qed.

Lemma UnloadFont_chains (e : Engine) (f : FontId) :
  chains_loaded e -> chains_loaded (UnloadFont e f).
Proof.
  intros H. destruct (loadedFonts_ e !! f) as [fd|] eqn:Hf.
  - destruct (UnloadFont_registry e f fd Hf) as (Hfonts & Hchains & _).
    assert (Hkeep : forall x, x <> f -> IsFontValid e x = true ->
                              IsFontValid (UnloadFont e f) x = true).
    { intros x Hne Hx. apply IsFontValid_true. apply IsFontValid_true in Hx.
      rewrite Hfonts, lookup_delete_ne by congruence. exact Hx. }
    intros p chain Hp. rewrite Hchains, lookup_fmap in Hp.
    destruct (decide (f = p)) as [->|Hne].
    { rewrite lookup_delete_eq in Hp. discriminate. }
    rewrite lookup_delete_ne in Hp by exact Hne.
    destruct (fontFallbackChains_ e !! p) as [c0|] eqn:Hc0; [|discriminate].
    simpl in Hp. inversion Hp; subst chain. destruct (H p c0 Hc0) as [Hv Hall].
    split; [apply Hkeep; [congruence|exact Hv]|].
    apply Forall_forall. intros x Hx. apply list_elem_of_filter in Hx as [Hxf Hx].
    apply Hkeep; [exact Hxf|]. rewrite Forall_forall in Hall. apply Hall. exact Hx.
  - unfold UnloadFont. rewrite Hf. exact H.
Qed.

Lemma SetFontFallbackChain_chains (e : Engine) (p : FontId) (chain : list FontId) :
  chains_loaded e -> chains_loaded (SetFontFallbackChain e p chain).
Proof.
  intros H. unfold SetFontFallbackChain.
  destruct (IsFontValid e p) eqn:Hp; simpl; [|exact H].
  intros q c Hq. cbn [fontFallbackChains_ set_registry] in Hq.
  unfold IsFontValid. cbn [loadedFonts_ set_registry]. fold (IsFontValid e q).
  destruct (decide (p = q)) as [->|Hne].
  - rewrite lookup_insert_eq in Hq. inversion Hq; subst c. split; [exact Hp|].
    apply Forall_forall. intros x Hx. apply list_elem_of_filter in Hx as [Hx _]. exact Hx.
  - rewrite lookup_insert_ne in Hq by exact Hne. exact (H q c Hq).
Qed.

Lemma apply_op_chains (e e' : Engine) (op : EngineOp) :
  chains_loaded e -> apply_op e op = Some e' -> chains_loaded e'.
Proof.
  intros Hc H. destruct op; simpl in H.
  - inversion H. apply LoadFont_chains. exact Hc.
  - inversion H. apply UnloadFont_chains. exact Hc.
  - inversion H. destruct (SetDefaultFont_registry e f) as (Hf1 & Hf2 & _).
    exact (chains_loaded_same _ _ Hf1 Hf2 Hc).
  - inversion H. apply SetFontFallbackChain_chains. exact Hc.
  - inversion H. exact (chains_loaded_cache_step _ _ (getCachedGlyphByGID_step e f gid) Hc).
  - destruct (getOrCacheGlyph fuel e f codepoint) as [r|] eqn:E; [|discriminate].
    inversion H.
    exact (chains_loaded_cache_step _ _ (getOrCacheGlyph_step fuel e f codepoint r E) Hc).
  - inversion H. apply (chains_loaded_same e); [reflexivity|reflexivity|exact Hc].
  - inversion H. apply (chains_loaded_same e); [| |exact Hc];
      unfold SetGlyphAtlasOptions; destruct (_ && _); reflexivity.
  - destruct (LayoutStyledText icu hb e spans paragraphStyle) as [[tb e1]|] eqn:E;
      [|discriminate].
    inversion H; subst.
    exact (chains_loaded_cache_step _ _ (LayoutStyledText_engine _ _ _ _ _ _ _ E) Hc).
Qed.

Lemma run_ops_chains (ops : list EngineOp) :
  forall e e', chains_loaded e -> run_ops e ops = Some e' -> chains_loaded e'.
Proof.
  induction ops as [|op ops IH]; intros e e' Hc H; simpl in H.
  - inversion H; subst. exact Hc.
  - destruct (apply_op e op) as [e1|] eqn:E; [|discriminate].
    apply (IH e1 e'); [eapply apply_op_chains; eauto|exact H].
Qed.

(** X3.  In every state the engine can reach, a fallback chain is
    registered only for a loaded font and lists only loaded fonts:
    [SetFontFallbackChain] drops invalid entries and [UnloadFont] removes
    the font from every chain. *)
Theorem reachable_chains_loaded (e : Engine) (p : FontId) (chain : list FontId) :
  reachable e ->
  fontFallbackChains_ e !! p = Some chain ->
  IsFontValid e p = true /\ Forall (fun f => IsFontValid e f = true) chain.
Proof.
  intros (lib & gpu & ops & H) Hp.
  assert (H0 : chains_loaded (newEngine lib gpu)).
  { intros q c Hq. simpl in Hq. rewrite lookup_empty in Hq. discriminate. }
  exact (run_ops_chains ops _ _ H0 H p chain Hp).
Qed.
(** ** What a layout keeps of the engine *)

Section LayoutEngineInvariant.

Variable P : Engine -> Prop.
Hypothesis P_lookup : forall e f gid, P e -> P (snd (getCachedGlyphByGID e f gid)).

Lemma glyph_step_keeps (ctx : LayoutCtx) (rc : RunCtx)
    (st : SegmentAcc * (Q * Q)) (hg : hb_glyph) :
  P (seg_engine (fst st)) -> P (seg_engine (fst (glyph_step ctx rc st hg))).
Proof.
  unfold glyph_step. cbv zeta.
  destruct (if original_codepoint_for_glyph rc hg =? 65532 then _ else None); simpl.
  - auto.
  - apply P_lookup.
Qed.

Lemma foldl_keeps {A B} (f : A -> B -> A) (proj : A -> Engine) (l : list B) :
  (forall a b, P (proj a) -> P (proj (f a b))) ->
  forall a, P (proj a) -> P (proj (foldl f a l)).
Proof.
  intros Hf. induction l as [|b l IH]; intros a Ha; simpl; [exact Ha|].
  apply IH, Hf, Ha.
Qed.

Lemma run_step_keeps (ctx : LayoutCtx) (textLen : Z) (seg : list Z) (last : Z)
    (st : SegmentAcc * Q) (run : bool * Z * Z) :
  P (seg_engine (fst st)) ->
  P (seg_engine (fst (run_step ctx textLen seg last st run))).
Proof.
  intros H. unfold run_step. cbv zeta.
  destruct (snd run =? 0); [exact H|].
  destruct (loadedFonts_ (seg_engine (fst st)) !! _); [|exact H].
  simpl.
  apply (foldl_keeps (glyph_step ctx _) (fun a => seg_engine (fst a))); [|exact H].
  intros a b. apply glyph_step_keeps.
Qed.

Lemma shape_segment_keeps (ctx : LayoutCtx) (textLen : Z) (e : Engine) (failed : bool)
    (seg : list Z) (last : Z) :
  P e -> P (seg_engine (fst (fst (shape_segment ctx textLen e failed seg last)))).
Proof.
  intros H. unfold shape_segment. destruct seg as [|c seg]; [exact H|].
  destruct (if failed then None else _); [|exact H].
  simpl.
  apply (foldl_keeps (run_step ctx textLen (c :: seg) last)
           (fun a => seg_engine (fst a)) l
           (fun a b => run_step_keeps ctx textLen (c :: seg) last a b)
           ({| elements_for_this_segment := []; max_ascent_for_this_segment := 0;
               max_descent_for_this_segment := 0; seg_engine := e |}, 0%Q)).
  exact H.
Qed.

Lemma segment_step_keeps (ctx : LayoutCtx) (st : LoopState) :
  P (engine st) -> P (engine (fst (segment_step ctx st))).
Proof.
  intros HP. unfold segment_step.
  destruct (next_break ctx (lastU16BreakPos st)) as [cur atEnd].
  cbv zeta.
  match goal with
  | |- context [shape_segment ?a ?b ?c ?d ?e ?f] =>
      pose proof (shape_segment_keeps a b c d e f HP) as H;
      destruct (shape_segment a b c d e f) as [[seg w] failed]
  end.
  simpl in H.
  destruct (find_newline _ 0); simpl;
    try rewrite finalize_and_reset_engine; rewrite commit_segment_engine; simpl; exact H.
Qed.

Lemma layout_loop_keeps (fuel : nat) (ctx : LayoutCtx) :
  forall st st', layout_loop fuel ctx st = Some st' -> P (engine st) -> P (engine st').
Proof.
  induction fuel as [|fuel IH]; intros st st' H HP; simpl in H.
  - destruct (_ || _); [|inversion H; subst; exact HP].
    destruct (_ && _); [inversion H; subst; exact HP|discriminate].
  - destruct (_ || _); [|inversion H; subst; exact HP].
    destruct (_ && _); [inversion H; subst; exact HP|].
    pose proof (segment_step_keeps ctx st HP) as Hs.
    destruct (segment_step ctx st) as [st1 leave]. simpl in Hs.
    destruct leave.
    + inversion H; subst. exact Hs.
    + apply (IH st1 st' H Hs).
Qed.

Lemma LayoutStyledText_keeps (icu : ICU) (hb : HarfBuzz) (e : Engine)
    (spans : list TextSpan) (ps : ParagraphStyle) (tb : TextBlock) (e' : Engine) :
  LayoutStyledText icu hb e spans ps = Some (tb, e') -> P e -> P e'.
Proof.
  unfold LayoutStyledText. intros H HP.
  destruct (layout_start icu hb e spans ps) as [tb0|ctx st0] eqn:Hstart.
  - inversion H; subst. exact HP.
  - destruct (layout_loop _ _ _) as [st|] eqn:Hloop; [|discriminate].
    inversion H; subst. apply (layout_loop_keeps _ _ _ _ Hloop).
    rewrite (layout_start_engine _ _ _ _ _ _ _ Hstart). exact HP.
Qed.

End LayoutEngineInvariant.

(** ** The size of the cache *)

Lemma rasterize_cache (e : Engine) (slot : FT_GlyphSlot) (sdf : bool) :
  lru_glyph_list_ (snd (rasterize e slot sdf)) = lru_glyph_list_ e /\
  glyph_cache_map_ (snd (rasterize e slot sdf)) = glyph_cache_map_ e /\
  glyph_cache_capacity_ (snd (rasterize e slot sdf)) = glyph_cache_capacity_ e.
Proof.
  destruct (rasterize_spec e slot sdf) as [_ [->|(i & t & idx & pen & row & ->)]];
    simpl; auto.
Qed.

(** A miss keeps the cache within its capacity: on a full cache one entry
    is evicted before one is inserted. *)
Lemma cache_insert_within (e0 e : Engine) (key : FTGlyphCacheKey) (g : FTCachedGlyph) :
  engine_ok e0 -> cache_within_capacity e0 ->
  lru_glyph_list_ e = lru_glyph_list_ e0 ->
  glyph_cache_map_ e = glyph_cache_map_ e0 ->
  glyph_cache_capacity_ e = glyph_cache_capacity_ e0 ->
  glyph_cache_map_ e0 !! key = None ->
  cache_within_capacity (cache_insert e key g).
Proof.
  unfold cache_within_capacity. intros Hok Hsize Hl Hm Hc Hkey.
  unfold cache_insert. rewrite Hl, Hm, Hc.
  destruct ((glyph_cache_capacity_ e0 <=? Z.of_nat (size (glyph_cache_map_ e0))) &&
            negb (bool_decide (lru_glyph_list_ e0 = []))) eqn:E; simpl; rewrite Hc.
  - apply andb_true_iff in E as [_ E]. apply negb_true_iff, bool_decide_eq_false in E.
    destruct (removelast_last_Some _ E) as (x & Hlast & Hsplit). rewrite Hlast.
    assert (Hx : is_Some (glyph_cache_map_ e0 !! x)).
    { apply (ok_same_keys _ Hok). rewrite Hsplit, elem_of_app, list_elem_of_singleton.
      right. reflexivity. }
    pose proof (map_size_delete_Some x (glyph_cache_map_ e0) Hx) as Hdel.
    assert (Hpos : (0 < size (glyph_cache_map_ e0))%nat).
    { destruct Hx as [gx Hgx].
      destruct (size (glyph_cache_map_ e0)) eqn:Hz; [|lia].
      apply map_size_empty_iff in Hz. rewrite Hz, lookup_empty in Hgx. discriminate. }
    rewrite map_size_insert_None.
    + rewrite Hdel. lia.
    + destruct (decide (x = key)) as [->|Hne];
        [apply lookup_delete_eq|rewrite lookup_delete_ne by exact Hne; exact Hkey].
  - rewrite map_size_insert_None by exact Hkey.
    apply andb_false_iff in E as [E|E].
    + apply Z.leb_gt in E. lia.
    + apply negb_false_iff, bool_decide_eq_true in E.
      pose proof (cache_same_size e0 Hok) as Hlen. rewrite E in Hlen. simpl in Hlen.
      pose proof (ok_capacity _ Hok). lia.
Qed.

Lemma getCachedGlyphByGID_within (e : Engine) (f : FontId) (gid : Z) :
  engine_ok e /\ cache_within_capacity e ->
  engine_ok (snd (getCachedGlyphByGID e f gid)) /\
  cache_within_capacity (snd (getCachedGlyphByGID e f gid)).
Proof.
  intros [Hok Hw]. split.
  - apply getCachedGlyphByGID_step. exact Hok.
  - apply getCachedGlyphByGID_size_bound; assumption.
Qed.

Lemma getOrCacheGlyph_within (fuel : nat) :
  forall e f cp r,
    engine_ok e -> cache_within_capacity e ->
    getOrCacheGlyph fuel e f cp = Some r -> cache_within_capacity (snd r).
Proof.
  assert (Hmiss : forall e key face gid px r,
            engine_ok e -> cache_within_capacity e ->
            glyph_cache_map_ e !! key = None ->
            (let '(newCachedGlyph, e') := rasterize e (glyph_slot face gid px (isSDF key))
                                            (isSDF key) in
             Some (newCachedGlyph, key_fontId key, cache_insert e' key newCachedGlyph))
            = Some r ->
            cache_within_capacity (snd r)).
  { intros e key face gid px r Hok Hw Hkey H.
    destruct (rasterize_cache e (glyph_slot face gid px (isSDF key)) (isSDF key))
      as (Hl & Hm & Hc).
    destruct (rasterize e _ _) as [g e1]. inversion H. simpl in *.
    eapply cache_insert_within; eauto. }
  induction fuel as [|fuel IH]; intros e f cp r Hok Hw H; simpl in H;
    (destruct (select_font_for_codepoint e f cp) as [[actual gid]|];
       [|inversion H; exact Hw]);
    (destruct (loadedFonts_ e !! actual) as [fd|]; [|inversion H; exact Hw]);
    match type of H with
    | context [glyph_cache_map_ e !! ?k] =>
        set (key := k) in *; destruct (glyph_cache_map_ e !! key) eqn:Hkey
    end; [inversion H; exact Hw| |inversion H; exact Hw|];
    (destruct (ftFace fd) as [face|]; [|inversion H; exact Hw]);
    (destruct (set_pixel_sizes_error face (sdfGenSize_of fd)); [inversion H; exact Hw|]);
    destruct (load_glyph_error face gid (sdfGenSize_of fd)).
  - destruct (negb (gid =? 0)); [discriminate|inversion H; exact Hw].
  - match type of H with
    | context [render_glyph_error ?a ?b ?c ?d] => destruct (render_glyph_error a b c d)
    end; [inversion H; exact Hw|].
    exact (Hmiss e key face gid (sdfGenSize_of fd) r Hok Hw Hkey H).
  - destruct (negb (gid =? 0)); [|inversion H; exact Hw].
    eapply IH; eauto.
  - match type of H with
    | context [render_glyph_error ?a ?b ?c ?d] => destruct (render_glyph_error a b c d)
    end; [inversion H; exact Hw|].
    exact (Hmiss e key face gid (sdfGenSize_of fd) r Hok Hw Hkey H).
Qed.

Lemma unload_lru_size (f : FontId) (lru : list FTGlyphCacheKey) :
  forall m : gmap FTGlyphCacheKey FTCachedGlyph,
    (size (snd (unload_lru f lru m)) <= size m)%nat.
Proof.
  induction lru as [|k lru IH]; intros m; simpl; [lia|].
  destruct (bool_decide (key_fontId k = f)).
  - etransitivity; [apply IH|]. apply map_subseteq_size, delete_subseteq.
  - specialize (IH m). destruct (unload_lru f lru m) as [l' m']. simpl in *. exact IH.
Qed.

Lemma apply_op_within (e e' : Engine) (op : EngineOp) :
  engine_ok e -> cache_within_capacity e ->
  is_SetGlyphAtlasOptions op = false ->
  apply_op e op = Some e' -> cache_within_capacity e'.
Proof.
  intros Hok Hw Hop H. unfold cache_within_capacity in *. destruct op; simpl in H.
  - inversion H. destruct (LoadFont_registry e file) as [[_ ->]|(_ & _ & _ & _ & _ & _ & Hm & Hc)];
      [exact Hw|]. rewrite Hm, Hc. exact Hw.
  - inversion H. unfold UnloadFont. destruct (loadedFonts_ e !! f); [|exact Hw].
    pose proof (unload_lru_size f (lru_glyph_list_ e) (glyph_cache_map_ e)) as Hs.
    destruct (unload_lru f (lru_glyph_list_ e) (glyph_cache_map_ e)) as [lru m].
    simpl in *. lia.
  - inversion H. destruct (SetDefaultFont_registry e f) as (_ & _ & _ & _ & Hm & Hc).
    rewrite Hm, Hc. exact Hw.
  - inversion H. unfold SetFontFallbackChain. destruct (negb _); exact Hw.
  - inversion H. apply getCachedGlyphByGID_size_bound; assumption.
  - destruct (getOrCacheGlyph fuel e f codepoint) as [r|] eqn:E; [|discriminate].
    inversion H. exact (getOrCacheGlyph_within fuel e f codepoint r Hok Hw E).
  - inversion H. simpl. rewrite map_size_empty. pose proof (ok_capacity _ Hok). lia.
  - discriminate.
  - destruct (LayoutStyledText icu hb e spans paragraphStyle) as [[tb e1]|] eqn:E;
      [|discriminate].
    inversion H; subst.
    apply (LayoutStyledText_keeps (fun x => engine_ok x /\ cache_within_capacity x)
             getCachedGlyphByGID_within _ _ _ _ _ _ _ E).
    split; assumption.
Qed.

(** X5.  From a state the engine can reach and in which the cache is
    within its capacity, the cache stays within its capacity under every
    sequence of operations that does not call [SetGlyphAtlasOptions]:
    loading and unloading fonts, changing the default font or a fallback
    chain, cache look-ups, clearing the cache and laying out text. *)
Theorem cache_stays_within_capacity (ops : list EngineOp) :
  forall e e',
    reachable e -> cache_within_capacity e ->
    forallb (fun op => negb (is_SetGlyphAtlasOptions op)) ops = true ->
    run_ops e ops = Some e' ->
    cache_within_capacity e'.
Proof.
  assert (Hgen : forall e e', engine_ok e -> cache_within_capacity e ->
            forallb (fun op => negb (is_SetGlyphAtlasOptions op)) ops = true ->
            run_ops e ops = Some e' -> cache_within_capacity e').
  { induction ops as [|op ops IH]; intros e e' Hok Hw Hall H; simpl in H.
    - inversion H; subst. exact Hw.
    - simpl in Hall. apply andb_true_iff in Hall as [Hop Hall].
      apply negb_true_iff in Hop.
      destruct (apply_op e op) as [e1|] eqn:E; [|discriminate].
      apply (IH e1 e'); [eapply apply_op_step; eauto| |exact Hall|exact H].
      eapply apply_op_within; eauto. }
  intros e e' Hreach. apply Hgen. apply reachable_ok. exact Hreach.
Qed.
(** ** Cache look-ups *)

(** X6.  A layout changes the glyph cache and the atlas only: the fonts,
    the id counter, the default font, the fallback chains and the atlas
    options are those of the engine before the call. *)
Theorem LayoutStyledText_keeps_registry (icu : ICU) (hb : HarfBuzz) (e : Engine)
    (spans : list TextSpan) (ps : ParagraphStyle) (tb : TextBlock) (e' : Engine) :
  LayoutStyledText icu hb e spans ps = Some (tb, e') ->
  loadedFonts_ e' = loadedFonts_ e /\
  nextFontId_ e' = nextFontId_ e /\
  GetDefaultFont e' = GetDefaultFont e /\
  fontFallbackChains_ e' = fontFallbackChains_ e /\
  glyph_cache_capacity_ e' = glyph_cache_capacity_ e /\
  atlas_width_ e' = atlas_width_ e /\
  atlas_height_ e' = atlas_height_ e /\
  atlas_type_hint_ e' = atlas_type_hint_ e.
Proof.
  intros H. destruct (LayoutStyledText_engine icu hb e spans ps tb e' H) as [Hs _].
  destruct Hs as (_ & H1 & H2 & H3 & H4 & H5 & H6 & H7 & H8 & _).
  unfold GetDefaultFont. auto 10.
Qed.

Lemma ex_layout_S2_eq :
  LayoutStyledText ex_icu_words ex_hb ex_engine_latin ex_spans_S2 ex_paragraph_S2
  = Some (ex_block_S2, ex_engine_S2).
Proof. vm_compute. reflexivity. Qed.

Lemma LayoutStyledText_keeps_registry_witness :
  LayoutStyledText ex_icu_words ex_hb ex_engine_latin ex_spans_S2 ex_paragraph_S2
  = Some (ex_block_S2, ex_engine_S2) /\
  loadedFonts_ ex_engine_S2 = loadedFonts_ ex_engine_latin /\
  nextFontId_ ex_engine_S2 = nextFontId_ ex_engine_latin /\
  GetDefaultFont ex_engine_S2 = GetDefaultFont ex_engine_latin /\
  fontFallbackChains_ ex_engine_S2 = fontFallbackChains_ ex_engine_latin /\
  glyph_cache_capacity_ ex_engine_S2 = glyph_cache_capacity_ ex_engine_latin /\
  atlas_width_ ex_engine_S2 = atlas_width_ ex_engine_latin /\
  atlas_height_ ex_engine_S2 = atlas_height_ ex_engine_latin /\
  atlas_type_hint_ ex_engine_S2 = atlas_type_hint_ ex_engine_latin.
Proof.
  split; [exact ex_layout_S2_eq|].
  exact (LayoutStyledText_keeps_registry _ _ _ _ _ _ _ ex_layout_S2_eq).
Defined.

Lemma lru_touch_front (key : FTGlyphCacheKey) (rest : list FTGlyphCacheKey) :
  key ∉ rest -> lru_touch key (key :: rest) = key :: rest.
Proof.
  intros Hnot. unfold lru_touch. f_equal.
  rewrite filter_cons_False by (intros H; apply H; reflexivity).
  induction rest as [|k rest IH]; [reflexivity|].
  rewrite filter_cons_True.
  - f_equal. apply IH. intros Hin. apply Hnot. right. exact Hin.
  - intros ->. apply Hnot. left.
Qed.

Lemma set_cache_same (e : Engine) :
  set_cache e (lru_glyph_list_ e) (glyph_cache_map_ e) = e.
Proof. destruct e. reflexivity. Qed.

(** X7.  In every state the engine can reach, a look-up repeated at once
    changes nothing: it returns the same glyph and the same font as the
    first call, and leaves the engine, LRU list, map and atlas, exactly as
    the first call left it. *)
Theorem getCachedGlyphByGID_twice (e : Engine) (f : FontId) (gid : Z) :
  reachable e ->
  getCachedGlyphByGID (snd (getCachedGlyphByGID e f gid)) f gid
  = getCachedGlyphByGID e f gid.
Proof.
  intros Hreach. pose proof (reachable_ok e Hreach) as Hok.
  pose proof (getCachedGlyphByGID_step e f gid) as [Hsame _].
  destruct Hsame as (_ & Hfonts & _ & Hdef & _ & _ & _ & _ & Hhint & _).
  remember (getCachedGlyphByGID e f gid) as r eqn:Hr.
  unfold getCachedGlyphByGID in Hr.
  set (resolved := if IsFontValid e f then Some (f, gid)
                   else if IsFontValid e (defaultFontId_ e)
                        then Some (defaultFontId_ e, 0) else None) in Hr.
  destruct resolved as [[actual g0]|] eqn:Hres.
  2:{ subst r. cbn [snd]. unfold getCachedGlyphByGID. fold resolved. rewrite Hres.
      reflexivity. }
  destruct (loadedFonts_ e !! actual) as [fd|] eqn:Hfd.
  2:{ subst r. cbn [snd]. unfold getCachedGlyphByGID. fold resolved.
      rewrite Hres, Hfd. reflexivity. }
  set (key := {| key_fontId := actual; glyphIndex := g0;
                 sdfPixelSize := sdfGenSize_of fd;
                 isSDF := bool_decide (atlas_type_hint_ e = SDF_BITMAP) |}) in Hr.
  assert (Hagain : forall g e1,
            loadedFonts_ e1 = loadedFonts_ e -> defaultFontId_ e1 = defaultFontId_ e ->
            atlas_type_hint_ e1 = atlas_type_hint_ e ->
            glyph_cache_map_ e1 !! key = Some g ->
            (exists rest, lru_glyph_list_ e1 = key :: rest /\ key ∉ rest) ->
            getCachedGlyphByGID e1 f gid = (g, actual, e1)).
  { intros g e1 Hf1 Hd1 Hh1 Hg (rest & Hl & Hnot).
    unfold getCachedGlyphByGID, IsFontValid. rewrite Hf1, Hd1, Hh1.
    fold (IsFontValid e f). fold (IsFontValid e (defaultFontId_ e)). fold resolved.
    rewrite Hres, Hfd. fold key. rewrite Hg, Hl, (lru_touch_front key rest Hnot), <- Hl.
    rewrite set_cache_same. reflexivity. }
  destruct (glyph_cache_map_ e !! key) as [cached|] eqn:Hkey.
  - subst r. cbn [snd] in *.
    apply Hagain; [assumption|assumption|assumption|exact Hkey|].
    exists (filter (fun k => k <> key) (lru_glyph_list_ e)). split; [reflexivity|].
    intros Hin. apply list_elem_of_filter in Hin as [Hne _]. congruence.
  - destruct (rasterize_cache e (slot_of (ftFace fd) g0 (sdfGenSize_of fd) (isSDF key))
                (isSDF key)) as (Hl & Hm & Hc).
    destruct (rasterize e _ _) as [g e1]. subst r. cbn [snd fst] in *.
    apply Hagain; [assumption|assumption|assumption| |].
    + unfold cache_insert. destruct (_ && _); simpl; apply lookup_insert_eq.
    + assert (Hnotin : key ∉ lru_glyph_list_ e).
      { intros Hin. apply (ok_same_keys _ Hok) in Hin. rewrite Hkey in Hin.
        destruct Hin; discriminate. }
      unfold cache_insert. rewrite Hl, Hm, Hc.
      destruct (_ && _) eqn:E; simpl; eexists; (split; [reflexivity|]).
      * intros Hin. apply Hnotin.
        apply andb_true_iff in E as [_ E]. apply negb_true_iff, bool_decide_eq_false in E.
        destruct (removelast_last_Some _ E) as (x & _ & Hsplit).
        rewrite Hsplit. apply elem_of_app. left. exact Hin.
      * exact Hnotin.
Qed.

Lemma ex_engine_latin_reachable : reachable ex_engine_latin.
Proof. exists true, ex_gpu, [OpLoadFont (ex_file ex_latin_cmap 1)]. reflexivity. Qed.

Lemma getCachedGlyphByGID_twice_witness :
  reachable ex_engine_latin /\
  getCachedGlyphByGID (snd (getCachedGlyphByGID ex_engine_latin 1 68)) 1 68
  = getCachedGlyphByGID ex_engine_latin 1 68.
Proof.
  split; [exact ex_engine_latin_reachable|].
  exact (getCachedGlyphByGID_twice ex_engine_latin 1 68 ex_engine_latin_reachable).
Defined.
(** X8.  A miss on a full cache evicts the least recently used entry and
    nothing else: the key at the back of the LRU list leaves the list and
    the map, the new key is put at the front with the glyph returned, and
    every other entry keeps its place and its glyph. *)
Theorem getCachedGlyphByGID_evicts_least_recent (e : Engine) (f : FontId) (gid : Z)
    (fd : FTFontData) (back : FTGlyphCacheKey) :
  let key := {| key_fontId := f; glyphIndex := gid; sdfPixelSize := sdfGenSize_of fd;
                isSDF := bool_decide (atlas_type_hint_ e = SDF_BITMAP) |} in
  let r := getCachedGlyphByGID e f gid in
  loadedFonts_ e !! f = Some fd ->
  glyph_cache_map_ e !! key = None ->
  glyph_cache_capacity_ e <= Z.of_nat (size (glyph_cache_map_ e)) ->
  last (lru_glyph_list_ e) = Some back ->
  lru_glyph_list_ (snd r) = key :: removelast (lru_glyph_list_ e) /\
  glyph_cache_map_ (snd r) = <[key := fst (fst r)]> (delete back (glyph_cache_map_ e)) /\
  snd (fst r) = f.
Proof.
  intros key r Hfd Hkey Hfull Hlast. subst r. unfold getCachedGlyphByGID.
  rewrite (proj2 (IsFontValid_true e f)) by (rewrite Hfd; eauto).
  rewrite Hfd. fold key. rewrite Hkey.
  destruct (rasterize_cache e (slot_of (ftFace fd) gid (sdfGenSize_of fd) (isSDF key))
              (isSDF key)) as (Hl & Hm & Hc).
  destruct (rasterize e _ _) as [g e1]. cbn [fst snd] in *.
  destruct (cache_insert_evicts_back e1 key g back) as (_ & H1 & H2).
  - rewrite Hc, Hm. exact Hfull.
  - rewrite Hl. exact Hlast.
  - rewrite H1, H2, Hl, Hm. auto.
Qed.

(** ** Loading and unloading fonts *)

(** X9.  In every state the engine can reach, [LoadFont] either fails,
    returning [INVALID_FONT_ID] and leaving the engine as it was, or
    returns an id that no font had before, under which the font is valid
    afterwards; every other font keeps its data, and the new font becomes
    the default exactly when there was none. *)
Theorem LoadFont_fresh_id (e : Engine) (file : FontFile) :
  reachable e ->
  let id := fst (LoadFont e file) in
  let e' := snd (LoadFont e file) in
  (id = INVALID_FONT_ID /\ e' = e) \/
  (id <> INVALID_FONT_ID /\
   IsFontValid e id = false /\ IsFontValid e' id = true /\
   (forall f, f <> id -> loadedFonts_ e' !! f = loadedFonts_ e !! f) /\
   GetDefaultFont e' =
     (if bool_decide (GetDefaultFont e = INVALID_FONT_ID) then id else GetDefaultFont e) /\
   nextFontId_ e' = id + 1).
Proof.
  intros Hreach id e'. subst id e'. pose proof (reachable_ok e Hreach) as Hok.
  destruct (LoadFont_registry e file)
    as [[-> ->]|(-> & [fd Hf] & _ & Hnext & Hdef & _)]; [left; auto|right].
  pose proof (ok_next _ Hok) as Hn.
  split; [unfold INVALID_FONT_ID; lia|].
  split.
  { destruct (IsFontValid e (nextFontId_ e)) eqn:E; [|reflexivity].
    apply IsFontValid_true, (ok_font_ids _ Hok) in E. lia. }
  split; [apply IsFontValid_true; rewrite Hf, lookup_insert_eq; eauto|].
  split; [intros f Hne; rewrite Hf; apply lookup_insert_ne; congruence|].
  unfold GetDefaultFont. split; [exact Hdef|exact Hnext].
Qed.

Lemma LoadFont_fresh_id_witness :
  reachable ex_engine_latin /\
  ((fst (LoadFont ex_engine_latin (ex_file ex_cjk_cmap 2)) = INVALID_FONT_ID /\
    snd (LoadFont ex_engine_latin (ex_file ex_cjk_cmap 2)) = ex_engine_latin) \/
   (fst (LoadFont ex_engine_latin (ex_file ex_cjk_cmap 2)) <> INVALID_FONT_ID /\
    IsFontValid ex_engine_latin (fst (LoadFont ex_engine_latin (ex_file ex_cjk_cmap 2)))
    = false /\
    IsFontValid (snd (LoadFont ex_engine_latin (ex_file ex_cjk_cmap 2)))
      (fst (LoadFont ex_engine_latin (ex_file ex_cjk_cmap 2))) = true /\
    (forall f, f <> fst (LoadFont ex_engine_latin (ex_file ex_cjk_cmap 2)) ->
               loadedFonts_ (snd (LoadFont ex_engine_latin (ex_file ex_cjk_cmap 2))) !! f
               = loadedFonts_ ex_engine_latin !! f) /\
    GetDefaultFont (snd (LoadFont ex_engine_latin (ex_file ex_cjk_cmap 2))) =
      (if bool_decide (GetDefaultFont ex_engine_latin = INVALID_FONT_ID)
       then fst (LoadFont ex_engine_latin (ex_file ex_cjk_cmap 2))
       else GetDefaultFont ex_engine_latin) /\
    nextFontId_ (snd (LoadFont ex_engine_latin (ex_file ex_cjk_cmap 2)))
    = fst (LoadFont ex_engine_latin (ex_file ex_cjk_cmap 2)) + 1)).
Proof.
  split; [exact ex_engine_latin_reachable|].
  exact (LoadFont_fresh_id ex_engine_latin (ex_file ex_cjk_cmap 2)
           ex_engine_latin_reachable).
Defined.

(** X10.  [UnloadFont] touches one font only: every other font stays
    loaded with its data, the cached glyphs of the other fonts stay in the
    map, and the LRU list is the list before without the keys of the
    unloaded font, in the same order.  Unloading an id that is not loaded
    changes nothing. *)
Theorem UnloadFont_keeps_other_fonts (e : Engine) (f : FontId) :
  (forall f', f' <> f -> loadedFonts_ (UnloadFont e f) !! f' = loadedFonts_ e !! f') /\
  (forall k, key_fontId k <> f ->
             glyph_cache_map_ (UnloadFont e f) !! k = glyph_cache_map_ e !! k) /\
  (if IsFontValid e f
   then lru_glyph_list_ (UnloadFont e f)
        = filter (fun k => key_fontId k <> f) (lru_glyph_list_ e)
   else UnloadFont e f = e).
Proof.
  destruct (loadedFonts_ e !! f) as [fd|] eqn:Hf.
  - destruct (UnloadFont_registry e f fd Hf) as (Hfonts & _ & _ & Hlru & Hmap & _).
    split; [intros f' Hne; rewrite Hfonts; apply lookup_delete_ne; congruence|].
    split.
    { intros k Hne. rewrite Hmap. rewrite bool_decide_eq_false_2; [reflexivity|].
      intros [Heq _]. contradiction. }
    rewrite (proj2 (IsFontValid_true e f)) by (rewrite Hf; eauto). exact Hlru.
  - assert (Hv : IsFontValid e f = false).
    { destruct (IsFontValid e f) eqn:E; [|reflexivity].
      apply IsFontValid_true in E. rewrite Hf in E. destruct E; discriminate. }
    rewrite Hv. unfold UnloadFont. rewrite Hf. auto.
Qed.
(** ** Codepoint coverage and font selection *)

Lemma font_has_codepoint_index (e : Engine) (f : FontId) (cp : Z) :
  font_has_codepoint e f cp =
  match loadedFonts_ e !! f with
  | Some fd => negb (FT_Get_Char_Index (ftFace fd) cp =? 0)
  | None => false
  end.
Proof.
  unfold font_has_codepoint, IsFontValid.
  destruct (loadedFonts_ e !! f) as [fd|].
  - rewrite bool_decide_eq_true_2 by eauto. simpl.
    destruct (ftFace fd); reflexivity.
  - rewrite bool_decide_eq_false_2 by (intros [x Hx]; discriminate). reflexivity.
Qed.

(** X11.  Asking [IsCodepointAvailable] to check the fallback chain never
    turns a positive answer into a negative one. *)
Theorem IsCodepointAvailable_fallback_monotone (e : Engine) (f : FontId) (cp : Z) :
  IsCodepointAvailable e f cp false = true ->
  IsCodepointAvailable e f cp true = true.
Proof.
  unfold IsCodepointAvailable.
  destruct (font_has_codepoint e f cp); [reflexivity|].
  cbn [andb negb].
  destruct (existsb (fun fb => font_has_codepoint e fb cp) (chain_of e f)) eqn:Hchain;
    [reflexivity|].
  destruct (negb (defaultFontId_ e =? INVALID_FONT_ID) && negb (defaultFontId_ e =? f));
    [|discriminate].
  destruct (IsFontValid e (defaultFontId_ e)); [|discriminate].
  intros Hdef.
  destruct (existsb (fun fid => fid =? defaultFontId_ e) (chain_of e f)) eqn:Hin;
    [|exact Hdef].
  exfalso. apply existsb_exists in Hin as (fid & Hfid & Heq).
  apply Z.eqb_eq in Heq. subst fid.
  assert (Hex : existsb (fun fb => font_has_codepoint e fb cp) (chain_of e f) = true).
  { apply existsb_exists. exists (defaultFontId_ e). split; assumption. }
  congruence.
Qed.

Lemma IsCodepointAvailable_fallback_monotone_witness :
  IsCodepointAvailable ex_engine_two 1 20013 false = true /\
  IsCodepointAvailable ex_engine_two 1 20013 true = true.
Proof.
  assert (H : IsCodepointAvailable ex_engine_two 1 20013 false = true)
    by (vm_compute; reflexivity).
  split; [exact H|].
  exact (IsCodepointAvailable_fallback_monotone ex_engine_two 1 20013 H).
Defined.

Lemma first_fallback_spec (e : Engine) (chain : list FontId) (cp : Z) :
  match first_fallback e chain cp with
  | Some (fb, g) => g <> 0 /\ existsb (fun fb => font_has_codepoint e fb cp) chain = true
  | None => existsb (fun fb => font_has_codepoint e fb cp) chain = false
  end.
Proof.
  induction chain as [|fb chain IH]; simpl; [reflexivity|].
  rewrite font_has_codepoint_index.
  destruct (loadedFonts_ e !! fb) as [fd|]; [|exact IH].
  destruct (FT_Get_Char_Index (ftFace fd) cp =? 0) eqn:E; simpl; [exact IH|].
  apply Z.eqb_neq in E. auto.
Qed.

(** X12.  In every state the engine can reach, the availability query and
    the font selection of the glyph look-up agree: for a codepoint that is
    not whitespace, [IsCodepointAvailable] with fallback checking answers
    true exactly when [getOrCacheGlyph] selects a font that maps the
    codepoint to a glyph other than [.notdef]. *)
Theorem IsCodepointAvailable_iff_selected (e : Engine) (f : FontId) (cp : Z) :
  reachable e ->
  isWhitespace cp = false ->
  (IsCodepointAvailable e f cp true = true <->
   exists f' g, select_font_for_codepoint e f cp = Some (f', g) /\ g <> 0).
Proof.
  intros Hreach Hws. pose proof (reachable_ok e Hreach) as Hok.
  assert (Hinv : loadedFonts_ e !! INVALID_FONT_ID = None).
  { destruct (loadedFonts_ e !! INVALID_FONT_ID) eqn:E; [|reflexivity].
    assert (Hs : is_Some (loadedFonts_ e !! INVALID_FONT_ID)) by (rewrite E; eauto).
    apply (ok_font_ids _ Hok) in Hs. unfold INVALID_FONT_ID in Hs. lia. }
  unfold IsCodepointAvailable, select_font_for_codepoint.
  rewrite Hws. cbn [negb orb andb].
  rewrite !font_has_codepoint_index. unfold IsFontValid.
  pose proof (first_fallback_spec e (chain_of e f) cp) as Hfb.
  destruct (loadedFonts_ e !! f) as [fd|] eqn:Hf.
  - (* the requested font is loaded *)
    rewrite (bool_decide_eq_true_2 (is_Some (Some fd))) by eauto.
    destruct (FT_Get_Char_Index (ftFace fd) cp =? 0) eqn:Hg; cbn [negb].
    2:{ apply Z.eqb_neq in Hg. rewrite Hf. split; [intros _|reflexivity].
        eexists _, _. split; [reflexivity|exact Hg]. }
    apply Z.eqb_eq in Hg.
    destruct (first_fallback e (chain_of e f) cp) as [[fb g]|].
    { destruct Hfb as [Hne Hex]. rewrite Hex. split; [intros _|reflexivity].
      eexists _, _. split; [reflexivity|exact Hne]. }
    rewrite Hfb.
    destruct (negb (defaultFontId_ e =? INVALID_FONT_ID) && negb (defaultFontId_ e =? f)).
    + destruct (existsb (fun fid => fid =? defaultFontId_ e) (chain_of e f)); cbn [negb andb].
      * rewrite Hf, Hg. split; [discriminate|]. intros (f' & g & H & Hne).
        inversion H; subst. congruence.
      * destruct (loadedFonts_ e !! defaultFontId_ e) as [dd|] eqn:Hd.
        -- rewrite (bool_decide_eq_true_2 (is_Some (Some dd))) by eauto.
           destruct (FT_Get_Char_Index (ftFace dd) cp =? 0) eqn:Hgd; cbn [negb].
           ++ rewrite Hf, Hg. split; [discriminate|]. intros (f' & g & H & Hne).
              inversion H; subst. congruence.
           ++ apply Z.eqb_neq in Hgd. split; [intros _|reflexivity].
              eexists _, _. split; [reflexivity|exact Hgd].
        -- rewrite (bool_decide_eq_false_2 (is_Some None))
             by (intros [x Hx]; discriminate).
           rewrite Hf, Hg. split; [discriminate|]. intros (f' & g & H & Hne).
           inversion H; subst. congruence.
    + rewrite Hf, Hg. split; [discriminate|]. intros (f' & g & H & Hne).
      inversion H; subst. congruence.
  - (* the requested font is not loaded *)
    rewrite (bool_decide_eq_false_2 (is_Some None)) by (intros [x Hx]; discriminate).
    destruct (first_fallback e (chain_of e f) cp) as [[fb g]|] eqn:Hff.
    { destruct Hfb as [Hne Hex]. rewrite Hex. split; [intros _|reflexivity].
      eexists _, _. split; [reflexivity|exact Hne]. }
    rewrite Hfb.
    destruct (loadedFonts_ e !! defaultFontId_ e) as [dd|] eqn:Hd.
    + assert (Hd1 : (defaultFontId_ e =? INVALID_FONT_ID) = false).
      { apply Z.eqb_neq. intros Heq. rewrite Heq, Hinv in Hd. discriminate. }
      assert (Hd2 : (defaultFontId_ e =? f) = false).
      { apply Z.eqb_neq. intros Heq. rewrite Heq, Hf in Hd. discriminate. }
      rewrite Hd1, Hd2. cbn [negb andb].
      rewrite (bool_decide_eq_true_2 (is_Some (Some dd))) by eauto.
      destruct (existsb (fun fid => fid =? defaultFontId_ e) (chain_of e f)) eqn:Hin;
        cbn [negb andb].
      * (* the default font was tried as a member of the chain *)
        assert (Hgd : FT_Get_Char_Index (ftFace dd) cp = 0).
        { apply existsb_exists in Hin as (fid & Hfid & Heq).
          apply Z.eqb_eq in Heq. subst fid.
          destruct (FT_Get_Char_Index (ftFace dd) cp =? 0) eqn:E;
            [apply Z.eqb_eq in E; exact E|].
          exfalso.
          assert (Hex : existsb (fun fb => font_has_codepoint e fb cp) (chain_of e f) = true).
          { apply existsb_exists. exists (defaultFontId_ e). split; [exact Hfid|].
            rewrite font_has_codepoint_index, Hd, E. reflexivity. }
          congruence. }
        rewrite Hd, Hgd. split; [discriminate|]. intros (f' & g & H & Hne).
        inversion H; subst. congruence.
      * destruct (FT_Get_Char_Index (ftFace dd) cp =? 0) eqn:Hgd; cbn [negb].
        -- apply Z.eqb_eq in Hgd. rewrite Hd, Hgd. split; [discriminate|].
           intros (f' & g & H & Hne). inversion H; subst. congruence.
        -- apply Z.eqb_neq in Hgd. split; [intros _|reflexivity].
           eexists _, _. split; [reflexivity|exact Hgd].
    + rewrite (bool_decide_eq_false_2 (is_Some None)) by (intros [x Hx]; discriminate).
      rewrite Hinv.
      split.
      * destruct (negb (defaultFontId_ e =? INVALID_FONT_ID) &&
                  negb (defaultFontId_ e =? f));
          [destruct (negb _); discriminate|discriminate].
      * intros (f' & g & H & Hne). exfalso.
        destruct (negb (defaultFontId_ e =? INVALID_FONT_ID) &&
                  negb (defaultFontId_ e =? f));
          [destruct (negb _)|]; discriminate.
Qed.
(** Witnesses for the engine statements above. *)

Lemma ex_engine_two_reachable : reachable ex_engine_two.
Proof.
  exists true, ex_gpu,
    [OpLoadFont (ex_file ex_latin_cmap 1); OpLoadFont (ex_file ex_cjk_cmap 2);
     OpSetDefaultFont 2].
  vm_compute. reflexivity.
Qed.

Lemma ex_engine_chain_reachable : reachable ex_engine_chain.
Proof.
  exists true, ex_gpu,
    [OpLoadFont (ex_file ex_latin_cmap 1); OpLoadFont (ex_file ex_cjk_cmap 2);
     OpSetDefaultFont 2; OpSetFontFallbackChain 1 [2; 7]].
  vm_compute. reflexivity.
Qed.

Lemma reachable_chains_loaded_witness :
  reachable ex_engine_chain /\
  fontFallbackChains_ ex_engine_chain !! 1 = Some [2] /\
  IsFontValid ex_engine_chain 1 = true /\
  Forall (fun f => IsFontValid ex_engine_chain f = true) [2].
Proof.
  assert (H : fontFallbackChains_ ex_engine_chain !! 1 = Some [2])
    by (vm_compute; reflexivity).
  split; [exact ex_engine_chain_reachable|]. split; [exact H|].
  exact (reachable_chains_loaded ex_engine_chain 1 [2] ex_engine_chain_reachable H).
Defined.

Lemma IsCodepointAvailable_iff_selected_witness :
  reachable ex_engine_chain /\
  isWhitespace 20013 = false /\
  (IsCodepointAvailable ex_engine_chain 1 20013 true = true <->
   exists f' g, select_font_for_codepoint ex_engine_chain 1 20013 = Some (f', g) /\ g <> 0).
Proof.
  split; [exact ex_engine_chain_reachable|]. split; [reflexivity|].
  exact (IsCodepointAvailable_iff_selected ex_engine_chain 1 20013
           ex_engine_chain_reachable eq_refl).
Defined.

Lemma ex_engine_full_reachable : reachable ex_engine_full.
Proof. exists true, ex_gpu, ex_ops_full. vm_compute. reflexivity. Qed.

Lemma getCachedGlyphByGID_evicts_least_recent_witness :
  loadedFonts_ ex_engine_full !! 1 = Some ex_fontdata_latin /\
  glyph_cache_map_ ex_engine_full
    !! {| key_fontId := 1; glyphIndex := 68; sdfPixelSize := 64; isSDF := true |} = None /\
  glyph_cache_capacity_ ex_engine_full <= Z.of_nat (size (glyph_cache_map_ ex_engine_full)) /\
  last (lru_glyph_list_ ex_engine_full)
  = Some {| key_fontId := 1; glyphIndex := 3; sdfPixelSize := 64; isSDF := true |} /\
  lru_glyph_list_ (snd (getCachedGlyphByGID ex_engine_full 1 68))
  = {| key_fontId := 1; glyphIndex := 68; sdfPixelSize := 64; isSDF := true |}
    :: removelast (lru_glyph_list_ ex_engine_full) /\
  glyph_cache_map_ (snd (getCachedGlyphByGID ex_engine_full 1 68))
  = <[ {| key_fontId := 1; glyphIndex := 68; sdfPixelSize := 64; isSDF := true |}
       := fst (fst (getCachedGlyphByGID ex_engine_full 1 68)) ]>
      (delete {| key_fontId := 1; glyphIndex := 3; sdfPixelSize := 64; isSDF := true |}
         (glyph_cache_map_ ex_engine_full)) /\
  snd (fst (getCachedGlyphByGID ex_engine_full 1 68)) = 1.
Proof.
  assert (H1 : loadedFonts_ ex_engine_full !! 1 = Some ex_fontdata_latin)
    by (vm_compute; reflexivity).
  assert (H2 : glyph_cache_map_ ex_engine_full
                 !! {| key_fontId := 1; glyphIndex := 68;
                       sdfPixelSize := sdfGenSize_of ex_fontdata_latin;
                       isSDF := bool_decide (atlas_type_hint_ ex_engine_full = SDF_BITMAP) |}
               = None) by (vm_compute; reflexivity).
  assert (H3 : glyph_cache_capacity_ ex_engine_full
               <= Z.of_nat (size (glyph_cache_map_ ex_engine_full)))
    by (vm_compute; discriminate).
  assert (H4 : last (lru_glyph_list_ ex_engine_full)
               = Some {| key_fontId := 1; glyphIndex := 3; sdfPixelSize := 64;
                         isSDF := true |}) by (vm_compute; reflexivity).
  split; [exact H1|]. split; [exact H2|]. split; [exact H3|]. split; [exact H4|].
  exact (getCachedGlyphByGID_evicts_least_recent ex_engine_full 1 68 ex_fontdata_latin
           _ H1 H2 H3 H4).
Defined.

Lemma cache_stays_within_capacity_witness :
  reachable ex_engine_full /\
  cache_within_capacity ex_engine_full /\
  forallb (fun op => negb (is_SetGlyphAtlasOptions op))
    [OpGetCachedGlyphByGID 1 68;
     OpLayoutStyledText ex_icu_words ex_hb ex_spans_S2 ex_paragraph_S2;
     OpUnloadFont 1] = true /\
  exists e',
    run_ops ex_engine_full
      [OpGetCachedGlyphByGID 1 68;
       OpLayoutStyledText ex_icu_words ex_hb ex_spans_S2 ex_paragraph_S2;
       OpUnloadFont 1] = Some e' /\
    cache_within_capacity e'.
Proof.
  assert (H2 : cache_within_capacity ex_engine_full) by (vm_compute; discriminate).
  split; [exact ex_engine_full_reachable|]. split; [exact H2|]. split; [reflexivity|].
  destruct (run_ops ex_engine_full
              [OpGetCachedGlyphByGID 1 68;
               OpLayoutStyledText ex_icu_words ex_hb ex_spans_S2 ex_paragraph_S2;
               OpUnloadFont 1]) as [e'|] eqn:E.
  - exists e'. split; [reflexivity|].
    exact (cache_stays_within_capacity
             [OpGetCachedGlyphByGID 1 68;
              OpLayoutStyledText ex_icu_words ex_hb ex_spans_S2 ex_paragraph_S2;
              OpUnloadFont 1]
             ex_engine_full e' ex_engine_full_reachable H2 eq_refl E).
  - vm_compute in E. discriminate E.
Defined.

(** ** The recursion of [getOrCacheGlyph] *)

Section NotdefRecursion.

Variable e : Engine.
Hypothesis null_unmapped :
  forall f fd face, loadedFonts_ e !! f = Some fd -> ftFace fd = Some face ->
                    char_index face 0 = 0.

Lemma char_index_null (f : FontId) (fd : FTFontData) :
  loadedFonts_ e !! f = Some fd -> FT_Get_Char_Index (ftFace fd) 0 = 0.
Proof.
  intros Hf. unfold FT_Get_Char_Index.
  destruct (ftFace fd) as [face|] eqn:Hface; [|reflexivity].
  exact (null_unmapped f fd face Hf Hface).
Qed.

Lemma first_fallback_null (chain : list FontId) : first_fallback e chain 0 = None.
Proof.
  induction chain as [|fb chain IH]; simpl; [reflexivity|].
  destruct (loadedFonts_ e !! fb) as [fd|] eqn:Hfb; [|exact IH].
  rewrite (char_index_null fb fd Hfb). simpl. exact IH.
Qed.

Lemma select_font_for_null (a : FontId) (fd : FTFontData) :
  loadedFonts_ e !! a = Some fd -> select_font_for_codepoint e a 0 = Some (a, 0).
Proof.
  intros Ha. unfold select_font_for_codepoint.
  change (isWhitespace 0) with false. cbn [negb orb andb].
  rewrite Ha, (char_index_null a fd Ha). cbn [Z.eqb negb].
  rewrite first_fallback_null.
  rewrite (proj2 (IsFontValid_true e a)) by (rewrite Ha; eauto).
  assert (Hlast : (if true
                   then a
                   else if IsFontValid e (defaultFontId_ e) then defaultFontId_ e
                        else INVALID_FONT_ID) = a) by reflexivity.
  destruct (negb (defaultFontId_ e =? INVALID_FONT_ID) && negb (defaultFontId_ e =? a));
    [|simpl; rewrite Ha, (char_index_null a fd Ha); reflexivity].
  destruct (negb (existsb (fun fid => fid =? defaultFontId_ e) (chain_of e a)));
    [|simpl; rewrite Ha, (char_index_null a fd Ha); reflexivity].
  destruct (loadedFonts_ e !! defaultFontId_ e) as [dd|] eqn:Hd;
    [rewrite (char_index_null _ dd Hd)|];
    simpl; rewrite Ha, (char_index_null a fd Ha); reflexivity.
Qed.

Lemma getOrCacheGlyph_null (fuel : nat) (a : FontId) (fd : FTFontData) :
  loadedFonts_ e !! a = Some fd -> is_Some (getOrCacheGlyph fuel e a 0).
Proof.
  intros Ha.
  destruct fuel as [|fuel]; simpl; rewrite (select_font_for_null a fd Ha), Ha;
    (destruct (glyph_cache_map_ e !! _); [eauto|]);
    (destruct (ftFace fd) as [face|]; [|eauto]);
    (destruct (set_pixel_sizes_error face _); [eauto|]);
    (destruct (load_glyph_error face 0 _); [simpl; eauto|]);
    (destruct (render_glyph_error face 0 _ _); [eauto|]);
    destruct (rasterize e _ _); eauto.
Qed.

End NotdefRecursion.

(** X13.  [getOrCacheGlyph] returns, and calls itself at most once, when no
    loaded face maps codepoint 0 to a glyph: the call for the [.notdef]
    glyph that follows a failed load then asks for glyph 0, whose failure
    ends the recursion. *)
Theorem getOrCacheGlyph_returns (e : Engine) (fuel : nat) (f : FontId) (cp : Z) :
  (forall f' fd face, loadedFonts_ e !! f' = Some fd -> ftFace fd = Some face ->
                      char_index face 0 = 0) ->
  (1 <= fuel)%nat ->
  is_Some (getOrCacheGlyph fuel e f cp).
Proof.
  intros Hnull Hfuel. destruct fuel as [|fuel]; [lia|]. simpl.
  destruct (select_font_for_codepoint e f cp) as [[actual gid]|]; [|eauto].
  destruct (loadedFonts_ e !! actual) as [fd|] eqn:Hactual; [|eauto].
  destruct (glyph_cache_map_ e !! _); [eauto|].
  destruct (ftFace fd) as [face|]; [|eauto].
  destruct (set_pixel_sizes_error face _); [eauto|].
  destruct (load_glyph_error face gid _).
  - destruct (negb (gid =? 0)); [|eauto].
    exact (getOrCacheGlyph_null e Hnull fuel actual fd Hactual).
  - destruct (render_glyph_error face gid _ _); [eauto|].
    destruct (rasterize e _ _). eauto.
Qed.

Lemma ex_engine_latin_fonts :
  loadedFonts_ ex_engine_latin = <[1 := ex_fontdata_latin]> ∅.
Proof. vm_compute. reflexivity. Qed.

Lemma getOrCacheGlyph_returns_witness :
  (forall f' fd face, loadedFonts_ ex_engine_latin !! f' = Some fd ->
                      ftFace fd = Some face -> char_index face 0 = 0) /\
  (1 <= 1)%nat /\
  is_Some (getOrCacheGlyph 1 ex_engine_latin 1 65).
Proof.
  assert (H : forall f' fd face, loadedFonts_ ex_engine_latin !! f' = Some fd ->
                ftFace fd = Some face -> char_index face 0 = 0).
  { intros f' fd face Hf Hface. rewrite ex_engine_latin_fonts in Hf.
    destruct (decide (1 = f')) as [<-|Hne].
    - rewrite lookup_insert_eq in Hf. inversion Hf; subst fd.
      simpl in Hface. inversion Hface; subst face. reflexivity.
    - rewrite lookup_insert_ne, lookup_empty in Hf by exact Hne. discriminate. }
  split; [exact H|]. split; [lia|].
  exact (getOrCacheGlyph_returns ex_engine_latin 1 1 65 H (le_n 1)).
Defined.

(** X14.  When the face of a loaded font maps codepoint 0 to a glyph other
    than 0, that glyph is not cached and loading it fails, the call of
    [getOrCacheGlyph] for codepoint 0 calls itself with the same arguments
    on the same state: it does not return, whatever the depth allowed. *)
Theorem getOrCacheGlyph_null_glyph_recursion (e : Engine) (f : FontId) (fd : FTFontData)
    (face : FT_Face) (fuel : nat) :
  let gid := char_index face 0 in
  let key := {| key_fontId := f; glyphIndex := gid; sdfPixelSize := sdfGenSize_of fd;
                isSDF := bool_decide (atlas_type_hint_ e = SDF_BITMAP) |} in
  loadedFonts_ e !! f = Some fd ->
  ftFace fd = Some face ->
  gid <> 0 ->
  glyph_cache_map_ e !! key = None ->
  set_pixel_sizes_error face (sdfGenSize_of fd) = false ->
  load_glyph_error face gid (sdfGenSize_of fd) = true ->
  getOrCacheGlyph fuel e f 0 = None.
Proof.
  intros gid key Hf Hface Hgid Hkey Hpx Hload.
  assert (Hsel : select_font_for_codepoint e f 0 = Some (f, gid)).
  { unfold select_font_for_codepoint. change (isWhitespace 0) with false.
    rewrite Hf, Hface. unfold FT_Get_Char_Index. fold gid.
    apply Z.eqb_neq in Hgid. rewrite Hgid. reflexivity. }
  apply Z.eqb_neq in Hgid.
  induction fuel as [|fuel IH]; simpl; rewrite Hsel, Hf; fold key;
    rewrite Hkey, Hface, Hpx, Hload, Hgid; simpl; [reflexivity|exact IH].
Qed.

Lemma getOrCacheGlyph_null_glyph_recursion_witness :
  loadedFonts_ ex_engine_null !! 1 = Some ex_fontdata_null /\
  ftFace ex_fontdata_null = Some ex_face_null /\
  char_index ex_face_null 0 <> 0 /\
  glyph_cache_map_ ex_engine_null
    !! {| key_fontId := 1; glyphIndex := 1; sdfPixelSize := 64; isSDF := true |} = None /\
  set_pixel_sizes_error ex_face_null 64 = false /\
  load_glyph_error ex_face_null 1 64 = true /\
  getOrCacheGlyph 1000 ex_engine_null 1 0 = None.
Proof.
  assert (H1 : loadedFonts_ ex_engine_null !! 1 = Some ex_fontdata_null)
    by (vm_compute; reflexivity).
  assert (H3 : char_index ex_face_null 0 <> 0) by (simpl; discriminate).
  assert (H4 : glyph_cache_map_ ex_engine_null
                 !! {| key_fontId := 1; glyphIndex := char_index ex_face_null 0;
                       sdfPixelSize := sdfGenSize_of ex_fontdata_null;
                       isSDF := bool_decide (atlas_type_hint_ ex_engine_null = SDF_BITMAP) |}
               = None) by (vm_compute; reflexivity).
  split; [exact H1|]. split; [reflexivity|]. split; [exact H3|]. split; [exact H4|].
  split; [reflexivity|]. split; [reflexivity|].
  exact (getOrCacheGlyph_null_glyph_recursion ex_engine_null 1 ex_fontdata_null
           ex_face_null 1000 H1 eq_refl H3 H4 eq_refl eq_refl).
Defined.

(** ** The UTF-8 decoder (text_engine.h, lines 429-440) *)

Lemma nth_nonzero_lt (s : list Z) (i : nat) : nth i s 0 <> 0 -> (i < length s)%nat.
Proof.
  intros H. destruct (Nat.lt_ge_cases i (length s)) as [Hlt|Hge]; [exact Hlt|].
  rewrite nth_overflow in H by exact Hge. congruence.
Qed.

Lemma continuation_in_range (s : list Z) (i : nat) :
  (Z.land (nth i s 0) 192 =? 128) = true -> (i < length s)%nat.
Proof.
  intros H. apply nth_nonzero_lt. intros H0. rewrite H0 in H. discriminate H.
Qed.

(** The last two steps of the decoder: the tests of line 437 reject the
    sequence, and line 438 then answers U+FFFD for one byte. *)
Lemma decoder_tail (codepoint count : Z) :
  0 <= codepoint -> 0 <= count <= 4 ->
  let count' :=
    if (0 <? count) &&
       (((codepoint <? 128) && (1 <? count)) ||
        ((codepoint <? 2048) && (2 <? count)) ||
        ((codepoint <? 65536) && (3 <? count)) ||
        (1114111 <? codepoint) ||
        ((55296 <=? codepoint) && (codepoint <=? 57343)))
    then 0 else count in
  let r := if count' =? 0 then (65533, 1) else (codepoint, count') in
  (r = (65533, 1) \/ (r = (codepoint, count) /\ 0 < count)) /\
  is_scalar_value (fst r) /\
  (snd r = 2 -> 128 <= fst r) /\
  (snd r = 3 -> 2048 <= fst r) /\
  (snd r = 4 -> 65536 <= fst r).
Proof.
  intros Hcp Hcount. unfold is_scalar_value. cbv zeta.
  destruct (Z.ltb_spec 0 count); cbn [andb].
  2:{ replace count with 0 by lia. cbn. repeat split; try lia. left. reflexivity. }
  destruct (Z.ltb_spec codepoint 128);
    (destruct (Z.ltb_spec codepoint 2048); try (exfalso; lia));
    (destruct (Z.ltb_spec codepoint 65536); try (exfalso; lia));
    (destruct (Z.ltb_spec 1114111 codepoint); try (exfalso; lia));
    (destruct (Z.leb_spec 55296 codepoint); try (exfalso; lia));
    (destruct (Z.leb_spec codepoint 57343); try (exfalso; lia));
    destruct (Z.ltb_spec 1 count);
    (destruct (Z.ltb_spec 2 count); try (exfalso; lia));
    (destruct (Z.ltb_spec 3 count); try (exfalso; lia));
    cbn [andb orb Z.eqb];
    try (cbn; repeat split; try lia; left; reflexivity);
    (destruct (Z.eqb_spec count 0); [lia|]);
    cbn [fst snd]; (split; [right; split; [reflexivity|lia]|]); repeat split; lia.
Qed.

(** X15.  Whatever bytes it is given, the decoder returns a Unicode scalar
    value: never a surrogate, never a value above U+10FFFF, and never a
    value that a shorter sequence encodes (with 2, 3 or 4 bytes consumed
    the value is at least U+0080, U+0800 or U+10000). *)
Theorem GetNextCodepointFromUTF8_scalar (s : list Z) :
  Forall (fun b => 0 <= b < 256) s ->
  let r := GetNextCodepointFromUTF8 s in
  is_scalar_value (fst r) /\
  (snd r = 2 -> 128 <= fst r) /\
  (snd r = 3 -> 2048 <= fst r) /\
  (snd r = 4 -> 65536 <= fst r).
Proof.
  intros Hbytes.
  assert (Hb : forall i, 0 <= nth i s 0 < 256).
  { intros i. destruct (Nat.lt_ge_cases i (length s)) as [Hlt|Hge].
    - rewrite Forall_forall in Hbytes. apply Hbytes.
      apply list_elem_of_In, nth_In. exact Hlt.
    - rewrite nth_overflow by exact Hge. lia. }
  unfold GetNextCodepointFromUTF8. cbv zeta.
  destruct (nth 0 s 0 =? 0).
  { cbn. unfold is_scalar_value. repeat split; lia. }
  assert (Hland : forall a m, 0 <= m -> 0 <= Z.land a m) by (intros; apply Z.land_nonneg; lia).
  assert (Hshl : forall a n, 0 <= a -> 0 <= Z.shiftl a n) by (intros; apply Z.shiftl_nonneg; lia).
  assert (Hlor : forall a b, 0 <= a -> 0 <= b -> 0 <= Z.lor a b)
    by (intros; apply Z.lor_nonneg; lia).
  match goal with
  | |- context [let '(codepoint, count) := ?d in _] =>
      assert (Hd : 0 <= fst d /\ 0 <= snd d <= 4);
      [|destruct d as [codepoint count]; cbn [fst snd] in Hd;
        destruct Hd as [Hcp Hcount];
        exact (proj2 (decoder_tail codepoint count Hcp Hcount))]
  end.
  destruct (nth 0 s 0 <? 128); [cbn [fst snd]; pose proof (Hb 0%nat); lia|].
  repeat match goal with
         | |- context [if ?c then _ else _] => destruct c
         end; cbn [fst snd]; (split; [|lia]); try lia;
    repeat first [apply Hlor | apply Hshl | apply Hland; lia].
Qed.

Lemma GetNextCodepointFromUTF8_scalar_witness :
  Forall (fun b => 0 <= b < 256) [237; 160; 128] /\
  is_scalar_value (fst (GetNextCodepointFromUTF8 [237; 160; 128])) /\
  (snd (GetNextCodepointFromUTF8 [237; 160; 128]) = 2 ->
   128 <= fst (GetNextCodepointFromUTF8 [237; 160; 128])) /\
  (snd (GetNextCodepointFromUTF8 [237; 160; 128]) = 3 ->
   2048 <= fst (GetNextCodepointFromUTF8 [237; 160; 128])) /\
  (snd (GetNextCodepointFromUTF8 [237; 160; 128]) = 4 ->
   65536 <= fst (GetNextCodepointFromUTF8 [237; 160; 128])).
Proof.
  assert (H : Forall (fun b => 0 <= b < 256) [237; 160; 128])
    by (repeat constructor; lia).
  split; [exact H|]. exact (GetNextCodepointFromUTF8_scalar [237; 160; 128] H).
Defined.

(** X16.  The decoder consumes no byte exactly when it stands on the
    terminating 0; otherwise it consumes between one and four bytes, and
    never more bytes than the string has left, so that a loop over a string
    advances and stops at its end. *)
Theorem GetNextCodepointFromUTF8_advance (s : list Z) :
  let n := snd (GetNextCodepointFromUTF8 s) in
  0 <= n <= 4 /\ n <= len s /\ (n = 0 <-> nth 0 s 0 = 0).
Proof.
  unfold GetNextCodepointFromUTF8, len. cbv zeta.
  destruct (Z.eqb_spec (nth 0 s 0) 0) as [H0|H0].
  { cbn. repeat split; auto; lia. }
  pose proof (nth_nonzero_lt s 0 H0) as Hlen0.
  match goal with
  | |- context [let '(codepoint, count) := ?d in _] =>
      assert (Hd : 0 <= snd d <= 4 /\ snd d <= Z.of_nat (length s));
      [|destruct d as [codepoint count]; cbn [fst snd] in Hd;
        destruct Hd as [Hcount Hle]]
  end.
  { destruct (nth 0 s 0 <? 128); [cbn [snd]; lia|].
    destruct (Z.land (nth 0 s 0) 224 =? 192).
    { destruct (Z.land (nth 1 s 0) 192 =? 128) eqn:E1; cbn [snd]; [|lia].
      apply continuation_in_range in E1. lia. }
    destruct (Z.land (nth 0 s 0) 240 =? 224).
    { destruct (Z.land (nth 1 s 0) 192 =? 128) eqn:E1;
        destruct (Z.land (nth 2 s 0) 192 =? 128) eqn:E2; cbn [andb snd]; try lia.
      apply continuation_in_range in E2. lia. }
    destruct (Z.land (nth 0 s 0) 248 =? 240); [|cbn [snd]; lia].
    destruct (Z.land (nth 1 s 0) 192 =? 128) eqn:E1;
      destruct (Z.land (nth 2 s 0) 192 =? 128) eqn:E2;
      destruct (Z.land (nth 3 s 0) 192 =? 128) eqn:E3; cbn [andb snd]; try lia.
    apply continuation_in_range in E3. lia. }
  match goal with
  | |- context [if ?c then 0 else count] => destruct c
  end.
  - cbn. repeat split; try lia.
  - destruct (Z.eqb_spec count 0); cbn [snd]; repeat split; try lia.
Qed.
(** Bit operations on the bytes of an encoded sequence. *)
Lemma Z_below_forall (n : nat) (P : Z -> bool) :
  forallb P (map Z.of_nat (seq 0 n)) = true ->
  forall h, 0 <= h < Z.of_nat n -> P h = true.
Proof.
  intros H h Hh. rewrite forallb_forall in H. apply H.
  apply in_map_iff. exists (Z.to_nat h). split; [lia|].
  apply in_seq. lia.
Qed.

Lemma lead2_bits (h : Z) :
  0 <= h < 32 ->
  Z.land (192 + h) 224 = 192 /\ Z.land (192 + h) 31 = h.
Proof.
  intros Hh.
  pose proof (Z_below_forall 32
                (fun h => (Z.land (192 + h) 224 =? 192) && (Z.land (192 + h) 31 =? h))
                eq_refl h Hh) as H.
  apply andb_true_iff in H as [H1 H2]. split; apply Z.eqb_eq; assumption.
Qed.

Lemma lead3_bits (h : Z) :
  0 <= h < 16 ->
  Z.land (224 + h) 224 = 224 /\ Z.land (224 + h) 240 = 224 /\ Z.land (224 + h) 15 = h.
Proof.
  intros Hh.
  pose proof (Z_below_forall 16
                (fun h => (Z.land (224 + h) 224 =? 224) && (Z.land (224 + h) 240 =? 224) &&
                          (Z.land (224 + h) 15 =? h))
                eq_refl h Hh) as H.
  apply andb_true_iff in H as [H H3]. apply andb_true_iff in H as [H1 H2].
  repeat split; apply Z.eqb_eq; assumption.
Qed.

Lemma lead4_bits (h : Z) :
  0 <= h < 8 ->
  Z.land (240 + h) 224 = 224 /\ Z.land (240 + h) 240 = 240 /\
  Z.land (240 + h) 248 = 240 /\ Z.land (240 + h) 7 = h.
Proof.
  intros Hh.
  pose proof (Z_below_forall 8
                (fun h => (Z.land (240 + h) 224 =? 224) && (Z.land (240 + h) 240 =? 240) &&
                          (Z.land (240 + h) 248 =? 240) && (Z.land (240 + h) 7 =? h))
                eq_refl h Hh) as H.
  apply andb_true_iff in H as [H H4]. apply andb_true_iff in H as [H H3].
  apply andb_true_iff in H as [H1 H2].
  repeat split; apply Z.eqb_eq; assumption.
Qed.

Lemma continuation_bits (l : Z) :
  0 <= l < 64 ->
  Z.land (128 + l) 192 = 128 /\ Z.land (128 + l) 63 = l.
Proof.
  intros Hl.
  pose proof (Z_below_forall 64
                (fun l => (Z.land (128 + l) 192 =? 128) && (Z.land (128 + l) 63 =? l))
                eq_refl l Hl) as H.
  apply andb_true_iff in H as [H1 H2]. split; apply Z.eqb_eq; assumption.
Qed.

Lemma lor_shiftl_add (a b k : Z) :
  0 <= k -> 0 <= b < 2 ^ k -> Z.lor (Z.shiftl a k) b = a * 2 ^ k + b.
Proof.
  intros Hk Hb. rewrite <- Z.shiftl_mul_pow2 by exact Hk.
  rewrite <- Z.lxor_lor, <- Z.add_nocarry_lxor; [reflexivity| |].
  all: apply Z.bits_inj'; intros n Hn; rewrite Z.land_spec, Z.bits_0.
  all: destruct (Z.lt_ge_cases n k) as [Hlt|Hge].
  all: try (rewrite Z.shiftl_spec_low by exact Hlt; reflexivity).
  all: destruct (Z.eq_dec b 0) as [->|Hb0]; [rewrite Z.bits_0; apply andb_false_r|].
  all: rewrite (Z.bits_above_log2 b n), andb_false_r; [reflexivity|lia|].
  all: apply Z.log2_lt_pow2; [lia|].
  all: apply Z.lt_le_trans with (2 ^ k); [lia|apply Z.pow_le_mono_r; lia].
Qed.

(** X17.  Decoding inverts encoding: for every scalar value other than
    U+0000, the decoder applied to its UTF-8 encoding, followed by any
    bytes, returns the scalar value and the length of the encoding. *)
Theorem GetNextCodepointFromUTF8_decodes_encoding (cp : Z) (rest : list Z) :
  is_scalar_value cp -> cp <> 0 ->
  GetNextCodepointFromUTF8 (utf8_encoding cp ++ rest) = (cp, len (utf8_encoding cp)).
Proof.
  intros [Hrange Hsur] Hnz.
  unfold GetNextCodepointFromUTF8, utf8_encoding, len. cbv zeta.
  destruct (Z.ltb_spec cp 128) as [H1|H1].
  { (* one byte *)
    cbn [app nth length]. destruct (Z.eqb_spec cp 0); [contradiction|]. decoder_tests. }
  destruct (Z.ltb_spec cp 2048) as [H2|H2].
  { (* two bytes *)
    cbn [app nth length].
    assert (Hh : 0 <= cp / 64 < 32)
      by (split; [apply Z.div_pos; lia|apply Z.div_lt_upper_bound; lia]).
    pose proof (Z.mod_pos_bound cp 64 ltac:(lia)) as Hl.
    destruct (lead2_bits _ Hh) as [L1 L2].
    destruct (continuation_bits _ Hl) as [C1 C2].
    destruct (Z.eqb_spec (192 + cp / 64) 0); [lia|].
    destruct (Z.ltb_spec (192 + cp / 64) 128); [lia|].
    rewrite L1, L2, C1, C2. cbn [Z.eqb Pos.eqb].
    rewrite lor_shiftl_add by lia.
    replace (cp / 64 * 2 ^ 6 + cp mod 64) with cp
      by (pose proof (Z.div_mod cp 64 ltac:(lia)); lia).
    decoder_tests. }
  destruct (Z.ltb_spec cp 65536) as [H3|H3].
  { (* three bytes *)
    cbn [app nth length].
    assert (Hh : 0 <= cp / 4096 < 16)
      by (split; [apply Z.div_pos; lia|apply Z.div_lt_upper_bound; lia]).
    pose proof (Z.mod_pos_bound (cp / 64) 64 ltac:(lia)) as Hm.
    pose proof (Z.mod_pos_bound cp 64 ltac:(lia)) as Hl.
    destruct (lead3_bits _ Hh) as (L0 & L1 & L2).
    destruct (continuation_bits _ Hm) as [M1 M2].
    destruct (continuation_bits _ Hl) as [C1 C2].
    destruct (Z.eqb_spec (224 + cp / 4096) 0); [lia|].
    destruct (Z.ltb_spec (224 + cp / 4096) 128); [lia|].
    rewrite L0, L1, L2, M1, M2, C1, C2. cbn [Z.eqb Pos.eqb andb].
    replace (Z.shiftl (cp / 4096) 12) with (Z.shiftl (Z.shiftl (cp / 4096) 6) 6)
      by (rewrite Z.shiftl_shiftl by lia; reflexivity).
    rewrite <- Z.shiftl_lor.
    rewrite (lor_shiftl_add (cp / 4096)) by lia.
    rewrite lor_shiftl_add by lia.
    replace ((cp / 4096 * 2 ^ 6 + (cp / 64) mod 64) * 2 ^ 6 + cp mod 64) with cp.
    2:{ pose proof (Z.div_mod cp 64 ltac:(lia)).
        pose proof (Z.div_mod (cp / 64) 64 ltac:(lia)).
        replace (cp / 4096) with (cp / 64 / 64) by (rewrite Z.div_div by lia; reflexivity).
        lia. }
    decoder_tests. }
  (* four bytes *)
  cbn [app nth length].
  assert (Hh : 0 <= cp / 262144 < 8)
    by (split; [apply Z.div_pos; lia|apply Z.div_lt_upper_bound; lia]).
  pose proof (Z.mod_pos_bound (cp / 4096) 64 ltac:(lia)) as Hk.
  pose proof (Z.mod_pos_bound (cp / 64) 64 ltac:(lia)) as Hm.
  pose proof (Z.mod_pos_bound cp 64 ltac:(lia)) as Hl.
  destruct (lead4_bits _ Hh) as (L0 & L1 & L2 & L3).
  destruct (continuation_bits _ Hk) as [K1 K2].
  destruct (continuation_bits _ Hm) as [M1 M2].
  destruct (continuation_bits _ Hl) as [C1 C2].
  destruct (Z.eqb_spec (240 + cp / 262144) 0); [lia|].
  destruct (Z.ltb_spec (240 + cp / 262144) 128); [lia|].
  rewrite L0, L1, L2, L3, K1, K2, M1, M2, C1, C2. cbn [Z.eqb Pos.eqb andb].
  replace (Z.shiftl (cp / 262144) 18)
    with (Z.shiftl (Z.shiftl (Z.shiftl (cp / 262144) 6) 6) 6)
    by (rewrite !Z.shiftl_shiftl by lia; reflexivity).
  replace (Z.shiftl ((cp / 4096) mod 64) 12)
    with (Z.shiftl (Z.shiftl ((cp / 4096) mod 64) 6) 6)
    by (rewrite Z.shiftl_shiftl by lia; reflexivity).
  rewrite <- !Z.shiftl_lor.
  rewrite (lor_shiftl_add (cp / 262144)) by lia.
  rewrite (lor_shiftl_add (cp / 262144 * 2 ^ 6 + (cp / 4096) mod 64)) by lia.
  rewrite lor_shiftl_add by lia.
  replace (((cp / 262144 * 2 ^ 6 + (cp / 4096) mod 64) * 2 ^ 6 + (cp / 64) mod 64) * 2 ^ 6
           + cp mod 64) with cp.
  2:{ pose proof (Z.div_mod cp 64 ltac:(lia)).
      pose proof (Z.div_mod (cp / 64) 64 ltac:(lia)).
      pose proof (Z.div_mod (cp / 4096) 64 ltac:(lia)).
      replace (cp / 262144) with (cp / 4096 / 64) by (rewrite Z.div_div by lia; reflexivity).
      replace (cp / 4096) with (cp / 64 / 64) in * by (rewrite Z.div_div by lia; reflexivity).
      lia. }
  decoder_tests.
Qed.

Lemma GetNextCodepointFromUTF8_decodes_encoding_witness :
  is_scalar_value 20013 /\ 20013 <> 0 /\
  GetNextCodepointFromUTF8 (utf8_encoding 20013 ++ [97]) = (20013, len (utf8_encoding 20013)).
Proof.
  assert (H1 : is_scalar_value 20013) by (unfold is_scalar_value; lia).
  assert (H2 : 20013 <> 0) by discriminate.
  split; [exact H1|]. split; [exact H2|].
  exact (GetNextCodepointFromUTF8_decodes_encoding 20013 [97] H1 H2).
Defined.
(** ** Visual runs (lines 1491-1610) *)

Lemma run_slices_snoc (runs : list VisualRun) (r : VisualRun) :
  run_slices (runs ++ [r]) =
  run_slices runs ++ [(firstElementIndexInLineElements r,
                       firstElementIndexInLineElements r + numElementsInRun r)].
Proof. unfold run_slices. rewrite map_app. reflexivity. Qed.

Lemma run_slices_extend (runs : list VisualRun) (pending : list PositionedElementVariant)
    (start n : nat) (cur : RunProps) (b : Z) :
  ranges_partition (run_slices runs) 0 (Z.of_nat start) ->
  b = Z.of_nat (start + n) ->
  ranges_partition (run_slices (runs ++ [make_run pending start n cur])) 0 b.
Proof.
  intros Hpart ->. rewrite run_slices_snoc. simpl.
  replace (Z.of_nat (start + n)) with (Z.of_nat start + Z.of_nat n) by lia.
  apply ranges_partition_snoc; [exact Hpart|lia].
Qed.

Lemma build_visual_runs_partition (image_props : RunProps)
    (pending : list PositionedElementVariant) :
  forall rest i prev start cur runs,
    (start <= i)%nat -> (i + length rest = length pending)%nat ->
    ranges_partition (run_slices runs) 0 (Z.of_nat start) ->
    Forall (fun r => 0 < numElementsInRun r) runs ->
    let out := build_visual_runs image_props pending i prev rest start cur runs in
    ranges_partition (run_slices out) 0 (Z.of_nat (length pending)) /\
    Forall (fun r => 0 < numElementsInRun r) out.
Proof.
  induction rest as [|el rest IH]; intros i prev start cur runs Hsi Hlen Hpart Hpos; simpl.
  - simpl in Hlen. destruct (Nat.ltb_spec start (length pending)) as [Hlt|Hge].
    + split.
      * apply run_slices_extend; [exact Hpart|lia].
      * apply Forall_app. split; [exact Hpos|]. constructor; [simpl; lia|constructor].
    + replace (length pending) with start by lia. split; assumption.
  - simpl in Hlen.
    destruct ((start <? i)%nat &&
              match prev with Some p => splitRun cur p el | None => false end) eqn:Hsplit.
    + apply andb_true_iff in Hsplit as [Hlt _]. apply Nat.ltb_lt in Hlt.
      apply IH; [lia|lia| |].
      * apply run_slices_extend; [exact Hpart|lia].
      * apply Forall_app. split; [exact Hpos|]. constructor; [simpl; lia|constructor].
    + apply IH; [lia|lia|exact Hpart|exact Hpos].
Qed.

Lemma visual_runs_of_slices (e : Engine) (pStyle : ParagraphStyle)
    (paraDefaultFontSize : float) (pending : list PositionedElementVariant) :
  ranges_partition (run_slices (visual_runs_of e pStyle paraDefaultFontSize pending))
    0 (Z.of_nat (length pending)) /\
  Forall (fun r => 0 < numElementsInRun r)
    (visual_runs_of e pStyle paraDefaultFontSize pending).
Proof.
  unfold visual_runs_of. destruct pending as [|first pending'] eqn:Hp.
  - simpl. split; [reflexivity|constructor].
  - rewrite <- Hp. apply build_visual_runs_partition.
    + lia.
    + reflexivity.
    + reflexivity.
    + constructor.
Qed.

(** X18.  The visual runs of a line cut its elements into consecutive
    slices: the first run starts at element 0, every run starts where the
    one before ends, the last ends at the last element of the line, and no
    run is empty. *)
Theorem visual_runs_of_partition (e : Engine) (pStyle : ParagraphStyle)
    (paraDefaultFontSize : float) (pending : list PositionedElementVariant) :
  ranges_partition (run_slices (visual_runs_of e pStyle paraDefaultFontSize pending))
    0 (Z.of_nat (length pending)) /\
  Forall (fun r => 0 < numElementsInRun r)
    (visual_runs_of e pStyle paraDefaultFontSize pending).
Proof. exact (visual_runs_of_slices e pStyle paraDefaultFontSize pending). Qed.
(** ** The span map (lines 1031-1044) *)

Lemma len_app (s t : list Z) : len (s ++ t) = len s + len t.
Proof. unfold len. rewrite length_app. lia. Qed.

Lemma u32_small (z : Z) : 0 <= z < 2 ^ 32 -> u32 z = z.
Proof. intros H. unfold u32. apply Z.mod_small. exact H. Qed.

Lemma len_text_to_process (sp : TextSpan) :
  len (text_to_process sp) =
  if bool_decide (text sp = []) && isImage (style sp) then 3 else len (text sp).
Proof.
  unfold text_to_process. destruct (isImage (style sp)), (bool_decide (text sp = []));
    reflexivity.
Qed.

Lemma build_span_map_full (icu : ICU) (spans : list TextSpan) :
  forall i p8 p16,
    fst (build_span_map icu spans i p8 p16) = concat (map text_to_process spans).
Proof.
  induction spans as [|sp spans IH]; intros i p8 p16; simpl; [reflexivity|].
  specialize (IH (i + 1) (u32 (p8 + u32 (len (text_to_process sp))))
                (u32 (p16 + u32 (len (Utf8ToUtf16 icu (text_to_process sp)))))).
  destruct (build_span_map icu spans _ _ _) as [full entries]. simpl in *.
  rewrite IH. reflexivity.
Qed.

Lemma build_span_map_entry (icu : ICU) (spans : list TextSpan) :
  forall i p8 p16 j sp,
    spans !! j = Some sp ->
    0 <= p8 -> p8 + len (concat (map text_to_process spans)) < 2 ^ 32 ->
    exists en,
      snd (build_span_map icu spans i p8 p16) !! j = Some en /\
      originalSpanIndex en = i + Z.of_nat j /\
      u8_start_offset_in_full en
      = p8 + len (concat (map text_to_process (take j spans))) /\
      u8_length_in_full en = len (text_to_process sp).
Proof.
  induction spans as [|sp0 spans IH]; intros i p8 p16 j sp Hj Hp Hbound;
    [rewrite lookup_nil in Hj; discriminate|].
  simpl in Hbound. rewrite len_app in Hbound.
  pose proof (len_nonneg (text_to_process sp0)) as H0.
  pose proof (len_nonneg (concat (map text_to_process spans))) as H1.
  simpl.
  specialize (IH (i + 1) (u32 (p8 + u32 (len (text_to_process sp0))))
                (u32 (p16 + u32 (len (Utf8ToUtf16 icu (text_to_process sp0)))))).
  destruct (build_span_map icu spans _ _ _) as [full entries]. simpl in *.
  destruct j as [|j].
  - simpl in Hj. inversion Hj; subst sp0. eexists. split; [reflexivity|]. simpl.
    split; [lia|]. split; [unfold len; simpl; lia|]. apply u32_small. lia.
  - simpl in Hj.
    rewrite (u32_small (len (text_to_process sp0))) in IH by lia.
    rewrite (u32_small (p8 + len (text_to_process sp0))) in IH by lia.
    destruct (IH j sp Hj) as (en & Hen & Hidx & Hstart & Hlen); [lia|lia|].
    exists en. split; [exact Hen|]. split; [lia|]. split; [|exact Hlen].
    rewrite Hstart. simpl. rewrite len_app. lia.
Qed.

Lemma len_concat_take_le (spans : list TextSpan) (j : nat) :
  len (concat (map text_to_process (take j spans)))
  <= len (concat (map text_to_process spans)).
Proof.
  revert j. induction spans as [|sp spans IH]; intros j.
  - rewrite take_nil. lia.
  - destruct j as [|j].
    + change (take 0 (sp :: spans)) with (@nil TextSpan).
      change (len (concat (map text_to_process []))) with 0. apply len_nonneg.
    + change (take (S j) (sp :: spans)) with (sp :: take j spans).
      cbn [map concat]. rewrite !len_app. specialize (IH j). lia.
Qed.

Lemma span_start_offset_sum (spans : list TextSpan) (j : nat) :
  len (concat (map text_to_process spans)) < 2 ^ 32 ->
  span_start_offset spans (Z.of_nat j)
  = len (concat (map text_to_process (take j spans))).
Proof.
  intros Hbound. unfold span_start_offset. rewrite Nat2Z.id.
  pose proof (len_concat_take_le spans j) as Hle.
  revert Hle. generalize (take j spans) as l. clear j. intros l Hle.
  assert (Hgen : forall acc, 0 <= acc ->
            acc + len (concat (map text_to_process l)) < 2 ^ 32 ->
            foldl (fun acc sp =>
                     u32 (acc + (if bool_decide (text sp = []) && isImage (style sp)
                                 then 3 else len (text sp)))) acc l
            = acc + len (concat (map text_to_process l))).
  { induction l as [|sp l IH]; intros acc Hacc Hb; simpl.
    - unfold len. simpl. lia.
    - simpl in Hb, Hle. rewrite len_app in Hb, Hle.
      pose proof (len_nonneg (text_to_process sp)) as H0.
      pose proof (len_nonneg (concat (map text_to_process l))) as H1.
      rewrite <- len_text_to_process. rewrite u32_small by lia.
      rewrite IH; [rewrite len_app; lia|lia|lia|lia]. }
  rewrite Hgen; [lia|lia|lia].
Qed.

Lemma substr_concat (spans : list TextSpan) (j : nat) (sp : TextSpan) :
  spans !! j = Some sp ->
  substr (concat (map text_to_process spans))
    (len (concat (map text_to_process (take j spans)))) (len (text_to_process sp))
  = text_to_process sp.
Proof.
  assert (Hsub : forall s p n, 0 <= n ->
            substr s p n = take (Z.to_nat n) (drop (Z.to_nat p) s)).
  { intros s p n Hn. unfold substr. destruct (Z.ltb_spec n 0); [lia|reflexivity]. }
  revert j. induction spans as [|sp0 spans IH]; intros j Hj;
    [rewrite lookup_nil in Hj; discriminate|].
  rewrite Hsub by apply len_nonneg.
  destruct j as [|j].
  - cbn in Hj. inversion Hj; subst sp0.
    change (take 0 (sp :: spans)) with (@nil TextSpan). cbn [map concat].
    change (Z.to_nat (len [])) with 0%nat. rewrite drop_0.
    unfold len. rewrite Nat2Z.id. apply take_app_length.
  - cbn in Hj. specialize (IH j Hj). rewrite Hsub in IH by apply len_nonneg.
    change (take (S j) (sp0 :: spans)) with (sp0 :: take j spans). cbn [map concat].
    rewrite len_app.
    replace (Z.to_nat (len (text_to_process sp0)
                       + len (concat (map text_to_process (take j spans)))))
      with (length (text_to_process sp0)
            + Z.to_nat (len (concat (map text_to_process (take j spans)))))%nat
      by (unfold len; lia).
    rewrite drop_app_add. exact IH.
Qed.

(** X19.  For a text of fewer than 2^32 bytes the span map is exact: the
    entry of span [j] carries the index [j], cutting the concatenated text
    at its offset and length gives back the text of the span (U+FFFC for an
    image without text), and its offset is the one that the cursor and the
    selection recompute by adding up the lengths of the spans before. *)
Theorem build_span_map_round_trip (icu : ICU) (spans : list TextSpan) (j : nat)
    (sp : TextSpan) :
  let full := fst (build_span_map icu spans 0 0 0) in
  let spanMap := snd (build_span_map icu spans 0 0 0) in
  spans !! j = Some sp ->
  len full < 2 ^ 32 ->
  exists en,
    spanMap !! j = Some en /\
    originalSpanIndex en = Z.of_nat j /\
    substr full (u8_start_offset_in_full en) (u8_length_in_full en) = text_to_process sp /\
    u8_start_offset_in_full en = span_start_offset spans (Z.of_nat j).
Proof.
  intros full spanMap Hj Hbound. subst full spanMap.
  rewrite build_span_map_full in *.
  destruct (build_span_map_entry icu spans 0 0 0 j sp Hj) as (en & Hen & Hidx & Hstart & Hlen);
    [lia|lia|].
  exists en. split; [exact Hen|]. split; [lia|].
  rewrite Hstart, Hlen, Z.add_0_l. split.
  - apply substr_concat. exact Hj.
  - symmetry. apply span_start_offset_sum. exact Hbound.
Qed.

Lemma build_span_map_round_trip_witness :
  ex_spans_image !! 2%nat = Some {| text := [99]; style := ex_style 1 16 |} /\
  len (fst (build_span_map ex_icu ex_spans_image 0 0 0)) < 2 ^ 32 /\
  exists en,
    snd (build_span_map ex_icu ex_spans_image 0 0 0) !! 2%nat = Some en /\
    originalSpanIndex en = Z.of_nat 2 /\
    substr (fst (build_span_map ex_icu ex_spans_image 0 0 0))
      (u8_start_offset_in_full en) (u8_length_in_full en)
    = text_to_process {| text := [99]; style := ex_style 1 16 |} /\
    u8_start_offset_in_full en = span_start_offset ex_spans_image (Z.of_nat 2).
Proof.
  assert (H2 : len (fst (build_span_map ex_icu ex_spans_image 0 0 0)) < 2 ^ 32)
    by (vm_compute; reflexivity).
  split; [reflexivity|]. split; [exact H2|].
  exact (build_span_map_round_trip ex_icu ex_spans_image 2 _ eq_refl H2).
Defined.
(** ** The structure of a laid-out block *)

(** The two outcomes of [finalizeCurrentLine]: nothing is added, or the
    pending elements, shifted or not, and one line are appended. *)
Lemma finalizeCurrentLine_result (icu : ICU) (e : Engine) (tb : TextBlock)
    (pending : list PositionedElementVariant) (template : LineLayoutInfo)
    (cw asc desc topY : float) (isFirst : bool) (ps : ParagraphStyle)
    (m : ScaledFontMetrics) (fs : float) (next : Z) (overall : float) (level : Z) :
  let r := finalizeCurrentLine icu e tb pending template cw asc desc topY isFirst ps m fs
             next overall level in
  let L := finalizedLine_of icu e tb pending template cw asc desc topY ps m fs next level in
  r = (tb, topY, overall) \/
  (exists placed overall',
     (placed = pending \/ exists dx, placed = map (shift_x dx) pending) /\
     r = (set_elements_lines tb (elements tb ++ placed) (lines tb ++ [L]),
          (topY + lineBoxHeight L)%Q, overall')).
Proof.
  intros r L. unfold r, finalizeCurrentLine.
  destruct (finalize_skips tb pending template next); [left; reflexivity|right].
  fold L. eexists _, _. split; [|reflexivity].
  destruct (fgt _ _); [right; eexists; reflexivity|left; reflexivity].
Qed.

Lemma lines_stacked_snoc (lns : list LineLayoutInfo) (l : LineLayoutInfo) :
  forall y top,
    lines_stacked lns y top -> lineBoxY l = top ->
    lines_stacked (lns ++ [l]) y (lineBoxY l + lineBoxHeight l)%Q.
Proof.
  induction lns as [|l0 lns IH]; intros y top H Hl; simpl in *.
  - split; [congruence|reflexivity].
  - destruct H as [H1 H2]. split; [exact H1|]. apply (IH _ top); assumption.
Qed.

Lemma line_slices_snoc (tb : TextBlock) (els : list PositionedElementVariant)
    (lns : list LineLayoutInfo) (l : LineLayoutInfo) :
  line_slices (set_elements_lines tb els (lns ++ [l])) =
  map (fun l => (firstElementIndexInBlockElements l,
                 firstElementIndexInBlockElements l + numElementsInLine l)) lns ++
  [(firstElementIndexInBlockElements l,
    firstElementIndexInBlockElements l + numElementsInLine l)].
Proof. unfold line_slices. simpl. rewrite map_app. reflexivity. Qed.

Section BlockInvariant.

(** A property of elements that moving an element and aligning an image
    on its line keep. *)
Variable P : PositionedElementVariant -> Prop.
Hypothesis P_shift : forall dx el, P el -> P (shift_x dx el).
Hypothesis P_align : forall l el, P el -> P (align_on_line l el).

Lemma finalizeCurrentLine_block_ok (icu : ICU) (e : Engine) (tb : TextBlock)
    (pending : list PositionedElementVariant) (template : LineLayoutInfo)
    (cw asc desc topY : float) (isFirst : bool) (ps : ParagraphStyle)
    (m : ScaledFontMetrics) (fs : float) (next : Z) (overall : float) (level : Z) :
  let r := finalizeCurrentLine icu e tb pending template cw asc desc topY isFirst ps m fs
             next overall level in
  block_ok tb topY -> Forall P (elements tb) -> Forall P pending ->
  block_ok (fst (fst r)) (snd (fst r)) /\ Forall P (elements (fst (fst r))).
Proof.
  intros r [Hsl Hst Hruns] Hel Hpend.
  destruct (finalizeCurrentLine_result icu e tb pending template cw asc desc topY isFirst
              ps m fs next overall level) as [Hr|(placed & overall' & Hplaced & Hr)];
    fold r in Hr; rewrite Hr; cbn [fst snd].
  - split; [constructor; assumption|exact Hel].
  - assert (Hlen : length placed = length pending).
    { destruct Hplaced as [->|[dx ->]]; [reflexivity|apply length_map]. }
    assert (HP : Forall P placed).
    { destruct Hplaced as [->|[dx ->]]; [exact Hpend|].
      apply Forall_forall. intros x Hx. apply list_elem_of_fmap in Hx as (y & -> & Hy).
      apply P_shift. rewrite Forall_forall in Hpend. apply Hpend. exact Hy. }
    split; [constructor|].
    + rewrite line_slices_snoc. unfold len_elements. cbn [elements set_elements_lines].
      rewrite length_app, Hlen.
      replace (Z.of_nat (length (elements tb) + length pending))
        with (len_elements tb + Z.of_nat (length pending))
        by (unfold len_elements; lia).
      apply ranges_partition_snoc; [exact Hsl|cbn; lia].
    + cbn [lines set_elements_lines].
      exact (lines_stacked_snoc (lines tb)
               (finalizedLine_of icu e tb pending template cw asc desc topY ps m fs
                  next level) 0 topY Hst eq_refl).
    + cbn [lines set_elements_lines]. apply Forall_app. split; [exact Hruns|].
      constructor; [|constructor]. unfold runs_partition_line. cbn.
      apply visual_runs_of_slices.
    + cbn [elements set_elements_lines]. apply Forall_app. split; assumption.
Qed.

Variable ctx : LayoutCtx.
Hypothesis P_shape :
  forall textLen e failed seg last,
    Forall P (elements_for_this_segment
                (fst (fst (shape_segment ctx textLen e failed seg last)))).

Lemma finalize_and_reset_block_ok (st : LoopState) (next : Z) :
  loop_block_ok P st -> loop_block_ok P (finalize_and_reset ctx st next).
Proof.
  intros (Hb & Hel & Hpend). unfold finalize_and_reset, loop_block_ok.
  pose proof (finalizeCurrentLine_block_ok (c_icu ctx) (engine st) (textBlock st)
                (pendingLineElements st) (currentLineInfoTemplate st)
                (currentLineCommittedWidth st) (currentLineMaxAscent st)
                (currentLineMaxDescent st) (currentLineBoxTopY st)
                (isFirstLineOfParagraph st) (c_paragraphStyle ctx) (paraDefaultMetrics ctx)
                (paraDefFontSize ctx) next (overallMaxVisualLineWidth st)
                (actualParaLevel ctx) Hb Hel Hpend) as H.
  cbv zeta in H.
  destruct (finalizeCurrentLine _ _ _ _ _ _ _ _ _ _ _ _ _ _ _ _) as [[tb topY] overall].
  cbn [fst snd] in *. destruct H as [H1 H2]. split; [exact H1|]. split; [exact H2|].
  constructor.
Qed.

Lemma commit_segment_block_ok (st : LoopState) (segStart : Z) (seg : SegmentAcc)
    (w : float) :
  Forall P (elements_for_this_segment seg) ->
  loop_block_ok P st -> loop_block_ok P (commit_segment ctx st segStart seg w).
Proof.
  intros Hseg Hst. unfold commit_segment.
  set (st1 := if wrap_decision _ _ _ _ _ then finalize_and_reset ctx st segStart else st).
  assert (H1 : loop_block_ok P st1).
  { unfold st1. destruct (wrap_decision _ _ _ _ _);
      [apply finalize_and_reset_block_ok|]; exact Hst. }
  destruct (elements_for_this_segment seg) as [|el els] eqn:Hels; [exact H1|].
  destruct H1 as (Hb & Hel & Hpend). unfold loop_block_ok. cbn.
  split; [exact Hb|]. split; [exact Hel|].
  apply Forall_app. split; [exact Hpend|].
  apply Forall_forall. intros x Hx.
  change (shift_x (currentLineCommittedWidth st1) el
          :: map (shift_x (currentLineCommittedWidth st1)) els)
    with (map (shift_x (currentLineCommittedWidth st1)) (el :: els)) in Hx.
  apply list_elem_of_fmap in Hx as (y & -> & Hy).
  apply P_shift. rewrite Forall_forall in Hseg. apply Hseg. exact Hy.
Qed.

Lemma segment_step_block_ok (st : LoopState) :
  loop_block_ok P st -> loop_block_ok P (fst (segment_step ctx st)).
Proof.
  intros Hst. rewrite segment_step_eq. cbv zeta. cbn [fst].
  match goal with
  | |- context [commit_segment ctx ?s ?a ?b ?c] =>
      assert (H2 : loop_block_ok P (commit_segment ctx s a b c))
  end.
  { apply commit_segment_block_ok; [apply P_shape|exact Hst]. }
  destruct (find_newline _ 0).
  - match goal with
    | |- context [finalize_and_reset ctx ?s ?n] =>
        pose proof (finalize_and_reset_block_ok s n H2) as H3
    end.
    exact H3.
  - exact H2.
Qed.

Lemma layout_loop_block_ok (fuel : nat) :
  forall st st', layout_loop fuel ctx st = Some st' -> loop_block_ok P st -> loop_block_ok P st'.
Proof.
  induction fuel as [|fuel IH]; intros st st' H Hst; simpl in H.
  - destruct (_ || _); [|inversion H; subst; exact Hst].
    destruct (_ && _); [inversion H; subst; exact Hst|discriminate].
  - destruct (_ || _); [|inversion H; subst; exact Hst].
    destruct (_ && _); [inversion H; subst; exact Hst|].
    pose proof (segment_step_block_ok st Hst) as Hs.
    destruct (segment_step ctx st) as [st1 leave]. simpl in Hs.
    destruct leave; [inversion H; subst; exact Hs|apply (IH st1 st' H Hs)].
Qed.

Lemma postprocess_line_Forall (els : list PositionedElementVariant) (l : LineLayoutInfo) :
  Forall P els -> Forall P (postprocess_line els l).
Proof.
  unfold postprocess_line.
  generalize (seq 0 (Z.to_nat (numElementsInLine l))) as idx.
  intros idx. revert els. induction idx as [|i idx IH]; intros els H; simpl; [exact H|].
  apply IH. apply Forall_alter; [exact H|]. intros x _ Hx. apply P_align. exact Hx.
Qed.

Lemma postprocess_lines_Forall (lns : list LineLayoutInfo)
    (els : list PositionedElementVariant) :
  Forall P els -> Forall P (foldl postprocess_line els lns).
Proof.
  revert els. induction lns as [|l lns IH]; intros els H; simpl; [exact H|].
  apply IH, postprocess_line_Forall, H.
Qed.

(** The block after the loop: its structure, its elements, and its
    bounds, which span the line boxes when there is a line. *)
Lemma finish_layout_block_ok (st : LoopState) :
  loop_block_ok P st ->
  let tb := finish_layout ctx st in
  exists bottom,
    block_ok tb bottom /\ Forall P (elements tb) /\
    (lines tb <> [] ->
     ry (overallBounds tb) = 0%Q /\ rheight (overallBounds tb) = (bottom - 0)%Q).
Proof.
  intros (Hb & Hel & Hpend) tb. unfold tb, finish_layout.
  set (r := if negb (bool_decide (pendingLineElements st = [])) ||
               bool_decide (lines (textBlock st) = [])
            then finalizeCurrentLine _ _ _ _ _ _ _ _ _ _ _ _ _ _ _ _
            else (textBlock st, currentLineBoxTopY st, overallMaxVisualLineWidth st)).
  assert (Hr : block_ok (fst (fst r)) (snd (fst r)) /\ Forall P (elements (fst (fst r)))).
  { unfold r. destruct (_ || _); [|split; assumption].
    apply finalizeCurrentLine_block_ok; assumption. }
  destruct r as [[tb1 topY] overall]. cbn [fst snd] in Hr.
  destruct Hr as [[Hsl Hst Hruns] Hel1].
  exists topY. unfold bounds_and_images. cbn [lines elements overallBounds ry rheight].
  split; [constructor|split].
  - unfold line_slices, len_elements. cbn [lines elements].
    rewrite postprocess_lines_length. exact Hsl.
  - exact Hst.
  - exact Hruns.
  - apply postprocess_lines_Forall. exact Hel1.
  - intros Hne. destruct (lines tb1) as [|front rest] eqn:Hl; [contradiction|].
    simpl in Hst. destruct Hst as [Hy _].
    rewrite bool_decide_eq_false_2 by discriminate. cbn [andb].
    rewrite Hy. split; reflexivity.
Qed.

End BlockInvariant.
(** The blocks returned before the segment loop. *)
Lemma layout_start_EarlyReturn_cases (icu : ICU) (hb : HarfBuzz) (e : Engine)
    (spans : list TextSpan) (ps : ParagraphStyle) (tb : TextBlock) :
  layout_start icu hb e spans ps = EarlyReturn tb ->
  (elements tb = [] /\ lines tb = []) \/
  tb = emptySpansBlock ps (snd (paragraph_defaults e ps)) (snd (fst (paragraph_defaults e ps))).
Proof.
  unfold layout_start. intros H.
  destruct (negb (ftLibrary_ e)); [inversion H; left; split; reflexivity|].
  destruct spans as [|sp spans]; [inversion H; right; reflexivity|].
  destruct (_ && _); [inversion H; left; split; reflexivity|].
  destruct (ubidi_paraLevel icu _ _) as [level|];
    [|inversion H; left; split; reflexivity].
  match type of H with
  | match ?it with Some _ => _ | None => _ end = _ => destruct it as [[kind locale]|]
  end; [|inversion H; left; split; reflexivity].
  destruct (negb (ubrk_setText icu kind locale _)); [|discriminate].
  inversion H; left; split; reflexivity.
Qed.

Lemma layout_start_StartLoop_state (icu : ICU) (hb : HarfBuzz) (e : Engine)
    (spans : list TextSpan) (ps : ParagraphStyle) (ctx : LayoutCtx) (st0 : LoopState) :
  layout_start icu hb e spans ps = StartLoop ctx st0 ->
  c_spans ctx = spans /\ spans <> [] /\
  spanMap_local ctx = snd (build_span_map icu spans 0 0 0) /\
  elements (textBlock st0) = [] /\ lines (textBlock st0) = [] /\
  pendingLineElements st0 = [] /\ currentLineBoxTopY st0 = 0%Q.
Proof.
  intros H. destruct (layout_start_StartLoop icu hb e spans ps ctx st0 H)
    as (_ & _ & H3 & _ & _ & _ & _ & H8 & _ & _ & H11 & H12).
  cbv zeta in H12. subst st0. simpl. auto 10.
Qed.

(** What a layout returns, whatever the text and whatever ICU and HarfBuzz
    answer: a block with the structure [block_ok] whose elements have a
    property that every shaped segment has. *)
Lemma LayoutStyledText_block_ok (P : PositionedElementVariant -> Prop)
    (icu : ICU) (hb : HarfBuzz) (e : Engine)
    (spans : list TextSpan) (ps : ParagraphStyle) (tb : TextBlock) (e' : Engine) :
  (forall dx el, P el -> P (shift_x dx el)) ->
  (forall l el, P el -> P (align_on_line l el)) ->
  (forall ctx st0, layout_start icu hb e spans ps = StartLoop ctx st0 ->
     forall textLen e1 failed seg last,
       Forall P (elements_for_this_segment
                   (fst (fst (shape_segment ctx textLen e1 failed seg last))))) ->
  LayoutStyledText icu hb e spans ps = Some (tb, e') ->
  exists bottom,
    block_ok tb bottom /\ Forall P (elements tb) /\
    (lines tb <> [] ->
     ry (overallBounds tb) = 0%Q /\ (rheight (overallBounds tb) == bottom)%Q).
Proof.
  intros P_shift P_align P_shape H. unfold LayoutStyledText in H.
  destruct (layout_start icu hb e spans ps) as [tb0|ctx st0] eqn:Hstart.
  - inversion H; subst tb0 e'. clear H.
    destruct (layout_start_EarlyReturn_cases _ _ _ _ _ _ Hstart) as [[Hel Hl]| ->].
    + exists 0%Q. split; [constructor|split].
      * unfold line_slices, len_elements. rewrite Hl, Hel. reflexivity.
      * rewrite Hl. reflexivity.
      * rewrite Hl. constructor.
      * rewrite Hel. constructor.
      * intros Hne. contradiction.
    + unfold emptySpansBlock. cbv zeta.
      eexists (0 + _)%Q. split; [constructor|split].
      * cbn. repeat split; lia.
      * cbn. split; reflexivity.
      * cbn. constructor; [|constructor]. split; [reflexivity|constructor].
      * cbn. constructor.
      * intros _. cbn. split; [reflexivity|]. ring.
  - destruct (layout_loop _ ctx st0) as [st|] eqn:Hloop; [|discriminate].
    inversion H; subst tb e'. clear H.
    destruct (layout_start_StartLoop_state _ _ _ _ _ _ _ Hstart)
      as (_ & _ & _ & Hel0 & Hl0 & Hp0 & Hy0).
    assert (H0 : loop_block_ok P st0).
    { split; [constructor|split].
      - unfold line_slices, len_elements. rewrite Hl0, Hel0. reflexivity.
      - rewrite Hl0, Hy0. reflexivity.
      - rewrite Hl0. constructor.
      - rewrite Hel0. constructor.
      - rewrite Hp0. constructor. }
    pose proof (layout_loop_block_ok P P_shift ctx (P_shape ctx st0 eq_refl) _ _ _ Hloop H0)
      as Hst.
    destruct (finish_layout_block_ok P P_shift P_align ctx st Hst)
      as (bottom & Hb & Hel & Hbounds).
    exists bottom. split; [exact Hb|]. split; [exact Hel|].
    intros Hne. destruct (Hbounds Hne) as [Hry Hh]. split; [exact Hry|].
    rewrite Hh. ring.
Qed.

(** X20.  In the block a layout returns, the lines cut the elements into
    consecutive slices (the first line starts at element 0, every line
    starts where the one before ends, the last ends at the last element),
    and the visual runs of every line cut the elements of the line in the
    same way, no run being empty. *)
Theorem LayoutStyledText_lines_tile_elements (icu : ICU) (hb : HarfBuzz) (e : Engine)
    (spans : list TextSpan) (ps : ParagraphStyle) (tb : TextBlock) (e' : Engine) :
  LayoutStyledText icu hb e spans ps = Some (tb, e') ->
  ranges_partition (line_slices tb) 0 (len_elements tb) /\
  Forall runs_partition_line (lines tb).
Proof.
  intros H.
  destruct (LayoutStyledText_block_ok (fun _ => True) icu hb e spans ps tb e')
    as (bottom & [Hsl _ Hruns] & _); auto.
  intros ctx st0 _ textLen e1 failed seg last. apply Forall_forall. auto.
Qed.

Lemma LayoutStyledText_lines_tile_elements_witness :
  LayoutStyledText ex_icu_words ex_hb ex_engine_latin ex_spans_S2 ex_paragraph_S2
  = Some (ex_block_S2, ex_engine_S2) /\
  ranges_partition (line_slices ex_block_S2) 0 (len_elements ex_block_S2) /\
  Forall runs_partition_line (lines ex_block_S2).
Proof.
  split; [exact ex_layout_S2_eq|].
  exact (LayoutStyledText_lines_tile_elements _ _ _ _ _ _ _ ex_layout_S2_eq).
Defined.


(** ** Where a glyph comes from (lines 1239-1269) *)

Lemma glyph_provenance_in_span (ctx : LayoutCtx) (rc : RunCtx) (c n : Z) (sp : TextSpan) :
  nth_span (c_spans ctx) (u32 (runDominantSpanIdx rc)) = Some sp ->
  len (text_to_process sp) < 2 ^ 32 - 2 ^ 16 ->
  let prov := glyph_provenance ctx rc c n in
  fst (fst prov) = u32 (runDominantSpanIdx rc) /\
  0 <= snd (fst prov) /\ 0 <= snd prov /\
  snd (fst prov) + snd prov <= len (text_to_process sp).
Proof.
  intros Hsp Hbound. unfold glyph_provenance. cbv zeta. rewrite Hsp.
  pose proof (len_nonneg (text_to_process sp)) as Hn.
  assert (Hu16 : forall z, 0 <= u16 z < 2 ^ 16) by (intros; apply Z.mod_pos_bound; lia).
  assert (Hu32 : forall z, 0 <= u32 z < 2 ^ 32) by (intros; apply Z.mod_pos_bound; lia).
  set (start := match spanMap_local ctx !! _ with Some en => _ | None => 0 end).
  set (abs := u32 (runU8StartByteInFull rc + c)).
  assert (Hpair : exists off1 num1,
            (if start <=? abs then (u32 (abs - start), u16 n) else (0, 0)) = (off1, num1) /\
            0 <= off1 < 2 ^ 32 /\ 0 <= num1 < 2 ^ 16).
  { destruct (start <=? abs); eexists _, _; (split; [reflexivity|]).
    - split; [apply Hu32|apply Hu16].
    - lia. }
  destruct Hpair as (off1 & num1 & -> & Hoff & Hnum).
  destruct (Z.ltb_spec (len (text_to_process sp)) off1).
  { cbn [fst snd]. rewrite (u32_small (len (text_to_process sp))) by lia.
    repeat split; lia. }
  destruct (Z.ltb_spec (len (text_to_process sp)) (u32 (off1 + num1))).
  { cbn [fst snd]. pose proof (Hu16 (len (text_to_process sp) - off1)).
    assert (u16 (len (text_to_process sp) - off1) <= len (text_to_process sp) - off1).
    { unfold u16. apply Z.mod_le; lia. }
    repeat split; lia. }
  cbn [fst snd]. rewrite (u32_small (off1 + num1)) in * by lia. repeat split; lia.
Qed.

Lemma glyph_source_in_span_shift (spans : list TextSpan) (dx : float)
    (el : PositionedElementVariant) :
  glyph_source_in_span spans el -> glyph_source_in_span spans (shift_x dx el).
Proof. destruct el; simpl; auto. Qed.

Lemma glyph_source_in_span_align (spans : list TextSpan) (l : LineLayoutInfo)
    (el : PositionedElementVariant) :
  glyph_source_in_span spans el -> glyph_source_in_span spans (align_on_line l el).
Proof.
  destruct el as [g|i]; simpl; [auto|]. intros _.
  destruct (vAlign (i_imageParams i)); simpl; exact I.
Qed.

Lemma build_span_map_indices (icu : ICU) (spans : list TextSpan) :
  forall i p8 p16,
    Forall (fun en => i <= originalSpanIndex en < i + Z.of_nat (length spans))
      (snd (build_span_map icu spans i p8 p16)).
Proof.
  induction spans as [|sp spans IH]; intros i p8 p16; simpl; [constructor|].
  specialize (IH (i + 1) (u32 (p8 + u32 (len (text_to_process sp))))
                (u32 (p16 + u32 (len (Utf8ToUtf16 icu (text_to_process sp)))))).
  destruct (build_span_map icu spans _ _ _) as [full entries]. simpl in *.
  constructor; [simpl; lia|].
  eapply Forall_impl; [exact IH|]. simpl. intros en Hen. lia.
Qed.

Lemma find_dominant_span_range (nspans textLen : Z) (entries : list SpanMapEntry)
    (runStart n : Z) :
  0 < n ->
  Forall (fun en => 0 <= originalSpanIndex en < n) entries ->
  0 <= find_dominant_span nspans textLen entries runStart < n.
Proof.
  intros Hn Hall. induction Hall as [|en entries Hen Hall IH]; simpl; [lia|].
  destruct (_ || _); [exact Hen|exact IH].
Qed.

Section GlyphSource.

Variable ctx : LayoutCtx.
Hypothesis spans_nonempty : c_spans ctx <> [].
Hypothesis spans_count : len_spans ctx <= 2 ^ 32.
Hypothesis spans_short :
  Forall (fun sp => len (text_to_process sp) < 2 ^ 32 - 2 ^ 16) (c_spans ctx).
Hypothesis map_indices :
  Forall (fun en => 0 <= originalSpanIndex en < len_spans ctx) (spanMap_local ctx).

Lemma dominant_span_exists (textLen runStart : Z) :
  exists sp,
    nth_span (c_spans ctx)
      (u32 (find_dominant_span (len_spans ctx) textLen (spanMap_local ctx) runStart))
    = Some sp /\
    len (text_to_process sp) < 2 ^ 32 - 2 ^ 16.
Proof.
  assert (Hpos : 0 < len_spans ctx).
  { unfold len_spans. destruct (c_spans ctx); [contradiction|simpl; lia]. }
  pose proof (find_dominant_span_range (len_spans ctx) textLen (spanMap_local ctx)
                runStart (len_spans ctx) Hpos map_indices) as Hidx.
  rewrite u32_small by lia. unfold nth_span.
  destruct (Z.ltb_spec (find_dominant_span (len_spans ctx) textLen (spanMap_local ctx)
                          runStart) 0); [lia|].
  destruct (c_spans ctx !! Z.to_nat _) as [sp|] eqn:Hsp.
  - exists sp. split; [reflexivity|].
    rewrite Forall_forall in spans_short. apply spans_short.
    apply list_elem_of_lookup. eexists. exact Hsp.
  - apply lookup_ge_None in Hsp. unfold len_spans in *. lia.
Qed.

Lemma glyph_step_source (rc : RunCtx) (st : SegmentAcc * (Q * Q)) (hg : hb_glyph) :
  (exists sp, nth_span (c_spans ctx) (u32 (runDominantSpanIdx rc)) = Some sp /\
              len (text_to_process sp) < 2 ^ 32 - 2 ^ 16) ->
  Forall (glyph_source_in_span (c_spans ctx)) (elements_for_this_segment (fst st)) ->
  Forall (glyph_source_in_span (c_spans ctx))
    (elements_for_this_segment (fst (glyph_step ctx rc st hg))).
Proof.
  intros (sp & Hsp & Hshort) H. unfold glyph_step. cbv zeta.
  destruct (if original_codepoint_for_glyph rc hg =? 65532 then _ else None);
    cbn [fst push_element elements_for_this_segment];
    (apply Forall_app; split; [exact H|]); (constructor; [|constructor]).
  - exact I.
  - destruct (glyph_provenance_in_span ctx rc (cluster hg) (cluster_num_bytes rc hg) sp
                Hsp Hshort) as (H1 & H2 & H3 & H4).
    simpl. exists sp. rewrite H1. auto.
Qed.

Lemma run_step_source (textLen : Z) (seg : list Z) (last : Z)
    (st : SegmentAcc * Q) (run : bool * Z * Z) :
  Forall (glyph_source_in_span (c_spans ctx)) (elements_for_this_segment (fst st)) ->
  Forall (glyph_source_in_span (c_spans ctx))
    (elements_for_this_segment (fst (run_step ctx textLen seg last st run))).
Proof.
  intros H. unfold run_step. cbv zeta.
  destruct (snd run =? 0); [exact H|].
  destruct (loadedFonts_ (seg_engine (fst st)) !! _); [|exact H].
  cbn [fst].
  match goal with
  | |- context [foldl (glyph_step ctx ?rc) ?a ?l] =>
      generalize l; intros glyphs;
      assert (Hgen : forall a0,
                Forall (glyph_source_in_span (c_spans ctx))
                  (elements_for_this_segment (fst a0)) ->
                Forall (glyph_source_in_span (c_spans ctx))
                  (elements_for_this_segment (fst (foldl (glyph_step ctx rc) a0 glyphs))));
      [|apply Hgen; exact H]
  end.
  induction glyphs as [|hg glyphs IH]; intros a0 Ha; simpl; [exact Ha|].
  apply IH. apply glyph_step_source; [|exact Ha].
  cbn [runDominantSpanIdx]. apply dominant_span_exists.
Qed.

Lemma shape_segment_source (textLen : Z) (e : Engine) (failed : bool)
    (seg : list Z) (last : Z) :
  Forall (glyph_source_in_span (c_spans ctx))
    (elements_for_this_segment (fst (fst (shape_segment ctx textLen e failed seg last)))).
Proof.
  unfold shape_segment. destruct seg as [|c seg]; [constructor|].
  destruct (if failed then None else _) as [runs|]; [|constructor].
  cbn [fst].
  match goal with
  | |- context [foldl ?f ?a runs] =>
      assert (Hgen : forall a0,
                Forall (glyph_source_in_span (c_spans ctx))
                  (elements_for_this_segment (fst a0)) ->
                Forall (glyph_source_in_span (c_spans ctx))
                  (elements_for_this_segment (fst (foldl f a0 runs))));
      [|apply Hgen; constructor]
  end.
  induction runs as [|run runs IH]; intros a0 Ha; simpl; [exact Ha|].
  apply IH. apply run_step_source. exact Ha.
Qed.

End GlyphSource.

(** X22.  Every glyph of the block a layout returns points into the text
    of a span that exists: its span index is the index of one of the spans
    given, and its byte offset and byte count stay within the text of that
    span.  This holds for at most 2^32 spans, each shorter than
    2^32 - 2^16 bytes. *)
Theorem LayoutStyledText_glyph_source (icu : ICU) (hb : HarfBuzz) (e : Engine)
    (spans : list TextSpan) (ps : ParagraphStyle) (tb : TextBlock) (e' : Engine) :
  Z.of_nat (length spans) <= 2 ^ 32 ->
  Forall (fun sp => len (text_to_process sp) < 2 ^ 32 - 2 ^ 16) spans ->
  LayoutStyledText icu hb e spans ps = Some (tb, e') ->
  Forall (glyph_source_in_span spans) (elements tb).
Proof.
  intros Hcount Hshort H.
  destruct (LayoutStyledText_block_ok (glyph_source_in_span spans) icu hb e spans ps tb e')
    as (bottom & _ & Hel & _); try assumption.
  - apply glyph_source_in_span_shift.
  - apply glyph_source_in_span_align.
  - intros ctx st0 Hstart textLen e1 failed seg last.
    destruct (layout_start_StartLoop_state _ _ _ _ _ _ _ Hstart) as (Hs & Hne & Hmap & _).
    rewrite <- Hs. apply shape_segment_source.
    + rewrite Hs. exact Hne.
    + unfold len_spans. rewrite Hs. exact Hcount.
    + rewrite Hs. exact Hshort.
    + rewrite Hmap. unfold len_spans. rewrite Hs.
      pose proof (build_span_map_indices icu spans 0 0 0) as Hi.
      eapply Forall_impl; [exact Hi|]. simpl. intros en Hen. lia.
Qed.

Lemma LayoutStyledText_glyph_source_witness :
  Z.of_nat (length ex_spans_S2) <= 2 ^ 32 /\
  Forall (fun sp => len (text_to_process sp) < 2 ^ 32 - 2 ^ 16) ex_spans_S2 /\
  LayoutStyledText ex_icu_words ex_hb ex_engine_latin ex_spans_S2 ex_paragraph_S2
  = Some (ex_block_S2, ex_engine_S2) /\
  Forall (glyph_source_in_span ex_spans_S2) (elements ex_block_S2).
Proof.
  assert (H1 : Z.of_nat (length ex_spans_S2) <= 2 ^ 32) by (vm_compute; discriminate).
  assert (H2 : Forall (fun sp => len (text_to_process sp) < 2 ^ 32 - 2 ^ 16) ex_spans_S2).
  { repeat constructor. }
  split; [exact H1|]. split; [exact H2|]. split; [exact ex_layout_S2_eq|].
  exact (LayoutStyledText_glyph_source _ _ _ _ _ _ _ H1 H2 ex_layout_S2_eq).
Defined.
(** ** The line of the cursor (lines 2009-2023) *)

(** X23.  For a block that has a line, the line index returned by
    [GetCursorInfoFromByteOffset] is the index of a line of the block,
    whatever the offset, and [isAtLogicalLineEnd] tells whether the offset
    returned is the end byte of that line. *)
Theorem GetCursorInfoFromByteOffset_line_exists (tb : TextBlock) (o : Z) :
  lines tb <> [] ->
  let c := GetCursorInfoFromByteOffset tb o in
  exists line,
    0 <= lineIndex c /\
    lines tb !! Z.to_nat (lineIndex c) = Some line /\
    isAtLogicalLineEnd c = (byteOffset c =? sourceTextByteEndIndexInBlockText line).
Proof.
  intros Hne. unfold GetCursorInfoFromByteOffset. cbv zeta.
  destruct (lines tb) as [|l0 rest] eqn:Hl; [contradiction|]. rewrite <- Hl.
  set (o' := Z.min o (u32 (len (sourceTextConcatenated tb)))).
  destruct (find_target_line tb o' 0 (lines tb)) as [i|] eqn:Hfind.
  - destruct (find_target_line_Some tb o' (lines tb) 0 i (drop_0 _) Hfind)
      as (_ & (line & Hline & _) & _).
    exists line. cbn [lineIndex byteOffset isAtLogicalLineEnd].
    rewrite Nat2Z.id, Hline. split; [lia|]. split; reflexivity.
  - assert (Hlast : exists line, last (lines tb) = Some line /\
                                 lines tb !! (length (lines tb) - 1)%nat = Some line).
    { rewrite last_lookup.
      replace (Nat.pred (length (lines tb))) with (length (lines tb) - 1)%nat by lia.
      destruct (lines tb !! (length (lines tb) - 1)%nat) as [line|] eqn:E; [eauto|].
      apply lookup_ge_None in E. rewrite Hl in E. simpl in E. lia. }
    destruct Hlast as (line & Hlast & Hlook). exists line.
    cbn [lineIndex byteOffset isAtLogicalLineEnd]. rewrite Hlast.
    assert (Hlen : (0 < length (lines tb))%nat) by (rewrite Hl; simpl; lia).
    split; [lia|]. split.
    + replace (Z.to_nat (Z.of_nat (length (lines tb)) - 1))
        with (length (lines tb) - 1)%nat by lia.
      exact Hlook.
    + symmetry. apply Z.eqb_refl.
Qed.

Lemma GetCursorInfoFromByteOffset_line_exists_witness :
  lines ex_block_S2 <> [] /\
  exists line,
    0 <= lineIndex (GetCursorInfoFromByteOffset ex_block_S2 100) /\
    lines ex_block_S2 !! Z.to_nat (lineIndex (GetCursorInfoFromByteOffset ex_block_S2 100))
    = Some line /\
    isAtLogicalLineEnd (GetCursorInfoFromByteOffset ex_block_S2 100)
    = (byteOffset (GetCursorInfoFromByteOffset ex_block_S2 100)
       =? sourceTextByteEndIndexInBlockText line).
Proof.
  assert (H : lines ex_block_S2 <> []).
  { intros E. apply (f_equal (@length _)) in E. vm_compute in E. discriminate E. }
  split; [exact H|].
  exact (GetCursorInfoFromByteOffset_line_exists ex_block_S2 100 H).
Defined.

(** ** Alignment (lines 1454-1465) *)


(** ** The atlas (lines 384-451) *)

Lemma of_int_pos (z : Z) : 0 < z -> (0 < of_int z)%Q.
Proof. intros H. unfold of_int. change 0%Q with (inject_Z 0). rewrite <- Zlt_Qlt. exact H. Qed.

(** What a call of the packer keeps and what it returns: the pen stays on
    the page side, textures are only appended, the cache and the options
    are not touched, and a rectangle that is not empty lies on the page of
    the current index, which has a texture. *)
Lemma findSpaceInAtlasAndPack_spec (e : Engine) (w h : Z) :
  (0 <= vx (current_atlas_pen_pos_ e))%Q /\ (0 <= vy (current_atlas_pen_pos_ e))%Q ->
  (0 <= current_atlas_max_row_height_ e)%Q ->
  let r := findSpaceInAtlasAndPack e w h in
  ((0 <= vx (current_atlas_pen_pos_ (snd r)))%Q /\
   (0 <= vy (current_atlas_pen_pos_ (snd r)))%Q) /\
  (0 <= current_atlas_max_row_height_ (snd r))%Q /\
  (exists more, atlas_textures_ (snd r) = atlas_textures_ e ++ more) /\
  atlas_width_ (snd r) = atlas_width_ e /\ atlas_height_ (snd r) = atlas_height_ e /\
  glyph_cache_map_ (snd r) = glyph_cache_map_ e /\
  ((0 < rwidth (fst r))%Q ->
   is_Some (atlas_textures_ (snd r) !! Z.to_nat (current_atlas_idx_ (snd r))) /\
   rect_on_page e (fst r)).
Proof.
  intros [Hx Hy] Hrow. unfold findSpaceInAtlasAndPack.
  destruct ((w <=? 0) || (h <=? 0)) eqn:Hwh.
  { cbn. repeat split; try assumption; try reflexivity;
      try (exfalso; apply (Qlt_irrefl 0); assumption).
    exists []. rewrite app_nil_r. reflexivity. }
  apply orb_false_iff in Hwh as [Hw Hh]. apply Z.leb_gt in Hw, Hh.
  pose proof (of_int_pos w Hw) as Hwq. pose proof (of_int_pos h Hh) as Hhq.
  cbv zeta.
  (* the pen and the row height after lines 388-400 *)
  set (cur := if negb (current_atlas_idx_ e =? -1) then _ else _).
  assert (Hcur : (0 <= vx (fst (fst cur)))%Q /\ (0 <= vy (fst (fst cur)))%Q /\
                 (0 <= snd (fst cur))%Q).
  { unfold cur. destruct (negb (current_atlas_idx_ e =? -1)); [|cbn; auto].
    destruct (_ && _); cbn; [auto|].
    repeat split; [apply Qle_refl| |apply Qle_refl]. lra. }
  destruct cur as [[pen1 row1] packed]. cbn [fst snd] in Hcur.
  destruct Hcur as (Hx1 & Hy1 & Hrow1).
  (* the page *)
  set (paged := if packed then _ else _).
  assert (Hpaged :
    match paged with
    | None => True
    | Some (images, textures, idx, pen, row) =>
        (0 <= vx pen)%Q /\ (0 <= vy pen)%Q /\ (0 <= row)%Q /\
        exists more, textures = atlas_textures_ e ++ more
    end).
  { unfold paged. destruct packed.
    - repeat split; try assumption. exists []. rewrite app_nil_r. reflexivity.
    - destruct (atlas_images_ e <=? current_atlas_idx_ e + 1).
      + destruct (gpu_alloc e (current_atlas_idx_ e + 1)); try exact I.
        repeat split; try apply Qle_refl. exists [t]. reflexivity.
      + repeat split; try apply Qle_refl. exists []. rewrite app_nil_r. reflexivity. }
  destruct paged as [[[[[images textures] idx] pen] row]|].
  2:{ cbn. repeat split; try apply Qle_refl; try reflexivity;
        try (exfalso; apply (Qlt_irrefl 0); assumption).
      exists []. rewrite app_nil_r. reflexivity. }
  destruct Hpaged as (Hpx & Hpy & Hprow & Hmore).
  destruct ((idx <? 0) || (Z.of_nat (length textures) <=? idx) ||
            (atlas_width_ e <? w) || (atlas_height_ e <? h) ||
            fgt (vy pen + of_int h)%Q (of_int (atlas_height_ e)) ||
            fgt (vx pen + of_int w)%Q (of_int (atlas_width_ e))) eqn:Hguard.
  { cbn. repeat split; try assumption; try reflexivity;
      try (exfalso; apply (Qlt_irrefl 0); assumption). }
  rewrite !orb_false_iff in Hguard.
  destruct Hguard as (((((G1 & G2) & _) & _) & G5) & G6).
  apply Z.ltb_ge in G1. apply Z.leb_gt in G2.
  apply fgt_false in G5, G6.
  cbn. repeat split; try assumption; try reflexivity.
  - lra.
  - eapply Qle_trans; [exact Hprow|apply fmaxf_ge_l].
  - apply lookup_lt_is_Some. lia.
Qed.
Lemma rect_on_page_dims (e e' : Engine) (r : Rectangle) :
  atlas_width_ e' = atlas_width_ e -> atlas_height_ e' = atlas_height_ e ->
  rect_on_page e r -> rect_on_page e' r.
Proof. unfold rect_on_page. intros -> ->. auto. Qed.

(** The atlas invariant depends on the cache map, the textures, the pen
    and the dimensions only; appending textures keeps it. *)
Lemma atlas_ok_transfer (e e' : Engine) :
  atlas_ok e ->
  ((0 <= vx (current_atlas_pen_pos_ e'))%Q /\ (0 <= vy (current_atlas_pen_pos_ e'))%Q) ->
  (0 <= current_atlas_max_row_height_ e')%Q ->
  (exists more, atlas_textures_ e' = atlas_textures_ e ++ more) ->
  atlas_width_ e' = atlas_width_ e -> atlas_height_ e' = atlas_height_ e ->
  (forall k g, glyph_cache_map_ e' !! k = Some g -> glyph_cache_map_ e !! k = Some g) ->
  atlas_ok e'.
Proof.
  intros [_ _ Hg] Hpen Hrow [more Hmore] Hw Hh Hmap.
  constructor; [exact Hpen|exact Hrow|].
  intros k g Hk Hr. destruct (Hg k g (Hmap k g Hk) Hr) as [Ht Hp].
  split; [rewrite Hmore; apply elem_of_app; left; exact Ht|].
  exact (rect_on_page_dims e e' _ Hw Hh Hp).
Qed.

Lemma atlas_ok_same (e e' : Engine) :
  atlas_ok e ->
  current_atlas_pen_pos_ e' = current_atlas_pen_pos_ e ->
  current_atlas_max_row_height_ e' = current_atlas_max_row_height_ e ->
  atlas_textures_ e' = atlas_textures_ e ->
  atlas_width_ e' = atlas_width_ e -> atlas_height_ e' = atlas_height_ e ->
  (forall k g, glyph_cache_map_ e' !! k = Some g -> glyph_cache_map_ e !! k = Some g) ->
  atlas_ok e'.
Proof.
  intros Hok Hpen Hrow Ht Hw Hh Hmap.
  apply (atlas_ok_transfer e e' Hok); try assumption.
  - rewrite Hpen. exact (ao_pen _ Hok).
  - rewrite Hrow. exact (ao_row _ Hok).
  - exists []. rewrite app_nil_r. exact Ht.
Qed.

(** A rasterized glyph: when it has a rectangle, the rectangle lies on the
    page and its texture is one of the engine's. *)
Lemma rasterize_atlas (e : Engine) (slot : FT_GlyphSlot) (sdf : bool) :
  atlas_ok e ->
  let r := rasterize e slot sdf in
  atlas_ok (snd r) /\
  ((0 < rwidth (atlasRect (renderInfo (fst r))))%Q ->
   atlasTexture (renderInfo (fst r)) ∈ atlas_textures_ (snd r) /\
   rect_on_page (snd r) (atlasRect (renderInfo (fst r)))).
Proof.
  intros Hok. unfold rasterize.
  assert (Hzero : ~ (0 < rwidth zeroRectangle)%Q) by (cbn; apply Qlt_irrefl).
  destruct (bitmap_buffer slot && (0 <? bitmap_width slot) && (0 <? bitmap_rows slot)).
  2:{ cbn. split; [exact Hok|]. intros H. contradiction. }
  pose proof (findSpaceInAtlasAndPack_spec e (bitmap_width slot) (bitmap_rows slot)
                (ao_pen _ Hok) (ao_row _ Hok)) as Hspec.
  cbv zeta in Hspec.
  destruct (findSpaceInAtlasAndPack e (bitmap_width slot) (bitmap_rows slot))
    as [pack_rect e'].
  cbn [fst snd] in *.
  destruct Hspec as (Hpen & Hrow & Hmore & Hw & Hh & Hmap & Hrect).
  split.
  { apply (atlas_ok_transfer e e' Hok); try assumption. intros k g. rewrite Hmap. auto. }
  destruct (fgt (rwidth pack_rect) 0) eqn:Hpos; cbn; [|intros H; contradiction].
  intros _. apply fgt_true in Hpos. destruct (Hrect Hpos) as [[t Ht] Hpage].
  rewrite Ht. cbn. split; [apply list_elem_of_lookup; eexists; exact Ht|].
  exact (rect_on_page_dims e e' _ Hw Hh Hpage).
Qed.

Lemma cache_insert_atlas (e : Engine) (key : FTGlyphCacheKey) (g : FTCachedGlyph) :
  atlas_ok e ->
  ((0 < rwidth (atlasRect (renderInfo g)))%Q ->
   atlasTexture (renderInfo g) ∈ atlas_textures_ e /\
   rect_on_page e (atlasRect (renderInfo g))) ->
  atlas_ok (cache_insert e key g).
Proof.
  intros [Hpen Hrow Hg] Hnew. unfold cache_insert.
  destruct (_ && _); constructor; cbn; try assumption.
  - intros k g0 Hk. destruct (decide (key = k)) as [<-|Hne].
    + rewrite lookup_insert_eq in Hk. inversion Hk; subst g0. exact Hnew.
    + rewrite lookup_insert_ne in Hk by exact Hne.
      destruct (last (lru_glyph_list_ e)) as [back|]; [|exact (Hg k g0 Hk)].
      destruct (decide (back = k)) as [<-|Hb].
      * rewrite lookup_delete_eq in Hk. discriminate.
      * rewrite lookup_delete_ne in Hk by exact Hb. exact (Hg k g0 Hk).
  - intros k g0 Hk. destruct (decide (key = k)) as [<-|Hne].
    + rewrite lookup_insert_eq in Hk. inversion Hk; subst g0. exact Hnew.
    + rewrite lookup_insert_ne in Hk by exact Hne. exact (Hg k g0 Hk).
Qed.

Lemma atlas_ok_set_cache (e : Engine) (lru : list FTGlyphCacheKey) :
  atlas_ok e -> atlas_ok (set_cache e lru (glyph_cache_map_ e)).
Proof. intros [Hpen Hrow Hg]. constructor; assumption. Qed.

Lemma atlas_ok_set_registry (e : Engine) fonts next dflt chains :
  atlas_ok e -> atlas_ok (set_registry e fonts next dflt chains).
Proof. intros [Hpen Hrow Hg]. constructor; assumption. Qed.

Lemma getCachedGlyphByGID_atlas (e : Engine) (f : FontId) (gid : Z) :
  atlas_ok e -> atlas_ok (snd (getCachedGlyphByGID e f gid)).
Proof.
  intros Hok. unfold getCachedGlyphByGID.
  destruct (if IsFontValid e f then _ else _) as [[actual g0]|]; [|exact Hok].
  destruct (loadedFonts_ e !! actual) as [fd|]; [|exact Hok].
  destruct (glyph_cache_map_ e !! _); [apply atlas_ok_set_cache; exact Hok|].
  match goal with
  | |- context [rasterize e ?slot ?sdf] =>
      pose proof (rasterize_atlas e slot sdf Hok) as Hr; cbv zeta in Hr;
      destruct (rasterize e slot sdf) as [g e1]
  end.
  cbn [fst snd] in *. destruct Hr as [Hok1 Hg]. apply cache_insert_atlas; assumption.
Qed.

Lemma getOrCacheGlyph_atlas (fuel : nat) :
  forall e f cp r, atlas_ok e -> getOrCacheGlyph fuel e f cp = Some r -> atlas_ok (snd r).
Proof.
  assert (Hmiss : forall e key face gid px r,
            atlas_ok e ->
            (let '(newCachedGlyph, e') := rasterize e (glyph_slot face gid px (isSDF key))
                                            (isSDF key) in
             Some (newCachedGlyph, key_fontId key, cache_insert e' key newCachedGlyph))
            = Some r ->
            atlas_ok (snd r)).
  { intros e key face gid px r Hok H.
    pose proof (rasterize_atlas e (glyph_slot face gid px (isSDF key)) (isSDF key) Hok) as Hr.
    cbv zeta in Hr. destruct (rasterize e _ _) as [g e1]. inversion H. cbn [fst snd] in *.
    destruct Hr as [Hok1 Hg]. apply cache_insert_atlas; assumption. }
  induction fuel as [|fuel IH]; intros e f cp r Hok H; simpl in H;
    (destruct (select_font_for_codepoint e f cp) as [[actual gid]|];
       [|inversion H; exact Hok]);
    (destruct (loadedFonts_ e !! actual) as [fd|]; [|inversion H; exact Hok]);
    match type of H with
    | context [glyph_cache_map_ e !! ?k] =>
        set (key := k) in *; destruct (glyph_cache_map_ e !! key) eqn:Hkey
    end;
    [inversion H; apply atlas_ok_set_cache; exact Hok|
     |inversion H; apply atlas_ok_set_cache; exact Hok|];
    (destruct (ftFace fd) as [face|]; [|inversion H; exact Hok]);
    (destruct (set_pixel_sizes_error face (sdfGenSize_of fd)); [inversion H; exact Hok|]);
    destruct (load_glyph_error face gid (sdfGenSize_of fd)).
  - destruct (negb (gid =? 0)); [discriminate|inversion H; exact Hok].
  - match type of H with
    | context [render_glyph_error ?a ?b ?c ?d] => destruct (render_glyph_error a b c d)
    end; [inversion H; exact Hok|].
    exact (Hmiss e key face gid (sdfGenSize_of fd) r Hok H).
  - destruct (negb (gid =? 0)); [|inversion H; exact Hok].
    eapply IH; eauto.
  - match type of H with
    | context [render_glyph_error ?a ?b ?c ?d] => destruct (render_glyph_error a b c d)
    end; [inversion H; exact Hok|].
    exact (Hmiss e key face gid (sdfGenSize_of fd) r Hok H).
Qed.

Lemma atlas_ok_clear (e : Engine) : atlas_ok (performCacheCleanup e).
Proof.
  constructor; cbn.
  - split; apply Qle_refl.
  - apply Qle_refl.
  - intros k g Hk. rewrite lookup_empty in Hk. discriminate.
Qed.

Lemma SetGlyphAtlasOptions_atlas (e : Engine) (n w h : Z) (t : GlyphAtlasType) :
  atlas_ok e -> atlas_ok (SetGlyphAtlasOptions e n w h t).
Proof.
  intros Hok. unfold SetGlyphAtlasOptions.
  set (changed := negb (glyph_cache_capacity_ e =? n) || negb (atlas_width_ e =? w) ||
                  negb (atlas_height_ e =? h) ||
                  negb (bool_decide (atlas_type_hint_ e = t))).
  destruct (changed && (negb (bool_decide (atlas_textures_ e = [])) ||
                        negb (atlas_images_ e =? 0))) eqn:Hclean.
  { pose proof (atlas_ok_clear e) as [Hpen Hrow Hg]. constructor; cbn in *; try assumption.
    intros k g Hk. rewrite lookup_empty in Hk. discriminate. }
  destruct Hok as [Hpen Hrow Hg]. constructor; cbn; try assumption.
  intros k g Hk Hr. destruct (Hg k g Hk Hr) as [Ht (R1 & R2 & R3 & R4)].
  split; [exact Ht|].
  apply andb_false_iff in Hclean as [Hch|Hno].
  - (* the options are those in force *)
    unfold changed in Hch. rewrite !orb_false_iff in Hch.
    destruct Hch as (((_ & Hw) & Hh) & _).
    apply negb_false_iff, Z.eqb_eq in Hw, Hh. subst w h.
    assert (Hmono : forall z, (of_int z <= of_int (if 0 <? z then z else 256))%Q).
    { intros z. destruct (Z.ltb_spec 0 z); [apply Qle_refl|].
      unfold of_int. rewrite <- Zle_Qle. lia. }
    unfold rect_on_page. cbn. repeat split; try assumption.
    + eapply Qle_trans; [exact R3|apply Hmono].
    + eapply Qle_trans; [exact R4|apply Hmono].
  - (* the engine has no texture *)
    apply orb_false_iff in Hno as [Hno _].
    apply negb_false_iff, bool_decide_eq_true in Hno.
    rewrite Hno in Ht. apply elem_of_nil in Ht. contradiction.
Qed.

Lemma LoadFont_atlas (e : Engine) (file : FontFile) :
  atlas_ok e -> atlas_ok (snd (LoadFont e file)).
Proof.
  intros Hok. unfold LoadFont.
  repeat match goal with
         | |- context [if ?b then (INVALID_FONT_ID, e) else _] =>
             destruct b; [exact Hok|]
         | |- context [match ?o with Some _ => _ | None => (INVALID_FONT_ID, e) end] =>
             destruct o; [|exact Hok]
         end.
  cbv zeta. cbn [snd].
  destruct (bool_decide _); [|apply atlas_ok_set_registry; exact Hok].
  unfold SetDefaultFont. destruct (_ || _); repeat apply atlas_ok_set_registry; exact Hok.
Qed.

Lemma UnloadFont_atlas (e : Engine) (f : FontId) :
  atlas_ok e -> atlas_ok (UnloadFont e f).
Proof.
  intros Hok. destruct (loadedFonts_ e !! f) as [fd|] eqn:Hf.
  - destruct (UnloadFont_registry e f fd Hf) as (_ & _ & _ & _ & Hmap & _).
    apply (atlas_ok_same e); try exact Hok;
      try (unfold UnloadFont; rewrite Hf;
           destruct (unload_lru f (lru_glyph_list_ e) (glyph_cache_map_ e));
           reflexivity).
    intros k g. rewrite Hmap. destruct (bool_decide _); [discriminate|auto].
  - unfold UnloadFont. rewrite Hf. exact Hok.
Qed.

Lemma apply_op_atlas (e e' : Engine) (op : EngineOp) :
  atlas_ok e -> apply_op e op = Some e' -> atlas_ok e'.
Proof.
  intros Hok H. destruct op; simpl in H.
  - inversion H. apply LoadFont_atlas. exact Hok.
  - inversion H. apply UnloadFont_atlas. exact Hok.
  - inversion H. unfold SetDefaultFont.
    destruct (_ || _); [apply atlas_ok_set_registry|]; exact Hok.
  - inversion H. unfold SetFontFallbackChain.
    destruct (negb _); [|apply atlas_ok_set_registry]; exact Hok.
  - inversion H. apply getCachedGlyphByGID_atlas. exact Hok.
  - destruct (getOrCacheGlyph fuel e f codepoint) as [r|] eqn:E; [|discriminate].
    inversion H. exact (getOrCacheGlyph_atlas fuel e f codepoint r Hok E).
  - inversion H. apply atlas_ok_clear.
  - inversion H. apply SetGlyphAtlasOptions_atlas. exact Hok.
  - destruct (LayoutStyledText icu hb e spans paragraphStyle) as [[tb e1]|] eqn:E;
      [|discriminate].
    inversion H; subst.
    exact (LayoutStyledText_keeps atlas_ok getCachedGlyphByGID_atlas _ _ _ _ _ _ _ E Hok).
Qed.

(** X25.  In every state the engine can reach, a cached glyph that has a
    rectangle in the atlas refers to a texture the engine holds, and its
    rectangle lies on the page: it starts at non-negative coordinates and
    ends within the atlas width and height. *)
Theorem reachable_glyph_on_atlas_page (e : Engine) (k : FTGlyphCacheKey) (g : FTCachedGlyph) :
  reachable e ->
  glyph_cache_map_ e !! k = Some g ->
  (0 < rwidth (atlasRect (renderInfo g)))%Q ->
  atlasTexture (renderInfo g) ∈ atlas_textures_ e /\
  (0 <= rx (atlasRect (renderInfo g)))%Q /\
  (0 <= ry (atlasRect (renderInfo g)))%Q /\
  (rx (atlasRect (renderInfo g)) + rwidth (atlasRect (renderInfo g))
   <= of_int (atlas_width_ e))%Q /\
  (ry (atlasRect (renderInfo g)) + rheight (atlasRect (renderInfo g))
   <= of_int (atlas_height_ e))%Q.
Proof.
  intros (lib & gpu & ops & Hrun) Hk Hr.
  assert (H0 : atlas_ok (newEngine lib gpu)).
  { constructor; cbn.
    - split; apply Qle_refl.
    - apply Qle_refl.
    - intros k0 g0 Hk0. rewrite lookup_empty in Hk0. discriminate. }
  assert (Hok : atlas_ok e).
  { revert Hrun H0. generalize (newEngine lib gpu) as e0. clear Hk Hr.
    induction ops as [|op ops IH]; intros e0 Hrun H0; simpl in Hrun.
    - inversion Hrun; subst. exact H0.
    - destruct (apply_op e0 op) as [e1|] eqn:E; [|discriminate].
      apply (IH e1 Hrun). exact (apply_op_atlas e0 e1 op H0 E). }
  exact (ao_glyphs _ Hok k g Hk Hr).
Qed.

Lemma reachable_glyph_on_atlas_page_witness :
  reachable ex_engine_S2 /\
  exists g,
    glyph_cache_map_ ex_engine_S2
      !! {| key_fontId := 1; glyphIndex := 68; sdfPixelSize := 64; isSDF := true |} = Some g /\
    (0 < rwidth (atlasRect (renderInfo g)))%Q /\
    atlasTexture (renderInfo g) ∈ atlas_textures_ ex_engine_S2 /\
    (0 <= rx (atlasRect (renderInfo g)))%Q /\
    (0 <= ry (atlasRect (renderInfo g)))%Q /\
    (rx (atlasRect (renderInfo g)) + rwidth (atlasRect (renderInfo g))
     <= of_int (atlas_width_ ex_engine_S2))%Q /\
    (ry (atlasRect (renderInfo g)) + rheight (atlasRect (renderInfo g))
     <= of_int (atlas_height_ ex_engine_S2))%Q.
Proof.
  assert (Hreach : reachable ex_engine_S2).
  { exists true, ex_gpu, ex_ops_S2. vm_compute. reflexivity. }
  split; [exact Hreach|].
  destruct (glyph_cache_map_ ex_engine_S2
              !! {| key_fontId := 1; glyphIndex := 68; sdfPixelSize := 64; isSDF := true |})
    as [g|] eqn:E; [|vm_compute in E; discriminate E].
  exists g. split; [reflexivity|].
  assert (Hr : (0 < rwidth (atlasRect (renderInfo g)))%Q).
  { assert (E' := E). vm_compute in E'. injection E' as <-. reflexivity. }
  split; [exact Hr|].
  exact (reachable_glyph_on_atlas_page ex_engine_S2 _ g Hreach E Hr).
Defined.

(** ** Selection rectangles (lines 1829-1923) *)







Lemma range_lines_no_overlap (e : Engine) (tb : TextBlock) (s t : Z)
    (lns : list LineLayoutInfo) (acc : list Rectangle) :
  Forall (fun line => Z.min t (sourceTextByteEndIndexInBlockText line)
                      <= Z.max s (sourceTextByteStartIndexInBlockText line)) lns ->
  range_lines e tb s t lns acc = Some acc.
Proof.
  induction 1 as [|line lns Hl _ IH]; simpl; [reflexivity|].
  destruct (Z.leb_spec (Z.min t (sourceTextByteEndIndexInBlockText line))
              (Z.max s (sourceTextByteStartIndexInBlockText line))); [exact IH|lia].
Qed.

(** X27.  A range that shares no byte with any line of the block gives no
    rectangle, whatever the elements of the block are; this covers the
    empty range, a range after the text, and a range that falls between
    the bytes of two lines. *)
Theorem GetTextRangeBounds_no_overlap (e : Engine) (tb : TextBlock) (s t : Z) :
  Forall (fun line => t <= s \/ t <= sourceTextByteStartIndexInBlockText line \/
                      sourceTextByteEndIndexInBlockText line <= s \/
                      sourceTextByteEndIndexInBlockText line
                      <= sourceTextByteStartIndexInBlockText line) (lines tb) ->
  GetTextRangeBounds e tb s t = Some [].
Proof.
  intros H. unfold GetTextRangeBounds. destruct (_ || _); [reflexivity|].
  apply range_lines_no_overlap. eapply Forall_impl; [exact H|]. cbn. intros line Hl. lia.
Qed.

Lemma GetTextRangeBounds_no_overlap_witness :
  Forall (fun line => 9 <= 7 \/ 9 <= sourceTextByteStartIndexInBlockText line \/
                      sourceTextByteEndIndexInBlockText line <= 7 \/
                      sourceTextByteEndIndexInBlockText line
                      <= sourceTextByteStartIndexInBlockText line) (lines ex_block_S2) /\
  lines ex_block_S2 <> [] /\
  GetTextRangeBounds ex_engine_S2 ex_block_S2 7 9 = Some [].
Proof.
  assert (H : Forall (fun line =>
                        9 <= 7 \/ 9 <= sourceTextByteStartIndexInBlockText line \/
                        sourceTextByteEndIndexInBlockText line <= 7 \/
                        sourceTextByteEndIndexInBlockText line
                        <= sourceTextByteStartIndexInBlockText line) (lines ex_block_S2)).
  { apply Forall_forall. intros line Hl. vm_compute in Hl.
    repeat (apply elem_of_cons in Hl as [->|Hl]; [cbn; lia|]).
    apply elem_of_nil in Hl. contradiction. }
  split; [exact H|]. split; [vm_compute; discriminate|].
  exact (GetTextRangeBounds_no_overlap ex_engine_S2 ex_block_S2 7 9 H).
Defined.

Lemma range_line_loop_returns (e : Engine) (tb : TextBlock) (b : float) (es ee : Z)
    (n : nat) :
  Forall (fun el => el_sourceSpanIndex el <= Z.of_nat (length (sourceSpansCopied tb)))
         (elements tb) ->
  forall index st,
    (index + n <= length (elements tb))%nat ->
    is_Some (range_line_loop e tb b es ee n index st).
Proof.
  intros Hel. induction n as [|n IH]; intros index st Hn; simpl; [eexists; reflexivity|].
  destruct (elements tb !! index) as [el|] eqn:Hi.
  2:{ apply lookup_ge_None in Hi. lia. }
  assert (Hidx : el_sourceSpanIndex el <= Z.of_nat (length (sourceSpansCopied tb))).
  { rewrite Forall_forall in Hel. apply Hel. apply list_elem_of_lookup. eexists. exact Hi. }
  unfold el_global_bytes. destruct (Z.leb_spec (el_sourceSpanIndex el)
                                      (Z.of_nat (length (sourceSpansCopied tb)))); [|lia].
  apply IH. lia.
Qed.

Lemma range_lines_returns (e : Engine) (tb : TextBlock) (s t : Z)
    (lns : list LineLayoutInfo) :
  Forall (fun el => el_sourceSpanIndex el <= Z.of_nat (length (sourceSpansCopied tb)))
         (elements tb) ->
  Forall (fun l => 0 <= firstElementIndexInBlockElements l /\
                   0 <= numElementsInLine l /\
                   firstElementIndexInBlockElements l + numElementsInLine l
                   <= len_elements tb) lns ->
  forall acc, is_Some (range_lines e tb s t lns acc).
Proof.
  intros Hel Hl. induction Hl as [|line lns Hline _ IH]; intros acc; simpl;
    [eexists; reflexivity|].
  destruct (_ <=? _); [apply IH|].
  match goal with
  | |- context [range_line_loop e tb ?b ?es ?ee ?n ?i ?st] =>
      destruct (range_line_loop_returns e tb b es ee n Hel i st) as [[run acc'] ->]
  end.
  - unfold len_elements in Hline. lia.
  - apply IH.
Qed.

(** On a block whose lines lie within its elements and whose elements name
    spans of the block, [GetTextRangeBounds] reads no vector out of its
    bounds and returns a list, whatever the range. *)
Lemma GetTextRangeBounds_returns (e : Engine) (tb : TextBlock) (s t : Z) :
  block_indices_ok tb ->
  exists rects, GetTextRangeBounds e tb s t = Some rects.
Proof.
  intros [Hl Hel]. unfold GetTextRangeBounds. destruct (_ || _); [eexists; reflexivity|].
  destruct (range_lines_returns e tb s t (lines tb) Hel Hl []) as [rects ->].
  eexists; reflexivity.
Qed.
(** ** Layout results as input of the selection *)

Lemma el_span_index_ok_shift (spans : list TextSpan) (dx : float)
    (el : PositionedElementVariant) :
  el_span_index_ok spans el -> el_span_index_ok spans (shift_x dx el).
Proof. destruct el; simpl; auto. Qed.

Lemma el_span_index_ok_align (spans : list TextSpan) (l : LineLayoutInfo)
    (el : PositionedElementVariant) :
  el_span_index_ok spans el -> el_span_index_ok spans (align_on_line l el).
Proof.
  destruct el as [g|i]; simpl; [auto|]. unfold el_span_index_ok.
  destruct (vAlign (i_imageParams i)); simpl; auto.
Qed.

Lemma find_image_span_index (spans : list TextSpan) (entries : list SpanMapEntry)
    (p n idx : Z) :
  Forall (fun en => 0 <= originalSpanIndex en < n) entries ->
  find_image_span spans entries p = Some idx -> 0 <= idx < n.
Proof.
  intros Hall. induction Hall as [|en entries Hen Hall IH]; simpl; [discriminate|].
  destruct (_ && _); [intros H; inversion H; subst; exact Hen|exact IH].
Qed.

Section SpanIndex.

Variable ctx : LayoutCtx.
Hypothesis spans_nonempty : c_spans ctx <> [].
Hypothesis map_indices :
  Forall (fun en => 0 <= originalSpanIndex en < len_spans ctx) (spanMap_local ctx).

Lemma glyph_step_index (rc : RunCtx) (st : SegmentAcc * (Q * Q)) (hg : hb_glyph) :
  0 <= runDominantSpanIdx rc < len_spans ctx ->
  Forall (el_span_index_ok (c_spans ctx)) (elements_for_this_segment (fst st)) ->
  Forall (el_span_index_ok (c_spans ctx))
    (elements_for_this_segment (fst (glyph_step ctx rc st hg))).
Proof.
  intros Hdom H. unfold glyph_step. cbv zeta.
  destruct (if original_codepoint_for_glyph rc hg =? 65532 then _ else None) as [idx|] eqn:Hi;
    cbn [fst push_element elements_for_this_segment];
    (apply Forall_app; split; [exact H|]); (constructor; [|constructor]).
  - destruct (original_codepoint_for_glyph rc hg =? 65532); [|discriminate].
    pose proof (find_image_span_index _ _ _ _ _ map_indices Hi) as Hidx.
    unfold el_span_index_ok, el_sourceSpanIndex, make_image, len_spans in *.
    destruct (vAlign _); exact Hidx.
  - unfold el_span_index_ok, el_sourceSpanIndex, make_glyph. cbv zeta.
    cbn [g_sourceSpanIndex].
    assert (Hfst : fst (fst (glyph_provenance ctx rc (cluster hg) (cluster_num_bytes rc hg)))
                   = u32 (runDominantSpanIdx rc)).
    { unfold glyph_provenance. cbv zeta.
      destruct (if _ <=? _ then _ else _) as [off1 num1].
      destruct (nth_span _ _); [|reflexivity].
      destruct (_ <? _); [reflexivity|]. destruct (_ <? _); reflexivity. }
    rewrite Hfst. unfold len_spans in Hdom.
    assert (0 <= u32 (runDominantSpanIdx rc) <= runDominantSpanIdx rc).
    { unfold u32. split; [apply Z.mod_pos_bound; lia|apply Z.mod_le; lia]. }
    lia.
Qed.

Lemma run_step_index (textLen : Z) (seg : list Z) (last : Z)
    (st : SegmentAcc * Q) (run : bool * Z * Z) :
  Forall (el_span_index_ok (c_spans ctx)) (elements_for_this_segment (fst st)) ->
  Forall (el_span_index_ok (c_spans ctx))
    (elements_for_this_segment (fst (run_step ctx textLen seg last st run))).
Proof.
  intros H. unfold run_step. cbv zeta.
  destruct (snd run =? 0); [exact H|].
  destruct (loadedFonts_ (seg_engine (fst st)) !! _); [|exact H].
  cbn [fst].
  match goal with
  | |- context [foldl (glyph_step ctx ?rc) ?a ?l] =>
      generalize l; intros glyphs;
      assert (Hgen : forall a0,
                Forall (el_span_index_ok (c_spans ctx))
                  (elements_for_this_segment (fst a0)) ->
                Forall (el_span_index_ok (c_spans ctx))
                  (elements_for_this_segment (fst (foldl (glyph_step ctx rc) a0 glyphs))));
      [|apply Hgen; exact H]
  end.
  induction glyphs as [|hg glyphs IH]; intros a0 Ha; simpl; [exact Ha|].
  apply IH. apply glyph_step_index; [|exact Ha].
  cbn [runDominantSpanIdx]. apply find_dominant_span_range; [|exact map_indices].
  unfold len_spans. destruct (c_spans ctx); [contradiction|simpl; lia].
Qed.

Lemma shape_segment_index (textLen : Z) (e : Engine) (failed : bool)
    (seg : list Z) (last : Z) :
  Forall (el_span_index_ok (c_spans ctx))
    (elements_for_this_segment (fst (fst (shape_segment ctx textLen e failed seg last)))).
Proof.
  unfold shape_segment. destruct seg as [|c seg]; [constructor|].
  destruct (if failed then None else _) as [runs|]; [|constructor].
  cbn [fst].
  match goal with
  | |- context [foldl ?f ?a runs] =>
      assert (Hgen : forall a0,
                Forall (el_span_index_ok (c_spans ctx))
                  (elements_for_this_segment (fst a0)) ->
                Forall (el_span_index_ok (c_spans ctx))
                  (elements_for_this_segment (fst (foldl f a0 runs))));
      [|apply Hgen; constructor]
  end.
  induction runs as [|run runs IH]; intros a0 Ha; simpl; [exact Ha|].
  apply IH. apply run_step_index. exact Ha.
Qed.

End SpanIndex.

(** The copy of the spans in the block is set before the loop and stays. *)
Lemma finalizeCurrentLine_spans (icu : ICU) (e : Engine) (tb : TextBlock)
    (pending : list PositionedElementVariant) (template : LineLayoutInfo)
    (cw asc desc topY : float) (isFirst : bool) (ps : ParagraphStyle)
    (m : ScaledFontMetrics) (fs : float) (next : Z) (overall : float) (level : Z) :
  sourceSpansCopied
    (fst (fst (finalizeCurrentLine icu e tb pending template cw asc desc topY isFirst ps m fs
                 next overall level)))
  = sourceSpansCopied tb.
Proof.
  destruct (finalizeCurrentLine_result icu e tb pending template cw asc desc topY isFirst
              ps m fs next overall level) as [Hr|(placed & overall' & _ & Hr)];
    rewrite Hr; reflexivity.
Qed.

Lemma finalize_and_reset_spans (ctx : LayoutCtx) (st : LoopState) (next : Z) :
  sourceSpansCopied (textBlock (finalize_and_reset ctx st next))
  = sourceSpansCopied (textBlock st).
Proof.
  unfold finalize_and_reset.
  pose proof (finalizeCurrentLine_spans (c_icu ctx) (engine st) (textBlock st)
                (pendingLineElements st) (currentLineInfoTemplate st)
                (currentLineCommittedWidth st) (currentLineMaxAscent st)
                (currentLineMaxDescent st) (currentLineBoxTopY st)
                (isFirstLineOfParagraph st) (c_paragraphStyle ctx) (paraDefaultMetrics ctx)
                (paraDefFontSize ctx) next (overallMaxVisualLineWidth st)
                (actualParaLevel ctx)) as H.
  destruct (finalizeCurrentLine _ _ _ _ _ _ _ _ _ _ _ _ _ _ _ _) as [[tb topY] overall].
  exact H.
Qed.

Lemma commit_segment_spans (ctx : LayoutCtx) (st : LoopState) (segStart : Z)
    (seg : SegmentAcc) (w : float) :
  sourceSpansCopied (textBlock (commit_segment ctx st segStart seg w))
  = sourceSpansCopied (textBlock st).
Proof.
  unfold commit_segment.
  set (st1 := if wrap_decision _ _ _ _ _ then finalize_and_reset ctx st segStart else st).
  assert (H1 : sourceSpansCopied (textBlock st1) = sourceSpansCopied (textBlock st)).
  { unfold st1. destruct (wrap_decision _ _ _ _ _);
      [apply finalize_and_reset_spans|reflexivity]. }
  destruct (elements_for_this_segment seg); exact H1.
Qed.

Lemma segment_step_spans (ctx : LayoutCtx) (st : LoopState) :
  sourceSpansCopied (textBlock (fst (segment_step ctx st)))
  = sourceSpansCopied (textBlock st).
Proof.
  pose proof (segment_step_eq ctx st) as Heq. cbv zeta in Heq. rewrite Heq. clear Heq.
  destruct (find_newline _ 0); unfold set_engine_status_pos at 1; cbn [fst textBlock].
  - rewrite finalize_and_reset_spans, commit_segment_spans. reflexivity.
  - rewrite commit_segment_spans. reflexivity.
Qed.

Lemma layout_loop_spans (ctx : LayoutCtx) (fuel : nat) :
  forall st st',
    layout_loop fuel ctx st = Some st' ->
    sourceSpansCopied (textBlock st') = sourceSpansCopied (textBlock st).
Proof.
  induction fuel as [|fuel IH]; intros st st' H; simpl in H.
  - destruct (_ || _); [|inversion H; reflexivity].
    destruct (_ && _); [inversion H; reflexivity|discriminate].
  - destruct (_ || _); [|inversion H; reflexivity].
    destruct (_ && _); [inversion H; reflexivity|].
    pose proof (segment_step_spans ctx st) as Hs.
    destruct (segment_step ctx st) as [st1 leave]. simpl in Hs.
    destruct leave; [inversion H; subst; exact Hs|].
    rewrite (IH st1 st' H). exact Hs.
Qed.

Lemma finish_layout_spans (ctx : LayoutCtx) (st : LoopState) :
  sourceSpansCopied (finish_layout ctx st) = sourceSpansCopied (textBlock st).
Proof.
  unfold finish_layout.
  destruct (_ || _).
  - pose proof (finalizeCurrentLine_spans (c_icu ctx) (engine st) (textBlock st)
                  (pendingLineElements st) (currentLineInfoTemplate st)
                  (currentLineCommittedWidth st) (currentLineMaxAscent st)
                  (currentLineMaxDescent st) (currentLineBoxTopY st)
                  (isFirstLineOfParagraph st) (c_paragraphStyle ctx) (paraDefaultMetrics ctx)
                  (paraDefFontSize ctx)
                  (u32 (len (sourceTextConcatenated (textBlock st))))
                  (overallMaxVisualLineWidth st) (actualParaLevel ctx)) as H.
    destruct (finalizeCurrentLine _ _ _ _ _ _ _ _ _ _ _ _ _ _ _ _) as [[tb topY] overall].
    exact H.
  - reflexivity.
Qed.

(** The block a layout returns can be read by the selection and the
    cursor: its lines lie within its elements and its elements name spans
    of the block. *)
Lemma LayoutStyledText_block_indices (icu : ICU) (hb : HarfBuzz) (e : Engine)
    (spans : list TextSpan) (ps : ParagraphStyle) (tb : TextBlock) (e' : Engine) :
  LayoutStyledText icu hb e spans ps = Some (tb, e') -> block_indices_ok tb.
Proof.
  intros H.
  destruct (LayoutStyledText_block_ok (el_span_index_ok spans) icu hb e spans ps tb e')
    as (bottom & [Hsl _ _] & Hel & _); try assumption.
  - apply el_span_index_ok_shift.
  - apply el_span_index_ok_align.
  - intros ctx st0 Hstart textLen e1 failed seg last.
    destruct (layout_start_StartLoop_state _ _ _ _ _ _ _ Hstart) as (Hs & Hne & Hmap & _).
    rewrite <- Hs. apply shape_segment_index.
    + rewrite Hs. exact Hne.
    + rewrite Hmap. unfold len_spans. rewrite Hs.
      pose proof (build_span_map_indices icu spans 0 0 0) as Hi.
      eapply Forall_impl; [exact Hi|]. simpl. intros en Hen. lia.
  - split.
    + apply ranges_partition_bounds in Hsl. unfold line_slices in Hsl.
      rewrite Forall_forall in Hsl. apply Forall_forall. intros l Hl.
      specialize (Hsl (firstElementIndexInBlockElements l,
                       firstElementIndexInBlockElements l + numElementsInLine l)).
      cbn [fst snd] in Hsl.
      assert (Hin : (firstElementIndexInBlockElements l,
                     firstElementIndexInBlockElements l + numElementsInLine l)
                    ∈ map (fun l => (firstElementIndexInBlockElements l,
                                     firstElementIndexInBlockElements l
                                     + numElementsInLine l)) (lines tb)).
      { apply list_elem_of_fmap. exists l. split; [reflexivity|exact Hl]. }
      specialize (Hsl Hin). lia.
    + assert (Hsp : elements tb = [] \/ sourceSpansCopied tb = spans).
      { unfold LayoutStyledText in H.
        destruct (layout_start icu hb e spans ps) as [tb0|ctx st0] eqn:Hstart.
        - inversion H; subst tb0 e'.
          destruct (layout_start_EarlyReturn_cases _ _ _ _ _ _ Hstart) as [[He _]| ->];
            left; [exact He|reflexivity].
        - destruct (layout_loop _ ctx st0) as [st|] eqn:Hloop; [|discriminate].
          inversion H; subst tb e'. right.
          rewrite finish_layout_spans, (layout_loop_spans _ _ _ _ Hloop).
          destruct (layout_start_StartLoop _ _ _ _ _ _ _ Hstart)
            as (_ & _ & _ & _ & _ & _ & _ & _ & _ & _ & _ & H12).
          cbv zeta in H12. subst st0. reflexivity. }
      destruct Hsp as [-> | ->]; [constructor|].
      eapply Forall_impl; [exact Hel|]. unfold el_span_index_ok. intros el Hx. lia.
Qed.

(** X28.  The selection can be asked of every block a layout returns:
    whatever the spans, the answers of ICU and HarfBuzz, the engine used
    and the range, [GetTextRangeBounds] reads neither the elements nor the
    spans of the block out of bounds and returns a list. *)
Theorem LayoutStyledText_then_GetTextRangeBounds (icu : ICU) (hb : HarfBuzz) (e : Engine)
    (spans : list TextSpan) (ps : ParagraphStyle) (tb : TextBlock) (e' e2 : Engine)
    (s t : Z) :
  LayoutStyledText icu hb e spans ps = Some (tb, e') ->
  exists rects, GetTextRangeBounds e2 tb s t = Some rects.
Proof.
  intros H. apply GetTextRangeBounds_returns.
  exact (LayoutStyledText_block_indices _ _ _ _ _ _ _ H).
Qed.

Lemma LayoutStyledText_then_GetTextRangeBounds_witness :
  LayoutStyledText ex_icu_words ex_hb ex_engine_latin ex_spans_S2 ex_paragraph_S2
  = Some (ex_block_S2, ex_engine_S2) /\
  exists rects, GetTextRangeBounds ex_engine_S2 ex_block_S2 1 4 = Some rects.
Proof.
  split; [exact ex_layout_S2_eq|].
  exact (LayoutStyledText_then_GetTextRangeBounds _ _ _ _ _ _ _ ex_engine_S2 1 4
           ex_layout_S2_eq).
Defined.

(** ** The line under a position (lines 2125-2146) *)



(** ** The geometry of the cursor (lines 1988-2006 and 2024-2098) *)

Lemma cursor_height_positive (m : ScaledFontMetrics) (paraFontSize x y a d : float)
    (t : bool) :
  (0 < paraFontSize)%Q -> (0 < cursorHeight (cursor_height m paraFontSize x y a d t))%Q.
Proof.
  intros Hp. unfold cursor_height. cbv zeta.
  destruct (flt (a + d) 1) eqn:Hh.
  - assert (Hpos : (0 < (if fgt (recommendedLineHeight m) 0 then recommendedLineHeight m
                         else paraFontSize))%Q).
    { destruct (fgt (recommendedLineHeight m) 0) eqn:Hr; [apply fgt_true in Hr|]; assumption. }
    destruct (_ && _); exact Hpos.
  - apply flt_false in Hh. cbn. lra.
Qed.

(** X30.  The cursor [GetCursorInfoFromByteOffset] describes always has a
    positive height, whatever the block, the offset, the edge preferred
    and the fonts of the engine. *)
Theorem GetCursorInfoFromByteOffset_height_positive (e : Engine) (tb : TextBlock) (o : Z)
    (preferLeadingEdge : bool) (g : CursorGeometry) :
  GetCursorInfoFromByteOffset_geometry e tb o preferLeadingEdge = Some g ->
  (0 < cursorHeight g)%Q.
Proof.
  unfold GetCursorInfoFromByteOffset_geometry. cbv zeta.
  set (paraFontSize := if fle (fontSize (defaultCharacterStyle (paragraphStyleUsed tb))) 0
                       then 16%Q
                       else fontSize (defaultCharacterStyle (paragraphStyleUsed tb))).
  assert (Hp : (0 < paraFontSize)%Q).
  { unfold paraFontSize.
    destruct (fle (fontSize (defaultCharacterStyle (paragraphStyleUsed tb))) 0) eqn:Hf;
      [reflexivity|apply fle_false in Hf; exact Hf]. }
  destruct (lines tb) as [|l0 lns] eqn:Hl.
  - intros H. inversion H; subst g. cbn [cursorHeight].
    match goal with |- context [flt ?h 1] => destruct (flt h 1) eqn:Hh end;
      [exact Hp|apply flt_false in Hh; lra].
  - destruct ((l0 :: lns) !! _) as [line|]; [|discriminate].
    destruct (cursor_line_first_in_paragraph tb line) as [isFirst|]; [|discriminate].
    destruct (numElementsInLine line =? 0).
    + intros H. inversion H. apply cursor_height_positive. exact Hp.
    + destruct (cursor_runs_loop _ _ _ _ _ _ _) as [[[[[x a] d] t]|]|]; [| |discriminate];
        intros H; inversion H; apply cursor_height_positive; exact Hp.
Qed.

Lemma GetCursorInfoFromByteOffset_height_positive_witness :
  exists g,
    GetCursorInfoFromByteOffset_geometry ex_engine_S2 ex_block_S2 4 true = Some g /\
    (0 < cursorHeight g)%Q.
Proof.
  destruct (GetCursorInfoFromByteOffset_geometry ex_engine_S2 ex_block_S2 4 true)
    as [g|] eqn:E; [|vm_compute in E; discriminate E].
  exists g. split; [reflexivity|].
  exact (GetCursorInfoFromByteOffset_height_positive ex_engine_S2 ex_block_S2 4 true g E).
Defined.
